(** * hera_cal absolute calibration: a shallow embedding of
      [hera_cal/abscal.py] and [hera_cal/utils.py]

    Python exceptions are modelled by the [result] type, dictionaries that
    keep insertion order ([odict], [DataContainer]) by association lists,
    numpy [float64] samples by Rocq's primitive binary64 floats. *)

From Stdlib Require Import ZArith List String Ascii Bool Lia PrimFloat.
From Stdlib Require Import Uint63 FloatOps FloatAxioms.
From Stdlib Require Reals ClassicalEpsilon.
From Stdlib Require Import Lra Psatz.
From Stdlib Require Import DecimalString.
Import ListNotations.

Local Open Scope Z_scope.

(** ** Python exceptions *)

Inductive exn : Set :=
| KeyError | IndexError | ValueError | TypeError
| AssertionError | NotImplementedError | ZeroDivisionError.

Inductive result (A : Type) : Type :=
| Ok (a : A)
| Raise (e : exn).

Arguments Ok {A} a.
Arguments Raise {A} e.

Definition bind {A B : Type} (r : result A) (k : A -> result B) : result B :=
  match r with
  | Ok a => k a
  | Raise e => Raise e
  end.

Notation "x <- e ;; k" := (bind e (fun x => k))
  (at level 61, e at next level, right associativity).

(** [d[k]] on a dictionary: a missing key raises [KeyError]. *)
Definition getitem {A : Type} (o : option A) : result A :=
  match o with
  | Some a => Ok a
  | None => Raise KeyError
  end.

(** ** Ordered dictionaries *)

Section Odict.
Context {K V : Type} (eqb : K -> K -> bool).

Definition odict : Type := list (K * V).

Fixpoint lookup (k : K) (d : odict) : option V :=
    match d with
    | [] => None
    | (k', v) :: d' => if eqb k k' then Some v else lookup k d'
    end.

Definition keys (d : odict) : list K := map fst d.

Definition contains (k : K) (d : odict) : bool :=
    match lookup k d with Some _ => true | None => false end.

  (** [del d[k]] *)
Fixpoint delete (k : K) (d : odict) : odict :=
    match d with
    | [] => []
    | (k', v) :: d' => if eqb k k' then delete k d' else (k', v) :: delete k d'
    end.

  (** [d[k] = v]: an existing key keeps its position. *)
Fixpoint setitem (k : K) (v : V) (d : odict) : odict :=
    match d with
    | [] => [(k, v)]
    | (k', v') :: d' =>
        if eqb k k' then (k', v) :: d' else (k', v') :: setitem k v d'
    end.
End Odict.

Arguments odict K V : clear implicits.

(** ** Baseline keys ([utils.py]) *)

(** An [(i, j)] or [(i, j, pol)] tuple. *)
Inductive bl : Set :=
| Bl2 (i j : Z)
| Bl3 (i j : Z) (pol : string).

Definition bl_eqb (a b : bl) : bool :=
  match a, b with
  | Bl2 i j, Bl2 i' j' => (i =? i') && (j =? j')
  | Bl3 i j p, Bl3 i' j' p' => (i =? i') && (j =? j') && String.eqb p p'
  | _, _ => false
  end.

(** The polarization helpers come from [pyuvdata.utils]; [reverse_bl] is
    stated over any implementation of them. *)
Section ReverseBl.
Variable polstr2num : string -> result Z.
Variable polnum2str : Z -> result string.
Variable conj_pol : string -> result string.

Definition _comply_vispol (pol : string) : result string :=
    n <- polstr2num pol ;; polnum2str n.

Definition reverse_bl (b : bl) : result bl :=
    match b with
    | Bl2 i j => Ok (Bl2 j i)
    | Bl3 i j pol =>
        p <- _comply_vispol pol ;;
        c <- conj_pol p ;;
        Ok (Bl3 j i c)
    end.

  (** [reverse_bl(reverse_bl(b))] *)
Definition reverse_bl_twice (b : bl) : result bl :=
    r <- reverse_bl b ;; reverse_bl r.
End ReverseBl.

(** [pyuvdata.utils]: the polarization tables and their case-insensitive
    lookups. *)
Module Pyuvdata.
Definition lower_ascii (c : ascii) : ascii :=
    let n := nat_of_ascii c in
    if ((65 <=? n) && (n <=? 90))%nat then ascii_of_nat (n + 32) else c.

Fixpoint lower (s : string) : string :=
    match s with
    | EmptyString => EmptyString
    | String c s' => String (lower_ascii c) (lower s')
    end.

Definition POL_STR2NUM_DICT : odict string Z :=
    [("pI", 1); ("pQ", 2); ("pU", 3); ("pV", 4);
     ("I", 1); ("Q", 2); ("U", 3); ("V", 4);
     ("rr", -1); ("ll", -2); ("rl", -3); ("lr", -4);
     ("xx", -5); ("yy", -6); ("xy", -7); ("yx", -8)]%string.

Definition POL_NUM2STR_DICT : odict Z string :=
    [(1, "pI"); (2, "pQ"); (3, "pU"); (4, "pV");
     (-1, "rr"); (-2, "ll"); (-3, "rl"); (-4, "lr");
     (-5, "xx"); (-6, "yy"); (-7, "xy"); (-8, "yx")]%string.

Definition CONJ_POL_DICT : odict string string :=
    [("xx", "xx"); ("yy", "yy"); ("xy", "yx"); ("yx", "xy");
     ("ee", "ee"); ("nn", "nn"); ("en", "ne"); ("ne", "en");
     ("rr", "rr"); ("ll", "ll"); ("rl", "lr"); ("lr", "rl");
     ("I", "I"); ("Q", "Q"); ("U", "U"); ("V", "V");
     ("pI", "pI"); ("pQ", "pQ"); ("pU", "pU"); ("pV", "pV")]%string.

Definition lower_keys {V : Type} (d : odict string V) : odict string V :=
    map (fun kv => (lower (fst kv), snd kv)) d.

Definition polstr2num (pol : string) : result Z :=
    getitem (lookup String.eqb (lower pol) (lower_keys POL_STR2NUM_DICT)).

Definition polnum2str (n : Z) : result string :=
    getitem (lookup Z.eqb n POL_NUM2STR_DICT).

Definition conj_pol (pol : string) : result string :=
    getitem (lookup String.eqb (lower pol) (lower_keys CONJ_POL_DICT)).

Definition reverse_bl : bl -> result bl :=
    reverse_bl polstr2num polnum2str conj_pol.

Definition reverse_bl_twice : bl -> result bl :=
    reverse_bl_twice polstr2num polnum2str conj_pol.
End Pyuvdata.

(** ** Baseline cuts ([abscal.cut_bls]) *)

Definition vec : Set := list float.

(** [np.linalg.norm] of a position vector. *)
Definition norm (v : vec) : float :=
  PrimFloat.sqrt (fold_left (fun acc x => acc + x * x)%float v 0%float).

(** [a - b] on two position vectors; numpy refuses shapes it cannot
    broadcast. *)
Fixpoint vsub (a b : vec) : result vec :=
  match a, b with
  | [], [] => Ok []
  | x :: a', y :: b' => r <- vsub a' b' ;; Ok ((x - y)%float :: r)
  | _, _ => Raise ValueError
  end.

Definition bl_ants (b : bl) : Z * Z :=
  match b with
  | Bl2 i j => (i, j)
  | Bl3 i j _ => (i, j)
  end.

Section CutBls.
Context {V : Type}.

(** A [DataContainer]: the keyed arrays and the optional [antpos]
    attribute. *)
Record DataContainer : Type := mkDC {
  dc_data : odict bl V;
  dc_antpos : option (odict Z vec)
}.

(** The loop that fills [bls] from [datacontainer.antpos]. *)
Fixpoint bls_from_antpos (ap : odict Z vec) (ks : list bl)
         (bls : odict bl vec) : result (odict bl vec) :=
  match ks with
  | [] => Ok bls
  | b :: ks' =>
      match lookup Z.eqb (fst (bl_ants b)) ap,
            lookup Z.eqb (snd (bl_ants b)) ap with
      | Some p0, Some p1 =>
          d <- vsub p1 p0 ;;
          bls_from_antpos ap ks' (setitem bl_eqb b d bls)
      | _, _ => bls_from_antpos ap ks' bls
      end
  end.

(** The [bls] dictionary the main loop reads: the one passed in, or the one
    built from [antpos]. *)
Definition effective_bls (dc : DataContainer)
           (bls : option (odict bl vec)) : result (odict bl vec) :=
  match bls with
  | Some b => Ok b
  | None =>
      match dc_antpos dc with
      | None => Raise ValueError
      | Some ap => bls_from_antpos ap (keys (dc_data dc)) []
      end
  end.

(** The main loop over [list(datacontainer.keys())].  The container is
    edited as the loop goes, so it is returned next to the outcome; the
    outcome lists the keys for which the [continue] of the membership guard
    was executed. *)
Fixpoint cut_loop (bls : odict bl vec) (min_bl_cut max_bl_cut : float)
         (ks : list bl) (d : odict bl V) (skipped : list bl)
  : odict bl V * result (list bl) :=
  match ks with
  | [] => (d, Ok skipped)
  | k :: ks' =>
      match getitem (lookup bl_eqb k bls) with
      | Raise e => (d, Raise e)
      | Ok v =>
          let bl_len := norm v in
          if negb (contains bl_eqb k bls) then
            cut_loop bls min_bl_cut max_bl_cut ks' d (skipped ++ [k])
          else if (max_bl_cut <? bl_len)%float || (bl_len <? min_bl_cut)%float
          then cut_loop bls min_bl_cut max_bl_cut ks' (delete bl_eqb k d) skipped
          else cut_loop bls min_bl_cut max_bl_cut ks' d skipped
      end
  end.

Definition default_cut (o : option float) (dflt : float) : float :=
  match o with
  | Some x => x
  | None => dflt
  end.

(** [cut_bls]: the first component is the caller's container after the
    call (untouched unless [inplace]), the second what the call returns or
    raises. *)
Definition cut_bls (dc : DataContainer) (bls : option (odict bl vec))
           (min_bl_cut max_bl_cut : option float) (inplace : bool)
  : DataContainer * result DataContainer :=
  let lo := default_cut min_bl_cut 0%float in
  let hi := default_cut max_bl_cut 1e10%float in
  match effective_bls dc bls with
  | Raise e => (dc, Raise e)
  | Ok b =>
      let (d, r) := cut_loop b lo hi (keys (dc_data dc)) (dc_data dc) [] in
      let work := mkDC d (dc_antpos dc) in
      let caller := if inplace then work else dc in
      match r with
      | Raise e => (caller, Raise e)
      | Ok _ =>
          if (0 <? Z.of_nat (List.length d)) then (caller, Ok work)
          else (caller, Raise AssertionError)
      end
  end.
End CutBls.

Arguments DataContainer V : clear implicits.

(** ** Merging gain dictionaries ([abscal.merge_gains]) *)

(** Gain keys are [(ant, pol)] tuples; [sorted] orders them as Python
    orders tuples. *)
Definition gkey : Set := (Z * string)%type.

Definition gkey_eqb (a b : gkey) : bool :=
  (fst a =? fst b) && String.eqb (snd a) (snd b).

Definition gkey_leb (a b : gkey) : bool :=
  (fst a <? fst b) || ((fst a =? fst b) && String.leb (snd a) (snd b)).

Section PySets.
Context {K : Type} (eqb leb : K -> K -> bool).

Definition mem (k : K) (l : list K) : bool := existsb (eqb k) l.

(** [set(l)] as a duplicate-free list. *)
Fixpoint py_set (l : list K) : list K :=
  match l with
  | [] => []
  | x :: l' => if mem x l' then py_set l' else x :: py_set l'
  end.

Fixpoint insert_sorted (k : K) (l : list K) : list K :=
  match l with
  | [] => [k]
  | x :: l' => if leb k x then k :: l else x :: insert_sorted k l'
  end.

Definition sorted (l : list K) : list K := fold_right insert_sorted [] l.

(** [functools.reduce(f, l)] without initial value. *)
Definition reduce {A : Type} (f : A -> A -> result A) (l : list A)
  : result A :=
  match l with
  | [] => Raise TypeError
  | x :: l' => fold_left (fun acc y => a <- acc ;; f a y) l' (Ok x)
  end.
End PySets.

Section MergeGains.
(** The scalar type of numeric arrays with numpy's [*] and [+] on it, and
    the value a boolean takes when numpy promotes it. *)
Variable C : Type.
Variable Cmul Cadd : C -> C -> C.
Variable C_of_bool : bool -> C.
Variable C_one : C.

(** Arrays are kept flat; the length stands for the shape. *)
Inductive ndarray : Type :=
| BoolArr (a : list bool)
| NumArr (a : list C).

(** What [g.get(k, default)] can give: an array, or the Python scalar
    [True] or [1.0]. *)
Inductive operand : Type :=
| Arr (a : ndarray)
| PyBool (b : bool)
| PyNum (c : C).

(** Elementwise combination of two arrays of one shape. *)
Fixpoint zipw {X Y Z : Type} (f : X -> Y -> Z) (a : list X) (b : list Y)
  : result (list Z) :=
  match a, b with
  | [], [] => Ok []
  | x :: a', y :: b' => r <- zipw f a' b' ;; Ok (f x y :: r)
  | _, _ => Raise ValueError
  end.

Definition arr_op (fb : bool -> bool -> bool) (fc : C -> C -> C)
           (x y : ndarray) : result ndarray :=
  match x, y with
  | BoolArr a, BoolArr b => r <- zipw fb a b ;; Ok (BoolArr r)
  | BoolArr a, NumArr b =>
      r <- zipw (fun u v => fc (C_of_bool u) v) a b ;; Ok (NumArr r)
  | NumArr a, BoolArr b =>
      r <- zipw (fun u v => fc u (C_of_bool v)) a b ;; Ok (NumArr r)
  | NumArr a, NumArr b => r <- zipw fc a b ;; Ok (NumArr r)
  end.

Definition arr_scalar_op (fb : bool -> bool -> bool) (fc : C -> C -> C)
           (swap : bool) (x : ndarray) (s : bool + C) : ndarray :=
  let app2 {T} (f : T -> T -> T) (u v : T) := if swap then f v u else f u v in
  match x, s with
  | BoolArr a, inl b => BoolArr (map (fun u => app2 fb u b) a)
  | BoolArr a, inr c => NumArr (map (fun u => app2 fc (C_of_bool u) c) a)
  | NumArr a, inl b => NumArr (map (fun u => app2 fc u (C_of_bool b)) a)
  | NumArr a, inr c => NumArr (map (fun u => app2 fc u c) a)
  end.

Definition scalar_num (s : bool + C) : C :=
  match s with
  | inl b => C_of_bool b
  | inr c => c
  end.

Definition scalar_of (o : operand) : option (bool + C) :=
  match o with
  | Arr _ => None
  | PyBool b => Some (inl b)
  | PyNum c => Some (inr c)
  end.

(** A binary operator on operands: arrays combine elementwise, a scalar is
    broadcast, two Python scalars give a Python number. *)
Definition operand_op (fb : bool -> bool -> bool) (fc : C -> C -> C)
           (x y : operand) : result operand :=
  match x, y with
  | Arr a, Arr b => r <- arr_op fb fc a b ;; Ok (Arr r)
  | Arr a, _ =>
      match scalar_of y with
      | Some s => Ok (Arr (arr_scalar_op fb fc false a s))
      | None => Raise TypeError
      end
  | _, Arr b =>
      match scalar_of x with
      | Some s => Ok (Arr (arr_scalar_op fb fc true b s))
      | None => Raise TypeError
      end
  | _, _ =>
      match scalar_of x, scalar_of y with
      | Some s, Some t => Ok (PyNum (fc (scalar_num s) (scalar_num t)))
      | _, _ => Raise TypeError
      end
  end.

(** [operator.mul] and [operator.add]; on boolean arrays numpy's [*] is
    the logical AND and its [+] the logical OR. *)
Definition operator_mul : operand -> operand -> result operand :=
  operand_op andb Cmul.

Definition operator_add : operand -> operand -> result operand :=
  operand_op orb Cadd.

Definition gdict : Type := odict gkey ndarray.

(** [g.get(k, default)] *)
Definition dict_get (g : gdict) (k : gkey) (default : operand) : operand :=
  match lookup gkey_eqb k g with
  | Some a => Arr a
  | None => default
  end.

(** [reduce(operator.and_, [set(g.keys()) for g in gains])] *)
Definition shared_keys (gains : list gdict) : result (list gkey) :=
  reduce (fun acc s => Ok (filter (fun k => mem gkey_eqb k s) acc))
         (map (fun g => py_set gkey_eqb (keys g)) gains).

(** [reduce(operator.add, [list(g.keys()) for g in gains])] *)
Definition all_keys (gains : list gdict) : result (list gkey) :=
  reduce (fun acc l => Ok (acc ++ l)) (map (fun g : gdict => keys g) gains).

Definition is_bool_dtype (a : ndarray) : bool :=
  match a with
  | BoolArr _ => true
  | NumArr _ => false
  end.

(** [gains[0][list(gains[0].keys())[0]].dtype == np.bool_] *)
Definition first_is_flags (gains : list gdict) : result bool :=
  match gains with
  | [] => Raise IndexError
  | g0 :: _ =>
      match keys g0 with
      | [] => Raise IndexError
      | k0 :: _ => a <- getitem (lookup gkey_eqb k0 g0) ;; Ok (is_bool_dtype a)
      end
  end.

Fixpoint merge_loop (gains : list gdict) (fedflags : bool) (ks : list gkey)
         (merged : odict gkey operand) : result (odict gkey operand) :=
  match ks with
  | [] => Ok merged
  | k :: ks' =>
      v <- (if fedflags
            then reduce operator_add (map (fun g => dict_get g k (PyBool true)) gains)
            else reduce operator_mul (map (fun g => dict_get g k (PyNum C_one)) gains)) ;;
      merge_loop gains fedflags ks' (setitem gkey_eqb k v merged)
  end.

Definition merge_gains (gains : list gdict) (merge_shared : bool)
  : result (odict gkey operand) :=
  ks <- (if merge_shared then shared_keys gains else all_keys gains) ;;
  let ks := sorted gkey_leb (py_set gkey_eqb ks) in
  fedflags <- first_is_flags gains ;;
  merge_loop gains fedflags ks [].
End MergeGains.

Arguments BoolArr {C} a.
Arguments NumArr {C} a.
Arguments Arr {C} a.
Arguments PyBool {C} b.
Arguments PyNum {C} c.

(** ** Arrays on a heap

    The solvers write into arrays that the caller still holds, so arrays
    live in a store and containers map keys to locations.  The sample type
    [F] stands for [float64]; the solvers are written once over it. *)

(** ["{}".format(n)] for an integer. *)
Definition str_of_Z (z : Z) : string := NilZero.string_of_int (Z.to_int z).

(** Python's order on baseline tuples. *)
Definition bl_leb (a b : bl) : bool :=
  match a, b with
  | Bl2 i j, Bl2 i' j' => (i <? i') || ((i =? i') && (j <=? j'))
  | Bl2 i j, Bl3 i' j' _ => (i <? i') || ((i =? i') && (j <=? j'))
  | Bl3 i j _, Bl2 i' j' => (i <? i') || ((i =? i') && (j <? j'))
  | Bl3 i j p, Bl3 i' j' p' =>
      (i <? i') || ((i =? i') &&
        ((j <? j') || ((j =? j') && String.leb p p')))
  end.

Definition bl_pol (b : bl) : result string :=
  match b with
  | Bl2 _ _ => Raise IndexError
  | Bl3 _ _ p => Ok p
  end.

Definition loc : Set := nat.

Section Heap.
Variable F : Type.
Variable Fzero Fone : F.
Variable isnan isinf : F -> bool.

(** [complex128] as a pair of samples; [np.isnan] and [np.isinf] look at
    both parts. *)
Definition cplx : Type := (F * F)%type.

Definition c_isnan (z : cplx) : bool := isnan (fst z) || isnan (snd z).
Definition c_isinf (z : cplx) : bool := isinf (fst z) || isinf (snd z).

(** A 2D array, [time] by [frequency], of real or complex samples. *)
Inductive harr : Type :=
| FArr (a : list (list F))
| CArr (a : list (list cplx)).

Definition heap : Type := list harr.

(** Computations that read and write the heap and may raise; what was
    written before an exception stays written. *)
Definition M (A : Type) : Type := heap -> heap * result A.

Definition ret {A : Type} (a : A) : M A := fun h => (h, Ok a).

Definition lift {A : Type} (r : result A) : M A := fun h => (h, r).

Definition mbind {A B : Type} (m : M A) (k : A -> M B) : M B :=
  fun h =>
    match m h with
    | (h', Ok a) => k a h'
    | (h', Raise e) => (h', Raise e)
    end.

Definition alloc (v : harr) : M loc :=
  fun h => (h ++ [v], Ok (List.length h)).

Definition read (l : loc) : M harr :=
  fun h => (h, match nth_error h l with
               | Some v => Ok v
               | None => Raise ValueError
               end).

Fixpoint upd (h : heap) (l : loc) (v : harr) : heap :=
  match h, l with
  | [], _ => []
  | _ :: h', O => v :: h'
  | x :: h', S l' => x :: upd h' l' v
  end.

Definition write (l : loc) (v : harr) : M unit :=
  fun h => (upd h l v, Ok tt).

(** [for k in ks: body(k)] *)
Fixpoint mfor {K : Type} (ks : list K) (body : K -> M unit) : M unit :=
  match ks with
  | [] => ret tt
  | k :: ks' => mbind (body k) (fun _ => mfor ks' body)
  end.

(** [[f(k) for k in ks]] *)
Fixpoint mmap {K A : Type} (f : K -> M A) (ks : list K) : M (list A) :=
  match ks with
  | [] => ret []
  | k :: ks' =>
      mbind (f k) (fun a => mbind (mmap f ks') (fun r => ret (a :: r)))
  end.

(** Elementwise operations on 2D arrays; numpy refuses shapes that do not
    match. *)
Definition zip2d {X Y Z : Type} (f : X -> Y -> Z)
           (a : list (list X)) (b : list (list Y)) : result (list (list Z)) :=
  rows <- zipw (fun r s => zipw f r s) a b ;;
  fold_right (fun r acc => x <- r ;; l <- acc ;; Ok (x :: l)) (Ok []) rows.

Definition as_complex (a : harr) : list (list cplx) :=
  match a with
  | FArr x => map (map (fun v => (v, Fzero))) x
  | CArr x => x
  end.

Definition mask : Set := list (list bool).

(** [np.isnan(a)] and [np.isinf(a)] *)
Definition mask_nan (a : harr) : mask :=
  match a with
  | FArr x => map (map isnan) x
  | CArr x => map (map c_isnan) x
  end.

Definition mask_inf (a : harr) : mask :=
  match a with
  | FArr x => map (map isinf) x
  | CArr x => map (map c_isinf) x
  end.

(** [a[m] = v] for a boolean mask [m]; a mask of another shape is an
    [IndexError]. *)
Definition assign_masked (a : harr) (m : mask) (v : F) : result harr :=
  match a with
  | FArr x =>
      match zip2d (fun s b => if b : bool then v else s) x m with
      | Ok r => Ok (FArr r)
      | Raise _ => Raise IndexError
      end
  | CArr x =>
      match zip2d (fun s b => if b : bool then (v, Fzero) else s) x m with
      | Ok r => Ok (CArr r)
      | Raise _ => Raise IndexError
      end
  end.

(** [np.ones_like(a, dtype=float)] and [np.zeros_like(a)] *)
Definition ones_like (a : harr) : harr :=
  FArr (map (map (fun _ => Fone)) (as_complex a)).

Definition zeros_like (a : harr) : harr :=
  match a with
  | FArr x => FArr (map (map (fun _ => Fzero)) x)
  | CArr x => CArr (map (map (fun _ => (Fzero, Fzero))) x)
  end.

(** A container maps baseline keys to arrays on the heap. *)
Definition container : Type := odict bl loc.

(** *** [fill_dict_nans] *)

(** One of the two blocks of the loop body: select, fill the data, zero the
    weights under the same selection. *)
Definition fill_selected (select : harr -> mask) (k : bl) (ld : loc)
           (wgts : option container) (fill : option F) : M unit :=
  match fill with
  | None => ret tt
  | Some v =>
      mbind (read ld) (fun a =>
      let sel := select a in
      mbind (lift (assign_masked a sel v)) (fun a' =>
      mbind (write ld a') (fun _ =>
      match wgts with
      | None => ret tt
      | Some w =>
          mbind (lift (getitem (lookup bl_eqb k w))) (fun lw =>
          mbind (read lw) (fun aw =>
          mbind (lift (assign_masked aw sel Fzero)) (fun aw' =>
          write lw aw')))
      end)))
  end.

(** The body of the loop of [fill_dict_nans] for the key [k]. *)
Definition fill_key (data : container) (wgts : option container)
           (nan_fill inf_fill : option F) (k : bl) : M unit :=
  mbind (lift (getitem (lookup bl_eqb k data))) (fun ld =>
  mbind (fill_selected mask_nan k ld wgts nan_fill) (fun _ =>
  fill_selected mask_inf k ld wgts inf_fill)).

(** [fill_dict_nans(data, wgts, nan_fill, inf_fill)] with [array=False] *)
Definition fill_dict_nans (data : container) (wgts : option container)
           (nan_fill inf_fill : option F) : M unit :=
  mfor (keys data) (fill_key data wgts nan_fill inf_fill).

(** [fill_dict_nans(data, wgts, nan_fill, inf_fill, array=True)]: [data]
    and [wgts] are single arrays. *)
Definition fill_dict_nans_array (data : loc) (wgts : option loc)
           (nan_fill inf_fill : option F) : M unit :=
  let block (select : harr -> mask) (fill : option F) : M unit :=
    match fill with
    | None => ret tt
    | Some v =>
        mbind (read data) (fun a =>
        let sel := select a in
        mbind (lift (assign_masked a sel v)) (fun a' =>
        mbind (write data a') (fun _ =>
        match wgts with
        | None => ret tt
        | Some lw =>
            mbind (read lw) (fun aw =>
            mbind (lift (assign_masked aw sel Fzero)) (fun aw' =>
            write lw aw'))
        end)))
    end in
  mbind (block mask_nan nan_fill) (fun _ => block mask_inf inf_fill).
End Heap.

Arguments FArr {F} a.
Arguments CArr {F} a.
Arguments ret {F A} a.
Arguments lift {F A} r.
Arguments mbind {F A B} m k.
Arguments alloc {F} v.
Arguments read {F} l.
Arguments write {F} l v.
Arguments upd {F} h l v.
Arguments mfor {F K} ks body.
Arguments mmap {F K A} f ks.

Notation "x <~ m ;; k" := (mbind m (fun x => k))
  (at level 61, m at next level, right associativity).

(** ** The linearised solvers ([abscal.py]) *)

(** [odict(pairs)]: later pairs overwrite earlier ones with the same key. *)
Definition odict_of_list {K V : Type} (eqb : K -> K -> bool)
           (l : list (K * V)) : odict K V :=
  fold_left (fun d kv => setitem eqb (fst kv) (snd kv) d) l [].

(** [list(d.values())[0]] *)
Definition first_value {K V : Type} (d : odict K V) : result V :=
  match d with
  | [] => Raise IndexError
  | (_, v) :: _ => Ok v
  end.

(** [enumerate(l)] *)
Definition enumerate {A : Type} (l : list A) : list (Z * A) :=
  combine (map Z.of_nat (seq 0 (List.length l))) l.

(** A fit maps the names of the unknowns to their solved waterfalls. *)
Definition fit_t (F : Type) : Type := odict string (list (list F)).

(** What a solver returns: the fit, or with [return_gains] the gains. *)
Inductive solution (F : Type) : Type :=
| Fit (f : fit_t F)
| Gains (g : odict gkey (list (list (cplx F)))).

Arguments Fit {F} f.
Arguments Gains {F} g.

(** [sorted(set(model.keys()) & set(data.keys()))] *)
Definition common_keys {V W : Type} (model : odict bl V) (data : odict bl W)
  : list bl :=
  sorted bl_leb
    (py_set bl_eqb
       (filter (fun k => mem bl_eqb k (py_set bl_eqb (keys data)))
               (py_set bl_eqb (keys model)))).

Section Solvers.
Variable F : Type.
Variable Fzero Fone : F.
Variable isnan isinf : F -> bool.

(** numpy's arithmetic on samples: complex division, [np.log(np.abs(z))],
    [np.angle(z)], [np.exp(x)] and [np.exp(1j * x)]. *)
Variable cdiv : cplx F -> cplx F -> cplx F.
Variable log_abs : cplx F -> F.
Variable angle : cplx F -> F.
Variable fexp : F -> F.

(** [utils.split_pol], a table built from pyuvdata's. *)
Variable split_pol : string -> result (string * string).

(** [linsolve.LinearSolver(ls_data, wgts=ls_wgts, **consts).solve()]: the
    equations are the keys of [ls_data]. *)
Variable LinearSolver :
  odict string (harr F) -> odict string (harr F) -> odict string F ->
  result (fit_t F).

Local Abbreviation M := (M F).
Local Abbreviation harr := (harr F).

(** [obs(data[k] / model[k])], a new array. *)
Definition observe_key (obs : cplx F -> F) (model data : container) (k : bl)
  : M (bl * loc) :=
  ld <~ lift (getitem (lookup bl_eqb k data)) ;;
  lm <~ lift (getitem (lookup bl_eqb k model)) ;;
  d <~ read ld ;;
  m <~ read lm ;;
  y <~ lift (zip2d (fun x y => obs (cdiv x y))
                   (as_complex F Fzero d) (as_complex F Fzero m)) ;;
  l <~ alloc (FArr y) ;;
  ret (k, l).

(** [odict([(k, obs(data[k] / model[k])) for k in keys])] *)
Definition observed (obs : cplx F -> F) (model data : container)
           (ks : list bl) : M container :=
  vals <~ mmap (observe_key obs model data) ks ;;
  ret (odict_of_list bl_eqb vals).

(** The [if wgts is None] block: all-ones weights shaped like [like[k]]. *)
Definition default_wgts (wgts : option container) (ks : list bl)
           (like : container) : M container :=
  match wgts with
  | Some w => ret w
  | None =>
      vals <~ mmap (fun k =>
                l <~ lift (getitem (lookup bl_eqb k like)) ;;
                a <~ read l ;;
                lw <~ alloc (ones_like F Fzero Fone a) ;;
                ret (k, lw)) ks ;;
      ret (odict_of_list bl_eqb vals)
  end.

(** The block shared by [abs_amp_logcal], [amp_logcal], [phs_logcal] and
    [TT_phs_logcal]: keys, [ydata], weights, [fill_dict_nans]. *)
Definition logcal_setup (obs : cplx F -> F) (model data : container)
           (wgts : option container)
  : M (list bl * container * container) :=
  let ks := common_keys model data in
  ydata <~ observed obs model data ks ;;
  w <~ default_wgts wgts ks ydata ;;
  _ <~ fill_dict_nans F Fzero isnan isinf ydata (Some w)
         (Some Fzero) (Some Fzero) ;;
  ret (ks, ydata, w).

(** [odict([(eqns[k], arrays[k]) for k in keys])] *)
Definition by_equation (eqns : odict bl string) (arrays : container)
           (ks : list bl) : result (odict string loc) :=
  pairs <- fold_right (fun k acc =>
                         e <- getitem (lookup bl_eqb k eqns) ;;
                         l <- getitem (lookup bl_eqb k arrays) ;;
                         r <- acc ;;
                         Ok ((e, l) :: r)) (Ok []) ks ;;
  Ok (odict_of_list String.eqb pairs).

(** The arrays a dictionary of locations points to, as the solver reads
    them. *)
Definition snapshot (d : odict string loc) : M (odict string harr) :=
  mmap (fun kv => a <~ read (snd kv) ;; ret (fst kv, a)) d.

Definition run_linsolve (ls_data ls_wgts : odict string loc)
           (consts : odict string F) : M (fit_t F) :=
  d <~ snapshot ls_data ;;
  w <~ snapshot ls_wgts ;;
  lift (LinearSolver d w consts).

(** The equation strings of a solver, one per key. *)
Definition equations (eqn : Z -> bl -> result string) (ks : list bl)
  : result (odict bl string) :=
  pairs <- fold_right (fun ik acc =>
                         e <- eqn (fst ik) (snd ik) ;;
                         r <- acc ;;
                         Ok ((snd ik, e) :: r)) (Ok []) (enumerate ks) ;;
  Ok (odict_of_list bl_eqb pairs).

(** *** [abs_amp_logcal] *)

Definition abs_amp_eqn (i : Z) (k : bl) : result string :=
  pol <- bl_pol k ;;
  pp <- split_pol pol ;;
  Ok ("a" ++ str_of_Z i ++ "*eta_" ++ fst pp
        ++ "+a" ++ str_of_Z i ++ "*eta_" ++ snd pp)%string.

Definition abs_amp_logcal (model data : container) (wgts : option container)
           (return_gains : bool) (gain_ants : list gkey) : M (solution F) :=
  s <~ logcal_setup log_abs model data wgts ;;
  let '(ks, ydata, w) := s in
  eqns <~ lift (equations abs_amp_eqn ks) ;;
  let ls_design_matrix :=
    odict_of_list String.eqb
      (map (fun ik => ("a" ++ str_of_Z (fst ik), Fone)%string) (enumerate ks)) in
  ls_data <~ lift (by_equation eqns ydata ks) ;;
  ls_wgts <~ lift (by_equation eqns w ks) ;;
  fit <~ run_linsolve ls_data ls_wgts ls_design_matrix ;;
  if negb return_gains then ret (Fit fit)
  else
    g <~ lift (fold_right (fun ant acc =>
                 eta <- getitem (lookup String.eqb ("eta_" ++ snd ant)%string fit) ;;
                 r <- acc ;;
                 Ok ((ant, map (map (fun x => (fexp x, Fzero))) eta) :: r))
               (Ok []) gain_ants) ;;
    ret (Gains (odict_of_list gkey_eqb g)).

(** *** [amp_logcal] *)

Definition ant_pol_name (prefix : string) (ant : Z) (p : string) : string :=
  (prefix ++ "_" ++ str_of_Z ant ++ "_" ++ p)%string.

Definition amp_eqn (i : Z) (k : bl) : result string :=
  pol <- bl_pol k ;;
  pp <- split_pol pol ;;
  Ok (ant_pol_name "eta" (fst (bl_ants k)) (fst pp) ++ " + "
        ++ ant_pol_name "eta" (snd (bl_ants k)) (snd pp))%string.

Definition amp_logcal (model data : container) (wgts : option container)
  : M (fit_t F) :=
  s <~ logcal_setup log_abs model data wgts ;;
  let '(ks, ydata, w) := s in
  eqns <~ lift (equations amp_eqn ks) ;;
  ls_data <~ lift (by_equation eqns ydata ks) ;;
  ls_wgts <~ lift (by_equation eqns w ks) ;;
  run_linsolve ls_data ls_wgts [].

(** *** [phs_logcal] *)

Definition diff_eqn (prefix : string) (i : Z) (k : bl) : result string :=
  pol <- bl_pol k ;;
  pp <- split_pol pol ;;
  Ok (ant_pol_name prefix (fst (bl_ants k)) (fst pp) ++ " - "
        ++ ant_pol_name prefix (snd (bl_ants k)) (snd pp))%string.

(** [np.unique] of the antenna polarizations of all keys. *)
Definition gain_pols_of (ks : list bl) : result (list string) :=
  ps <- fold_right (fun k acc =>
                      pol <- bl_pol k ;;
                      pp <- split_pol pol ;;
                      r <- acc ;;
                      Ok (fst pp :: snd pp :: r)) (Ok []) ks ;;
  Ok (sorted String.leb (py_set String.eqb ps)).

(** [if refant is None: refant = keys[0][0]] *)
Definition default_refant (refant : option Z) (ks : list bl) : result Z :=
  match refant with
  | Some r => Ok r
  | None =>
      match ks with
      | [] => Raise IndexError
      | k :: _ => Ok (fst (bl_ants k))
      end
  end.

(** [assert np.array([refant in k for k in keys]).any()] *)
Definition refant_in_keys (refant : Z) (ks : list bl) : result unit :=
  if existsb (fun k => (refant =? fst (bl_ants k))
                       || (refant =? snd (bl_ants k))) ks
  then Ok tt else Raise AssertionError.

(** [np.ones_like(a)], keeping the dtype of [a]. *)
Definition ones_like_same (a : harr) : harr :=
  match a with
  | FArr x => FArr (map (map (fun _ => Fone)) x)
  | CArr x => CArr (map (map (fun _ => (Fone, Fzero))) x)
  end.

(** The loop [for p in gain_pols] that pins the reference antenna: a new
    all-zero data array and a new all-one weight array per polarization,
    under the key [prefix_refant_p]. *)
Fixpoint pin_refant (prefix : string) (refant : Z) (pols : list string)
         (ydata w : odict bl loc) (ls_data ls_wgts : odict string loc)
  : M (odict string loc * odict string loc) :=
  match pols with
  | [] => ret (ls_data, ls_wgts)
  | p :: pols' =>
      ly0 <~ lift (first_value ydata) ;;
      y0 <~ read ly0 ;;
      ld <~ alloc (zeros_like F Fzero y0) ;;
      lw0 <~ lift (first_value w) ;;
      w0 <~ read lw0 ;;
      lw <~ alloc (ones_like_same w0) ;;
      pin_refant prefix refant pols' ydata w
        (setitem String.eqb (ant_pol_name prefix refant p) ld ls_data)
        (setitem String.eqb (ant_pol_name prefix refant p) lw ls_wgts)
  end.

(** [phs_logcal] up to the call of the solver: the two dictionaries handed
    to [linsolve]. *)
Definition phs_logcal_system (model data : container)
           (wgts : option container) (refant : option Z)
  : M (odict string loc * odict string loc) :=
  s <~ logcal_setup angle model data wgts ;;
  let '(ks, ydata, w) := s in
  eqns <~ lift (equations (diff_eqn "phi") ks) ;;
  ls_data <~ lift (by_equation eqns ydata ks) ;;
  ls_wgts <~ lift (by_equation eqns w ks) ;;
  gain_pols <~ lift (gain_pols_of ks) ;;
  refant <~ lift (default_refant refant ks) ;;
  _ <~ lift (refant_in_keys refant ks) ;;
  pin_refant "phi" refant gain_pols ydata w ls_data ls_wgts.

Definition phs_logcal (model data : container) (wgts : option container)
           (refant : option Z) : M (fit_t F) :=
  sys <~ phs_logcal_system model data wgts refant ;;
  run_linsolve (fst sys) (snd sys) [].

(** *** Antenna positions *)

Variable Fsub : F -> F -> F.

Definition antpos_t : Type := odict Z (list F).

(** [np.unique(list(antpos.keys()))] *)
Definition unique_ants (antpos : antpos_t) : list Z :=
  sorted Z.leb (py_set Z.eqb (keys antpos)).

Fixpoint vsubF (a b : list F) : result (list F) :=
  match a, b with
  | [], [] => Ok []
  | x :: a', y :: b' => r <- vsubF a' b' ;; Ok (Fsub x y :: r)
  | _, _ => Raise ValueError
  end.

(** [assert refant in ants] followed by the re-centring
    [antpos[k] - antpos[refant]]. *)
Definition centre_antpos (antpos : antpos_t) (refant : Z)
  : result antpos_t :=
  if negb (mem Z.eqb refant (unique_ants antpos)) then Raise AssertionError
  else
    r0 <- getitem (lookup Z.eqb refant antpos) ;;
    pairs <- fold_right (fun kv acc =>
                           pk <- getitem (lookup Z.eqb (fst kv) antpos) ;;
                           d <- vsubF pk r0 ;;
                           r <- acc ;;
                           Ok ((fst kv, d) :: r)) (Ok []) antpos ;;
    Ok (odict_of_list Z.eqb pairs).

Definition r_name (axis : string) (a : Z) : string :=
  ("r_" ++ axis ++ "_" ++ str_of_Z a)%string.

(** The design-matrix entries [r_ew_a] and [r_ns_a]. *)
Definition position_consts (antpos : antpos_t) : result (odict string F) :=
  let comp (i : nat) (axis : string) :=
    fold_right (fun a acc =>
                  pa <- getitem (lookup Z.eqb a antpos) ;;
                  x <- match nth_error pa i with
                       | Some x => Ok x
                       | None => Raise IndexError
                       end ;;
                  r <- acc ;;
                  Ok ((r_name axis a, x) :: r)) (Ok []) (unique_ants antpos) in
  ew <- comp 0%nat "ew"%string ;;
  ns <- comp 1%nat "ns"%string ;;
  Ok (fold_left (fun d kv => setitem String.eqb (fst kv) (snd kv) d) ns
        (odict_of_list String.eqb ew)).

(** [r_ew[ant]]: only antennas of [antpos] have a name. *)
Definition r_lookup (antpos : antpos_t) (axis : string) (a : Z)
  : result string :=
  if mem Z.eqb a (unique_ants antpos) then Ok (r_name axis a)
  else Raise KeyError.

(** *** [TT_phs_logcal] *)

(** The conversion of a tip-tilt fit into a gain waterfall for an antenna
    at position [pos[:2]] (an [einsum] and [np.exp(1j * ...)]). *)
Variable tt_gain :
  list F -> list (list F) -> list (list F) -> list (list F) ->
  list (list (cplx F)).

Definition TT_eqn (antpos : antpos_t) (four_pol : bool) (i : Z) (k : bl)
  : result string :=
  match k with
  | Bl2 _ _ => Raise ValueError
  | Bl3 ant1 ant2 pol =>
      pp <- split_pol pol ;;
      e1 <- r_lookup antpos "ew" ant1 ;;
      n1 <- r_lookup antpos "ns" ant1 ;;
      e2 <- r_lookup antpos "ew" ant2 ;;
      n2 <- r_lookup antpos "ns" ant2 ;;
      if four_pol then
        Ok ("psi_" ++ fst pp ++ "*a1 - psi_" ++ snd pp ++ "*a2 + Phi_ew*"
              ++ e1 ++ " + Phi_ns*" ++ n1 ++ " - Phi_ew*" ++ e2
              ++ " - Phi_ns*" ++ n2)%string
      else
        Ok ("psi_" ++ fst pp ++ "*a1 - psi_" ++ snd pp ++ "*a2 + Phi_ew_"
              ++ fst pp ++ "*" ++ e1 ++ " + Phi_ns_" ++ fst pp ++ "*" ++ n1
              ++ " - Phi_ew_" ++ snd pp ++ "*" ++ e2 ++ " - Phi_ns_"
              ++ snd pp ++ "*" ++ n2)%string
  end.

Definition TT_phs_logcal (model data : container) (antpos : antpos_t)
           (wgts : option container) (refant : option Z)
           (zero_psi four_pol return_gains : bool) (gain_ants : list gkey)
  : M (solution F) :=
  s <~ logcal_setup angle model data wgts ;;
  let '(ks, ydata, w) := s in
  refant <~ lift (default_refant refant ks) ;;
  antpos <~ lift (centre_antpos antpos refant) ;;
  eqns <~ lift (equations (TT_eqn antpos four_pol) ks) ;;
  pos <~ lift (position_consts antpos) ;;
  let a12 := if zero_psi then Fzero else Fone in
  let ls_design_matrix :=
    setitem String.eqb "a2"%string a12
      (setitem String.eqb "a1"%string a12 pos) in
  ls_data <~ lift (by_equation eqns ydata ks) ;;
  ls_wgts <~ lift (by_equation eqns w ks) ;;
  fit <~ run_linsolve ls_data ls_wgts ls_design_matrix ;;
  if negb return_gains then ret (Fit fit)
  else
    g <~ lift (fold_right (fun ant acc =>
                 pa <- getitem (lookup Z.eqb (fst ant) antpos) ;;
                 ew <- getitem (lookup String.eqb ("Phi_ew_" ++ snd ant)%string fit) ;;
                 ns <- getitem (lookup String.eqb ("Phi_ns_" ++ snd ant)%string fit) ;;
                 psi <- getitem (lookup String.eqb ("psi_" ++ snd ant)%string fit) ;;
                 r <- acc ;;
                 Ok ((ant, tt_gain (firstn 2 pa) ew ns psi) :: r))
               (Ok []) gain_ants) ;;
    ret (Gains (odict_of_list gkey_eqb g)).

(** *** [delay_lincal] and [delay_slope_lincal] *)

(** [utils.fft_dly(ratio, df, f0=f0, wgts=w, medfilt=, kernel=, edge_cut=)]:
    the median filter, FFT and peak interpolation are floating-point
    library code and stay abstract.  It copies before it filters and
    multiplies into a new array, so it writes to none of its arguments; it
    returns the delays and the phase offsets, one per integration. *)
Variable fft_dly :
  list (list (cplx F)) -> F -> F -> harr -> bool -> Z * Z -> Z ->
  result (list (list F) * list (list F)).

(** [np.nanmean(w, axis=1, keepdims=True)] *)
Variable nanmean_rows : harr -> list (list F).

(** The conversion of a delay-slope fit into gains. *)
Variable delay_slope_gain :
  list F -> list (list F) -> list (list F) -> nat -> F ->
  list (list (cplx F)).

(** The body of the loop over [keys]: the ratio, its scrubbing together
    with the caller's weights, [fft_dly], and the scrubbing of the
    delays.  Returns [dly], [offset] and [rwgts]; [delay_slope_lincal]
    drops the offsets without touching them. *)
Definition delay_of_key (model data w : container) (df f0 : F)
           (medfilt : bool) (kernel : Z * Z) (edge_cut : Z)
           (with_offset : bool) (k : bl)
  : M (list (list F) * list (list F) * list (list F)) :=
  ld <~ lift (getitem (lookup bl_eqb k data)) ;;
  lm <~ lift (getitem (lookup bl_eqb k model)) ;;
  d <~ read ld ;;
  m <~ read lm ;;
  ratio <~ lift (zip2d cdiv (as_complex F Fzero d) (as_complex F Fzero m)) ;;
  (* replace nans *)
  let nan_select := map (map (c_isnan F isnan)) ratio in
  ratio <~ lift (zip2d (fun z (b : bool) => if b then (Fzero, Fzero) else z)
                       ratio nan_select) ;;
  lw <~ lift (getitem (lookup bl_eqb k w)) ;;
  aw <~ read lw ;;
  aw' <~ lift (assign_masked F Fzero aw nan_select Fzero) ;;
  _ <~ write lw aw' ;;
  (* replace infs *)
  let inf_select := map (map (c_isinf F isinf)) ratio in
  ratio <~ lift (zip2d (fun z (b : bool) => if b then (Fzero, Fzero) else z)
                       ratio inf_select) ;;
  lw <~ lift (getitem (lookup bl_eqb k w)) ;;
  aw <~ read lw ;;
  aw' <~ lift (assign_masked F Fzero aw inf_select Fzero) ;;
  _ <~ write lw aw' ;;
  (* get delays *)
  lw <~ lift (getitem (lookup bl_eqb k w)) ;;
  aw <~ read lw ;;
  do <~ lift (fft_dly ratio df f0 aw medfilt kernel edge_cut) ;;
  (* set nans to zero *)
  let rwgts := nanmean_rows aw in
  let isnan_dly := map (map isnan) (fst do) in
  let scrub (a : list (list F)) :=
    match zip2d (fun x (b : bool) => if b then Fzero else x) a isnan_dly with
    | Ok r => Ok r
    | Raise _ => Raise IndexError
    end in
  dly <~ lift (scrub (fst do)) ;;
  rwgts <~ lift (scrub rwgts) ;;
  offset <~ lift (if with_offset then scrub (snd do) else Ok (snd do)) ;;
  ret (dly, offset, rwgts).

(** A reference-antenna equation of [delay_lincal]: zeros shaped like the
    first data entry, ones shaped like the first weight entry. *)
Fixpoint pin_refant_values (prefix : string) (refant : Z)
         (pols : list string) (ydata ywgts : odict bl (list (list F)))
         (ls_data ls_wgts : odict string harr)
  : result (odict string harr * odict string harr) :=
  match pols with
  | [] => Ok (ls_data, ls_wgts)
  | p :: pols' =>
      y0 <- first_value ydata ;;
      w0 <- first_value ywgts ;;
      pin_refant_values prefix refant pols' ydata ywgts
        (setitem String.eqb (ant_pol_name prefix refant p)
                 (zeros_like F Fzero (FArr y0)) ls_data)
        (setitem String.eqb (ant_pol_name prefix refant p)
                 (ones_like_same (FArr w0)) ls_wgts)
  end.

Definition values_by_equation (eqns : odict bl string)
           (arrays : odict bl (list (list F))) (ks : list bl)
  : result (odict string harr) :=
  pairs <- fold_right (fun k acc =>
                         e <- getitem (lookup bl_eqb k eqns) ;;
                         a <- getitem (lookup bl_eqb k arrays) ;;
                         r <- acc ;;
                         Ok ((e, FArr a) :: r)) (Ok []) ks ;;
  Ok (odict_of_list String.eqb pairs).

(** One of the two linear systems of [delay_lincal]: the difference
    equations for [prefix] plus the reference-antenna equations. *)
Definition delay_system (prefix : string) (ks : list bl)
           (ydata ywgts : odict bl (list (list F))) (gain_pols : list string)
           (refant : Z)
  : result (odict string harr * odict string harr) :=
  eqns <- equations (diff_eqn prefix) ks ;;
  ls_data <- values_by_equation eqns ydata ks ;;
  ls_wgts <- values_by_equation eqns ywgts ks ;;
  pin_refant_values prefix refant gain_pols ydata ywgts ls_data ls_wgts.

(** [fit.update(offset_fit)] *)
Definition dict_update {V : Type} (d e : odict string V) : odict string V :=
  fold_left (fun acc kv => setitem String.eqb (fst kv) (snd kv) acc) e d.

(** The part of [delay_lincal] that fills [ratio_delays],
    [ratio_offsets] and [ratio_wgts] and fixes the reference antenna. *)
Record delay_prep : Type := mkDelayPrep {
  dp_keys : list bl;
  dp_ydata : odict bl (list (list F));
  dp_yoff : odict bl (list (list F));
  dp_ywgts : odict bl (list (list F));
  dp_gain_pols : list string;
  dp_refant : Z
}.

Definition delay_lincal_prep (model data : container)
           (wgts : option container) (refant : option Z) (df f0 : F)
           (medfilt : bool) (kernel : Z * Z) (edge_cut : Z) : M delay_prep :=
  let ks := common_keys model data in
  w <~ default_wgts wgts ks data ;;
  per_key <~ mmap (delay_of_key model data w df f0 medfilt kernel edge_cut
                                true) ks ;;
  let ratio_delays := map (fun r => fst (fst r)) per_key in
  let ratio_offsets := map (fun r => snd (fst r)) per_key in
  let ratio_wgts := map (fun r => snd r) per_key in
  gain_pols <~ lift (gain_pols_of ks) ;;
  refant <~ lift (default_refant refant ks) ;;
  _ <~ lift (refant_in_keys refant ks) ;;
  ret (mkDelayPrep ks
         (odict_of_list bl_eqb (combine ks ratio_delays))
         (odict_of_list bl_eqb (combine ks ratio_offsets))
         (odict_of_list bl_eqb (combine ks ratio_wgts))
         gain_pols refant).

Definition tau_system (p : delay_prep)
  : result (odict string harr * odict string harr) :=
  delay_system "tau" (dp_keys p) (dp_ydata p) (dp_ywgts p)
               (dp_gain_pols p) (dp_refant p).

Definition phi_system (p : delay_prep)
  : result (odict string harr * odict string harr) :=
  delay_system "phi" (dp_keys p) (dp_yoff p) (dp_ywgts p)
               (dp_gain_pols p) (dp_refant p).

Definition delay_lincal (model data : container) (wgts : option container)
           (refant : option Z) (df f0 : F) (medfilt : bool)
           (kernel : Z * Z) (edge_cut : Z) : M (fit_t F) :=
  p <~ delay_lincal_prep model data wgts refant df f0 medfilt kernel
         edge_cut ;;
  tau <~ lift (tau_system p) ;;
  fit <~ lift (LinearSolver (fst tau) (snd tau) []) ;;
  phi <~ lift (phi_system p) ;;
  offset_fit <~ lift (LinearSolver (fst phi) (snd phi) []) ;;
  ret (dict_update fit offset_fit).

Definition delay_slope_eqn (antpos : antpos_t) (four_pol : bool) (i : Z)
           (k : bl) : result string :=
  e1 <- r_lookup antpos "ew" (fst (bl_ants k)) ;;
  n1 <- r_lookup antpos "ns" (fst (bl_ants k)) ;;
  e2 <- r_lookup antpos "ew" (snd (bl_ants k)) ;;
  n2 <- r_lookup antpos "ns" (snd (bl_ants k)) ;;
  if four_pol then
    Ok ("T_ew*" ++ e1 ++ " + T_ns*" ++ n1 ++ " - T_ew*" ++ e2
          ++ " - T_ns*" ++ n2)%string
  else
    pol <- bl_pol k ;;
    pp <- split_pol pol ;;
    Ok ("T_ew_" ++ fst pp ++ "*" ++ e1 ++ " + T_ns_" ++ fst pp ++ "*" ++ n1
          ++ " - T_ew_" ++ snd pp ++ "*" ++ e2 ++ " - T_ns_" ++ snd pp
          ++ "*" ++ n2)%string.

Definition delay_slope_lincal (model data : container) (antpos : antpos_t)
           (wgts : option container) (refant : option Z) (df : F)
           (medfilt : bool) (kernel : Z * Z) (four_pol : bool)
           (edge_cut : Z) (return_gains : bool) (gain_ants : list gkey)
  : M (solution F) :=
  let ks := common_keys model data in
  w <~ default_wgts wgts ks data ;;
  refant <~ lift (default_refant refant ks) ;;
  antpos <~ lift (centre_antpos antpos refant) ;;
  per_key <~ mmap (delay_of_key model data w df Fzero medfilt kernel edge_cut
                                false) ks ;;
  let ratio_delays := map (fun r => fst (fst r)) per_key in
  let ratio_wgts := map (fun r => snd r) per_key in
  let ydata := odict_of_list bl_eqb (combine ks ratio_delays) in
  let ywgts := odict_of_list bl_eqb (combine ks ratio_wgts) in
  eqns <~ lift (equations (delay_slope_eqn antpos four_pol) ks) ;;
  pos <~ lift (position_consts antpos) ;;
  ls_data <~ lift (values_by_equation eqns ydata ks) ;;
  ls_wgts <~ lift (values_by_equation eqns ywgts ks) ;;
  fit <~ lift (LinearSolver ls_data ls_wgts pos) ;;
  if negb return_gains then ret (Fit fit)
  else
    ld0 <~ lift (first_value data) ;;
    d0 <~ read ld0 ;;
    let nfreqs := match as_complex F Fzero d0 with
                  | [] => 0%nat
                  | r :: _ => List.length r
                  end in
    g <~ lift (fold_right (fun ant acc =>
                 pa <- getitem (lookup Z.eqb (fst ant) antpos) ;;
                 ew <- getitem (lookup String.eqb ("T_ew_" ++ snd ant)%string fit) ;;
                 ns <- getitem (lookup String.eqb ("T_ns_" ++ snd ant)%string fit) ;;
                 r <- acc ;;
                 Ok ((ant, delay_slope_gain (firstn 2 pa) ew ns nfreqs df) :: r))
               (Ok []) gain_ants) ;;
    ret (Gains (odict_of_list gkey_eqb g)).
End Solvers.

(** ** Phase slopes: [dft_phase_slope_solver] and
       [global_phase_slope_logcal] *)

(** Python's [l[start:stop]] for a list of length [n]. *)
Definition py_slice {A : Type} (start stop : Z) (l : list A) : list A :=
  let n := Z.of_nat (List.length l) in
  let clamp (i : Z) := if i <? 0 then Z.max 0 (i + n) else Z.min i n in
  let a := clamp start in
  let b := clamp stop in
  firstn (Z.to_nat (b - a)) (skipn (Z.to_nat a) l).

(** [l[i] = v] on a list that is long enough. *)
Fixpoint set_nth {A : Type} (i : nat) (v : A) (l : list A) : list A :=
  match l, i with
  | [], _ => []
  | _ :: l', O => v :: l'
  | x :: l', S i' => x :: set_nth i' v l'
  end.

(** [a[m]] for a boolean mask of the same length. *)
Fixpoint select {A : Type} (m : list bool) (a : list A) : result (list A) :=
  match m, a with
  | [], [] => Ok []
  | b :: m', x :: a' =>
      r <- select m' a' ;; Ok (if b then x :: r else r)
  | _, _ => Raise IndexError
  end.

Definition shape1 {A : Type} (a : list (list A)) : nat :=
  match a with
  | [] => 0%nat
  | r :: _ => List.length r
  end.

Definition column {A : Type} (i : nat) (a : list (list A)) : list (option A) :=
  map (fun r => nth_error r i) a.

Definition PHASE_SLOPE_SOLVERS : list string := ["linfit"; "dft"]%string.

Section PhaseSlope.
Variable F : Type.
Variable Fzero Fone Fnan two_pi : F.
Variable isnan isinf : F -> bool.
Variable Fadd Fsub Fmul Fdiv : F -> F -> F.
Variable Fsqrt : F -> F.

(** [np.min] and [np.max] of a non-empty list. *)
Variable np_min np_max : list F -> F.

(** [scipy.optimize.brute(dft_abs, (search_slice, search_slice),
    (x, y, z), finish=minimize)]: the search range and the unflagged
    positions and data of one pixel. *)
Variable brute :
  F * F * F -> list F -> list F -> list (cplx F) -> result (F * F).

Local Abbreviation cplx := (cplx F).
Local Abbreviation c_isnan := (c_isnan F isnan).
Local Abbreviation c_isinf := (c_isinf F isinf).

(** The distances between all pairs of positions. *)
Fixpoint deltas_of (xs ys : list F) : list F :=
  match xs, ys with
  | xi :: xs', yi :: ys' =>
      map (fun p => Fsqrt (Fadd (Fmul (Fsub xi (fst p)) (Fsub xi (fst p)))
                                (Fmul (Fsub yi (snd p)) (Fsub yi (snd p)))))
          (combine xs' ys')
      ++ deltas_of xs' ys'
  | _, _ => []
  end.

Definition is_some_nan (o : option cplx) : bool :=
  match o with
  | Some z => c_isnan z
  | None => false
  end.

(** [np.all(np.isnan(dflat[:, i]))] *)
Definition column_all_nan (dflat : list (list cplx)) (i : nat) : bool :=
  forallb is_some_nan (column i dflat).

Definition unwrap_column {A : Type} (c : list (option A)) : result (list A) :=
  fold_right (fun o acc =>
                x <- match o with Some x => Ok x | None => Raise IndexError end ;;
                r <- acc ;;
                Ok (x :: r)) (Ok []) c.

(** The call of [brute] for pixel [i], on the unflagged positions and
    samples of its column. *)
Definition dft_pixel (search : F * F * F) (xs ys : list F)
           (dflat : list (list cplx)) (fflat : list (list bool)) (i : nat)
  : result (F * F) :=
  f <- unwrap_column (column i fflat) ;;
  z <- unwrap_column (column i dflat) ;;
  let keep := map negb f in
  x' <- select keep xs ;;
  y' <- select keep ys ;;
  z' <- select keep z ;;
  brute search x' y' z'.

(** The loop over the pixels: [slope_x] and [slope_y] start as zeros and
    only the pixels that pass the test are written. *)
Fixpoint dft_loop (search : F * F * F) (xs ys : list F)
         (dflat : list (list cplx)) (fflat : list (list bool))
         (pixels : list nat) (slope_x slope_y : list F)
  : result (list F * list F) :=
  match pixels with
  | [] => Ok (slope_x, slope_y)
  | i :: pixels' =>
      if negb (column_all_nan dflat i) then
        dft_peak <- dft_pixel search xs ys dflat fflat i ;;
        dft_loop search xs ys dflat fflat pixels'
                 (set_nth i (fst dft_peak) slope_x)
                 (set_nth i (snd dft_peak) slope_y)
      else
        dft_loop search xs ys dflat fflat pixels' slope_x slope_y
  end.

(** [search_slice = slice(-1.0 / np.min(deltas), 1.0 / np.min(deltas),
    1.0 / np.max(deltas))] *)
Definition search_slice (deltas : list F) : F * F * F :=
  let lo := Fdiv Fone (np_min deltas) in
  (Fsub Fzero lo, lo, Fdiv Fone (np_max deltas)).

(** [flags = flags | np.isnan(data)], from zeros when no flags are given. *)
Definition flags_or_nan (data : list (list cplx))
           (flags : option (list (list bool))) : result (list (list bool)) :=
  match flags with
  | None => Ok (map (map c_isnan) data)
  | Some fl => zip2d (fun (f : bool) z => f || c_isnan z) fl data
  end.

(** [dft_phase_slope_solver(xs, ys, data, flags)]; [data] is given as
    [dflat], one row per position. *)
Definition dft_phase_slope_solver (xs ys : list F) (data : list (list cplx))
           (flags : option (list (list bool))) : result (list F * list F) :=
  let deltas := deltas_of xs ys in
  match deltas with
  | [] => Raise ValueError
  | _ =>
      let search := search_slice deltas in
      flags <- flags_or_nan data flags ;;
      if negb (List.length data =? List.length xs)%nat then Raise ValueError
      else
        let n := shape1 data in
        dft_loop search xs ys data flags (seq 0 n)
                 (repeat Fzero n) (repeat Fzero n)
  end.

(** *** [global_phase_slope_logcal] *)

Definition vis_t : Type := odict bl (list (list cplx)).
Definition wgt_t : Type := odict bl (list (list F)).

(** External code: the redundancy grouping and averaging ([redcal],
    [utils.red_average]), numpy's reductions and tests, the formatting of
    a float, the solver, and the conversion of a fit into gains. *)
Variable split_pol : string -> result (string * string).
Variable get_pos_reds : antpos_t F -> F -> result (list (list (Z * Z))).
Variable red_average :
  vis_t -> list (list (Z * Z)) -> odict bl (list (list bool)) ->
  result (vis_t * odict bl (list (list bool))).
Variable cdiv : cplx -> cplx -> cplx.
Variable cnormalize : cplx -> cplx.
Variable angle : cplx -> F.
Variable isclose0 Fnonzero Fgt0 : F -> bool.
Variable nanmedian : list F -> F.
Variable nanmedian_c : list cplx -> cplx.
Variable fsum : list F -> F.
Variable fmt : F -> string.
Variable LinearSolver :
  odict string (harr F) -> odict string (harr F) -> odict string F ->
  result (fit_t F).
Variable phase_slope_gain :
  list F -> list (list F) -> list (list F) -> nat -> list (list cplx).

Definition bool_to_F (b : bool) : F := if b then Fone else Fzero.

(** The linear equation of one averaged baseline. *)
Definition slope_eqn (antpos : antpos_t F) (rk : bl) : result string :=
  pol <- bl_pol rk ;;
  p0 <- getitem (lookup Z.eqb (fst (bl_ants rk)) antpos) ;;
  p1 <- getitem (lookup Z.eqb (snd (bl_ants rk)) antpos) ;;
  let comp (p : list F) (i : nat) :=
    match nth_error p i with
    | Some x => Ok x
    | None => Raise IndexError
    end in
  x0 <- comp p0 0%nat ;;
  pp <- split_pol pol ;;
  y0 <- comp p0 1%nat ;;
  x1 <- comp p1 0%nat ;;
  y1 <- comp p1 1%nat ;;
  Ok (fmt x0 ++ "*Phi_ew_" ++ fst pp ++ " + " ++ fmt y0 ++ "*Phi_ns_" ++ fst pp
        ++ " - " ++ fmt x1 ++ "*Phi_ew_" ++ snd pp ++ " - " ++ fmt y1
        ++ "*Phi_ns_" ++ snd pp)%string.

(** The last two statements of the loop body: unobserved data, a [nan]
    median, get the value 0 and the weight 0. *)
Definition scrub_unobserved (ls_data : harr F) (ls_wgts : list (list F))
  : result (harr F * list (list F)) :=
  let sel := mask_nan F isnan ls_data in
  w <- match zip2d (fun x (b : bool) => if b then Fzero else x) ls_wgts sel with
       | Ok r => Ok r
       | Raise _ => Raise IndexError
       end ;;
  d <- assign_masked F Fzero ls_data (mask_nan F isnan ls_data) Fzero ;;
  Ok (d, w).

(** The data and weight of one equation before the scrubbing: the median
    over frequency of the unflagged angles (or complex ratios for the DFT)
    and the sum of the binary weights. *)
Definition median_of_key (solver : string) (edge_cut : Z)
           (d m : list (list cplx)) (w : list (list F))
  : result (harr F * list (list F)) :=
  ratio <- zip2d (fun x y => cnormalize (cdiv x y)) d m ;;
  flg <- zip2d (fun x z => isclose0 x || c_isinf z || c_isnan z) w ratio ;;
  w' <- zip2d (fun x (b : bool) => if b then Fzero else x) w flg ;;
  ratio' <- zip2d (fun z (b : bool) =>
                     if b then (Fmul (fst z) Fnan, Fmul (snd z) Fnan) else z)
                  ratio flg ;;
  let n := Z.of_nat (shape1 ratio) in
  let cut {A : Type} (r : list A) := py_slice edge_cut (n - edge_cut) r in
  let data :=
    if String.eqb solver "linfit"
    then FArr (map (fun r => [nanmedian (map angle (cut r))]) ratio')
    else CArr (map (fun r => [nanmedian_c (cut r)]) ratio') in
  Ok (data, map (fun r => [fsum (cut r)]) w').

Record slope_system : Type := mkSlopeSystem {
  ss_data : odict string (harr F);
  ss_wgts : odict string (harr F);
  ss_bls : odict string (list F);
  ss_pols : odict string string
}.

(** The loop over [red_keys]. *)
Fixpoint slope_loop (solver : string) (edge_cut : Z) (antpos : antpos_t F)
         (avg_data avg_model : vis_t) (avg_wgts : wgt_t)
         (red_keys : list bl) (acc : slope_system) : result slope_system :=
  match red_keys with
  | [] => Ok acc
  | rk :: red_keys' =>
      eqn_str <- slope_eqn antpos rk ;;
      p0 <- getitem (lookup Z.eqb (fst (bl_ants rk)) antpos) ;;
      p1 <- getitem (lookup Z.eqb (snd (bl_ants rk)) antpos) ;;
      b <- vsubF F Fsub p0 p1 ;;
      pol <- bl_pol rk ;;
      d <- getitem (lookup bl_eqb rk avg_data) ;;
      m <- getitem (lookup bl_eqb rk avg_model) ;;
      w <- getitem (lookup bl_eqb rk avg_wgts) ;;
      med <- median_of_key solver edge_cut d m w ;;
      dw <- scrub_unobserved (fst med) (snd med) ;;
      slope_loop solver edge_cut antpos avg_data avg_model avg_wgts red_keys'
        (mkSlopeSystem
           (setitem String.eqb eqn_str (fst dw) (ss_data acc))
           (setitem String.eqb eqn_str (FArr (snd dw)) (ss_wgts acc))
           (setitem String.eqb eqn_str b (ss_bls acc))
           (setitem String.eqb eqn_str pol (ss_pols acc)))
  end.

(** [data.pols()] and [data.antpairs()] of a [DataContainer]. *)
Definition dc_pols (data : vis_t) : result (list string) :=
  ps <- fold_right (fun k acc => p <- bl_pol k ;; r <- acc ;; Ok (p :: r))
                   (Ok []) (keys data) ;;
  Ok (py_set String.eqb ps).

Definition pair_eqb (a b : Z * Z) : bool :=
  (fst a =? fst b) && (snd a =? snd b).

Definition dc_antpairs (data : vis_t) : list (Z * Z) :=
  py_set pair_eqb (map bl_ants (keys data)).

(** The [dft] branch for one polarization. *)
Definition dft_fit_pol (sys : slope_system) (pol : string)
  : result (list (string * list (list F))) :=
  let ks := filter (fun k => match lookup String.eqb k (ss_pols sys) with
                             | Some p => String.eqb p pol
                             | None => false
                             end) (keys (ss_bls sys)) in
  let comp (i : nat) :=
    fold_right (fun k acc =>
                  b <- getitem (lookup String.eqb k (ss_bls sys)) ;;
                  x <- match nth_error b i with
                       | Some x => Ok x
                       | None => Raise IndexError
                       end ;;
                  r <- acc ;;
                  Ok (x :: r)) (Ok []) ks in
  blx <- comp 0%nat ;;
  bly <- comp 1%nat ;;
  data_array <-
    fold_right (fun k acc =>
                  d <- getitem (lookup String.eqb k (ss_data sys)) ;;
                  w <- getitem (lookup String.eqb k (ss_wgts sys)) ;;
                  row <- zip2d (fun z x =>
                                  if Fgt0 x then z
                                  else (Fdiv (fst z) Fzero, Fdiv (snd z) Fzero))
                               (as_complex F Fzero d)
                               (map (map fst) (as_complex F Fzero w)) ;;
                  r <- acc ;;
                  Ok (List.concat row :: r)) (Ok ([] : list (list cplx))) ks ;;
  slopes <- dft_phase_slope_solver blx bly data_array None ;;
  pp <- split_pol pol ;;
  Ok [(("Phi_ew_" ++ fst pp)%string,
       map (fun x => [Fmul x two_pi]) (fst slopes));
      (("Phi_ns_" ++ fst pp)%string,
       map (fun x => [Fmul x two_pi]) (snd slopes))].

Definition is_cross_pol (pol : string) : result bool :=
  pp <- split_pol pol ;; Ok (negb (String.eqb (fst pp) (snd pp))).

(** [global_phase_slope_logcal] up to the loop over [red_keys]: the two
    assertions, the weights and flags, the re-centred positions and the
    redundant averages [avg_data], [avg_model] and [avg_wgts]. *)
Definition phase_slope_averages (model data : vis_t) (antpos : antpos_t F)
           (solver : string) (wgts : option wgt_t) (refant : option Z)
           (tol : F) (edge_cut : Z)
  : result (antpos_t F * nat * (vis_t * vis_t * wgt_t)) :=
  (* check solver and edgecut *)
  if negb (mem String.eqb solver PHASE_SLOPE_SOLVERS)
  then Raise AssertionError
  else
    d0 <- first_value data ;;
    if negb (2 * edge_cut <? Z.of_nat (shape1 d0) - 1)
    then Raise AssertionError
    else
      let ks := common_keys model data in
      (* make weights if None and make flags *)
      wgts <- match wgts with
              | Some w => Ok w
              | None =>
                  fold_right (fun k acc =>
                                a <- getitem (lookup bl_eqb k data) ;;
                                r <- acc ;;
                                Ok (setitem bl_eqb k
                                      (map (map (fun _ => Fone)) a) r))
                             (Ok []) (rev ks)
              end ;;
      let flags :=
        odict_of_list bl_eqb
          (map (fun kv => (fst kv, map (map (fun x => negb (Fnonzero x)))
                                       (snd kv))) wgts) in
      (* center antenna positions about the reference antenna *)
      refant <- default_refant refant ks ;;
      antpos <- centre_antpos F Fsub antpos refant ;;
      (* average data over baselines *)
      _reds <- get_pos_reds antpos tol ;;
      let ap := dc_antpairs data in
      let reds :=
        filter (fun red => negb (Nat.eqb (List.length red) 0))
               (map (filter (fun b => mem pair_eqb b ap)) _reds) in
      avg <- red_average data reds flags ;;
      let avg_data := fst avg in
      let avg_wgts :=
        odict_of_list bl_eqb
          (map (fun kv => (fst kv, map (map (fun b => bool_to_F (negb b)))
                                       (snd kv))) (snd avg)) in
      avgm <- red_average model reds flags ;;
      Ok (antpos, shape1 d0, (avg_data, fst avgm, avg_wgts)).

(** [global_phase_slope_logcal] up to the end of the loop over
    [red_keys]: the averages and the linear system. *)
Definition phase_slope_system (model data : vis_t) (antpos : antpos_t F)
           (solver : string) (wgts : option wgt_t) (refant : option Z)
           (tol : F) (edge_cut : Z)
  : result (antpos_t F * nat * slope_system) :=
  prep <- phase_slope_averages model data antpos solver wgts refant tol
            edge_cut ;;
  let '(antpos, nfreqs, (avg_data, avg_model, avg_wgts)) := prep in
  let red_keys := keys avg_data in
  sys <- slope_loop solver edge_cut antpos avg_data avg_model avg_wgts
           red_keys (mkSlopeSystem [] [] [] []) ;;
  Ok (antpos, nfreqs, sys).

(** [np.all([split_pol(pol)[0] == split_pol(pol)[1] for pol in pols])],
    negated: some polarization is a cross-polarization. *)
Definition any_cross_pol (pols : list string) : result bool :=
  fold_right (fun p acc => c <- is_cross_pol p ;; r <- acc ;; Ok (c || r))
             (Ok false) pols.

(** The branch [elif solver == 'dft']. *)
Definition dft_branch (data : vis_t) (sys : slope_system)
  : result (fit_t F) :=
  pols <- dc_pols data ;;
  cross <- any_cross_pol pols ;;
  if cross then Raise NotImplementedError
  else
    fold_left (fun acc p =>
                 fit <- acc ;;
                 e <- dft_fit_pol sys p ;;
                 Ok (dict_update fit e)) pols (Ok []).

Definition global_phase_slope_logcal (model data : vis_t)
           (antpos : antpos_t F) (solver : string) (wgts : option wgt_t)
           (refant : option Z) (tol : F) (edge_cut : Z)
           (return_gains : bool) (gain_ants : list gkey)
  : result (solution F) :=
  prep <- phase_slope_system model data antpos solver wgts refant tol
            edge_cut ;;
  let '(antpos, nfreqs, sys) := prep in
  fit <- (if String.eqb solver "linfit"
          then LinearSolver (ss_data sys) (ss_wgts sys) []
          else dft_branch data sys) ;;
  if negb return_gains then Ok (Fit fit)
  else
    g <- fold_right (fun ant acc =>
           pa <- getitem (lookup Z.eqb (fst ant) antpos) ;;
           ew <- getitem (lookup String.eqb ("Phi_ew_" ++ snd ant)%string fit) ;;
           ns <- getitem (lookup String.eqb ("Phi_ns_" ++ snd ant)%string fit) ;;
           r <- acc ;;
           Ok ((ant, phase_slope_gain (firstn 2 pa) ew ns nfreqs) :: r))
         (Ok []) gain_ants ;;
    Ok (Gains (odict_of_list gkey_eqb g)).
End PhaseSlope.

(** ** The iteration controller ([post_redcal_abscal]) *)

Section PostRedcalAbscal.
(** [Work] is the state the stages share and edit in place: the working data
    and [data_wgts].  [Mdl], [Antpos], [G] (a gain waterfall) and [Crit]
    (the convergence statistic) are the other values that flow between
    the calls. *)
Variable Work Mdl Antpos G Crit : Type.

(** [gain * gain] on two waterfalls, and [crit < phs_conv_crit]. *)
Variable gmul : G -> G -> G.
Variable crit_lt : Crit -> Crit -> bool.

(** The calls the controller makes.  A solver returns its gains and
    leaves the state as it edited it. *)
Variable idealized_antpos : Work -> result Antpos.
Variable abs_amp_logcal_gains :
  Mdl -> Work -> list gkey -> result (odict gkey G * Work).
Variable delay_slope_lincal_gains :
  Mdl -> Work -> Antpos -> Z * Z -> Z -> list gkey -> result (odict gkey G * Work).
Variable time_average : odict gkey G -> odict gkey G.
Variable global_phase_slope_logcal_gains :
  Mdl -> Work -> Antpos -> string -> Z -> list gkey -> result (odict gkey G * Work).
Variable TT_phs_logcal_gains :
  Mdl -> Work -> Antpos -> list gkey -> result (odict gkey G * Work).
Variable calibrate_in_place : Work -> odict gkey G -> string -> result Work.
Variable convergence : odict gkey G -> result Crit.

(** [{ant: f(ant) for ant in ants}] *)
Definition dict_over (ants : list gkey) (f : gkey -> result G)
  : result (odict gkey G) :=
  pairs <- fold_right (fun ant acc =>
                         v <- f ant ;; r <- acc ;; Ok ((ant, v) :: r))
                      (Ok []) ants ;;
  Ok (odict_of_list gkey_eqb pairs).

(** [{ant: abscal_delta_gains[ant] * gains_here[ant] for ant in ants}] *)
Definition accumulate (ants : list gkey) (delta gains_here : odict gkey G)
  : result (odict gkey G) :=
  dict_over ants (fun ant =>
    a <- getitem (lookup gkey_eqb ant delta) ;;
    b <- getitem (lookup gkey_eqb ant gains_here) ;;
    Ok (gmul a b)).

(** What the passes through the body of a phase loop leave behind: the
    state, the accumulated gains, the number of iterations started, the
    [gains_here] that were multiplied into the accumulated gains and the
    criteria computed, one per completed iteration. *)
Record stage_state : Type := mkStage {
  st_state : Work;
  st_delta : odict gkey G;
  st_iters : nat;
  st_gains : list (odict gkey G);
  st_crits : list Crit
}.

(** [for i in range(n)] around a solver: solve, accumulate, calibrate,
    compute the criterion, [break] when it is below [phs_conv_crit].  An
    exception ends the loop with what had been done. *)
Fixpoint phase_loop (solve : Work -> result (odict gkey G * Work))
         (ants : list gkey) (gain_convention : string)
         (phs_conv_crit : Crit) (n : nat) (st : stage_state)
  : stage_state * result unit :=
  match n with
  | O => (st, Ok tt)
  | S n' =>
      let i := S (st_iters st) in
      match solve (st_state st) with
      | Raise e =>
          (mkStage (st_state st) (st_delta st) i (st_gains st) (st_crits st),
           Raise e)
      | Ok (gains_here, s1) =>
          match accumulate ants (st_delta st) gains_here with
          | Raise e =>
              (mkStage s1 (st_delta st) i (st_gains st) (st_crits st),
               Raise e)
          | Ok delta =>
              let gains := st_gains st ++ [gains_here] in
              match calibrate_in_place s1 gains_here gain_convention with
              | Raise e => (mkStage s1 delta i gains (st_crits st), Raise e)
              | Ok s2 =>
                  match convergence gains_here with
                  | Raise e =>
                      (mkStage s2 delta i gains (st_crits st), Raise e)
                  | Ok crit =>
                      let st' :=
                        mkStage s2 delta i gains (st_crits st ++ [crit]) in
                      if crit_lt crit phs_conv_crit then (st', Ok tt)
                      else phase_loop solve ants gain_convention
                                      phs_conv_crit n' st'
                  end
              end
          end
      end
  end.

(** One non-iterated stage: solve, accumulate, calibrate.  The
    [gains_here] that were multiplied in are returned with the state and
    the accumulated gains. *)
Definition apply_stage (ants : list gkey) (gain_convention : string)
           (post : odict gkey G -> odict gkey G)
           (r : result (odict gkey G * Work)) (delta : odict gkey G)
  : result (Work * odict gkey G * odict gkey G) :=
  gs <- r ;;
  let gains_here := post (fst gs) in
  delta' <- accumulate ants delta gains_here ;;
  s' <- calibrate_in_place (snd gs) gains_here gain_convention ;;
  Ok (s', delta', gains_here).

(** The result of [post_redcal_abscal] together with what it did on the
    way: the [gains_here] of the steps 1 to 3 before the first loop, and
    what its two phase loops did. *)
Record abscal_run : Type := mkRun {
  run_first : option (list (odict gkey G));
  run_linfit : option stage_state;
  run_tt : option stage_state;
  run_result : result (odict gkey G)
}.

Definition post_redcal_abscal (model : Mdl) (data : Work) (ants : list gkey)
           (edge_cut : Z) (kernel : Z * Z) (gain_convention : string)
           (phs_max_iter : Z) (phs_conv_crit : Crit) : abscal_run :=
  let before :=
    ap <- idealized_antpos data ;;
    (* Abscal Step 1 *)
    gs <- abs_amp_logcal_gains model data ants ;;
    delta <- dict_over ants (fun ant => getitem (lookup gkey_eqb ant (fst gs))) ;;
    s1 <- calibrate_in_place (snd gs) (fst gs) gain_convention ;;
    (* Abscal Step 2, [time_avg] True then False *)
    sd1 <- apply_stage ants gain_convention time_average
             (delay_slope_lincal_gains model s1 ap kernel edge_cut ants)
             delta ;;
    sd2 <- apply_stage ants gain_convention (fun g => g)
             (delay_slope_lincal_gains model (fst (fst sd1)) ap kernel
                                       edge_cut ants)
             (snd (fst sd1)) ;;
    (* Abscal Step 3, first with the DFT *)
    sd3 <- apply_stage ants gain_convention (fun g => g)
             (global_phase_slope_logcal_gains model (fst (fst sd2)) ap "dft"
                                              edge_cut ants)
             (snd (fst sd2)) ;;
    Ok (ap, fst sd3, [fst gs; snd sd1; snd sd2; snd sd3]) in
  match before with
  | Raise e => mkRun None None None (Raise e)
  | Ok (ap, sd, first) =>
      let n := Z.to_nat phs_max_iter in
      let '(st3, r3) :=
        phase_loop (fun s => global_phase_slope_logcal_gains model s ap
                               "linfit" edge_cut ants)
                   ants gain_convention phs_conv_crit n
                   (mkStage (fst sd) (snd sd) 0 [] []) in
      match r3 with
      | Raise e => mkRun (Some first) (Some st3) None (Raise e)
      | Ok _ =>
          (* Abscal Step 4 *)
          let '(st4, r4) :=
            phase_loop (fun s => TT_phs_logcal_gains model s ap ants)
                       ants gain_convention phs_conv_crit n
                       (mkStage (st_state st3) (st_delta st3) 0 [] []) in
          match r4 with
          | Raise e => mkRun (Some first) (Some st3) (Some st4) (Raise e)
          | Ok _ =>
              mkRun (Some first) (Some st3) (Some st4) (Ok (st_delta st4))
          end
      end
  end.
End PostRedcalAbscal.

(** ** [utils.split_pol] *)

Module Utils.
Import Pyuvdata.

(** [pyuvdata.utils.JONES_STR2NUM_DICT] and [JONES_NUM2STR_DICT] *)
Definition JONES_STR2NUM_DICT : odict string Z :=
  [("Jxx", -5); ("Jyy", -6); ("Jxy", -7); ("Jyx", -8);
   ("xx", -5); ("x", -5); ("yy", -6); ("y", -6); ("xy", -7); ("yx", -8);
   ("Jrr", -1); ("Jll", -2); ("Jrl", -3); ("Jlr", -4);
   ("rr", -1); ("r", -1); ("ll", -2); ("l", -2); ("rl", -3); ("lr", -4)
  ]%string.

Definition JONES_NUM2STR_DICT : odict Z string :=
  [(-1, "Jrr"); (-2, "Jll"); (-3, "Jrl"); (-4, "Jlr");
   (-5, "Jxx"); (-6, "Jyy"); (-7, "Jxy"); (-8, "Jyx")]%string.

Definition jstr2num (jstr : string) : result Z :=
  getitem (lookup String.eqb (lower jstr) (lower_keys JONES_STR2NUM_DICT)).

Definition jnum2str (n : Z) : result string :=
  getitem (lookup Z.eqb n JONES_NUM2STR_DICT).

Definition _comply_antpol (antpol : string) : result string :=
  n <- jstr2num antpol ;; jnum2str n.

Definition _VISPOLS : list string :=
  filter (fun pol => match polstr2num pol with
                     | Ok n => n <? 0
                     | Raise _ => false
                     end)
         (keys POL_STR2NUM_DICT).

(** [SPLIT_POL]; the polarizations in [_VISPOLS] have two characters. *)
Definition SPLIT_POL : odict string (string * string) :=
  flat_map (fun pol =>
              match pol with
              | String a (String b EmptyString) =>
                  match _comply_antpol (String a EmptyString),
                        _comply_antpol (String b EmptyString) with
                  | Ok p, Ok q => [(pol, (p, q))]
                  | _, _ => []
                  end
              | _ => []
              end) _VISPOLS.

Definition split_pol (pol : string) : result (string * string) :=
  p <- _comply_vispol polstr2num polnum2str pol ;;
  getitem (lookup String.eqb p SPLIT_POL).
End Utils.

(** ** [float64] and [complex128]

    The solvers above take the sample type and numpy's functions as
    parameters.  Here the samples are binary64 floats; the arithmetic on
    [complex128] follows numpy's inner loops. *)

(** The sample [a[t][f]]. *)
Definition get2 {A : Type} (a : list (list A)) (t f : nat) : option A :=
  match nth_error a t with
  | Some r => nth_error r f
  | None => None
  end.

(** [np.full((nt, nf), v)] *)
Definition const_array {A : Type} (nt nf : nat) (v : A) : list (list A) :=
  repeat (repeat v nf) nt.

(** [l[i]] on a list *)
Definition getitem_list {A : Type} (l : list A) (i : nat) : result A :=
  match nth_error l i with
  | Some a => Ok a
  | None => Raise IndexError
  end.

(** A list of results is a result: the first exception is raised. *)
Definition sequence {A : Type} (l : list (result A)) : result (list A) :=
  fold_right (fun r acc => x <- r ;; t <- acc ;; Ok (x :: t)) (Ok []) l.

Module Float64.
Local Open Scope float_scope.

Definition of_Z (z : Z) : float :=
  if (z <? 0)%Z then - PrimFloat.of_uint63 (Uint63.of_Z (- z))
  else PrimFloat.of_uint63 (Uint63.of_Z z).

Definition isfinite (x : float) : bool :=
  negb (PrimFloat.is_nan x || PrimFloat.is_infinity x).

Definition cadd (a b : cplx float) : cplx float :=
  (fst a + fst b, snd a + snd b).

Definition cmul (a b : cplx float) : cplx float :=
  (fst a * fst b - snd a * snd b, fst a * snd b + snd a * fst b).

(** Division of [complex128] (Smith's method, as in numpy's loops). *)
Definition cdiv (a b : cplx float) : cplx float :=
  let '(in1r, in1i) := a in
  let '(in2r, in2i) := b in
  let in2r_abs := PrimFloat.abs in2r in
  let in2i_abs := PrimFloat.abs in2i in
  if in2i_abs <=? in2r_abs then
    if (in2r_abs =? 0) && (in2i_abs =? 0) then
      (in1r / in2r_abs, in1i / in2r_abs)
    else
      let rat := in2i / in2r in
      let scl := 1 / (in2r + in2i * rat) in
      ((in1r + in1i * rat) * scl, (in1i - in1r * rat) * scl)
  else
    let rat := in2r / in2i in
    let scl := 1 / (in2i + in2r * rat) in
    ((in1r * rat + in1i) * scl, (in1i * rat - in1r) * scl).

(** [np.sum] along a row: the reduction starts from the first element. *)
Definition csum (l : list (cplx float)) : cplx float :=
  match l with
  | [] => (0, 0)
  | x :: r => fold_left cadd r x
  end.

(** [np.nanmean(w, axis=1, keepdims=True)]: nans count as absent; a row
    without any number gives [nan]. *)
Definition nanmean_row (r : list float) : float :=
  let kept := filter (fun x => negb (PrimFloat.is_nan x)) r in
  fold_left PrimFloat.add kept 0 / of_Z (Z.of_nat (List.length kept)).

Definition nanmean_rows (a : harr float) : list (list float) :=
  match a with
  | FArr x => map (fun r => [nanmean_row r]) x
  | CArr x => map (fun r => [nanmean_row (map fst r)]) x
  end.

(** [np.argmax] along a row: the first maximum, or the first [nan]. *)
Fixpoint argmax_from (l : list float) (i best : nat) (bestv : float) : nat :=
  match l with
  | [] => best
  | x :: r =>
      if PrimFloat.is_nan bestv then best
      else if PrimFloat.is_nan x || (bestv <? x)
           then argmax_from r (S i) i x
           else argmax_from r (S i) best bestv
  end.

Definition argmax (l : list float) : result nat :=
  match l with
  | [] => Raise ValueError
  | x :: r => Ok (argmax_from r 1 0 x)
  end.

(** [np.fft.fftfreq(n, d)] *)
Definition fftfreq (n : nat) (d : float) : result (list float) :=
  match n with
  | O => Raise ZeroDivisionError
  | S _ =>
      let val := 1 / (of_Z (Z.of_nat n) * d) in
      let N := ((n - 1) / 2 + 1)%nat in
      let p1 := map Z.of_nat (seq 0 N) in
      let p2 := map (fun k => (Z.of_nat k - Z.of_nat (n / 2))%Z)
                    (seq 0 (n / 2)) in
      Ok (map (fun k => of_Z k * val) (p1 ++ p2))
  end.

Section FftDly.
(** [np.fft.fft] along a row, [np.log] of a float, [np.exp] and [np.abs] of
    a complex sample, [np.arctan2], and [scipy.signal.medfilt]. *)
Variable np_fft : list (cplx float) -> list (cplx float).
Variable np_log : float -> float.
Variable np_exp : cplx float -> cplx float.
Variable np_abs : cplx float -> float.
Variable np_arctan2 : float -> float -> float.
Variable signal_medfilt :
  list (list float) -> Z * Z -> result (list (list float)).

(** [np.angle] *)
Definition angle (z : cplx float) : float := np_arctan2 (snd z) (fst z).

(** [np.log(np.abs(z))] *)
Definition log_abs (z : cplx float) : float := np_log (np_abs z).

(** The closed form in Quinn's estimator. *)
Definition tau (x : float) : float :=
  let t := 0.25 * np_log (3 * (x * x) + 6 * x + 1) in
  t - PrimFloat.sqrt 6 / 24
      * np_log ((x + 1 - PrimFloat.sqrt (2 / 3))
                / (x + 1 + PrimFloat.sqrt (2 / 3))).

(** [utils.interp_peak] with [method='quinn'] on one row of the
    transform: the index of the peak and the shift of the bin.  The
    interpolated peak values are computed by the source as well; [fft_dly]
    does not use them. *)
Definition interp_peak_row (row : list (cplx float)) : result (nat * float) :=
  let N2 := List.length row in
  ind <- argmax (map np_abs row) ;;
  k0 <- getitem_list row ((ind + N2 - 1) mod N2) ;;
  k1 <- getitem_list row ind ;;
  k2 <- getitem_list row ((ind + 1) mod N2) ;;
  let alpha1 := fst (cdiv k0 k1) in
  let alpha2 := fst (cdiv k2 k1) in
  let delta1 := alpha1 / (1 - alpha1) in
  let delta2 := - alpha2 / (1 - alpha2) in
  let d := (delta1 + delta2) / 2 + tau (delta1 * delta1)
           - tau (delta2 * delta2) in
  Ok (ind, if isfinite d then d else 0).

(** [-np.complex64(2j * np.pi)] *)
Definition minus_two_pi_j : cplx float := (-0, -0x1.921fb6p+2).

Definition fft_dly (data : list (list (cplx float))) (df f0 : float)
           (wgts : harr float) (medfilt : bool) (kernel : Z * Z)
           (edge_cut : Z) : result (list (list float) * list (list float)) :=
  let Nfreqs := shape1 data in
  let wgts := as_complex float 0 wgts in
  (* smooth via median filter *)
  data <- (if medfilt then
             re <- signal_medfilt (map (map fst) data) kernel ;;
             im <- signal_medfilt (map (map snd) data) kernel ;;
             zip2d pair re im
           else Ok data) ;;
  (* fft w/ wgts *)
  dw <- zip2d cmul data wgts ;;
  dw <- (if (0 <? edge_cut)%Z then
           if (2 * edge_cut <? Z.of_nat Nfreqs - 1)%Z
           then Ok (map (py_slice edge_cut (- edge_cut + 1)) dw)
           else Raise AssertionError
         else Ok dw) ;;
  let dw := map (map (fun z => if c_isnan float PrimFloat.is_nan z
                               then (0, 0) else z)) dw in
  fftfreqs <- fftfreq (shape1 dw) df ;;
  f1 <- getitem_list fftfreqs 1 ;;
  f0' <- getitem_list fftfreqs 0 ;;
  let dtau := f1 - f0' in
  let vfft := map np_fft dw in
  (* get interpolated peak and indices *)
  peaks <- sequence (map interp_peak_row vfft) ;;
  dlys <- sequence (map (fun p : nat * float =>
                           f <- getitem_list fftfreqs (fst p) ;;
                           Ok (f + snd p * dtau)) peaks) ;;
  (* the remaining phase offset *)
  let freqs := map (fun k => cadd (cmul (of_Z (Z.of_nat k), 0) (df, 0))
                                  (f0, 0))
                   (seq 0 Nfreqs) in
  let fSlice {A : Type} (l : list A) : list A :=
    py_slice edge_cut (Z.of_nat Nfreqs - edge_cut) l in
  rows <- zipw (fun (dw : list (cplx float) * list (cplx float))
                    (dly : float) =>
                  let '(d, w) := dw in
                  terms <- zipw cmul (fSlice w) (fSlice d) ;;
                  let rot := map (fun f => np_exp
                                             (cmul (cmul minus_two_pi_j
                                                         (dly, 0)) f))
                                 (fSlice freqs) in
                  terms <- zipw cmul terms rot ;;
                  Ok (angle (cdiv (csum terms) (csum (fSlice w)))))
               (combine data wgts) dlys ;;
  offset <- sequence rows ;;
  Ok (map (fun d => [d]) dlys, map (fun o => [o]) offset).
End FftDly.
End Float64.

(** ** Elementary functions

    numpy's elementary functions are correct up to rounding only.  The
    functions below are truncated series with the special cases for [nan],
    [inf] and zero; they take the place of numpy's functions where a solver
    is run on concrete arrays. *)

Module Libm.
Import Float64.
Local Open Scope float_scope.

Definition pi : float := 0x1.921fb54442d18p+1.
Definition ln2 : float := 0x1.62e42fefa39efp-1.

(** [acc + sum of the next n terms], each term being the previous one
    times [x / k], [k] growing by one. *)
Fixpoint exp_series (n : nat) (k term acc x : float) : float :=
  match n with
  | O => acc
  | S n' => let term' := term * x / k in
            exp_series n' (k + 1) term' (acc + term') x
  end.

Fixpoint square_times (n : nat) (v : float) : float :=
  match n with
  | O => v
  | S n' => square_times n' (v * v)
  end.

Definition exp (x : float) : float :=
  if PrimFloat.is_nan x then PrimFloat.nan
  else if x =? PrimFloat.infinity then PrimFloat.infinity
  else if x =? PrimFloat.neg_infinity then 0
  else square_times 10 (exp_series 20 1 1 1 (x / 1024)).

(** Alternating series: each term is the previous one times
    [- x2 / (k (k + 1))], [k] growing by two. *)
Fixpoint trig_series (n : nat) (k term acc x2 : float) : float :=
  match n with
  | O => acc
  | S n' => let term' := - term * x2 / (k * (k + 1)) in
            trig_series n' (k + 2) term' (acc + term') x2
  end.

Definition sin (x : float) : float := trig_series 30 2 x x (x * x).
Definition cos (x : float) : float := trig_series 30 1 1 1 (x * x).

(** [np.exp] of a complex sample *)
Definition cexp (z : cplx float) : cplx float :=
  let m := exp (fst z) in (m * cos (snd z), m * sin (snd z)).

(** Odd power series [s + s^3 c3 + s^5 c5 + ...] with coefficients
    [sign^j / (2 j + 1)]. *)
Fixpoint odd_series (n : nat) (sign k pow acc s2 : float) : float :=
  match n with
  | O => acc
  | S n' => let pow' := sign * pow * s2 in
            odd_series n' sign (k + 2) pow' (acc + pow' / k) s2
  end.

Definition log (x : float) : float :=
  if PrimFloat.is_nan x then PrimFloat.nan
  else if x <? 0 then PrimFloat.nan
  else if x =? 0 then PrimFloat.neg_infinity
  else if x =? PrimFloat.infinity then PrimFloat.infinity
  else
    let '(m, e) := FloatOps.Z.frexp x in
    let s := (m - 1) / (m + 1) in
    of_Z e * ln2 + 2 * odd_series 40 1 3 s s (s * s).

(** [arctan] of a non-negative argument: two halvings of the angle, then
    the series. *)
Definition atan_pos (t : float) : float :=
  let half (u : float) := u / (1 + PrimFloat.sqrt (1 + u * u)) in
  let small (u : float) :=
    let v := half (half u) in
    4 * odd_series 20 (-1) 3 v v (v * v) in
  if t <=? 1 then small t else pi / 2 - small (1 / t).

Definition arctan2 (y x : float) : float :=
  if PrimFloat.is_nan y || PrimFloat.is_nan x then PrimFloat.nan
  else if 0 <? x then
    if y <? 0 then - atan_pos (- y / x) else atan_pos (y / x)
  else if x <? 0 then
    if y <? 0 then atan_pos (y / x) - pi else pi - atan_pos (- y / x)
  else if 0 <? y then pi / 2
  else if y <? 0 then - (pi / 2)
  else 0.

(** [np.abs] of a complex sample *)
Definition cabs (z : cplx float) : float :=
  PrimFloat.sqrt (fst z * fst z + snd z * snd z).

(** The discrete Fourier transform of a row, term by term. *)
Definition fft (row : list (cplx float)) : list (cplx float) :=
  let n := List.length row in
  map (fun j =>
         fold_left
           (fun acc kx =>
              let th := 2 * pi * of_Z (Z.of_nat ((j * fst kx) mod n))
                        / of_Z (Z.of_nat n) in
              cadd acc (cmul (snd kx) (cos th, - sin th)))
           (combine (seq 0 n) row) (0, 0))
      (seq 0 n).

(** Insertion into a sorted list; a [nan] stays where it is met. *)
Fixpoint insert (x : float) (l : list float) : list float :=
  match l with
  | [] => [x]
  | y :: l' => if x <=? y then x :: l else y :: insert x l'
  end.

(** [scipy.signal.medfilt] on a 2D array: the median over a window of odd
    sizes, the array being padded with zeros. *)
Definition medfilt (a : list (list float)) (kernel : Z * Z)
  : result (list (list float)) :=
  let '(kt, kf) := kernel in
  if (Z.odd kt && Z.odd kf && (0 <? kt) && (0 <? kf))%Z then
    let ht := (kt / 2)%Z in
    let hf := (kf / 2)%Z in
    let at_ (t i : Z) : float :=
      if ((t <? 0) || (i <? 0))%Z then 0
      else match nth_error a (Z.to_nat t) with
           | Some r => nth (Z.to_nat i) r 0
           | None => 0
           end in
    let offs (h : Z) : list Z :=
      map (fun k => (Z.of_nat k - h)%Z) (seq 0 (Z.to_nat (2 * h + 1))) in
    Ok (map (fun tr : nat * list float =>
               map (fun i : nat =>
                      let window :=
                        flat_map (fun dt =>
                                    map (fun di =>
                                           at_ (Z.of_nat (fst tr) + dt)%Z
                                               (Z.of_nat i + di)%Z)
                                        (offs hf))
                                 (offs ht) in
                      nth (List.length window / 2)
                          (fold_right insert [] window) 0)
                   (seq 0 (List.length (snd tr))))
            (combine (seq 0 (List.length a)) a))
  else Raise ValueError.

Definition fft_dly :=
  Float64.fft_dly fft log cexp cabs arctan2 medfilt.
End Libm.

(** ** linsolve: how the equations are read

    [linsolve.LinearSolver] receives its equations as strings.  The
    equations written by [abscal] are sums and differences of products of
    names; a name given as a keyword argument is a constant, every other
    name is a parameter of the fit. *)

Module Linsolve.

Inductive token : Set :=
| TName (s : string)
| TPlus
| TMinus
| TStar.

Definition is_digit (c : ascii) : bool :=
  let n := nat_of_ascii c in ((48 <=? n) && (n <=? 57))%nat.

Definition is_letter (c : ascii) : bool :=
  let n := nat_of_ascii c in
  (((65 <=? n) && (n <=? 90)) || ((97 <=? n) && (n <=? 122))
   || (n =? 95))%nat.

Definition is_name_char (c : ascii) : bool := is_letter c || is_digit c.

(** The name read so far, if any, becomes a token. *)
Definition flush (cur : string) (ts : list token) : list token :=
  match cur with
  | EmptyString => ts
  | _ => TName cur :: ts
  end.

(** [lex s cur]: the tokens of [s], [cur] being the name that is being
    read.  A name starts with a letter or an underscore. *)
Fixpoint lex (s : string) (cur : string) : option (list token) :=
  match s with
  | EmptyString => Some (flush cur [])
  | String c s' =>
      if is_name_char c then
        match cur with
        | EmptyString =>
            if is_letter c then lex s' (String c EmptyString) else None
        | _ => lex s' (cur ++ String c EmptyString)
        end
      else
        match (if Ascii.eqb c " " then Some []
               else if Ascii.eqb c "+" then Some [TPlus]
               else if Ascii.eqb c "-" then Some [TMinus]
               else if Ascii.eqb c "*" then Some [TStar]
               else None),
              lex s' EmptyString with
        | Some op, Some ts => Some (flush cur (op ++ ts))
        | _, _ => None
        end
  end.

(** A term: its sign ([true] for minus) and its factors. *)
Definition term : Set := bool * list string.

(** [parse ts sign cur]: the terms of a token list, [cur] being the
    factors of the current term and [after_name] telling whether the last
    token was a name. *)
Fixpoint parse (ts : list token) (sign : bool) (cur : list string)
         (after_name : bool) : option (list term) :=
  match ts with
  | [] => if after_name then Some [(sign, cur)] else None
  | TName n :: ts' =>
      if after_name then None else parse ts' sign (cur ++ [n]) true
  | TStar :: ts' =>
      if after_name then parse ts' sign cur false else None
  | TPlus :: ts' =>
      if after_name
      then option_map (cons (sign, cur)) (parse ts' false [] false)
      else None
  | TMinus :: ts' =>
      if after_name
      then option_map (cons (sign, cur)) (parse ts' true [] false)
      else match cur with
           | [] => parse ts' (negb sign) [] false
           | _ => None
           end
  end.

Definition terms_of (eq : string) : option (list term) :=
  match lex eq EmptyString with
  | Some ts => parse ts false [] false
  | None => None
  end.

Section LinearForm.
Variable F : Type.
Variable Fone : F.
Variable Fmul : F -> F -> F.
Variable Fopp : F -> F.

(** A term with its constants multiplied out: the coefficient and the
    parameter.  A term must hold exactly one parameter. *)
Fixpoint linear_term (consts : odict string F) (names : list string)
         (coeff : F) (prm : option string) : option (F * string) :=
  match names with
  | [] => match prm with
          | Some p => Some (coeff, p)
          | None => None
          end
  | n :: names' =>
      match lookup String.eqb n consts with
      | Some c => linear_term consts names' (Fmul coeff c) prm
      | None => match prm with
                | Some _ => None
                | None => linear_term consts names' coeff (Some n)
                end
      end
  end.

Fixpoint all_some {A : Type} (l : list (option A)) : option (list A) :=
  match l with
  | [] => Some []
  | Some a :: l' => option_map (cons a) (all_some l')
  | None :: _ => None
  end.

(** The linear form of an equation: coefficients and parameters. *)
Definition linear_form (consts : odict string F) (eq : string)
  : option (list (F * string)) :=
  match terms_of eq with
  | Some ts =>
      all_some
        (map (fun t : term =>
                linear_term consts (snd t)
                            (if fst t then Fopp Fone else Fone) None) ts)
  | None => None
  end.
End LinearForm.
End Linsolve.

(** ** A linear solver on floats

    Weighted least squares by the normal equations, sample by sample; it
    takes the place of [linsolve.LinearSolver(...).solve()] where a solver
    is run on concrete arrays. *)

Module Lstsq.
Import Float64.
Local Open Scope float_scope.

(** The parameters of a list of linear forms, in the order they are met. *)
Definition parameters (forms : list (list (float * string))) : list string :=
  fold_left (fun acc p => if mem String.eqb p acc then acc else acc ++ [p])
            (map snd (List.concat forms)) [].

(** The row of the design matrix of a linear form. *)
Definition design_row (prms : list string) (form : list (float * string))
  : list float :=
  map (fun p =>
         fold_left (fun acc cn =>
                      if String.eqb (snd cn) p then acc + fst cn else acc)
                   form 0)
      prms.

(** The normal equations [A^T W A | A^T W y] of the rows [(a, y, w)]. *)
Definition normal_equations (n : nat)
           (rows : list (list float * float * float)) : list (list float) :=
  map (fun j =>
         map (fun k =>
                fold_left (fun acc r =>
                             let '(a, y, w) := r in
                             acc + w * nth j a 0 * nth k (a ++ [y]) 0)
                          rows 0)
             (seq 0 (S n)))
      (seq 0 n).

(** One step of Gauss-Jordan elimination, on column [c]. *)
Definition eliminate (n : nat) (M : list (list float)) (c : nat)
  : list (list float) :=
  let at_ (r k : nat) := nth k (nth r M []) 0 in
  match find (fun r => negb (at_ r c =? 0)) (seq c (n - c)) with
  | None => M
  | Some r =>
      let swapped :=
        map (fun i => if (i =? c)%nat then nth r M []
                      else if (i =? r)%nat then nth c M []
                      else nth i M [])
            (seq 0 n) in
      let prow := nth c swapped [] in
      let p := nth c prow 0 in
      let prow := map (fun x => x / p) prow in
      map (fun ir : nat * list float =>
             if (fst ir =? c)%nat then prow
             else let f := nth c (snd ir) 0 in
                  map (fun xy : float * float => fst xy - f * snd xy)
                      (combine (snd ir) prow))
          (combine (seq 0 n) swapped)
  end.

(** The solution of the normal equations; a parameter that the equations
    do not determine is 0. *)
Definition solve_normal (n : nat) (M : list (list float)) : list float :=
  let R := fold_left (eliminate n) (seq 0 n) M in
  map (fun j => if nth j (nth j R []) 0 =? 0 then 0
                else nth n (nth j R []) 0)
      (seq 0 n).

Definition real_sample (a : harr float) (t i : nat) : result float :=
  match a with
  | FArr x => match get2 x t i with
              | Some v => Ok v
              | None => Raise IndexError
              end
  | CArr _ => Raise NotImplementedError
  end.

Definition LinearSolver (data wgts : odict string (harr float))
           (consts : odict string float) : result (fit_t float) :=
  forms <- sequence
             (map (fun eq =>
                     match Linsolve.linear_form float 1 PrimFloat.mul
                             PrimFloat.opp consts eq with
                     | Some f => Ok f
                     | None => Raise ValueError
                     end) (keys data)) ;;
  let prms := parameters forms in
  let n := List.length prms in
  shape <- match data with
           | [] => Raise ValueError
           | (_, a) :: _ =>
               let x := as_complex float 0 a in
               Ok (List.length x, shape1 x)
           end ;;
  fits <- sequence
            (map (fun t =>
               sequence
                 (map (fun i =>
                    rows <- sequence
                      (map (fun ef : (string * harr float)
                                     * list (float * string) =>
                              let '((eq, a), form) := ef in
                              y <- real_sample a t i ;;
                              w <- match wgts with
                                   | [] => Ok 1
                                   | _ => match lookup String.eqb eq wgts with
                                          | Some aw => real_sample aw t i
                                          | None => Raise AssertionError
                                          end
                                   end ;;
                              Ok (design_row prms form, y, w))
                           (combine data forms)) ;;
                    Ok (solve_normal n (normal_equations n rows)))
                    (seq 0 (snd shape))))
               (seq 0 (fst shape))) ;;
  Ok (map (fun jp : nat * string =>
             (snd jp, map (map (fun sol => nth (fst jp) sol 0)) fits))
          (combine (seq 0 n) prms)).
End Lstsq.

(** ** The solvers on floats *)

Module Abscal64.
Local Open Scope float_scope.

(** [np.exp(1.0j * (np.einsum('i,ijk->jk', pos, [ew, ns]) + psi))] *)
Definition tt_gain (pos : list float) (ew ns psi : list (list float))
  : list (list (cplx float)) :=
  map (fun rows : list float * list float * list float =>
         let '(re, rn, rp) := rows in
         map (fun v : float * float * float =>
                let '(e, n, p) := v in
                Libm.cexp (Float64.cmul (0, 1)
                             (nth 0 pos 0 * e + nth 1 pos 0 * n + p, 0)))
             (combine (combine re rn) rp))
      (combine (combine ew ns) psi).

(** [np.exp(np.einsum('i,ijk,k->jk', pos, [ew, ns], freqs) * 2j * np.pi)]
    with [freqs = np.arange(nfreqs) * df] *)
Definition delay_slope_gain (pos : list float) (ew ns : list (list float))
           (nfreqs : nat) (df : float) : list (list (cplx float)) :=
  map (fun rows : list float * list float =>
         let t := nth 0 pos 0 * nth 0 (fst rows) 0
                  + nth 1 pos 0 * nth 0 (snd rows) 0 in
         map (fun k =>
                Libm.cexp (Float64.cmul
                             (Float64.cmul
                                (t * (Float64.of_Z (Z.of_nat k) * df), 0)
                                (0, 2))
                             (Libm.pi, 0)))
             (seq 0 nfreqs))
      (combine ew ns).

Definition log_abs := Float64.log_abs Libm.log Libm.cabs.
Definition angle := Float64.angle Libm.arctan2.

Definition abs_amp_logcal :=
  abs_amp_logcal float 0 1 PrimFloat.is_nan PrimFloat.is_infinity
    Float64.cdiv log_abs Libm.exp Utils.split_pol Lstsq.LinearSolver.

Definition amp_logcal :=
  amp_logcal float 0 1 PrimFloat.is_nan PrimFloat.is_infinity
    Float64.cdiv log_abs Utils.split_pol Lstsq.LinearSolver.

Definition phs_logcal :=
  phs_logcal float 0 1 PrimFloat.is_nan PrimFloat.is_infinity
    Float64.cdiv angle Utils.split_pol Lstsq.LinearSolver.

Definition TT_phs_logcal :=
  TT_phs_logcal float 0 1 PrimFloat.is_nan PrimFloat.is_infinity
    Float64.cdiv angle Utils.split_pol Lstsq.LinearSolver PrimFloat.sub
    tt_gain.

Definition delay_lincal :=
  delay_lincal float 0 1 PrimFloat.is_nan PrimFloat.is_infinity
    Float64.cdiv Utils.split_pol Lstsq.LinearSolver Libm.fft_dly
    Float64.nanmean_rows.

Definition delay_slope_lincal :=
  delay_slope_lincal float 0 1 PrimFloat.is_nan PrimFloat.is_infinity
    Float64.cdiv Utils.split_pol Lstsq.LinearSolver PrimFloat.sub
    Libm.fft_dly Float64.nanmean_rows delay_slope_gain.
End Abscal64.

(** ** Least squares over the reals

    What it means for a fit to solve a system of [linsolve] equations, the
    samples being real numbers: at every sample the fit minimises the
    weighted sum of the squared residuals. *)

Module LeastSquares.
Import Reals.
Local Open Scope R_scope.

(** A linear form: coefficients and parameters. *)
Definition form : Type := list (R * string).

Definition linear_form : odict string R -> string -> option form :=
  Linsolve.linear_form R 1 Rmult Ropp.

Definition eval_form (theta : string -> R) (f : form) : R :=
  fold_right (fun cn acc => fst cn * theta (snd cn) + acc) 0 f.

(** One equation at one sample: weight, linear form, datum. *)
Definition row : Type := R * form * R.

Definition cost (rows : list row) (theta : string -> R) : R :=
  fold_right (fun r acc =>
                let '(w, f, y) := r in
                w * (eval_form theta f - y) ^ 2 + acc)
             0 rows.

Definition real_sample (a : harr R) (t i : nat) : option R :=
  match a with
  | FArr x => get2 x t i
  | CArr _ => None
  end.

(** The weight of an equation; without weights every equation has the
    weight 1. *)
Definition weight_sample (wgts : odict string (harr R)) (eq : string)
           (t i : nat) : option R :=
  match wgts with
  | [] => Some 1
  | _ => match lookup String.eqb eq wgts with
         | Some a => real_sample a t i
         | None => None
         end
  end.

(** The equations of a system at the sample [t, i]. *)
Definition rows_at (data wgts : odict string (harr R))
           (consts : odict string R) (t i : nat) : option (list row) :=
  Linsolve.all_some
    (map (fun ea : string * harr R =>
            match weight_sample wgts (fst ea) t i,
                  linear_form consts (fst ea),
                  real_sample (snd ea) t i with
            | Some w, Some f, Some y => Some (w, f, y)
            | _, _, _ => None
            end) data).

(** The value of a parameter in a fit at the sample [t, i]. *)
Definition theta_of (fit : fit_t R) (t i : nat) (name : string) : R :=
  match lookup String.eqb name fit with
  | Some a => match get2 a t i with
              | Some v => v
              | None => 0
              end
  | None => 0
  end.

Definition least_squares (data wgts : odict string (harr R))
           (consts : odict string R) (fit : fit_t R) : Prop :=
  forall t i rows,
    rows_at data wgts consts t i = Some rows ->
    forall theta, cost rows (theta_of fit t i) <= cost rows theta.

(** A linear solver is a least-squares solver when what it returns is a
    least-squares fit, and when it returns one whenever there is one. *)
Definition least_squares_solver
           (LinearSolver : odict string (harr R) -> odict string (harr R) ->
                           odict string R -> result (fit_t R)) : Prop :=
  (forall data wgts consts fit,
      LinearSolver data wgts consts = Ok fit ->
      least_squares data wgts consts fit)
  /\ (forall data wgts consts,
         (exists fit, least_squares data wgts consts fit) ->
         exists fit, LinearSolver data wgts consts = Ok fit).

(** The solver that returns a least-squares fit whenever there is one. *)
Definition LinearSolver (data wgts : odict string (harr R))
           (consts : odict string R) : result (fit_t R) :=
  match ClassicalEpsilon.excluded_middle_informative
          (exists fit, least_squares data wgts consts fit) with
  | left H =>
      Ok (proj1_sig (ClassicalEpsilon.constructive_indefinite_description
                       _ H))
  | right _ => Raise ValueError
  end.
End LeastSquares.

(** ** The solvers on real numbers

    No sample is [nan] or [inf]; the functions of numpy are those of
    analysis. *)

Module AbscalR.
Import Reals.
Local Open Scope R_scope.

Definition never (x : R) : bool := false.

Definition cdiv (a b : cplx R) : cplx R :=
  let m := fst b * fst b + snd b * snd b in
  ((fst a * fst b + snd a * snd b) / m, (snd a * fst b - fst a * snd b) / m).

Definition log_abs (z : cplx R) : R :=
  ln (sqrt (fst z * fst z + snd z * snd z)).

(** [np.angle]: the argument in (-pi, pi]. *)
Definition angle (z : cplx R) : R :=
  let '(x, y) := z in
  if Rlt_dec 0 x then atan (y / x)
  else if Rlt_dec x 0 then
         if Rle_dec 0 y then atan (y / x) + PI else atan (y / x) - PI
       else if Rlt_dec 0 y then PI / 2
            else if Rlt_dec y 0 then - (PI / 2)
                 else 0.

Definition abs_amp_logcal
           (LinearSolver : odict string (harr R) -> odict string (harr R) ->
                           odict string R -> result (fit_t R)) :=
  abs_amp_logcal R 0 1 never never cdiv log_abs exp Utils.split_pol
    LinearSolver.

Definition phs_logcal_system :=
  phs_logcal_system R 0 1 never never cdiv angle Utils.split_pol.

Definition phs_logcal
           (LinearSolver : odict string (harr R) -> odict string (harr R) ->
                           odict string R -> result (fit_t R)) :=
  phs_logcal R 0 1 never never cdiv angle Utils.split_pol LinearSolver.

Definition delay_system := delay_system R 0 1 Utils.split_pol.
End AbscalR.

(** ** Polarization and baseline keys ([utils.py]) *)

Module UtilsKeys.
Import Pyuvdata Utils.

Definition jpair_eqb (a b : string * string) : bool :=
  String.eqb (fst a) (fst b) && String.eqb (snd a) (snd b).

(** [JOIN_POL = {v: k for k, v in SPLIT_POL.items()}] *)
Definition JOIN_POL : odict (string * string) string :=
  odict_of_list jpair_eqb (map (fun kv => (snd kv, fst kv)) SPLIT_POL).

(** [JOIN_POL[(_comply_antpol(p1), _comply_antpol(p2))]] *)
Definition join_pol (p1 p2 : string) : result string :=
  a <- _comply_antpol p1 ;;
  b <- _comply_antpol p2 ;;
  getitem (lookup jpair_eqb (a, b) JOIN_POL).

(** [comply_pol]: only a [ValueError] of [_comply_vispol] is caught. *)
Definition comply_pol (pol : string) : result string :=
  match _comply_vispol polstr2num polnum2str pol with
  | Raise ValueError => _comply_antpol pol
  | r => r
  end.

(** [split_bl]: [bl[2]] on a 2-tuple is an [IndexError]. *)
Definition split_bl (b : bl) : result (gkey * gkey) :=
  match b with
  | Bl2 _ _ => Raise IndexError
  | Bl3 i j pol =>
      pp <- split_pol pol ;;
      Ok ((i, fst pp), (j, snd pp))
  end.

Definition join_bl (ai aj : gkey) : result bl :=
  pol <- join_pol (snd ai) (snd aj) ;;
  Ok (Bl3 (fst ai) (fst aj) pol).

Definition comply_bl (b : bl) : result bl :=
  match b with
  | Bl2 _ _ => Ok b
  | Bl3 i j p => p' <- _comply_vispol polstr2num polnum2str p ;; Ok (Bl3 i j p')
  end.

(** The argument shapes [make_bl] accepts: [((i, j), pol)] and
    [(i, j, pol)], each as one tuple or as separate arguments. *)
Inductive make_bl_args : Set :=
| PairPol (ij : Z * Z) (pol : string)
| Triple (i j : Z) (pol : string).

Definition make_bl (args : make_bl_args) : result bl :=
  match args with
  | PairPol (i, j) pol | Triple i j pol =>
      p <- _comply_vispol polstr2num polnum2str pol ;; Ok (Bl3 i j p)
  end.
End UtilsKeys.

(** ** Rotations and rephasing ([utils.eq2top_m], [utils.top2eq_m],
       [utils.lst_rephase]) *)

(** [dlst]: one shift for all integrations (a float), or one per
    integration (a list or 1D array). *)
Inductive dlst_t (F : Type) : Type :=
| Scalar (d : F)
| Vector (ds : list F).

Arguments Scalar {F} d.
Arguments Vector {F} ds.

Section Rephase.
Variable F : Type.
Variable Fzero Fone : F.
Variable Fadd Fsub Fmul Fdiv : F -> F -> F.
Variable Fopp : F -> F.
Variable F_of_Z : Z -> F.

(** [np.sin], [np.cos], [np.pi], [np.exp] on [complex128] and
    [astropy.constants.c.value]. *)
Variable np_sin np_cos : F -> F.
Variable np_pi : F.
Variable cexp : cplx F -> cplx F.
Variable c_value : F.

Local Abbreviation cplx := (cplx F).
Local Abbreviation M := (M F).

(** [eq2top_m(ha, dec)] and [top2eq_m(ha, dec)] for scalar [ha] and [dec]:
    [mat] has two axes and is returned as it is. For arrays of one shape
    numpy evaluates the same expressions elementwise and the transpose
    puts the array axis first: one such matrix per element. *)
Definition eq2top_m (ha dec : F) : list (list F) :=
  let sin_H := np_sin ha in
  let cos_H := np_cos ha in
  let sin_d := np_sin dec in
  let cos_d := np_cos dec in
  [[sin_H; cos_H; Fzero];
   [Fmul (Fopp sin_d) cos_H; Fmul sin_d sin_H; cos_d];
   [Fmul cos_d cos_H; Fmul (Fopp cos_d) sin_H; sin_d]].

Definition top2eq_m (ha dec : F) : list (list F) :=
  let sin_H := np_sin ha in
  let cos_H := np_cos ha in
  let sin_d := np_sin dec in
  let cos_d := np_cos dec in
  [[sin_H; Fmul (Fopp cos_H) sin_d; Fmul cos_d cos_H];
   [cos_H; Fmul sin_d sin_H; Fmul (Fopp cos_d) sin_H];
   [Fzero; cos_d; sin_d]].

(** The sums of products [np.einsum] forms. *)
Definition dot (a b : list F) : F :=
  fold_left (fun acc p => Fadd acc (Fmul (fst p) (snd p))) (combine a b)
            Fzero.

Definition column_of (l : nat) (b : list (list F)) : list F :=
  map (fun r => nth l r Fzero) b.

(** [np.einsum("...jk,...kl->...jl", a, b)] on one pair of 3x3 matrices *)
Definition matmul (a b : list (list F)) : list (list F) :=
  map (fun row => map (fun l => dot row (column_of l b)) (seq 0 3)) a.

(** [rot], one matrix per entry of [dlst]; an array [dlst] turns [lat]
    into [np.ones_like(dlst) * lat] and [zero] into zeros. *)
Definition rotation (zero lat d : F) : list (list F) :=
  let dec := Fdiv (Fmul lat np_pi) (F_of_Z 180) in
  matmul (eq2top_m (Fopp d) dec) (top2eq_m zero dec).

Definition rotations (lat : F) (dlst : dlst_t F) : list (list (list F)) :=
  match dlst with
  | Scalar d => [rotation (F_of_Z 0) lat d]
  | Vector ds => map (rotation Fzero (Fmul Fone lat)) ds
  end.

(** [tau] for one rotation: [s_prime], [s_diff], [u = s_diff . bl] (a
    [ValueError] of [np.einsum] unless [bl] has three entries) and
    [u / c]. *)
Definition tau_of (bl : list F) (rot : list (list F)) : result F :=
  let zhat := [Fzero; Fzero; Fone] in
  let s_prime := map (fun row => dot row zhat) rot in
  let s_diff := map (fun p => Fsub (fst p) (snd p)) (combine s_prime zhat) in
  if (List.length bl =? 3)%nat then Ok (Fdiv (dot s_diff bl) c_value)
  else Raise ValueError.

Definition cmul (a b : cplx) : cplx :=
  (Fsub (Fmul (fst a) (fst b)) (Fmul (snd a) (snd b)),
   Fadd (Fmul (fst a) (snd b)) (Fmul (snd a) (fst b))).

(** A real operand of a complex product is cast to complex. *)
Definition of_real (x : F) : cplx := (x, Fzero).

(** [np.exp(-2j * np.pi * freqs[None, :] * tau[:, None])] *)
Definition phasor (freqs taus : list F) : list (list cplx) :=
  let m2pij := cmul (Fopp Fzero, Fopp (F_of_Z 2)) (of_real np_pi) in
  map (fun tau =>
         map (fun f => cexp (cmul (cmul m2pij (of_real f)) (of_real tau)))
             freqs)
      taus.

(** [a *= p] along one axis: [p] has the length of [a], or length 1 and is
    broadcast; anything else is a [ValueError]. *)
Definition broadcast {A B : Type} (f : A -> B -> result A)
           (a : list A) (p : list B) : result (list A) :=
  match p with
  | [x] => sequence (map (fun y => f y x) a)
  | _ => rows <- zipw f a p ;; sequence rows
  end.

Definition imul (data phs : list (list cplx)) : result (list (list cplx)) :=
  broadcast (broadcast (fun z w => Ok (cmul z w))) data phs.

(** The body of the loop over the keys: [bl] is [bls[k]], [l] holds
    [data[k]]. Multiplying a real array by the phasor in place is a
    [TypeError]. *)
Definition rephase_key (l : loc) (bl : result (list F)) (freqs : list F)
           (rots : list (list (list F))) : M unit :=
  b <~ lift bl ;;
  taus <~ lift (sequence (map (tau_of b) rots)) ;;
  a <~ read l ;;
  match a with
  | CArr x =>
      x' <~ lift (imul x (phasor freqs taus)) ;;
      write l (CArr x')
  | FArr _ => lift (Raise TypeError)
  end.

(** [copy.deepcopy(data)] *)
Definition deepcopy (data : container) : M container :=
  mmap (fun kl => a <~ read (snd kl) ;;
                  l <~ alloc a ;;
                  ret (fst kl, l))
       data.

(** [lst_rephase(data, bls, freqs, dlst, lat, inplace)] with
    [array=False]: the arrays of [data] are edited and nothing is returned,
    or those of a copy, which is returned. *)
Definition lst_rephase (data : container) (bls : odict bl (list F))
           (freqs : list F) (dlst : dlst_t F) (lat : F) (inplace : bool)
  : M (option container) :=
  let rots := rotations lat dlst in
  d <~ (if inplace then ret data else deepcopy data) ;;
  _ <~ mfor d (fun kl =>
                 rephase_key (snd kl)
                             (getitem (lookup bl_eqb (fst kl) bls))
                             freqs rots) ;;
  ret (if inplace then None else Some d).

(** [lst_rephase(data, bl, freqs, dlst, lat, inplace, array=True)]: [data]
    is one array and [bls] one vector. [inplace] decides whether the array
    is copied first; the rephased array is returned in both cases. *)
Definition lst_rephase_array (data : loc) (bl : list F) (freqs : list F)
           (dlst : dlst_t F) (lat : F) (inplace : bool) : M loc :=
  let rots := rotations lat dlst in
  l <~ (if inplace then ret data
        else (a <~ read data ;; alloc a)) ;;
  _ <~ rephase_key l (Ok bl) freqs rots ;;
  ret l.
End Rephase.

(** The rotations on [float64]. *)
Module RephaseFloat64.
Definition eq2top_m :=
  eq2top_m float 0%float PrimFloat.mul PrimFloat.opp Libm.sin Libm.cos.
Definition top2eq_m :=
  top2eq_m float 0%float PrimFloat.mul PrimFloat.opp Libm.sin Libm.cos.
End RephaseFloat64.

(** ** Time averaging ([frf.timeavg_waterfall]) *)

Section TimeAvg.
Variable F : Type.
Variable Fzero Fone : F.
Variable Fadd Fsub Fmul Fdiv : F -> F -> F.
Variable Fopp : F -> F.
Variable F_of_Z : Z -> F.
Variable np_sin np_cos : F -> F.
Variable np_pi : F.
Variable cexp : cplx F -> cplx F.
Variable c_value : F.

(** Division of [complex128], [x.clip(1e-10, np.inf)], [int(np.ceil(x))],
    [np.unwrap], [np.mean] of a 1D array and [x % (2 * np.pi)]. *)
Variable cdiv : cplx F -> cplx F -> cplx F.
Variable clip : F -> F.
Variable np_ceil : F -> Z.
Variable np_unwrap : list F -> list F.
Variable np_mean : list F -> F.
Variable mod_two_pi : F -> F.

Local Abbreviation cplx := (cplx F).
Local Abbreviation cmul := (cmul F Fadd Fsub Fmul).
Local Abbreviation of_real := (of_real F Fzero).

Definition cadd (a b : cplx) : cplx :=
  (Fadd (fst a) (fst b), Fadd (snd a) (snd b)).

(** What [timeavg_waterfall] returns. *)
Record timeavg : Type := mkTimeAvg {
  avg_data : list (list cplx);
  win_flags : list (list bool);
  avg_nsamples : list (list F);
  avg_lsts : list F;
  avg_extra_arrays : odict string (list F)
}.

(** A reduction along the time axis of the rows of one window: it starts
    from the first row. *)
Definition reduce_axis0 {A : Type} (op : A -> A -> A) (r : list A)
           (rs : list (list A)) : result (list A) :=
  fold_left (fun acc r' => a <- acc ;; zipw op a r') rs (Ok r).

(** [np.sum(a, axis=0)]; no row gives zeros for the [nf] channels. *)
Definition sum_axis0 {A : Type} (add : A -> A -> A) (zero : A) (nf : nat)
           (rows : list (list A)) : result (list A) :=
  match rows with
  | [] => Ok (repeat zero nf)
  | r :: rs => reduce_axis0 add r rs
  end.

(** [np.min(f, axis=0)] on booleans; no row is a [ValueError]. *)
Definition min_axis0 (rows : list (list bool)) : result (list bool) :=
  match rows with
  | [] => Raise ValueError
  | r :: rs => reduce_axis0 andb r rs
  end.

(** [utils.lst_rephase(d, bl_vec, freqs, dlst, lat=lat, inplace=False,
    array=True)] on a window [d]: the array that is returned. *)
Definition rephased (d : list (list cplx)) (bl_vec freqs : list F)
           (dlst : dlst_t F) (lat : F) : result (list (list cplx)) :=
  match lst_rephase_array F Fzero Fone Fadd Fsub Fmul Fdiv Fopp F_of_Z
          np_sin np_cos np_pi cexp c_value 0%nat bl_vec freqs dlst lat
          false [CArr d] with
  | (h, Ok l) =>
      match nth_error h l with
      | Some (CArr x) => Ok x
      | _ => Raise ValueError
      end
  | (_, Raise e) => Raise e
  end.

(** What one pass of the loop appends to the five outputs. *)
Definition window_t : Type :=
  (list cplx * list bool * list F * option F * list F)%type.

Section Window.
Variable data : list (list cplx).
Variable Navg : Z.
Variable flags : list (list bool).
Variable flagw nsamples : list (list F).
Variable rephase : bool.
Variable lsts freqs bl_vec : option (list F).
Variable lat : F.
Variable extra_arrays : odict string (list F).

Definition window (i : nat) : result window_t :=
  let start := Z.of_nat i * Navg in
  let stop := (Z.of_nat i + 1) * Navg in
  let d := py_slice start stop data in
  let f := py_slice start stop flags in
  let fw := py_slice start stop flagw in
  let n := py_slice start stop nsamples in
  let lst := option_map (py_slice start stop) lsts in
  let mean_l := option_map np_mean lst in
  d <- (if rephase then
          match lst, mean_l, freqs, bl_vec with
          | Some ls, Some m, Some fq, Some b =>
              rephased d b fq (Vector (map (fun l => Fsub m l) ls)) lat
          | _, _, _, _ => Raise AssertionError
          end
        else Ok d) ;;
  w <- zip2d Fmul fw (map (map (fun x => Fmul x x)) n) ;;
  s <- sum_axis0 Fadd Fzero (shape1 data) w ;;
  let w_sum := map clip s in
  dw <- zip2d (fun z x => cmul z (of_real x)) d w ;;
  sd <- sum_axis0 cadd (Fzero, Fzero) (shape1 data) dw ;;
  ad <- zipw (fun z x => cdiv z (of_real x)) sd w_sum ;;
  an <- sum_axis0 Fadd Fzero (shape1 data) w ;;
  wf <- min_axis0 f ;;
  let extras :=
    map (fun a => np_mean (py_slice start stop (snd a))) extra_arrays in
  Ok (ad, wf, an, mean_l, extras).
End Window.

(** [timeavg_waterfall(data, Navg, flags, nsamples, rephase, lsts, freqs,
    bl_vec, lat, extra_arrays)] for arrays of one shape. *)
Definition timeavg_waterfall (data : list (list cplx)) (Navg : Z)
           (flags : option (list (list bool)))
           (nsamples : option (list (list F))) (rephase : bool)
           (lsts freqs bl_vec : option (list F)) (lat : F)
           (extra_arrays : odict string (list F)) : result timeavg :=
  _ <- (if rephase then
          match lsts, freqs, bl_vec with
          | Some _, Some _, Some _ => Ok tt
          | _, _, _ => Raise AssertionError
          end
        else Ok tt) ;;
  let lsts := option_map np_unwrap lsts in
  let flags :=
    match flags with
    | Some f => f
    | None => map (map (fun _ => false)) data
    end in
  let flagw := map (map (fun b : bool => if b then Fzero else Fone)) flags in
  let nsamples :=
    match nsamples with
    | Some n => n
    | None => map (map (fun _ => Fone)) data
    end in
  let Ntimes := Z.of_nat (List.length data) in
  _ <- (if (Navg <=? Ntimes) && (0 <? Navg) then Ok tt
        else Raise AssertionError) ;;
  let Navg_times := np_ceil (Fdiv (F_of_Z Ntimes) (F_of_Z Navg)) in
  ws <- sequence
          (map (window data Navg flags flagw nsamples rephase lsts freqs
                       bl_vec lat extra_arrays)
               (seq 0 (Z.to_nat Navg_times))) ;;
  let field {A : Type} (g : window_t -> A) := map g ws in
  Ok (mkTimeAvg
        (field (fun w => fst (fst (fst (fst w)))))
        (field (fun w => snd (fst (fst (fst w)))))
        (field (fun w => snd (fst (fst w))))
        (map mod_two_pi
             (flat_map (fun w => match snd (fst w) with
                                 | Some m => [m]
                                 | None => []
                                 end) ws))
        (map (fun ia =>
                (("avg_" ++ fst (snd ia))%string,
                 map (fun w => nth (fst ia) (snd w) Fzero) ws))
             (combine (seq 0 (List.length extra_arrays)) extra_arrays))).
End TimeAvg.

(** [timeavg_waterfall] on binary64 floats. *)
Module FrfFloat64.
Local Open Scope float_scope.

(** [x.clip(1e-10, np.inf)]: a [nan] stays a [nan]. *)
Definition clip (x : float) : float :=
  if x <? 0x1.b7cdfd9d7bdbbp-34 then 0x1.b7cdfd9d7bdbbp-34 else x.

(** [int(np.ceil(x))] for a finite [x]. *)
Definition np_ceil (x : float) : Z :=
  match Prim2SF x with
  | SpecFloat.S754_finite s m e =>
      let p := (if 0 <=? e then Z.pos m * 2 ^ e
                else if s then Z.pos m / 2 ^ (- e)
                     else - (- Z.pos m / 2 ^ (- e)))%Z in
      if s then (- p)%Z else p
  | _ => 0%Z
  end.

Definition timeavg_waterfall :=
  timeavg_waterfall float 0 1 PrimFloat.add PrimFloat.sub PrimFloat.mul
                    PrimFloat.div PrimFloat.opp Float64.of_Z Libm.sin
                    Libm.cos Libm.pi Libm.cexp 0x1.1de784ap+28
                    Float64.cdiv clip np_ceil.
End FrfFloat64.

(** ** Matching data times to model times ([abscal.get_d2m_time_map]) *)

Module TimeMap.
Local Open Scope float_scope.

(** [2 * np.pi] *)
Definition two_pi : float := 2 * Libm.pi.

(** [np.argmin] along a row: the first minimum, or the first [nan]. *)
Fixpoint argmin_from (l : list float) (i best : nat) (bestv : float) : nat :=
  match l with
  | [] => best
  | x :: r =>
      if PrimFloat.is_nan bestv then best
      else if PrimFloat.is_nan x || (x <? bestv)
           then argmin_from r (S i) i x
           else argmin_from r (S i) best bestv
  end.

Definition argmin (l : list float) : result nat :=
  match l with
  | [] => Raise ValueError
  | x :: r => Ok (argmin_from r 1 0 x)
  end.

(** [lsts[lsts < lsts[0]] += 2 * np.pi]: the array as the statement leaves
    it; [lsts[0]] on an empty array is an [IndexError]. *)
Definition unwrap_lsts (lsts : list float) : result (list float) :=
  match lsts with
  | [] => Raise IndexError
  | l0 :: _ => Ok (map (fun l => if l <? l0 then l + two_pi else l) lsts)
  end.

(** [np.argmin(np.abs(model_lsts - dlst))] *)
Definition nearest (model_lsts : list float) (dlst : float) : result nat :=
  argmin (map (fun m => PrimFloat.abs (m - dlst)) model_lsts).

(** One pass of the loop over [enumerate(data_lsts)]: [d] is
    [(dind, dlst)]. *)
Definition m2d_step (data_lsts model_lsts : list float)
           (acc : result (odict nat nat)) (d : nat * float)
  : result (odict nat nat) :=
  m2d_ind_map <- acc ;;
  nearest_mind <- nearest model_lsts (snd d) ;;
  match lookup Nat.eqb nearest_mind m2d_ind_map with
  | Some prev =>
      ml <- getitem_list model_lsts nearest_mind ;;
      dl <- getitem_list data_lsts prev ;;
      if ml <? dl then Ok (setitem Nat.eqb nearest_mind (fst d) m2d_ind_map)
      else Ok m2d_ind_map
  | None => Ok (setitem Nat.eqb nearest_mind (fst d) m2d_ind_map)
  end.

Section Times.
Variable T : Type.
Variable T_eqb : T -> T -> bool.

(** One pass of the loop over [m2d_ind_map.items()]: [md] is
    [(mind, dind)]. *)
Definition d2m_step (data_times model_times : list T)
           (acc : result (odict T (option T))) (md : nat * nat)
  : result (odict T (option T)) :=
  d2m_time_map <- acc ;;
  m <- getitem_list model_times (fst md) ;;
  t <- getitem_list data_times (snd md) ;;
  Ok (setitem T_eqb t (Some m) d2m_time_map).

(** [get_d2m_time_map(data_times, data_lsts, model_times, model_lsts,
    unwrap)]: the two LST arrays as the call leaves them (they are
    unwrapped in place), and what is returned or raised. *)
Definition get_d2m_time_map (data_times : list T) (data_lsts : list float)
           (model_times : list T) (model_lsts : list float) (unwrap : bool)
  : (list float * list float) * result (odict T (option T)) :=
  match (if unwrap then unwrap_lsts data_lsts else Ok data_lsts) with
  | Raise e => ((data_lsts, model_lsts), Raise e)
  | Ok dl =>
      match (if unwrap then unwrap_lsts model_lsts else Ok model_lsts) with
      | Raise e => ((dl, model_lsts), Raise e)
      | Ok ml =>
          ((dl, ml),
           m2d_ind_map <- fold_left (m2d_step dl ml)
                                    (combine (seq 0 (List.length dl)) dl)
                                    (Ok []) ;;
           fold_left (d2m_step data_times model_times) m2d_ind_map
                     (Ok (odict_of_list T_eqb
                            (map (fun t => (t, None)) data_times))))
      end
  end.
End Times.
End TimeMap.

(** ** Chi-square ([utils.chisq]) *)

Section Chisq.
Variable F : Type.
Variable Fzero Fone : F.
Variable Fadd Fmul : F -> F -> F.

(** [np.abs], [-], [*] and [np.conj] on [complex128], and [x > 0]. *)
Variable cabs : cplx F -> F.
Variable csub cmul : cplx F -> cplx F -> cplx F.
Variable conj : cplx F -> cplx F.
Variable gtz : F -> bool.

Variable split_pol : string -> result (string * string).

Local Abbreviation cplx := (cplx F).
Local Abbreviation vis := (list (list cplx)).
Local Abbreviation arr := (list (list F)).
Local Abbreviation cnt := (list (list Z)).

(** The four values [chisq] returns when [split_by_antpol] is false. *)
Definition chisq_out : Type :=
  (arr * cnt * odict gkey arr * odict gkey cnt)%type.

(** With [split_by_antpol], [chisq] and [nObs] are dictionaries over the
    antenna polarizations. *)
Definition chisq_split_out : Type :=
  (odict string arr * odict string cnt * odict gkey arr * odict gkey cnt)%type.

(** [model] with the baselines of [reds] filled in from the first baseline
    of their group. *)
Definition expand_model (data model : odict bl vis)
           (reds : option (list (list bl))) : result (odict bl vis) :=
  match reds with
  | None => Ok model
  | Some rs =>
      fold_left
        (fun acc red =>
           m <- acc ;;
           if existsb (fun b => contains bl_eqb b data) red then
             fold_left (fun acc' b =>
                          m' <- acc' ;;
                          v <- match red with
                               | [] => Raise IndexError
                               | r0 :: _ => getitem (lookup bl_eqb r0 m')
                               end ;;
                          Ok (setitem bl_eqb b v m'))
                       red (Ok m)
           else Ok m)
        rs (Ok model)
  end.

(** [chisq_here] and [wgts > 0] for the baseline [b] between the antennas
    [ant1] and [ant2]. *)
Definition chisq_here (data model : odict bl vis) (data_wgts : odict bl arr)
           (gains : option (odict gkey vis))
           (gain_flags : option (odict gkey (list (list bool))))
           (b : bl) (ant1 ant2 : gkey) : result (arr * cnt) :=
  m <- getitem (lookup bl_eqb b model) ;;
  model_here <- match gains with
                | Some g =>
                    g1 <- getitem (lookup gkey_eqb ant1 g) ;;
                    mg <- zip2d cmul m g1 ;;
                    g2 <- getitem (lookup gkey_eqb ant2 g) ;;
                    zip2d cmul mg (map (map conj) g2)
                | None => Ok m
                end ;;
  w <- getitem (lookup bl_eqb b data_wgts) ;;
  let unflagged (x : F) (f : bool) := Fmul x (if f then Fzero else Fone) in
  wgts <- match gain_flags with
          | Some gf =>
              f1 <- getitem (lookup gkey_eqb ant1 gf) ;;
              w1 <- zip2d unflagged w f1 ;;
              f2 <- getitem (lookup gkey_eqb ant2 gf) ;;
              zip2d unflagged w1 f2
          | None => Ok w
          end ;;
  d <- getitem (lookup bl_eqb b data) ;;
  diff <- zip2d csub model_here d ;;
  here <- zip2d (fun z x => Fmul (Fmul (cabs z) (cabs z)) x) diff wgts ;;
  Ok (here, map (map (fun x => if gtz x then 1 else 0)) wgts).

(** The update of [chisq_per_ant] and [nObs_per_ant] (or, under
    [split_by_antpol], of [chisq] and [nObs]) for one key. *)
Definition accumulate_key {K : Type} (eqb : K -> K -> bool) (k : K)
           (here : arr) (obs : cnt) (acc : odict K arr * odict K cnt)
  : result (odict K arr * odict K cnt) :=
  let (c, n) := acc in
  match lookup eqb k c with
  | Some ck =>
      match lookup eqb k n with
      | None => Raise AssertionError
      | Some nk =>
          ck' <- zip2d Fadd ck here ;;
          nk' <- zip2d Z.add nk obs ;;
          Ok (setitem eqb k ck' c, setitem eqb k nk' n)
      end
  | None =>
      match lookup eqb k n with
      | Some _ => Raise AssertionError
      | None => Ok (setitem eqb k here c, setitem eqb k obs n)
      end
  end.

(** The optional pair of accumulators: both or none. *)
Definition both_or_none {A B : Type} (a : option A) (b : option B)
           (fresh : result (A * B)) : result (A * B) :=
  match a, b with
  | None, None => fresh
  | Some x, Some y => Ok (x, y)
  | _, _ => Raise ValueError
  end.

Section Loop.
Variable data model : odict bl vis.
Variable data_wgts : odict bl arr.
Variable gains : option (odict gkey vis).
Variable gain_flags : option (odict gkey (list (list bool))).

(** One pass of the loop over [data.keys()] without [split_by_antpol]. *)
Definition chisq_step (acc : result chisq_out) (b : bl) : result chisq_out :=
  a <- acc ;;
  let '(chisq, nObs, chisq_per_ant, nObs_per_ant) := a in
  pol <- bl_pol b ;;
  ap <- split_pol pol ;;
  if contains bl_eqb b model && contains bl_eqb b data_wgts then
    let ant1 := (fst (bl_ants b), fst ap) in
    let ant2 := (snd (bl_ants b), snd ap) in
    ho <- chisq_here data model data_wgts gains gain_flags b ant1 ant2 ;;
    let (here, obs) := ho in
    chisq <- zip2d Fadd chisq here ;;
    nObs <- zip2d Z.add nObs obs ;;
    pa <- accumulate_key gkey_eqb ant1 here obs
                         (chisq_per_ant, nObs_per_ant) ;;
    pa <- accumulate_key gkey_eqb ant2 here obs pa ;;
    Ok (chisq, nObs, fst pa, snd pa)
  else Ok a.

(** One pass of the loop with [split_by_antpol]: a cross-polarized
    baseline is passed over. *)
Definition chisq_split_step (acc : result chisq_split_out) (b : bl)
  : result chisq_split_out :=
  a <- acc ;;
  let '(chisq, nObs, chisq_per_ant, nObs_per_ant) := a in
  pol <- bl_pol b ;;
  ap <- split_pol pol ;;
  if contains bl_eqb b model && contains bl_eqb b data_wgts
     && String.eqb (fst ap) (snd ap) then
    let ant1 := (fst (bl_ants b), fst ap) in
    let ant2 := (snd (bl_ants b), snd ap) in
    ho <- chisq_here data model data_wgts gains gain_flags b ant1 ant2 ;;
    let (here, obs) := ho in
    cn <- accumulate_key String.eqb (fst ap) here obs (chisq, nObs) ;;
    pa <- accumulate_key gkey_eqb ant1 here obs
                         (chisq_per_ant, nObs_per_ant) ;;
    pa <- accumulate_key gkey_eqb ant2 here obs pa ;;
    Ok (fst cn, snd cn, fst pa, snd pa)
  else Ok a.
End Loop.

(** [data_wgts]: all ones with the keys of [data] when unspecified. *)
Definition default_data_wgts (data : odict bl vis)
           (data_wgts : option (odict bl arr)) : odict bl arr :=
  match data_wgts with
  | Some w => w
  | None =>
      odict_of_list bl_eqb
        (map (fun kv => (fst kv, map (map (fun _ => Fone)) (snd kv))) data)
  end.

(** [chisq(data, model, data_wgts, gains, gain_flags, reds=reds, chisq,
    nObs, chisq_per_ant, nObs_per_ant)] with [split_by_antpol=False];
    [chisq] and [nObs] are arrays. *)
Definition chisq (data model : odict bl vis)
           (data_wgts : option (odict bl arr))
           (gains : option (odict gkey vis))
           (gain_flags : option (odict gkey (list (list bool))))
           (reds : option (list (list bl)))
           (chisq : option arr) (nObs : option cnt)
           (chisq_per_ant : option (odict gkey arr))
           (nObs_per_ant : option (odict gkey cnt)) : result chisq_out :=
  cn <- both_or_none chisq nObs
          (d0 <- first_value data ;;
           Ok (map (map (fun _ => Fzero)) d0, map (map (fun _ => 0)) d0)) ;;
  pa <- both_or_none chisq_per_ant nObs_per_ant (Ok ([], [])) ;;
  let data_wgts := default_data_wgts data data_wgts in
  model <- expand_model data model reds ;;
  fold_left (chisq_step data model data_wgts gains gain_flags) (keys data)
            (Ok (fst cn, snd cn, fst pa, snd pa)).

(** The same call with [split_by_antpol=True]; [chisq] and [nObs] are
    dictionaries. *)
Definition chisq_split (data model : odict bl vis)
           (data_wgts : option (odict bl arr))
           (gains : option (odict gkey vis))
           (gain_flags : option (odict gkey (list (list bool))))
           (reds : option (list (list bl)))
           (chisq : option (odict string arr))
           (nObs : option (odict string cnt))
           (chisq_per_ant : option (odict gkey arr))
           (nObs_per_ant : option (odict gkey cnt))
  : result chisq_split_out :=
  cn <- both_or_none chisq nObs (Ok ([], [])) ;;
  pa <- both_or_none chisq_per_ant nObs_per_ant (Ok ([], [])) ;;
  let data_wgts := default_data_wgts data data_wgts in
  model <- expand_model data model reds ;;
  fold_left (chisq_split_step data model data_wgts gains gain_flags)
            (keys data) (Ok (fst cn, snd cn, fst pa, snd pa)).
End Chisq.

(** The sample of a waterfall at time [t] and channel [f] (the neutral
    element outside of its shape), and the sum of the samples at [(t, f)]
    of all the waterfalls of a dictionary. *)
Definition sample {X : Type} (zero : X) (a : list (list X)) (t f : nat) : X :=
  match get2 a t f with
  | Some v => v
  | None => zero
  end.

Definition summed {K X : Type} (add : X -> X -> X) (zero : X)
           (d : odict K (list (list X))) (t f : nat) : X :=
  fold_right (fun kv acc => add (sample zero (snd kv) t f) acc) zero d.

(** [chisq] on [float64]. *)
Module ChisqFloat64.
Local Open Scope float_scope.

Definition csub (a b : cplx float) : cplx float :=
  (fst a - fst b, snd a - snd b).
Definition conj (a : cplx float) : cplx float := (fst a, - snd a).

Definition chisq := chisq float 0 1 PrimFloat.add PrimFloat.mul Libm.cabs
                          csub Float64.cmul conj (fun x => 0 <? x)
                          Utils.split_pol.
Definition chisq_split :=
  chisq_split float 0 1 PrimFloat.add PrimFloat.mul Libm.cabs
              csub Float64.cmul conj (fun x => 0 <? x) Utils.split_pol.
End ChisqFloat64.

(** Whether the two antenna polarizations of the key [b] are the same. *)
Definition same_antpol (split_pol : string -> result (string * string))
           (b : bl) : bool :=
  match bl_pol b with
  | Ok pol => match split_pol pol with
              | Ok ap => String.eqb (fst ap) (snd ap)
              | Raise _ => false
              end
  | Raise _ => false
  end.

(** ** Matching data baselines to model baselines
    ([abscal.match_baselines]) *)

(** A list comprehension with a condition that may raise. *)
Fixpoint filter_r {A : Type} (p : A -> result bool) (l : list A)
  : result (list A) :=
  match l with
  | [] => Ok []
  | x :: l' =>
      b <- p x ;;
      r <- filter_r p l' ;;
      Ok (if b then x :: r else r)
  end.

Module MatchBaselines.
Local Open Scope float_scope.

(** [(bl in l) or (reverse_bl(bl) in l)] *)
Definition in_or_reversed (b : bl) (l : list bl) : result bool :=
  if mem bl_eqb b l then Ok true
  else r <- Pyuvdata.reverse_bl b ;; Ok (mem bl_eqb r l).

(** [list(set([bl[2] for bl_list in [data_bls, model_bls]
    for bl in bl_list]))] when [pols] is empty. *)
Definition default_pols (pols : list string) (data_bls model_bls : list bl)
  : result (list string) :=
  match pols with
  | [] => ps <- sequence (map bl_pol (data_bls ++ model_bls)) ;;
          Ok (py_set String.eqb ps)
  | _ => Ok pols
  end.

Definition _cut_bl_and_pol (pols : list string)
           (min_bl_cut max_bl_cut : option float)
           (bls : list bl) (antpos : odict Z vec) : result (list bl) :=
  fold_left
    (fun acc b =>
       bls_to_load <- acc ;;
       pol <- bl_pol b ;;
       if mem String.eqb pol pols then
         ants <- UtilsKeys.split_bl b ;;
         p2 <- getitem (lookup Z.eqb (fst (snd ants)) antpos) ;;
         p1 <- getitem (lookup Z.eqb (fst (fst ants)) antpos) ;;
         d <- vsub p2 p1 ;;
         let bl_length := norm d in
         if match min_bl_cut with
            | None => true
            | Some lo => lo <=? bl_length
            end
         then if match max_bl_cut with
                 | None => true
                 | Some hi => bl_length <=? hi
                 end
              then Ok (bls_to_load ++ [b])
              else Ok bls_to_load
         else Ok bls_to_load
       else Ok bls_to_load)
    bls (Ok []).

(** The branch for full data sets: the matching keys, straight or
    reversed. *)
Definition match_full (data_bl_to_load model_bl_to_load : list bl)
  : result (list bl * list bl * odict bl bl) :=
  data_bl_to_load <-
    filter_r (fun b => in_or_reversed b model_bl_to_load) data_bl_to_load ;;
  model_bl_to_load <-
    filter_r (fun b => in_or_reversed b data_bl_to_load) model_bl_to_load ;;
  let straight :=
    map (fun b => (b, b))
        (filter (fun b => mem bl_eqb b model_bl_to_load) data_bl_to_load) in
  reversed <-
    fold_right
      (fun b acc =>
         r <- Pyuvdata.reverse_bl b ;;
         if mem bl_eqb r model_bl_to_load then
           r' <- Pyuvdata.reverse_bl b ;;
           l <- acc ;;
           Ok ((b, r') :: l)
         else acc)
      (Ok []) data_bl_to_load ;;
  Ok (data_bl_to_load, model_bl_to_load,
      fold_left (fun d kv => setitem bl_eqb (fst kv) (snd kv) d) reversed
                (odict_of_list bl_eqb straight)).

Section Redundant.
(** [redcal.get_reds(antpos, pols=pols, bl_error_tol=tol)] *)
Variable get_reds : odict Z vec -> list string -> float
                    -> result (list (list bl)).

(** [(bl[0] - ant_offset, bl[1] - ant_offset, bl[2])] *)
Definition unshift (ant_offset : Z) (b : bl) : result bl :=
  match b with
  | Bl2 _ _ => Raise IndexError
  | Bl3 i j pol => Ok (Bl3 (i - ant_offset) (j - ant_offset) pol)
  end.

(** One pass of the loop over [joint_reds]. *)
Definition map_red (ant_offset : Z) (data_is_redsol : bool)
           (acc : result (odict bl bl)) (red : list bl)
  : result (odict bl bl) :=
  m <- acc ;;
  let data_bl_candidates :=
    filter (fun b => fst (bl_ants b) <? ant_offset)%Z red in
  model_bl_candidates <-
    sequence (map (unshift ant_offset)
                  (filter (fun b => ant_offset <=? fst (bl_ants b))%Z red)) ;;
  if (List.length model_bl_candidates <=? 1)%nat then
    let m' :=
      match model_bl_candidates with
      | [mb] => fold_left (fun d b => setitem bl_eqb b mb d)
                          data_bl_candidates m
      | _ => m
      end in
    if (List.length data_bl_candidates <=? 1)%nat || negb data_is_redsol
    then Ok m'
    else Raise AssertionError
  else Raise AssertionError.

(** The branch for a model (and maybe data) of unique baselines. *)
Definition match_redundant (data_antpos model_antpos : odict Z vec)
           (pols : list string) (data_is_redsol : bool) (tol : float)
           (data_bl_to_load model_bl_to_load : list bl)
  : result (list bl * list bl * odict bl bl) :=
  ant_offset <- match keys data_antpos with
                | [] => Raise ValueError
                | a :: l => Ok (fold_left Z.max l a + 1)%Z
                end ;;
  let joint_antpos :=
    fold_left (fun d kv => setitem Z.eqb (fst kv + ant_offset)%Z (snd kv) d)
              model_antpos data_antpos in
  joint_reds <- get_reds joint_antpos pols tol ;;
  let joint_reds :=
    map (filter (fun b => Bool.eqb (fst (bl_ants b) <? ant_offset)%Z
                                   (snd (bl_ants b) <? ant_offset)%Z))
        joint_reds in
  joint_reds <-
    sequence
      (map (filter_r
              (fun b =>
                 if mem bl_eqb b data_bl_to_load then Ok true else
                 r <- Pyuvdata.reverse_bl b ;;
                 if mem bl_eqb r data_bl_to_load then Ok true else
                 u <- unshift ant_offset b ;;
                 if mem bl_eqb u model_bl_to_load then Ok true else
                 u' <- unshift ant_offset b ;;
                 ru <- Pyuvdata.reverse_bl u' ;;
                 Ok (mem bl_eqb ru model_bl_to_load)))
           joint_reds) ;;
  let joint_reds :=
    filter (fun red => (0 <? List.length red)%nat) joint_reds in
  data_to_model_bl_map <-
    fold_left (map_red ant_offset data_is_redsol) joint_reds (Ok []) ;;
  data_bl_to_load <-
    filter_r (fun b => in_or_reversed b (keys data_to_model_bl_map))
             data_bl_to_load ;;
  model_bl_to_load <-
    filter_r (fun b => in_or_reversed b (map snd data_to_model_bl_map))
             model_bl_to_load ;;
  Ok (data_bl_to_load, model_bl_to_load, data_to_model_bl_map).

Definition match_baselines (data_bls model_bls : list bl)
           (data_antpos : odict Z vec) (model_antpos : option (odict Z vec))
           (pols : list string) (data_is_redsol model_is_redundant : bool)
           (tol : float) (min_bl_cut max_bl_cut : option float)
  : result (list bl * list bl * odict bl bl) :=
  if data_is_redsol && negb model_is_redundant then Raise NotImplementedError
  else
    let model_antpos := match model_antpos with
                        | None => data_antpos
                        | Some a => a
                        end in
    pols <- default_pols pols data_bls model_bls ;;
    data_bl_to_load <-
      _cut_bl_and_pol pols min_bl_cut max_bl_cut data_bls data_antpos ;;
    model_bl_to_load <-
      _cut_bl_and_pol pols min_bl_cut max_bl_cut model_bls model_antpos ;;
    if negb data_is_redsol && negb model_is_redundant then
      match_full data_bl_to_load model_bl_to_load
    else
      match_redundant data_antpos model_antpos pols data_is_redsol tol
                      data_bl_to_load model_bl_to_load.
End Redundant.
End MatchBaselines.

(** ** Relative differences of gains ([utils.gain_relative_difference]) *)

Section GainRelativeDifference.
Local Open Scope float_scope.

(** [np.abs] of a complex sample. *)
Variable np_abs : cplx float -> float.

(** What the output of [np.true_divide(..., where=...)] holds where the
    condition is false: the array is allocated without being filled. *)
Variable uninitialized : gkey -> nat -> nat -> float.

Local Abbreviation gains := (odict gkey (list (list (cplx float)))).

(** [z == 0] on a complex sample *)
Definition c_is_zero (z : cplx float) : bool := (fst z =? 0) && (snd z =? 0).

(** [np.isclose(x, 0.0)] with the default tolerances [atol = 1e-8] and
    [rtol = 1e-5]. *)
Definition isclose_zero (x : float) : bool :=
  let atol := 0x1.5798ee2308c3ap-27 in
  let rtol := 0x1.4f8b588e368f1p-17 in
  if Float64.isfinite x
  then PrimFloat.abs (x - 0) <=? atol + rtol * PrimFloat.abs 0
  else x =? 0.

(** The rows of an array numbered from 0, each with its numbered samples. *)
Definition indexed {A : Type} (a : list (list A))
  : list (list (nat * nat * A)) :=
  map (fun tr => map (fun fx => (fst tr, fst fx, snd fx))
                     (combine (seq 0 (List.length (snd tr))) (snd tr)))
      (combine (seq 0 (List.length a)) a).

(** The loop body for [ant]: the assertion, whose second operand indexes
    the dictionary [flags] with an array, and the masked division. *)
Definition relative_diff_of (old_gains denom : gains) (ant : gkey)
           (new : list (list (cplx float))) : result (list (list float)) :=
  d <- getitem (lookup gkey_eqb ant denom) ;;
  if existsb (existsb c_is_zero) d then Raise TypeError else
  o <- getitem (lookup gkey_eqb ant old_gains) ;;
  diff <- zip2d (fun a b => (fst a - fst b, snd a - snd b)) o new ;;
  zip2d (fun x y =>
           if negb (isclose_zero (snd y)) then snd x / snd y
           else uninitialized ant (fst (fst x)) (snd (fst x)))
        (indexed (map (map np_abs) diff)) (indexed (map (map np_abs) d)).

(** [a[m] = nan] for the boolean mask [m]. *)
Definition flag_nan (a : list (list float)) (m : list (list bool))
  : result (list (list float)) :=
  match zip2d (fun x (b : bool) => if b then nan else x) a m with
  | Ok r => Ok r
  | Raise _ => Raise IndexError
  end.

(** [np.nanmean(arrays, axis=0)]: the sum of the samples that are not nan
    over their number. *)
Definition nanmean_axis0 (arrays : list (list (list float)))
  : result (list (list float)) :=
  match arrays with
  | [] => Raise TypeError
  | a :: rest =>
      let arr := map (map (fun x => if PrimFloat.is_nan x then 0 else x)) in
      let unmasked :=
        map (map (fun x => if PrimFloat.is_nan x then 0%Z else 1%Z)) in
      tot <- fold_left (fun acc b => s <- acc ;; zip2d PrimFloat.add s (arr b))
                       rest (Ok (arr a)) ;;
      cnt <- fold_left (fun acc b => s <- acc ;; zip2d Z.add s (unmasked b))
                       rest (Ok (unmasked a)) ;;
      zip2d (fun x c => x / Float64.of_Z c) tot cnt
  end.

(** The average over the antennas of one polarization. *)
Definition avg_relative_diff_of (new_gains : gains)
           (flags : odict gkey (list (list bool)))
           (relative_diff : odict gkey (list (list float))) (pol : string)
  : result (list (list float)) :=
  diffs <- sequence
             (map (fun ant =>
                     r <- getitem (lookup gkey_eqb ant relative_diff) ;;
                     Ok (ant, r))
                  (filter (fun ant => String.eqb (snd ant) pol)
                          (keys new_gains))) ;;
  diffs <- fold_left
             (fun acc ant =>
                d <- acc ;;
                a <- getitem (lookup gkey_eqb ant d) ;;
                f <- getitem (lookup gkey_eqb ant flags) ;;
                a' <- flag_nan a f ;;
                Ok (setitem gkey_eqb ant a' d))
             (keys (odict_of_list gkey_eqb diffs))
             (Ok (odict_of_list gkey_eqb diffs)) ;;
  avg <- nanmean_axis0 (map snd diffs) ;;
  Ok (map (map (fun x => if Float64.isfinite x then x else 0)) avg).

(** [gain_relative_difference(old_gains, new_gains, flags, denom)]; the
    keys of [avg_relative_diff] come in the order of a Python set, which
    is not specified. *)
Definition gain_relative_difference (old_gains new_gains : gains)
           (flags : odict gkey (list (list bool))) (denom : option gains)
  : result (odict gkey (list (list float)) * odict string (list (list float)))
  :=
  let denom := match denom with
               | None => old_gains
               | Some d => d
               end in
  relative_diff <-
    fold_left (fun acc kv =>
                 rd <- acc ;;
                 r <- relative_diff_of old_gains denom (fst kv) (snd kv) ;;
                 Ok (setitem gkey_eqb (fst kv) r rd))
              new_gains (Ok []) ;;
  avg_relative_diff <-
    fold_left (fun acc pol =>
                 av <- acc ;;
                 a <- avg_relative_diff_of new_gains flags relative_diff pol ;;
                 Ok (setitem String.eqb pol a av))
              (py_set String.eqb (map snd (keys new_gains))) (Ok []) ;;
  Ok (relative_diff, avg_relative_diff).
End GainRelativeDifference.

(** ** Rephasing a model onto the LSTs of the data
    ([abscal.rephase_vis]) *)

Section RephaseVis.
Local Open Scope float_scope.

(** [np.sin], [np.cos], [np.exp] on [complex128] and
    [astropy.constants.c.value], as [utils.lst_rephase] uses them. *)
Variable np_sin np_cos : float -> float.
Variable cexp : cplx float -> cplx float.
Variable c_value : float.

Local Abbreviation M := (M float).
Local Abbreviation flag_dict := (odict bl (list (list bool))).

(** [a[lst_nn, :]]: the rows of [a] at the indices [lst_nn], as a new
    array. *)
Definition take_rows {A : Type} (a : list (list A)) (lst_nn : list nat)
  : result (list (list A)) :=
  sequence (map (getitem_list a) lst_nn).

Definition take_rows_harr (a : harr float) (lst_nn : list nat)
  : result (harr float) :=
  match a with
  | FArr x => r <- take_rows x lst_nn ;; Ok (FArr r)
  | CArr x => r <- take_rows x lst_nn ;; Ok (CArr r)
  end.

(** [f[flag_lst, :] = True] *)
Definition flag_rows (f : list (list bool)) (flag_lst : list bool)
  : result (list (list bool)) :=
  match zipw (fun row (b : bool) => if b then map (fun _ => true) row
                                    else row) f flag_lst with
  | Ok r => Ok r
  | Raise _ => Raise IndexError
  end.

(** What the loop over [model.keys()] works on: the dictionaries [model]
    and [flags] of the caller, and [new_model] and [new_flags], which are
    the same objects as [model] and [flags] under [inplace]. *)
Record vis_state : Type := mkVis {
  vs_model : container;
  vs_flags : option flag_dict;
  vs_new_model : container;
  vs_new_flags : flag_dict
}.

(** The loop body for the key [k]. *)
Definition vis_step (inplace : bool) (lst_nn : list nat)
           (flag_lst : list bool) (s : vis_state) (k : bl) : M vis_state :=
  l <~ lift (getitem (lookup bl_eqb k (vs_model s))) ;;
  a <~ read l ;;
  m <~ lift (take_rows_harr a lst_nn) ;;
  lm <~ alloc m ;;
  let new_model := setitem bl_eqb k lm (vs_new_model s) in
  let model := if inplace then new_model else vs_model s in
  f <~ lift match vs_flags s with
            | None => Ok (map (map (fun _ => false)) (as_complex float 0 m))
            | Some fl =>
                fk <- getitem (lookup bl_eqb k fl) ;; take_rows fk lst_nn
            end ;;
  let aliased := match vs_flags s with
                 | Some _ => inplace
                 | None => false
                 end in
  f' <~ lift (flag_rows f flag_lst) ;;
  let new_flags := setitem bl_eqb k f' (vs_new_flags s) in
  ret (mkVis model
             (if aliased then Some new_flags else vs_flags s)
             new_model new_flags).

Fixpoint vis_loop (inplace : bool) (lst_nn : list nat) (flag_lst : list bool)
         (ks : list bl) (s : vis_state) : M vis_state :=
  match ks with
  | [] => ret s
  | k :: ks' =>
      s' <~ vis_step inplace lst_nn flag_lst s k ;;
      vis_loop inplace lst_nn flag_lst ks' s'
  end.

(** [dlst = data_lsts - model_lsts[lst_nn]] *)
Definition dlst_of (model_lsts data_lsts : list float) (lst_nn : list nat)
  : result (list float) :=
  ml <- sequence (map (getitem_list model_lsts) lst_nn) ;;
  zipw PrimFloat.sub data_lsts ml.

(** [rephase_vis(model, model_lsts, data_lsts, bls, freqs, inplace, flags,
    max_dlst, latitude)]: [data_lsts] as the call leaves it (the array is
    unwrapped in place), the rephased model and the new flags. *)
Definition rephase_vis (model : container) (model_lsts data_lsts : list float)
           (bls : odict bl (list float)) (freqs : list float)
           (inplace : bool) (flags : option flag_dict)
           (max_dlst latitude : float)
  : M (list float * container * flag_dict) :=
  data_lsts <~ lift (TimeMap.unwrap_lsts data_lsts) ;;
  lst_nn <~ lift (sequence (map (TimeMap.nearest model_lsts) data_lsts)) ;;
  dlst <~ lift (dlst_of model_lsts data_lsts lst_nn) ;;
  let flag_lst := map (fun d => max_dlst <? PrimFloat.abs d) dlst in
  let new_model := if inplace then model else [] in
  let new_flags := match flags with
                   | Some fl => if inplace then fl else []
                   | None => []
                   end in
  s <~ vis_loop inplace lst_nn flag_lst (keys model)
                (mkVis model flags new_model new_flags) ;;
  r <~ lst_rephase float 0 1 PrimFloat.add PrimFloat.sub PrimFloat.mul
                   PrimFloat.div PrimFloat.opp Float64.of_Z np_sin np_cos
                   Libm.pi cexp c_value (vs_new_model s) bls freqs
                   (Vector dlst) latitude inplace ;;
  ret (data_lsts,
       match r with
       | None => vs_new_model s
       | Some d => d
       end,
       vs_new_flags s).
End RephaseVis.

(** ** [float64] instances for the phase-slope solvers

    [scipy.optimize.brute], [redcal.get_pos_reds], the [red_average] that
    [global_phase_slope_logcal] calls and the formatting of a float are
    not part of the sources; the functions below stand for them where a
    run is evaluated: a grid search without the final polishing step,
    the groups of an array without redundant baselines, the average of a
    group of one baseline, and the decimal form of a float with an integer
    value. *)
Module PhaseSlope64.
Local Open Scope float_scope.

(** [np.min] and [np.max]: the first [nan] wins. *)
Definition np_min (l : list float) : float :=
  match l with
  | [] => nan
  | x :: r =>
      fold_left (fun a b =>
                   if PrimFloat.is_nan a then a
                   else if PrimFloat.is_nan b || (b <? a) then b else a) r x
  end.

Definition np_max (l : list float) : float :=
  match l with
  | [] => nan
  | x :: r =>
      fold_left (fun a b =>
                   if PrimFloat.is_nan a then a
                   else if PrimFloat.is_nan b || (a <? b) then b else a) r x
  end.

(** The points [lo + k * step] below [hi] of a slice. *)
Fixpoint grid_from (fuel : nat) (k : Z) (lo hi step : float) : list float :=
  match fuel with
  | O => []
  | S fuel' =>
      let x := lo + Float64.of_Z k * step in
      if x <? hi then x :: grid_from fuel' (k + 1)%Z lo hi step else []
  end.

(** [-np.abs(np.dot(z, np.exp(-2.0j * np.pi * (x * k[0] + y * k[1]))))] *)
Definition dft_abs (k : float * float) (x y : list float)
           (z : list (cplx float)) : float :=
  - Libm.cabs
      (fold_left
         (fun acc xyz : cplx float =>
            Float64.cadd acc xyz)
         (map (fun xyz : float * float * cplx float =>
                 let '(xj, yj, zj) := xyz in
                 Float64.cmul zj
                   (Libm.cexp (0, -2 * Libm.pi * (xj * fst k + yj * snd k))))
              (combine (combine x y) z))
         (0, 0)).

(** The grid point where [dft_abs] is least, the first one on a tie. *)
Definition brute (search : float * float * float) (x y : list float)
           (z : list (cplx float)) : result (float * float) :=
  let '(lo, hi, step) := search in
  let pts := grid_from 64 0 lo hi step in
  match flat_map (fun kx => map (fun ky => (kx, ky)) pts) pts with
  | [] => Raise ValueError
  | k0 :: ks =>
      Ok (fst (fold_left (fun best k =>
                            let c := dft_abs k x y z in
                            if c <? snd best then (k, c) else best)
                         ks (k0, dft_abs k0 x y z)))
  end.

Definition dft_phase_slope_solver :=
  dft_phase_slope_solver float 0 1 PrimFloat.is_nan PrimFloat.add
    PrimFloat.sub PrimFloat.mul PrimFloat.div PrimFloat.sqrt np_min np_max
    brute.

(** One group for every pair of antennas. *)
Fixpoint all_pairs (ants : list Z) : list (list (Z * Z)) :=
  match ants with
  | [] => []
  | i :: rest => map (fun j => [(i, j)]) rest ++ all_pairs rest
  end.

Definition get_pos_reds (antpos : antpos_t float) (tol : float)
  : result (list (list (Z * Z))) :=
  Ok (all_pairs (keys antpos)).

(** The average of a group of one baseline: the unflagged samples, and 0
    where the baseline is flagged. *)
Definition red_average (data : vis_t float) (reds : list (list (Z * Z)))
           (flags : odict bl (list (list bool)))
  : result (vis_t float * odict bl (list (list bool))) :=
  fold_right
    (fun kv acc =>
       if mem pair_eqb (bl_ants (fst kv)) (map (hd (0, 0)%Z) reds) then
         f <- getitem (lookup bl_eqb (fst kv) flags) ;;
         d <- zip2d (fun (z : cplx float) (b : bool) =>
                       if b then (0, 0) else z) (snd kv) f ;;
         r <- acc ;;
         Ok ((fst kv, d) :: fst r, (fst kv, f) :: snd r)
       else acc)
    (Ok ([], [])) data.

(** [z / np.abs(z)] *)
Definition cnormalize (z : cplx float) : cplx float :=
  Float64.cdiv z (Libm.cabs z, 0).

(** [np.isclose(x, 0.0)] *)
Definition isclose0 (x : float) : bool :=
  PrimFloat.abs x <=? 0x1.5798ee2308c3ap-27.

(** [x.astype(np.bool)] *)
Definition nonzero (x : float) : bool := negb (x =? 0).

(** [np.nanmedian] of a row: the middle of the sorted numbers, the mean of
    the two middle ones when they are even in number, [nan] when there is
    none. *)
Definition nanmedian (l : list float) : float :=
  let kept := filter (fun x => negb (PrimFloat.is_nan x)) l in
  let s := fold_right Libm.insert [] kept in
  let n := List.length s in
  match n with
  | O => nan
  | _ =>
      if Nat.odd n then nth (n / 2) s nan
      else (nth (n / 2 - 1) s nan + nth (n / 2) s nan) / 2
  end.

(** The order of complex numbers in a sort: by real part, then by
    imaginary part. *)
Definition c_leb (a b : cplx float) : bool :=
  (fst a <? fst b) || ((fst a =? fst b) && (snd a <=? snd b)).

Fixpoint c_insert (x : cplx float) (l : list (cplx float))
  : list (cplx float) :=
  match l with
  | [] => [x]
  | y :: l' => if c_leb x y then x :: l else y :: c_insert x l'
  end.

Definition nanmedian_c (l : list (cplx float)) : cplx float :=
  let kept := filter (fun z => negb (c_isnan float PrimFloat.is_nan z)) l in
  let s := fold_right c_insert [] kept in
  let n := List.length s in
  match n with
  | O => (nan, nan)
  | _ =>
      if Nat.odd n then nth (n / 2) s (nan, nan)
      else
        let a := nth (n / 2 - 1) s (nan, nan) in
        let b := nth (n / 2) s (nan, nan) in
        ((fst a + fst b) / 2, (snd a + snd b) / 2)
  end.

Definition fsum (l : list float) : float := fold_left PrimFloat.add l 0.

(** ['{}'.format(x)] for a float with an integer value, as in ['1.0'];
    another finite float is written by its mantissa and exponent. *)
Definition fmt (x : float) : string :=
  match Prim2SF x with
  | SpecFloat.S754_zero s => if s then "-0.0" else "0.0"
  | SpecFloat.S754_infinity s => if s then "-inf" else "inf"
  | SpecFloat.S754_nan => "nan"
  | SpecFloat.S754_finite s m e =>
      let sign := if s then "-" else "" in
      if (0 <=? e)%Z then
        sign ++ str_of_Z (Z.pos m * 2 ^ e) ++ ".0"
      else if (Z.pos m mod 2 ^ (- e) =? 0)%Z then
        sign ++ str_of_Z (Z.pos m / 2 ^ (- e)) ++ ".0"
      else sign ++ str_of_Z (Z.pos m) ++ "p" ++ str_of_Z e
  end%string.

Definition phase_slope_averages :=
  phase_slope_averages float 0 1 PrimFloat.sub get_pos_reds red_average
    nonzero.

Definition phase_slope_system :=
  phase_slope_system float 0 1 nan PrimFloat.is_nan PrimFloat.is_infinity
    PrimFloat.sub PrimFloat.mul Utils.split_pol get_pos_reds red_average
    Float64.cdiv cnormalize Abscal64.angle isclose0 nonzero nanmedian
    nanmedian_c fsum fmt.
End PhaseSlope64.

(** * Theorems *)

Lemma bl_eqb_eq (a b : bl) : bl_eqb a b = true <-> a = b.
Proof.
  destruct a, b; simpl; split; intro H; try discriminate.
  - apply andb_true_iff in H as [H1 H2].
    apply Z.eqb_eq in H1, H2. congruence.
  - inversion H; subst. now rewrite !Z.eqb_refl.
  - apply andb_true_iff in H as [H12 H3].
    apply andb_true_iff in H12 as [H1 H2].
    apply Z.eqb_eq in H1, H2. apply String.eqb_eq in H3. congruence.
  - inversion H; subst. now rewrite !Z.eqb_refl, String.eqb_refl.
Qed.

(** ** Theorems about [reverse_bl] *)

(** [reverse_bl] on a pair never fails and is an involution. *)
Lemma reverse_bl_twice_pair polstr2num polnum2str conj_pol (i j : Z) :
  reverse_bl_twice polstr2num polnum2str conj_pol (Bl2 i j) = Ok (Bl2 i j).
Proof. reflexivity. Qed.

(** In general the second reversal returns the complied polarization, not
    the string that was passed in. *)
Lemma reverse_bl_twice_triple polstr2num polnum2str conj_pol
      (i j : Z) (pol p c p' c' : string) :
  _comply_vispol polstr2num polnum2str pol = Ok p ->
  conj_pol p = Ok c ->
  _comply_vispol polstr2num polnum2str c = Ok p' ->
  conj_pol p' = Ok c' ->
  reverse_bl_twice polstr2num polnum2str conj_pol (Bl3 i j pol)
  = Ok (Bl3 i j c').
Proof.
  intros Hp Hc Hp' Hc'.
  unfold reverse_bl_twice, reverse_bl.
  rewrite Hp; simpl. rewrite Hc; simpl.
  rewrite Hp'; simpl. now rewrite Hc'.
Qed.

(** C8 (as stated, refuted): with pyuvdata's case-insensitive tables the key
    [(0, 1, 'XX')] comes back as [(0, 1, 'xx')]. *)
Lemma reverse_bl_twice_not_identity :
  Pyuvdata.reverse_bl_twice (Bl3 0 1 "XX") = Ok (Bl3 0 1 "xx")
  /\ Pyuvdata.reverse_bl_twice (Bl3 0 1 "XX") <> Ok (Bl3 0 1 "XX").
Proof.
  assert (E : Pyuvdata.reverse_bl_twice (Bl3 0 1 "XX") = Ok (Bl3 0 1 "xx"))
    by (vm_compute; reflexivity).
  split; [exact E | rewrite E; discriminate].
Qed.

(** C8 (amended): [reverse_bl] applied twice is the identity on every pair
    [(i, j)], and on every triple [(i, j, pol)] whose polarization string is
    already complied ([_comply_vispol] returns it unchanged) and whose
    conjugate polarization is complied and conjugates back to [pol]. *)
Theorem reverse_bl_involutive polstr2num polnum2str conj_pol
        (i j : Z) (pol c : string) :
  _comply_vispol polstr2num polnum2str pol = Ok pol ->
  conj_pol pol = Ok c ->
  _comply_vispol polstr2num polnum2str c = Ok c ->
  conj_pol c = Ok pol ->
  reverse_bl_twice polstr2num polnum2str conj_pol (Bl2 i j) = Ok (Bl2 i j)
  /\ reverse_bl_twice polstr2num polnum2str conj_pol (Bl3 i j pol)
     = Ok (Bl3 i j pol).
Proof.
  intros H1 H2 H3 H4. split.
  - apply reverse_bl_twice_pair.
  - now apply (reverse_bl_twice_triple _ _ _ i j pol pol c c pol).
Qed.

Lemma reverse_bl_involutive_witness :
  Pyuvdata.reverse_bl_twice (Bl2 3 7) = Ok (Bl2 3 7)
  /\ Pyuvdata.reverse_bl_twice (Bl3 3 7 "xy") = Ok (Bl3 3 7 "xy").
Proof.
  apply (reverse_bl_involutive Pyuvdata.polstr2num Pyuvdata.polnum2str
           Pyuvdata.conj_pol 3 7 "xy" "yx"); reflexivity.
Defined.

(** ** Theorems about [cut_bls] *)

Section CutBlsFacts.
Context {V : Type}.

Lemma cut_loop_missing (bls : odict bl vec) (lo hi : float) (k : bl) :
  lookup bl_eqb k bls = None ->
  forall (ks : list bl) (d : odict bl V) (sk : list bl),
    In k ks ->
    snd (cut_loop bls lo hi ks d sk) = Raise KeyError.
Proof.
  intros Hk ks. induction ks as [|k' ks IH]; intros d sk Hin.
  - destruct Hin.
  - simpl. destruct (lookup bl_eqb k' bls) as [v|] eqn:E; simpl.
    + assert (Hne : k' <> k) by (intro; subst; congruence).
      destruct Hin as [->|Hin]; [congruence|].
      unfold contains. rewrite E. simpl.
      destruct ((hi <? norm v)%float || (norm v <? lo)%float);
        now apply IH.
    + reflexivity.
Qed.

(** The [continue] of the guard [if k not in bls] is never executed. *)
Lemma cut_loop_never_skips (bls : odict bl vec) (lo hi : float) :
  forall (ks : list bl) (d d' : odict bl V) (sk sk' : list bl),
    cut_loop bls lo hi ks d sk = (d', Ok sk') -> sk' = sk.
Proof.
  induction ks as [|k ks IH]; intros d d' sk sk' H; simpl in H.
  - now inversion H.
  - destruct (lookup bl_eqb k bls) as [v|] eqn:E; simpl in H.
    + unfold contains in H. rewrite E in H. simpl in H.
      destruct ((hi <? norm v)%float || (norm v <? lo)%float);
        now apply IH in H.
    + inversion H.
Qed.

(** C10: when some key of the container is absent from the [bls]
    dictionary that the loop reads, [cut_bls] raises [KeyError]; and the
    [continue] of the membership guard is never executed, whatever the
    input. *)
Theorem cut_bls_missing_key_raises
        (dc : DataContainer V) (bls : option (odict bl vec))
        (min_bl_cut max_bl_cut : option float) (inplace : bool)
        (b : odict bl vec) (k : bl) :
  effective_bls dc bls = Ok b ->
  In k (keys (dc_data dc)) ->
  lookup bl_eqb k b = None ->
  snd (cut_bls dc bls min_bl_cut max_bl_cut inplace) = Raise KeyError
  /\ (forall lo hi ks (d d' : odict bl V) sk,
         cut_loop b lo hi ks d [] = (d', Ok sk) -> sk = []).
Proof.
  intros Hb Hin Hk. split.
  - unfold cut_bls. rewrite Hb.
    pose proof (cut_loop_missing b (default_cut min_bl_cut 0%float)
                  (default_cut max_bl_cut 1e10%float) k Hk
                  (keys (dc_data dc)) (dc_data dc) [] Hin) as H.
    destruct (cut_loop b _ _ (keys (dc_data dc)) (dc_data dc) [])
      as [d r]. simpl in H. subst r. now destruct inplace.
  - intros lo hi ks d d' sk H. now apply cut_loop_never_skips in H.
Qed.
End CutBlsFacts.

(** A container with the keys [(0,1,'xx')] and [(0,2,'xx')] and a [bls]
    dictionary that only knows the first. *)
Definition dc_two_keys : DataContainer nat :=
  mkDC [(Bl3 0 1 "xx", 10%nat); (Bl3 0 2 "xx", 20%nat)] None.

Definition bls_one_key : odict bl vec :=
  [(Bl3 0 1 "xx", [14.5%float; 0%float; 0%float])].

Lemma cut_bls_missing_key_raises_witness :
  snd (cut_bls dc_two_keys (Some bls_one_key) None None false)
  = Raise KeyError
  /\ (forall lo hi ks (d d' : odict bl nat) sk,
         cut_loop bls_one_key lo hi ks d [] = (d', Ok sk) -> sk = []).
Proof.
  apply (cut_bls_missing_key_raises dc_two_keys (Some bls_one_key) None None
           false bls_one_key (Bl3 0 2 "xx")).
  - reflexivity.
  - simpl. right. left. reflexivity.
  - reflexivity.
Defined.

(** ** Facts about ordered dictionaries and Python sets *)

Section OdictFacts.
Context {K V : Type} (eqb : K -> K -> bool).
Hypothesis eqb_eq : forall a b, eqb a b = true <-> a = b.

Lemma eqb_refl_true (a : K) : eqb a a = true.
Proof. now apply eqb_eq. Qed.

Lemma lookup_setitem (k k' : K) (v : V) (d : odict K V) :
  lookup eqb k (setitem eqb k' v d)
  = if eqb k k' then Some v else lookup eqb k d.
Proof.
  induction d as [|[k0 v0] d IH]; simpl.
  - reflexivity.
  - destruct (eqb k' k0) eqn:E0; simpl.
    + apply eqb_eq in E0. subst k0.
      now destruct (eqb k k').
    + rewrite IH. destruct (eqb k k0) eqn:E1; [|reflexivity].
      apply eqb_eq in E1. subst k0.
      destruct (eqb k k') eqn:E2; [|reflexivity].
      apply eqb_eq in E2. subst k'. rewrite eqb_refl_true in E0.
      discriminate.
Qed.

Lemma lookup_In_keys (k : K) (d : odict K V) :
  In k (keys d) <-> lookup eqb k d <> None.
Proof.
  induction d as [|[k0 v0] d IH]; simpl.
  - split; [intros []|intros H; now apply H].
  - destruct (eqb k k0) eqn:E.
    + apply eqb_eq in E. subst. split; [discriminate|auto].
    + rewrite <- IH. split; [intros [H|H]|auto]; [|exact H].
      subst. rewrite eqb_refl_true in E. discriminate.
Qed.

Lemma mem_In (k : K) (l : list K) : mem eqb k l = true <-> In k l.
Proof.
  unfold mem. rewrite existsb_exists. split.
  - intros [x [Hin Hx]]. apply eqb_eq in Hx. now subst.
  - intros Hin. exists k. split; [exact Hin|apply eqb_refl_true].
Qed.

Lemma In_py_set (k : K) (l : list K) : In k (py_set eqb l) <-> In k l.
Proof.
  induction l as [|x l IH]; simpl; [tauto|].
  destruct (mem eqb x l) eqn:E; simpl; rewrite IH.
  - apply mem_In in E. split; [auto|intros [->|H]; auto].
  - tauto.
Qed.

Lemma In_insert_sorted (leb : K -> K -> bool) (k x : K) (l : list K) :
  In k (insert_sorted leb x l) <-> k = x \/ In k l.
Proof.
  induction l as [|y l IH]; simpl.
  - intuition.
  - destruct (leb x y); simpl; [intuition|]. rewrite IH. intuition.
Qed.

Lemma In_sorted (leb : K -> K -> bool) (k : K) (l : list K) :
  In k (sorted leb l) <-> In k l.
Proof.
  induction l as [|x l IH]; simpl; [tauto|].
  rewrite In_insert_sorted, IH. intuition.
Qed.
End OdictFacts.

Lemma gkey_eqb_eq (a b : gkey) : gkey_eqb a b = true <-> a = b.
Proof.
  destruct a as [i p], b as [j q]. unfold gkey_eqb. simpl.
  rewrite andb_true_iff, Z.eqb_eq, String.eqb_eq.
  split; [intros [-> ->]; reflexivity|intros H; inversion H; auto].
Qed.

(** ** Theorems about [merge_gains] *)

Section MergeGainsFacts.
Variable C : Type.
Variable Cmul Cadd : C -> C -> C.
Variable C_of_bool : bool -> C.
Variable C_one : C.

Local Abbreviation gdict := (gdict C).
Local Abbreviation merge_gains := (merge_gains C Cmul Cadd C_of_bool C_one).
Local Abbreviation merge_loop := (merge_loop C Cmul Cadd C_of_bool C_one).
Local Abbreviation operator_mul := (operator_mul C Cmul C_of_bool).
Local Abbreviation operator_add := (operator_add C Cadd C_of_bool).

(** The sample [g[k][i]] of a gain dictionary, and of a flag dictionary. *)
Definition gain_sample (g : gdict) (k : gkey) (i : nat) : option C :=
  match lookup gkey_eqb k g with
  | Some (NumArr a) => nth_error a i
  | _ => None
  end.

Definition flag_sample (g : gdict) (k : gkey) (i : nat) : option bool :=
  match lookup gkey_eqb k g with
  | Some (BoolArr a) => nth_error a i
  | _ => None
  end.

(** Dictionaries of complex waterfalls, and of flag waterfalls, of [n]
    samples. *)
Definition holds_gains (n : nat) (g : gdict) : Prop :=
  forall k a, lookup gkey_eqb k g = Some a ->
              exists c, a = NumArr c /\ List.length c = n.

Definition holds_flags (n : nat) (g : gdict) : Prop :=
  forall k a, lookup gkey_eqb k g = Some a ->
              exists c, a = BoolArr c /\ List.length c = n.

Lemma zipw_spec {X Y Z : Type} (f : X -> Y -> Z) (a : list X) :
  forall b : list Y,
    List.length a = List.length b ->
    exists r, zipw f a b = Ok r /\ List.length r = List.length a
              /\ forall i x y, nth_error a i = Some x ->
                               nth_error b i = Some y ->
                               nth_error r i = Some (f x y).
Proof.
  induction a as [|x a IH]; intros [|y b] Hlen; simpl in *; try discriminate.
  - exists []. repeat split. intros [|i] ? ? H; discriminate H.
  - destruct (IH b) as [r [Hr [Hl Hn]]]; [congruence|].
    rewrite Hr. simpl. exists (f x y :: r). repeat split.
    + simpl. congruence.
    + intros [|i] x' y' Hx Hy; simpl in *; [congruence|eauto].
Qed.

(** Folding [operator.mul] over complex arrays multiplies sample by
    sample, from left to right. *)
Lemma reduce_mul_arrays (n : nat) (bs : list (list C)) :
  forall a0 : list C,
    List.length a0 = n ->
    Forall (fun b => List.length b = n) bs ->
    exists r,
      fold_left (fun acc y => a <- acc ;; operator_mul a y)
                (map (fun b => Arr (NumArr b)) bs) (Ok (Arr (NumArr a0)))
      = Ok (Arr (NumArr r))
      /\ List.length r = n
      /\ forall i c0 cs,
          nth_error a0 i = Some c0 ->
          Forall2 (fun b c => nth_error b i = Some c) bs cs ->
          nth_error r i = Some (fold_left Cmul cs c0).
Proof.
  induction bs as [|b bs IH]; intros a0 Ha0 Hbs; simpl.
  - exists a0. repeat split; [assumption|].
    intros i c0 cs Hc0 Hcs. inversion Hcs; subst. exact Hc0.
  - inversion Hbs as [|? ? Hb Hbs']; subst.
    destruct (zipw_spec Cmul a0 b) as [r0 [Hr0 [Hl0 Hn0]]]; [congruence|].
    rewrite Hr0. simpl.
    destruct (IH r0) as [r [Hr [Hl Hn]]]; [congruence|assumption|].
    exists r. split; [exact Hr|]. split; [exact Hl|].
    intros i c0 cs Hc0 Hcs.
    inversion Hcs as [|? c ? cs' Hbc Hcs']; subst. simpl.
    apply Hn; [|assumption]. now apply Hn0.
Qed.

(** Folding [operator.add] over flag arrays is the logical OR, sample by
    sample. *)
Lemma reduce_add_flags (n : nat) (bs : list (list bool)) :
  forall a0 : list bool,
    List.length a0 = n ->
    Forall (fun b => List.length b = n) bs ->
    exists r,
      fold_left (fun acc y => a <- acc ;; operator_add a y)
                (map (fun b => Arr (BoolArr b)) bs) (Ok (Arr (BoolArr a0)))
      = Ok (Arr (BoolArr r))
      /\ List.length r = n
      /\ forall i c0 cs,
          nth_error a0 i = Some c0 ->
          Forall2 (fun b c => nth_error b i = Some c) bs cs ->
          nth_error r i = Some (fold_left orb cs c0).
Proof.
  induction bs as [|b bs IH]; intros a0 Ha0 Hbs; simpl.
  - exists a0. repeat split; [assumption|].
    intros i c0 cs Hc0 Hcs. inversion Hcs; subst. exact Hc0.
  - inversion Hbs as [|? ? Hb Hbs']; subst.
    destruct (zipw_spec orb a0 b) as [r0 [Hr0 [Hl0 Hn0]]]; [congruence|].
    rewrite Hr0. simpl.
    destruct (IH r0) as [r [Hr [Hl Hn]]]; [congruence|assumption|].
    exists r. split; [exact Hr|]. split; [exact Hl|].
    intros i c0 cs Hc0 Hcs.
    inversion Hcs as [|? c ? cs' Hbc Hcs']; subst. simpl.
    apply Hn; [|assumption]. now apply Hn0.
Qed.

Lemma shared_keys_fold (gs : list gdict) :
  forall acc : list gkey,
    exists l,
      fold_left (fun acc s =>
                   a <- acc ;; Ok (filter (fun k => mem gkey_eqb k s) a))
                (map (fun g : gdict => py_set gkey_eqb (keys g)) gs) (Ok acc)
      = Ok l
      /\ forall k, In k l <->
                   In k acc /\ Forall (fun g : gdict => In k (keys g)) gs.
Proof.
  induction gs as [|g gs IH]; intros acc; simpl.
  - exists acc. split; [reflexivity|]. intuition.
  - destruct (IH (filter (fun k => mem gkey_eqb k (py_set gkey_eqb (keys g)))
                         acc)) as [l [Hl Hk]].
    exists l. split; [exact Hl|]. intros k. rewrite Hk, filter_In.
    rewrite (mem_In gkey_eqb gkey_eqb_eq), (In_py_set gkey_eqb gkey_eqb_eq).
    split.
    + intros [[H1 H2] H3]. split; [assumption|]. now constructor.
    + intros [H1 H2]. inversion H2; subst. tauto.
Qed.

Lemma shared_keys_spec (g0 : gdict) (gs : list gdict) :
  exists l, shared_keys C (g0 :: gs) = Ok l
            /\ forall k, In k l <->
                         Forall (fun g : gdict => In k (keys g)) (g0 :: gs).
Proof.
  unfold shared_keys, reduce. simpl.
  destruct (shared_keys_fold gs (py_set gkey_eqb (keys g0))) as [l [Hl Hk]].
  exists l. split; [exact Hl|]. intros k. rewrite Hk.
  rewrite (In_py_set gkey_eqb gkey_eqb_eq).
  split; [intros [H1 H2]; now constructor|intros H; inversion H; tauto].
Qed.
(** What the loop stores under key [k]. *)
Definition merged_value (gains : list gdict) (fedflags : bool) (k : gkey)
  : result (operand C) :=
  if fedflags
  then reduce operator_add (map (fun g => dict_get C g k (PyBool true)) gains)
  else reduce operator_mul (map (fun g => dict_get C g k (PyNum C_one)) gains).

Lemma merge_loop_spec (gains : list gdict) (fedflags : bool) :
  forall (ks : list gkey) (merged : odict gkey (operand C)),
    (forall k, In k ks -> exists v, merged_value gains fedflags k = Ok v) ->
    exists m,
      merge_loop gains fedflags ks merged = Ok m
      /\ forall k,
          (In k ks -> exists v, merged_value gains fedflags k = Ok v
                                /\ lookup gkey_eqb k m = Some v)
          /\ (~ In k ks -> lookup gkey_eqb k m = lookup gkey_eqb k merged).
Proof.
  induction ks as [|k0 ks IH]; intros merged Hv.
  - exists merged. split; [reflexivity|]. intros k. split; [intros []|auto].
  - destruct (Hv k0 (or_introl eq_refl)) as [v0 Hv0].
    simpl. fold (merged_value gains fedflags k0). rewrite Hv0. simpl.
    destruct (IH (setitem gkey_eqb k0 v0 merged)) as [m [Hm Hk]].
    { intros k Hin. apply Hv. now right. }
    exists m. split; [exact Hm|]. intros k.
    destruct (Hk k) as [Hin Hout].
    destruct (mem gkey_eqb k ks) eqn:Emem.
    + apply (mem_In gkey_eqb gkey_eqb_eq) in Emem.
      split; [intros _; now apply Hin|intros Hn; exfalso; apply Hn; now right].
    + assert (Hks : ~ In k ks).
      { intros H. apply (mem_In gkey_eqb gkey_eqb_eq) in H. congruence. }
      rewrite (Hout Hks), (lookup_setitem gkey_eqb gkey_eqb_eq).
      split.
      * intros [<-|H]; [|contradiction].
        rewrite (eqb_refl_true gkey_eqb gkey_eqb_eq). eauto.
      * intros Hn. destruct (gkey_eqb k k0) eqn:E; [|reflexivity].
        apply gkey_eqb_eq in E. subst. exfalso. apply Hn. now left.
Qed.

Definition arr_of (g : gdict) (k : gkey) : list C :=
  match lookup gkey_eqb k g with
  | Some (NumArr b) => b
  | _ => []
  end.

Definition flags_of (g : gdict) (k : gkey) : list bool :=
  match lookup gkey_eqb k g with
  | Some (BoolArr b) => b
  | _ => []
  end.

Lemma dict_get_gains (n : nat) (k : gkey) (gs : list gdict) (d : operand C) :
  Forall (holds_gains n) gs ->
  Forall (fun g : gdict => In k (keys g)) gs ->
  map (fun g => dict_get C g k d) gs
  = map (fun b => Arr (NumArr b)) (map (fun g => arr_of g k) gs)
  /\ Forall (fun b => List.length b = n) (map (fun g => arr_of g k) gs).
Proof.
  induction gs as [|g gs IH]; intros Hh Hk; simpl.
  - split; [reflexivity|constructor].
  - inversion Hh as [|? ? Hg Hgs]; inversion Hk as [|? ? Hkg Hkgs]; subst.
    destruct (IH Hgs Hkgs) as [E F].
    apply (lookup_In_keys gkey_eqb gkey_eqb_eq) in Hkg.
    destruct (lookup gkey_eqb k g) as [a|] eqn:El; [|congruence].
    destruct (Hg k a El) as [c [-> Hc]].
    split.
    + f_equal; [unfold dict_get, arr_of; now rewrite El|exact E].
    + constructor; [unfold arr_of; now rewrite El|exact F].
Qed.

Lemma dict_get_flags (n : nat) (k : gkey) (gs : list gdict) (d : operand C) :
  Forall (holds_flags n) gs ->
  Forall (fun g : gdict => In k (keys g)) gs ->
  map (fun g => dict_get C g k d) gs
  = map (fun b => Arr (BoolArr b)) (map (fun g => flags_of g k) gs)
  /\ Forall (fun b => List.length b = n) (map (fun g => flags_of g k) gs).
Proof.
  induction gs as [|g gs IH]; intros Hh Hk; simpl.
  - split; [reflexivity|constructor].
  - inversion Hh as [|? ? Hg Hgs]; inversion Hk as [|? ? Hkg Hkgs]; subst.
    destruct (IH Hgs Hkgs) as [E F].
    apply (lookup_In_keys gkey_eqb gkey_eqb_eq) in Hkg.
    destruct (lookup gkey_eqb k g) as [a|] eqn:El; [|congruence].
    destruct (Hg k a El) as [c [-> Hc]].
    split.
    + f_equal; [unfold dict_get, flags_of; now rewrite El|exact E].
    + constructor; [unfold flags_of; now rewrite El|exact F].
Qed.

Lemma samples_of_arrays {X : Type} (arr : gdict -> list X) (n i : nat)
      (gs : list gdict) :
  (i < n)%nat ->
  Forall (fun b => List.length b = n) (map arr gs) ->
  exists cs, Forall2 (fun b c => nth_error b i = Some c) (map arr gs) cs.
Proof.
  intros Hi. induction gs as [|g gs IH]; simpl; intros H.
  - exists []. constructor.
  - inversion H as [|? ? Hg Hgs]; subst.
    destruct (IH Hgs) as [cs Hcs].
    destruct (nth_error (arr g) i) as [c|] eqn:E.
    + exists (c :: cs). now constructor.
    + apply nth_error_None in E. lia.
Qed.
Lemma gain_sample_arr_of (g : gdict) (k : gkey) (i : nat) :
  gain_sample g k i = nth_error (arr_of g k) i.
Proof.
  unfold gain_sample, arr_of.
  destruct (lookup gkey_eqb k g) as [[a|a]|]; try reflexivity;
    now destruct i.
Qed.

Lemma flag_sample_flags_of (g : gdict) (k : gkey) (i : nat) :
  flag_sample g k i = nth_error (flags_of g k) i.
Proof.
  unfold flag_sample, flags_of.
  destruct (lookup gkey_eqb k g) as [[a|a]|]; try reflexivity;
    now destruct i.
Qed.

Lemma Forall2_map_left {A B X : Type} (f : A -> B) (P : B -> X -> Prop)
      (l : list A) :
  forall cs, Forall2 P (map f l) cs <-> Forall2 (fun a c => P (f a) c) l cs.
Proof.
  induction l as [|a l IH]; intros cs; simpl; split; intros H;
    inversion H; subst; constructor; auto; now apply IH.
Qed.

Lemma merged_value_gains (n : nat) (k : gkey) (g0 : gdict)
      (gs : list gdict) :
  Forall (holds_gains n) (g0 :: gs) ->
  Forall (fun g : gdict => In k (keys g)) (g0 :: gs) ->
  exists r,
    merged_value (g0 :: gs) false k = Ok (Arr (NumArr r))
    /\ List.length r = n
    /\ forall i, (i < n)%nat ->
         exists c0 cs,
           gain_sample g0 k i = Some c0
           /\ Forall2 (fun g c => gain_sample g k i = Some c) gs cs
           /\ nth_error r i = Some (fold_left Cmul cs c0).
Proof.
  intros Hh Hk.
  destruct (dict_get_gains n k (g0 :: gs) (PyNum C_one) Hh Hk) as [E F].
  unfold merged_value. rewrite E. simpl in *.
  inversion F as [|? ? F0 Fs]; subst.
  destruct (reduce_mul_arrays _ (map (fun g => arr_of g k) gs)
              (arr_of g0 k) eq_refl Fs) as [r [Hr [Hl Hn]]].
  exists r. split; [exact Hr|]. split; [exact Hl|].
  intros i Hi.
  destruct (samples_of_arrays (fun g => arr_of g k) _ i gs Hi Fs)
    as [cs Hcs].
  destruct (nth_error (arr_of g0 k) i) as [c0|] eqn:E0.
  - exists c0, cs. rewrite gain_sample_arr_of. split; [exact E0|].
    split; [|now apply Hn].
    apply Forall2_map_left in Hcs.
    eapply Forall2_impl; [|exact Hcs]. intros g c Hg.
    now rewrite gain_sample_arr_of.
  - apply nth_error_None in E0. lia.
Qed.

Lemma merged_value_flags (n : nat) (k : gkey) (g0 : gdict)
      (gs : list gdict) :
  Forall (holds_flags n) (g0 :: gs) ->
  Forall (fun g : gdict => In k (keys g)) (g0 :: gs) ->
  exists r,
    merged_value (g0 :: gs) true k = Ok (Arr (BoolArr r))
    /\ List.length r = n
    /\ forall i, (i < n)%nat ->
         exists c0 cs,
           flag_sample g0 k i = Some c0
           /\ Forall2 (fun g c => flag_sample g k i = Some c) gs cs
           /\ nth_error r i = Some (fold_left orb cs c0).
Proof.
  intros Hh Hk.
  destruct (dict_get_flags n k (g0 :: gs) (PyBool true) Hh Hk) as [E F].
  unfold merged_value. rewrite E. simpl in *.
  inversion F as [|? ? F0 Fs]; subst.
  destruct (reduce_add_flags _ (map (fun g => flags_of g k) gs)
              (flags_of g0 k) eq_refl Fs) as [r [Hr [Hl Hn]]].
  exists r. split; [exact Hr|]. split; [exact Hl|].
  intros i Hi.
  destruct (samples_of_arrays (fun g => flags_of g k) _ i gs Hi Fs)
    as [cs Hcs].
  destruct (nth_error (flags_of g0 k) i) as [c0|] eqn:E0.
  - exists c0, cs. rewrite flag_sample_flags_of. split; [exact E0|].
    split; [|now apply Hn].
    apply Forall2_map_left in Hcs.
    eapply Forall2_impl; [|exact Hcs]. intros g c Hg.
    now rewrite flag_sample_flags_of.
  - apply nth_error_None in E0. lia.
Qed.
Lemma merge_gains_run (g0 : gdict) (gs : list gdict) (fedflags : bool) :
  first_is_flags C (g0 :: gs) = Ok fedflags ->
  (forall k, Forall (fun g : gdict => In k (keys g)) (g0 :: gs) ->
             exists v, merged_value (g0 :: gs) fedflags k = Ok v) ->
  exists m,
    merge_gains (g0 :: gs) true = Ok m
    /\ (forall k, In k (keys m) <->
                  Forall (fun g : gdict => In k (keys g)) (g0 :: gs))
    /\ (forall k, In k (keys m) ->
                  exists v, merged_value (g0 :: gs) fedflags k = Ok v
                            /\ lookup gkey_eqb k m = Some v).
Proof.
  intros Hfed Hval.
  destruct (shared_keys_spec g0 gs) as [l [Hl Hk]].
  unfold merge_gains. rewrite Hl. cbn [bind]. rewrite Hfed. cbn [bind].
  set (ks := sorted gkey_leb (py_set gkey_eqb l)).
  assert (Hks : forall k, In k ks <->
                          Forall (fun g : gdict => In k (keys g)) (g0 :: gs)).
  { intros k. unfold ks.
    now rewrite (In_sorted gkey_leb), (In_py_set gkey_eqb gkey_eqb_eq). }
  destruct (merge_loop_spec (g0 :: gs) fedflags ks []) as [m [Hm Hlk]].
  { intros k Hin. apply Hval. now apply Hks. }
  exists m. split; [exact Hm|].
  assert (Hkeys : forall k, In k (keys m) <-> In k ks).
  { intros k. rewrite (lookup_In_keys gkey_eqb gkey_eqb_eq).
    destruct (Hlk k) as [Hin Hout]. split.
    - intros Hne. destruct (mem gkey_eqb k ks) eqn:E.
      + now apply (mem_In gkey_eqb gkey_eqb_eq) in E.
      + exfalso. apply Hne. rewrite Hout; [reflexivity|].
        intros H. apply (mem_In gkey_eqb gkey_eqb_eq) in H. congruence.
    - intros H. destruct (Hin H) as [v [_ Hv]]. congruence. }
  split.
  - intros k. now rewrite Hkeys.
  - intros k Hin. apply Hkeys in Hin. now apply (Hlk k).
Qed.

(** [merge_gains] with [merge_shared=True] on dictionaries of complex
    waterfalls, the first of which has at least one key: the result has
    exactly the keys shared by all inputs and holds, sample by sample, the
    left-to-right product of the inputs. *)
Lemma merge_gains_shared_product (n : nat) (g0 : gdict) (gs : list gdict) :
  keys g0 <> [] ->
  Forall (holds_gains n) (g0 :: gs) ->
  exists m,
    merge_gains (g0 :: gs) true = Ok m
    /\ (forall k, In k (keys m) <->
                  Forall (fun g : gdict => In k (keys g)) (g0 :: gs))
    /\ (forall k, In k (keys m) ->
          exists r,
            lookup gkey_eqb k m = Some (Arr (NumArr r))
            /\ List.length r = n
            /\ forall i, (i < n)%nat ->
                 exists c0 cs,
                   gain_sample g0 k i = Some c0
                   /\ Forall2 (fun g c => gain_sample g k i = Some c) gs cs
                   /\ nth_error r i = Some (fold_left Cmul cs c0)).
Proof.
  intros Hne Hh.
  assert (Hfed : first_is_flags C (g0 :: gs) = Ok false).
  { destruct g0 as [|[k0 a0] g0']; [contradiction|]. simpl.
    rewrite (eqb_refl_true gkey_eqb gkey_eqb_eq). simpl.
    inversion Hh as [|? ? H0 _]; subst.
    destruct (H0 k0 a0) as [c [-> _]]; [|reflexivity].
    simpl. now rewrite (eqb_refl_true gkey_eqb gkey_eqb_eq). }
  destruct (merge_gains_run g0 gs false Hfed) as [m [Hm [Hkeys Hval]]].
  { intros k Hk. destruct (merged_value_gains n k g0 gs Hh Hk) as [r [Hr _]].
    eauto. }
  exists m. split; [exact Hm|]. split; [exact Hkeys|].
  intros k Hin. destruct (Hval k Hin) as [v [Hv Hlk]].
  destruct (merged_value_gains n k g0 gs Hh) as [r [Hr [Hl Hn]]];
    [now apply Hkeys|].
  exists r. rewrite Hlk. split; [congruence|]. split; assumption.
Qed.

(** The same for dictionaries of flag waterfalls: the merged flags are the
    logical OR of the inputs. *)
Lemma merge_gains_shared_or (n : nat) (g0 : gdict) (gs : list gdict) :
  keys g0 <> [] ->
  Forall (holds_flags n) (g0 :: gs) ->
  exists m,
    merge_gains (g0 :: gs) true = Ok m
    /\ (forall k, In k (keys m) <->
                  Forall (fun g : gdict => In k (keys g)) (g0 :: gs))
    /\ (forall k, In k (keys m) ->
          exists r,
            lookup gkey_eqb k m = Some (Arr (BoolArr r))
            /\ List.length r = n
            /\ forall i, (i < n)%nat ->
                 exists c0 cs,
                   flag_sample g0 k i = Some c0
                   /\ Forall2 (fun g c => flag_sample g k i = Some c) gs cs
                   /\ nth_error r i = Some (fold_left orb cs c0)).
Proof.
  intros Hne Hh.
  assert (Hfed : first_is_flags C (g0 :: gs) = Ok true).
  { destruct g0 as [|[k0 a0] g0']; [contradiction|]. simpl.
    rewrite (eqb_refl_true gkey_eqb gkey_eqb_eq). simpl.
    inversion Hh as [|? ? H0 _]; subst.
    destruct (H0 k0 a0) as [c [-> _]]; [|reflexivity].
    simpl. now rewrite (eqb_refl_true gkey_eqb gkey_eqb_eq). }
  destruct (merge_gains_run g0 gs true Hfed) as [m [Hm [Hkeys Hval]]].
  { intros k Hk. destruct (merged_value_flags n k g0 gs Hh Hk) as [r [Hr _]].
    eauto. }
  exists m. split; [exact Hm|]. split; [exact Hkeys|].
  intros k Hin. destruct (Hval k Hin) as [v [Hv Hlk]].
  destruct (merged_value_flags n k g0 gs Hh) as [r [Hr [Hl Hn]]];
    [now apply Hkeys|].
  exists r. rewrite Hlk. split; [congruence|]. split; assumption.
Qed.

(** C4: a first dictionary without keys makes [merge_gains] raise
    [IndexError] at [list(gains[0].keys())[0]], whatever the other
    dictionaries hold, although the shared key set (empty) is well defined;
    here the claim asks for the empty merged dictionary. *)
Theorem merge_gains_empty_first_raises (gs : list gdict) (merge_shared : bool) :
  merge_gains ([] :: gs) true = Raise IndexError
  /\ merge_gains [[]] merge_shared = Raise IndexError.
Proof.
  split.
  - destruct (shared_keys_spec [] gs) as [l [Hl _]].
    unfold merge_gains. cbv iota.
    refine (eq_trans (f_equal (fun r => bind r _) Hl) _). reflexivity.
  - now destruct merge_shared.
Qed.
End MergeGainsFacts.

(** ** Dictionaries built from lists *)

Lemma lookup_odict_of_list {K V : Type} (eqb : K -> K -> bool)
      (eqb_eq : forall a b, eqb a b = true <-> a = b)
      (k : K) (l : list (K * V)) :
  forall d : odict K V,
    lookup eqb k (fold_left (fun d kv => setitem eqb (fst kv) (snd kv) d) l d)
    <> None
    <-> In k (map fst l) \/ lookup eqb k d <> None.
Proof.
  induction l as [|[k0 v0] l IH]; intros d; simpl.
  - tauto.
  - rewrite IH, (lookup_setitem eqb eqb_eq). simpl.
    destruct (eqb k k0) eqn:E.
    + apply eqb_eq in E. subst. split; intros _; [auto|right; discriminate].
    + split; [tauto|]. intros [[H|H]|H]; auto.
      subst. rewrite (eqb_refl_true eqb eqb_eq) in E. discriminate.
Qed.


(** Case analysis on the first step of a chain of binds known to
    succeed. *)
Ltac bind_ok H x E :=
  match type of H with
  | bind ?r _ = Ok _ =>
      destruct r as [x|] eqn:E; simpl in H; [|discriminate]
  end.

Ltac if_ok H :=
  match type of H with
  | (if ?c then _ else _) = Ok _ => destruct c; [discriminate|]
  end.

(** ** Facts about elementwise operations on arrays *)

Lemma zipw_ok {X Y Z : Type} (f : X -> Y -> Z) (a : list X) :
  forall (b : list Y) (r : list Z),
    zipw f a b = Ok r ->
    List.length a = List.length b
    /\ forall i, nth_error r i
                 = match nth_error a i, nth_error b i with
                   | Some x, Some y => Some (f x y)
                   | _, _ => None
                   end.
Proof.
  induction a as [|x a IH]; intros [|y b] r H; simpl in H; try discriminate.
  - inversion H; subst. split; [reflexivity|]. now intros [|i].
  - destruct (zipw f a b) as [r'|] eqn:E; simpl in H; [|discriminate].
    inversion H; subst. destruct (IH b r' E) as [Hl Hn].
    split; [simpl; congruence|]. intros [|i]; simpl; [reflexivity|apply Hn].
Qed.

Lemma sequence_ok {A : Type} (rows : list (result (list A))) :
  forall r,
    fold_right (fun r acc => x <- r ;; l <- acc ;; Ok (x :: l)) (Ok []) rows
    = Ok r ->
    rows = map Ok r.
Proof.
  induction rows as [|[x|e] rows IH]; intros r H; simpl in H.
  - inversion H. reflexivity.
  - destruct (fold_right _ _ rows) as [l|] eqn:E; simpl in H; [|discriminate].
    inversion H; subst. simpl. f_equal. now apply IH.
  - discriminate.
Qed.

Lemma zip2d_ok {X Y Z : Type} (f : X -> Y -> Z)
      (a : list (list X)) (b : list (list Y)) (r : list (list Z)) :
  zip2d f a b = Ok r ->
  forall t i, get2 r t i
              = match get2 a t i, get2 b t i with
                | Some x, Some y => Some (f x y)
                | _, _ => None
                end.
Proof.
  unfold zip2d. intros H.
  destruct (zipw (fun r s => zipw f r s) a b) as [rows|] eqn:E;
    simpl in H; [|discriminate].
  apply sequence_ok in H. subst rows.
  destruct (zipw_ok _ _ _ _ E) as [Hl Hn].
  intros t i. unfold get2. specialize (Hn t).
  rewrite nth_error_map in Hn.
  destruct (nth_error r t) as [rt|] eqn:Er; simpl in Hn.
  - destruct (nth_error a t) as [at_|]; [|discriminate].
    destruct (nth_error b t) as [bt|]; [|discriminate].
    inversion Hn as [Hz]. symmetry in Hz.
    destruct (zipw_ok _ _ _ _ Hz) as [_ Hi]. apply Hi.
  - destruct (nth_error a t) as [at_|] eqn:Ea; [|reflexivity].
    destruct (nth_error b t) as [bt|] eqn:Eb; [discriminate|].
    now destruct (nth_error at_ i).
Qed.

Lemma zip2d_shape {X Y Z : Type} (f : X -> Y -> Z)
      (a : list (list X)) (b : list (list Y)) (r : list (list Z)) :
  zip2d f a b = Ok r ->
  forall t i, (get2 a t i = None <-> get2 b t i = None)
              /\ (get2 r t i = None <-> get2 a t i = None).
Proof.
  unfold zip2d. intros H.
  destruct (zipw (fun r s => zipw f r s) a b) as [rows|] eqn:E;
    simpl in H; [|discriminate].
  apply sequence_ok in H. subst rows.
  destruct (zipw_ok _ _ _ _ E) as [Hl Hn].
  intros t i. unfold get2. specialize (Hn t).
  rewrite nth_error_map in Hn.
  destruct (nth_error r t) as [rt|] eqn:Er; simpl in Hn.
  - destruct (nth_error a t) as [at_|]; [|discriminate].
    destruct (nth_error b t) as [bt|]; [|discriminate].
    inversion Hn as [Hz]. symmetry in Hz.
    destruct (zipw_ok _ _ _ _ Hz) as [Hli Hi]. specialize (Hi i).
    rewrite !nth_error_None. rewrite nth_error_None in Hi || idtac.
    assert (Hr : List.length rt = List.length at_).
    { clear - Hz. revert bt rt Hz.
      induction at_ as [|x at_ IH]; intros [|y bt] rt Hz; simpl in Hz;
        try discriminate.
      - now inversion Hz.
      - destruct (zipw f at_ bt) eqn:E'; simpl in Hz; [|discriminate].
        inversion Hz; subst. simpl. f_equal. eapply IH; eauto. }
    lia.
  - destruct (nth_error a t) as [at_|] eqn:Ea.
    + destruct (nth_error b t) as [bt|] eqn:Eb; [discriminate|].
      apply nth_error_None in Eb.
      assert (Ht : nth_error a t <> None) by congruence.
      apply nth_error_Some in Ht. lia.
    + destruct (nth_error b t) as [bt|] eqn:Eb; [|tauto].
      apply nth_error_None in Ea.
      assert (Ht : nth_error b t <> None) by congruence.
      apply nth_error_Some in Ht. lia.
Qed.

Lemma get2_map {A B : Type} (g : A -> B) (a : list (list A)) (t i : nat) :
  get2 (map (map g) a) t i = option_map g (get2 a t i).
Proof.
  unfold get2. rewrite nth_error_map.
  destruct (nth_error a t) as [r|]; simpl; [|reflexivity].
  now rewrite nth_error_map.
Qed.

(** ** Theorems about the phase-slope solvers *)

Lemma set_nth_length {A : Type} (i : nat) (v : A) (l : list A) :
  List.length (set_nth i v l) = List.length l.
Proof.
  revert i. induction l as [|x l IH]; intros [|i]; simpl; auto.
Qed.

Lemma set_nth_other {A : Type} (i j : nat) (v : A) (l : list A) :
  i <> j -> nth_error (set_nth i v l) j = nth_error l j.
Proof.
  revert i j.
  induction l as [|x l IH]; intros [|i] [|j] H; simpl; auto;
    try congruence; try (apply IH; congruence).
Qed.

Section PhaseSlopeFacts.
Variable F : Type.
Variable Fzero Fone Fnan two_pi : F.
Variable isnan isinf : F -> bool.
Variable Fadd Fsub Fmul Fdiv : F -> F -> F.
Variable Fsqrt : F -> F.
Variable np_min np_max : list F -> F.
Variable brute :
  F * F * F -> list F -> list F -> list (cplx F) -> result (F * F).

Local Abbreviation dft_loop := (dft_loop F isnan brute).
Local Abbreviation column_all_nan := (column_all_nan F isnan).
Local Abbreviation dft_phase_slope_solver :=
  (dft_phase_slope_solver F Fzero Fone isnan Fadd Fsub Fmul Fdiv Fsqrt
     np_min np_max brute).

(** A pixel that the loop does not visit, or visits with an all-[nan]
    column, keeps its slopes. *)
Lemma dft_loop_keeps (search : F * F * F) (xs ys : list F)
      (dflat : list (list (cplx F))) (fflat : list (list bool)) (i : nat) :
  forall pixels sx sy sx' sy',
    dft_loop search xs ys dflat fflat pixels sx sy = Ok (sx', sy') ->
    (In i pixels -> column_all_nan dflat i = true) ->
    nth_error sx' i = nth_error sx i /\ nth_error sy' i = nth_error sy i.
Proof.
  induction pixels as [|j pixels IH]; intros sx sy sx' sy' H Hi; simpl in H.
  - inversion H. auto.
  - destruct (column_all_nan dflat j) eqn:Ej; simpl in H.
    + apply IH in H; [exact H|]. intros Hin. apply Hi. now right.
    + assert (Hne : j <> i).
      { intros ->. rewrite Hi in Ej; [discriminate|now left]. }
      destruct (dft_pixel F brute search xs ys dflat fflat j) as [peak|];
        [|discriminate].
      simpl in H. apply IH in H.
      * rewrite !set_nth_other in H by exact Hne. exact H.
      * intros Hin. apply Hi. now right.
Qed.

(** The loop only fails where [brute] or the selection of the unflagged
    samples fails. *)
Lemma dft_loop_all_nan (search : F * F * F) (xs ys : list F)
      (dflat : list (list (cplx F))) (fflat : list (list bool)) :
  forall pixels sx sy,
    (forall i, In i pixels -> column_all_nan dflat i = true) ->
    dft_loop search xs ys dflat fflat pixels sx sy = Ok (sx, sy).
Proof.
  induction pixels as [|j pixels IH]; intros sx sy H; simpl.
  - reflexivity.
  - rewrite (H j (or_introl eq_refl)). simpl. apply IH.
    intros i Hi. apply H. now right.
Qed.

Lemma nth_error_repeat_lt {A : Type} (x : A) (n i : nat) :
  (i < n)%nat -> nth_error (repeat x n) i = Some x.
Proof.
  revert i. induction n as [|n IH]; intros [|i] H; simpl; try lia; auto.
  apply IH. lia.
Qed.

(** The loop ends normally when [brute] succeeds on the pixels that are
    not entirely flagged. *)
Lemma dft_loop_total (search : F * F * F) (xs ys : list F)
      (dflat : list (list (cplx F))) (fflat : list (list bool)) :
  forall pixels sx sy,
    (forall i, In i pixels -> column_all_nan dflat i = false ->
               exists pk, dft_pixel F brute search xs ys dflat fflat i = Ok pk) ->
    exists r, dft_loop search xs ys dflat fflat pixels sx sy = Ok r.
Proof.
  induction pixels as [|j pixels IH]; intros sx sy H; simpl.
  - eauto.
  - destruct (column_all_nan dflat j) eqn:Ej; simpl.
    + apply IH. intros i Hi. apply H. now right.
    + destruct (H j (or_introl eq_refl) Ej) as [pk ->]. simpl.
      apply IH. intros i Hi. apply H. now right.
Qed.

(** In what [dft_phase_slope_solver] returns, the slopes
    of every pixel whose column is entirely [nan] are exactly 0.0. *)
Lemma dft_solver_flagged_pixel (xs ys : list F) (data : list (list (cplx F)))
      (flags : option (list (list bool))) (sx sy : list F) (i : nat) :
  dft_phase_slope_solver xs ys data flags = Ok (sx, sy) ->
  (i < shape1 data)%nat ->
  column_all_nan data i = true ->
  nth_error sx i = Some Fzero /\ nth_error sy i = Some Fzero.
Proof.
  unfold dft_phase_slope_solver. intros H Hi Hnan.
  destruct (deltas_of F Fadd Fsub Fmul Fsqrt xs ys) as [|d ds];
    [discriminate|].
  match type of H with
  | bind ?fl _ = _ => destruct fl as [fflat|]; [|discriminate]
  end.
  simpl in H.
  destruct (negb (List.length data =? List.length xs)%nat); [discriminate|].
  apply (dft_loop_keeps _ _ _ _ _ i) in H; [|intros _; exact Hnan].
  now rewrite !nth_error_repeat_lt in H by exact Hi.
Qed.

(** When every pixel is flagged the solver returns zeros without calling
    [brute] at all. *)
Lemma dft_solver_all_flagged (xs ys : list F) (data : list (list (cplx F))) :
  deltas_of F Fadd Fsub Fmul Fsqrt xs ys <> [] ->
  List.length data = List.length xs ->
  (forall i, (i < shape1 data)%nat -> column_all_nan data i = true) ->
  dft_phase_slope_solver xs ys data None
  = Ok (repeat Fzero (shape1 data), repeat Fzero (shape1 data)).
Proof.
  unfold dft_phase_slope_solver. intros Hd Hl Hnan.
  destruct (deltas_of F Fadd Fsub Fmul Fsqrt xs ys) as [|d ds];
    [congruence|].
  simpl. rewrite Hl, Nat.eqb_refl. simpl.
  apply dft_loop_all_nan. intros i Hi. apply Hnan.
  apply in_seq in Hi. lia.
Qed.
End PhaseSlopeFacts.

Section GlobalPhaseSlopeFacts.
Variable F : Type.
Variable Fzero Fone Fnan two_pi : F.
Variable isnan isinf : F -> bool.
Variable Fadd Fsub Fmul Fdiv : F -> F -> F.
Variable Fsqrt : F -> F.
Variable np_min np_max : list F -> F.
Variable brute :
  F * F * F -> list F -> list F -> list (cplx F) -> result (F * F).
Variable split_pol : string -> result (string * string).
Variable get_pos_reds : antpos_t F -> F -> result (list (list (Z * Z))).
Variable red_average :
  vis_t F -> list (list (Z * Z)) -> odict bl (list (list bool)) ->
  result (vis_t F * odict bl (list (list bool))).
Variable cdiv : cplx F -> cplx F -> cplx F.
Variable cnormalize : cplx F -> cplx F.
Variable angle : cplx F -> F.
Variable isclose0 Fnonzero Fgt0 : F -> bool.
Variable nanmedian : list F -> F.
Variable nanmedian_c : list (cplx F) -> cplx F.
Variable fsum : list F -> F.
Variable fmt : F -> string.
Variable LinearSolver :
  odict string (harr F) -> odict string (harr F) -> odict string F ->
  result (fit_t F).
Variable phase_slope_gain :
  list F -> list (list F) -> list (list F) -> nat -> list (list (cplx F)).

Local Abbreviation scrub_unobserved := (scrub_unobserved F Fzero isnan).
Local Abbreviation median_of_key :=
  (median_of_key F Fzero Fnan isnan isinf Fmul cdiv cnormalize angle isclose0
     nanmedian nanmedian_c fsum).
Local Abbreviation slope_loop :=
  (slope_loop F Fzero Fnan isnan isinf Fsub Fmul split_pol cdiv cnormalize
     angle isclose0 nanmedian nanmedian_c fsum fmt).
Local Abbreviation phase_slope_system :=
  (phase_slope_system F Fzero Fone Fnan isnan isinf Fsub Fmul split_pol
     get_pos_reds red_average cdiv cnormalize angle isclose0 Fnonzero
     nanmedian nanmedian_c fsum fmt).
Local Abbreviation global_phase_slope_logcal :=
  (global_phase_slope_logcal F Fzero Fone Fnan two_pi isnan isinf Fadd Fsub
     Fmul Fdiv Fsqrt np_min np_max brute split_pol get_pos_reds red_average
     cdiv cnormalize angle isclose0 Fnonzero Fgt0 nanmedian nanmedian_c fsum
     fmt LinearSolver phase_slope_gain).

(** The sample [a[t][i]] of a real or complex array, as a complex number. *)
Definition hget (a : harr F) (t i : nat) : option (cplx F) :=
  get2 (as_complex F Fzero a) t i.

(** [scrubbed md mw d w]: [d] and [w] are [md] and [mw] with the value 0
    and the weight 0 wherever [np.isnan(md)] holds, and unchanged
    elsewhere. *)
Definition scrubbed (md : harr F) (mw : list (list F))
           (d : harr F) (w : list (list F)) : Prop :=
  forall t i b,
    get2 (mask_nan F isnan md) t i = Some b ->
    if b
    then hget d t i = Some (Fzero, Fzero) /\ get2 w t i = Some Fzero
    else hget d t i = hget md t i /\ get2 w t i = get2 mw t i.

Lemma hget_FArr (x : list (list F)) (t i : nat) :
  hget (FArr x) t i = option_map (fun v => (v, Fzero)) (get2 x t i).
Proof. unfold hget. simpl. apply get2_map. Qed.

Lemma hget_CArr (x : list (list (cplx F))) (t i : nat) :
  hget (CArr x) t i = get2 x t i.
Proof. reflexivity. Qed.

Lemma scrub_unobserved_scrubbed (md : harr F) (mw : list (list F))
      (d : harr F) (w : list (list F)) :
  scrub_unobserved md mw = Ok (d, w) -> scrubbed md mw d w.
Proof.
  unfold scrub_unobserved. intros H.
  destruct (zip2d (fun x (b : bool) => if b then Fzero else x) mw
                  (mask_nan F isnan md)) as [w0|] eqn:Ew;
    simpl in H; [|discriminate].
  destruct (assign_masked F Fzero md (mask_nan F isnan md) Fzero)
    as [d0|] eqn:Ed; simpl in H; [|discriminate].
  inversion H; subst d0 w0. clear H.
  intros t i b Hb.
  pose proof (zip2d_ok _ _ _ _ Ew t i) as Hw.
  pose proof (zip2d_shape _ _ _ _ Ew t i) as [Hs _].
  rewrite Hb in Hw.
  assert (Hmw : get2 mw t i <> None).
  { intros Hn. apply Hs in Hn. congruence. }
  destruct (get2 mw t i) as [x|] eqn:Ex; [|congruence].
  destruct md as [x0|x0]; simpl in Ed, Hb.
  - destruct (zip2d (fun s (b0 : bool) => if b0 then Fzero else s) x0
                    (map (map isnan) x0)) as [r|] eqn:Er; [|discriminate].
    inversion Ed; subst d.
    pose proof (zip2d_ok _ _ _ _ Er t i) as Hr. rewrite Hb in Hr.
    rewrite get2_map in Hb.
    destruct (get2 x0 t i) as [s|] eqn:Es; [|discriminate]. simpl in Hb.
    destruct b.
    + rewrite hget_FArr, Hr, Hw. split; reflexivity.
    + rewrite (hget_FArr r), (hget_FArr x0), Hr, Es, Hw. split; reflexivity.
  - destruct (zip2d (fun s (b0 : bool) => if b0 then (Fzero, Fzero) else s)
                    x0 (map (map (c_isnan F isnan)) x0)) as [r|] eqn:Er;
      [|discriminate].
    inversion Ed; subst d.
    pose proof (zip2d_ok _ _ _ _ Er t i) as Hr. rewrite Hb in Hr.
    rewrite get2_map in Hb. unfold hget. simpl. unfold cplx in *.
    destruct (get2 x0 t i) as [s|] eqn:Es; [|discriminate]. simpl in Hb.
    destruct b.
    + split; [exact Hr|exact Hw].
    + split; [exact Hr|exact Hw].
Qed.

Lemma any_cross_pol_found (pols : list string) (p a b : string) :
  In p pols -> split_pol p = Ok (a, b) -> a <> b ->
  any_cross_pol split_pol pols <> Ok false.
Proof.
  intros Hin Hp Hab. induction pols as [|q pols IH]; [destruct Hin|].
  simpl. unfold is_cross_pol at 1.
  destruct Hin as [->|Hin].
  - rewrite Hp. simpl.
    assert (E : String.eqb a b = false).
    { destruct (String.eqb a b) eqn:E; [|reflexivity].
      apply String.eqb_eq in E. contradiction. }
    rewrite E. simpl.
    destruct (any_cross_pol split_pol pols); simpl; discriminate.
  - destruct (split_pol q) as [pp|]; simpl; [|discriminate].
    specialize (IH Hin).
    destruct (any_cross_pol split_pol pols) as [[|]|]; simpl;
      try discriminate; try congruence.
    now rewrite orb_true_r.
Qed.

Lemma any_cross_pol_total (pols : list string) :
  (forall p, In p pols -> exists pp, split_pol p = Ok pp) ->
  exists c, any_cross_pol split_pol pols = Ok c.
Proof.
  induction pols as [|q pols IH]; intros H; simpl.
  - eauto.
  - unfold is_cross_pol at 1.
    destruct (H q (or_introl eq_refl)) as [pp ->]. simpl.
    destruct IH as [c ->]; [intros; apply H; now right|]. simpl. eauto.
Qed.

Lemma dc_pols_In (data : vis_t F) (pols : list string) (k : bl)
      (pol : string) :
  dc_pols F data = Ok pols -> In k (keys data) -> bl_pol k = Ok pol ->
  In pol pols.
Proof.
  unfold dc_pols. intros H Hk Hp.
  bind_ok H ps E. inversion H; subst. clear H.
  apply (In_py_set String.eqb String.eqb_eq).
  revert ps E. induction (keys data) as [|k0 ks IH]; intros ps E;
    [destruct Hk|].
  simpl in E. bind_ok E p0 E0. bind_ok E r E1. inversion E; subst.
  destruct Hk as [->|Hk].
  - left. congruence.
  - right. now apply IH.
Qed.

(** C6: [global_phase_slope_logcal] raises on an unrecognised solver and
    on an [edge_cut] with [2 * edge_cut >= Nfreqs - 1], whatever the
    collaborators would do; and with [solver = 'dft'] and data holding a
    cross-polarization it never returns: it raises, and
    [NotImplementedError] is what it raises once the system has been built
    and every polarization of the data splits. *)
Theorem global_phase_slope_logcal_guards
        (model data : vis_t F) (antpos : antpos_t F) (solver : string)
        (wgts : option (wgt_t F)) (refant : option Z) (tol : F)
        (edge_cut : Z) (return_gains : bool) (gain_ants : list gkey) :
  (~ In solver PHASE_SLOPE_SOLVERS ->
   global_phase_slope_logcal model data antpos solver wgts refant tol
     edge_cut return_gains gain_ants = Raise AssertionError)
  /\ (forall d0,
         first_value data = Ok d0 ->
         2 * edge_cut >= Z.of_nat (shape1 d0) - 1 ->
         global_phase_slope_logcal model data antpos solver wgts refant tol
           edge_cut return_gains gain_ants = Raise AssertionError)
  /\ (solver = "dft"%string ->
      (exists k pol a b,
          In k (keys data) /\ bl_pol k = Ok pol
          /\ split_pol pol = Ok (a, b) /\ a <> b) ->
      (exists e,
          global_phase_slope_logcal model data antpos solver wgts refant tol
            edge_cut return_gains gain_ants = Raise e)
      /\ (forall prep,
             phase_slope_system model data antpos solver wgts refant tol
               edge_cut = Ok prep ->
             (forall k, In k (keys data) ->
                        exists pol pp, bl_pol k = Ok pol
                                       /\ split_pol pol = Ok pp) ->
             global_phase_slope_logcal model data antpos solver wgts refant
               tol edge_cut return_gains gain_ants
             = Raise NotImplementedError)).
Proof.
  split; [|split].
  - intros Hs. unfold global_phase_slope_logcal, phase_slope_system,
      phase_slope_averages.
    assert (E : mem String.eqb solver PHASE_SLOPE_SOLVERS = false).
    { destruct (mem String.eqb solver PHASE_SLOPE_SOLVERS) eqn:E;
        [|reflexivity].
      apply (mem_In String.eqb String.eqb_eq) in E. contradiction. }
    rewrite E. reflexivity.
  - intros d0 Hd0 Hcut.
    unfold global_phase_slope_logcal, phase_slope_system,
      phase_slope_averages.
    destruct (negb (mem String.eqb solver PHASE_SLOPE_SOLVERS));
      [reflexivity|].
    rewrite Hd0. cbn [bind].
    assert (E : (2 * edge_cut <? Z.of_nat (shape1 d0) - 1) = false)
      by (apply Z.ltb_ge; lia).
    rewrite E. reflexivity.
  - intros -> [k [pol [a [b [Hk [Hpol [Hsp Hab]]]]]]].
    unfold global_phase_slope_logcal.
    destruct (phase_slope_system model data antpos "dft" wgts refant tol
                edge_cut) as [[[ap n] sys]|e] eqn:Eprep.
    2:{ simpl. split; [exists e; reflexivity|]. intros prep H. discriminate. }
    simpl. unfold dft_branch.
    destruct (dc_pols F data) as [pols|e] eqn:Epols.
    2:{ simpl. split; [exists e; reflexivity|]. intros prep _ Hall. exfalso.
        unfold dc_pols in Epols.
        assert (Hok : exists ps,
                   fold_right (fun k acc =>
                                 p <- bl_pol k ;; r <- acc ;; Ok (p :: r))
                              (Ok []) (keys data) = Ok ps).
        { clear - Hall. induction (keys data) as [|k0 ks IH]; simpl.
          - eauto.
          - destruct (Hall k0 (or_introl eq_refl)) as [p0 [pp [-> _]]].
            simpl. destruct IH as [ps ->]; [intros; apply Hall; now right|].
            simpl. eauto. }
        destruct Hok as [ps Hps]. rewrite Hps in Epols. discriminate. }
    simpl.
    pose proof (any_cross_pol_found pols pol a b
                  (dc_pols_In data pols k pol Epols Hk Hpol) Hsp Hab) as Hne.
    destruct (any_cross_pol split_pol pols) as [[|]|e] eqn:Ec; simpl.
    + split; [exists NotImplementedError; reflexivity|]. intros; reflexivity.
    + congruence.
    + split; [exists e; reflexivity|]. intros prep _ Hall. exfalso.
      destruct (any_cross_pol_total pols) as [c Hc]; [|congruence].
      intros p Hp. unfold dc_pols in Epols. bind_ok Epols ps Eps.
      inversion Epols; subst pols.
      apply (proj1 (In_py_set String.eqb String.eqb_eq _ _)) in Hp.
      clear - Hall Eps Hp. revert ps Eps Hp.
      induction (keys data) as [|k0 ks IH]; intros ps Eps Hp; simpl in Eps.
      * inversion Eps; subst. destruct Hp.
      * bind_ok Eps p0 E0. bind_ok Eps r E1. inversion Eps; subst.
        simpl in Hp. destruct Hp as [<-|Hp].
        -- destruct (Hall k0 (or_introl eq_refl)) as [p1 [pp [H1 H2]]].
           rewrite H1 in E0. inversion E0; subst. eauto.
        -- eapply IH; eauto. intros; apply Hall; now right.
Qed.
End GlobalPhaseSlopeFacts.

(** ** Facts about the heap monad *)

Section HeapFacts.
Variable F : Type.
Variable Fzero Fone : F.
Variable isnan isinf : F -> bool.

Local Abbreviation heap := (heap F).
Local Abbreviation harr := (harr F).
Local Abbreviation M := (M F).

Lemma upd_length (h : heap) (l : loc) (v : harr) :
  List.length (upd h l v) = List.length h.
Proof.
  revert l. induction h as [|x h IH]; intros [|l]; simpl; auto.
Qed.

Lemma nth_error_upd_same (h : heap) (l : loc) (v : harr) :
  (l < List.length h)%nat -> nth_error (upd h l v) l = Some v.
Proof.
  revert l. induction h as [|x h IH]; intros [|l] H; simpl in *; try lia; auto.
  apply IH. lia.
Qed.

Lemma nth_error_upd_other (h : heap) (l l' : loc) (v : harr) :
  l <> l' -> nth_error (upd h l v) l' = nth_error h l'.
Proof.
  revert l l'.
  induction h as [|x h IH]; intros [|l] [|l'] H; simpl; auto;
    try congruence; try (apply IH; congruence).
Qed.

Lemma mbind_ok {A B : Type} (m : M A) (k : A -> M B) (h h' : heap) (b : B) :
  mbind m k h = (h', Ok b) ->
  exists a h1, m h = (h1, Ok a) /\ k a h1 = (h', Ok b).
Proof.
  unfold mbind. destruct (m h) as [h1 [a|e]]; intros H.
  - eauto.
  - inversion H.
Qed.

Lemma lift_ok {A : Type} (r : result A) (h h' : heap) (a : A) :
  lift r h = (h', Ok a) -> h' = h /\ r = Ok a.
Proof. unfold lift. intros H. inversion H. auto. Qed.

Lemma ret_ok {A : Type} (x a : A) (h h' : heap) :
  ret x h = (h', Ok a) -> h' = h /\ a = x.
Proof. unfold ret. intros H. inversion H. auto. Qed.

Lemma read_ok (l : loc) (h h' : heap) (a : harr) :
  read l h = (h', Ok a) -> h' = h /\ nth_error h l = Some a.
Proof.
  unfold read. intros H.
  destruct (nth_error h l) as [v|]; inversion H; subst. auto.
Qed.

Lemma alloc_ok (v : harr) (h h' : heap) (l : loc) :
  alloc v h = (h', Ok l) -> h' = h ++ [v] /\ l = List.length h.
Proof. unfold alloc. intros H. inversion H. auto. Qed.

Lemma write_ok (l : loc) (v : harr) (h h' : heap) (u : unit) :
  write l v h = (h', Ok u) -> h' = upd h l v.
Proof. unfold write. intros H. inversion H. auto. Qed.

(** [h'] is [h] with more arrays allocated after it. *)
Definition extends (h h' : heap) : Prop := exists ext, h' = h ++ ext.

Lemma extends_refl (h : heap) : extends h h.
Proof. exists []. now rewrite app_nil_r. Qed.

Lemma extends_trans (h1 h2 h3 : heap) :
  extends h1 h2 -> extends h2 h3 -> extends h1 h3.
Proof.
  intros [e1 ->] [e2 ->]. exists (e1 ++ e2). now rewrite app_assoc.
Qed.

Lemma extends_nth (h h' : heap) (l : loc) :
  extends h h' -> (l < List.length h)%nat -> nth_error h' l = nth_error h l.
Proof. intros [e ->] H. now apply nth_error_app1. Qed.

(** A computation that allocates and reads but overwrites nothing. *)
Definition appends {A : Type} (m : M A) : Prop :=
  forall h h' r, m h = (h', r) -> extends h h'.

Lemma appends_ret {A : Type} (a : A) : appends (ret a).
Proof. intros h h' r H. inversion H. apply extends_refl. Qed.

Lemma appends_lift {A : Type} (r : result A) : appends (lift r).
Proof. intros h h' r' H. inversion H. apply extends_refl. Qed.

Lemma appends_read (l : loc) : appends (read l).
Proof. intros h h' r H. inversion H. apply extends_refl. Qed.

Lemma appends_alloc (v : harr) : appends (alloc v).
Proof. intros h h' r H. inversion H. now exists [v]. Qed.

Lemma appends_bind {A B : Type} (m : M A) (k : A -> M B) :
  appends m -> (forall a, appends (k a)) -> appends (mbind m k).
Proof.
  intros Hm Hk h h' r H. unfold mbind in H.
  destruct (m h) as [h1 [a|e]] eqn:E.
  - eapply extends_trans; [eapply Hm; eauto|eapply Hk; eauto].
  - inversion H; subst. eapply Hm; eauto.
Qed.

Lemma appends_mmap {K A : Type} (f : K -> M A) (ks : list K) :
  (forall k, appends (f k)) -> appends (mmap f ks).
Proof.
  intros Hf. induction ks as [|k ks IH]; simpl.
  - apply appends_ret.
  - apply appends_bind; [apply Hf|]. intros a.
    apply appends_bind; [exact IH|]. intros r. apply appends_ret.
Qed.

Lemma appends_if {A : Type} (b : bool) (m1 m2 : M A) :
  appends m1 -> appends m2 -> appends (if b then m1 else m2).
Proof. now destruct b. Qed.
End HeapFacts.

Create HintDb heap.

#[local] Hint Resolve appends_ret appends_lift appends_read appends_alloc
  appends_bind appends_mmap appends_if : heap.

(** ** Facts about [fill_dict_nans] *)

Lemma lookup_NoDup {K V : Type} (eqb : K -> K -> bool)
      (eqb_eq : forall a b, eqb a b = true <-> a = b)
      (d : odict K V) (k : K) (v : V) :
  NoDup (keys d) -> In (k, v) d -> lookup eqb k d = Some v.
Proof.
  induction d as [|[k0 v0] d IH]; intros Hnd Hin; [destruct Hin|].
  simpl in *. inversion Hnd as [|? ? Hk0 Hnd']; subst.
  destruct Hin as [Heq|Hin].
  - inversion Heq; subst. now rewrite (eqb_refl_true eqb eqb_eq).
  - destruct (eqb k k0) eqn:E.
    + apply eqb_eq in E. subst. exfalso. apply Hk0.
      unfold keys. apply in_map_iff. exists (k0, v). auto.
    + now apply IH.
Qed.

Section FillFacts.
Variable F : Type.
Variable Fzero Fone : F.
Variable isnan isinf : F -> bool.

Local Abbreviation heap := (heap F).
Local Abbreviation harr := (harr F).
Local Abbreviation hget := (hget F Fzero).
Local Abbreviation assign_masked := (assign_masked F Fzero).
Local Abbreviation fill_selected := (fill_selected F Fzero).
Local Abbreviation fill_key := (fill_key F Fzero isnan isinf).

(** The sample [t, i] of the array at location [l]. *)
Definition hsample (h : heap) (l : loc) (t i : nat) : option (cplx F) :=
  match nth_error h l with
  | Some a => hget a t i
  | None => None
  end.

(** [y] with the samples selected by [p] replaced by 0. *)
Definition fill_f (p : F -> bool) (y : list (list F)) : list (list F) :=
  map (map (fun v => if p v then Fzero else v)) y.

Lemma zipw_self {X : Type} (p : X -> bool) (v : X) (x : list X) :
  zipw (fun s (b : bool) => if b then v else s) x (map p x)
  = Ok (map (fun s => if p s then v else s) x).
Proof.
  induction x as [|s x IH]; simpl; [reflexivity|]. now rewrite IH.
Qed.

Lemma zip2d_self {X : Type} (p : X -> bool) (v : X) (x : list (list X)) :
  zip2d (fun s (b : bool) => if b then v else s) x (map (map p) x)
  = Ok (map (map (fun s => if p s then v else s)) x).
Proof.
  unfold zip2d.
  assert (E : zipw (fun r s => zipw (fun s0 (b : bool) => if b then v else s0)
                                    r s) x (map (map p) x)
              = Ok (map (fun r => Ok (map (fun s => if p s then v else s) r))
                        x)).
  { induction x as [|r x IH]; simpl; [reflexivity|].
    now rewrite IH, zipw_self. }
  rewrite E. simpl. clear E.
  induction x as [|r x IH]; simpl; [reflexivity|]. now rewrite IH.
Qed.

Lemma assign_masked_self (p : F -> bool) (y : list (list F)) :
  assign_masked (FArr y) (map (map p) y) Fzero = Ok (FArr (fill_f p y)).
Proof. unfold assign_masked. now rewrite zip2d_self. Qed.

Lemma assign_masked_hget (a a' : harr) (m : mask) (v : F) :
  assign_masked a m v = Ok a' ->
  forall t i, hget a' t i
              = match hget a t i, get2 m t i with
                | Some x, Some b => Some (if b : bool then (v, Fzero) else x)
                | _, _ => None
                end.
Proof.
  unfold assign_masked. intros H t i. destruct a as [x|x].
  - destruct (zip2d (fun s (b : bool) => if b then v else s) x m) as [r|] eqn:E;
      [|discriminate].
    inversion H; subst. rewrite !hget_FArr, (zip2d_ok _ _ _ _ E).
    destruct (get2 x t i); simpl; [|reflexivity].
    destruct (get2 m t i) as [[|]|]; reflexivity.
  - destruct (zip2d (fun s (b : bool) => if b then (v, Fzero) else s) x m)
      as [r|] eqn:E; [|discriminate].
    inversion H; subst. unfold hget.
    simpl. unfold cplx in *. now rewrite (zip2d_ok _ _ _ _ E).
Qed.
Lemma assign_masked_shape (a a' : harr) (m : mask) (v : F) :
  assign_masked a m v = Ok a' ->
  forall t i, hget a t i = None <-> get2 m t i = None.
Proof.
  unfold assign_masked. intros H t i. destruct a as [x|x].
  - destruct (zip2d (fun s (b : bool) => if b then v else s) x m) as [r|] eqn:E;
      [|discriminate].
    rewrite hget_FArr. destruct (zip2d_shape _ _ _ _ E t i) as [[Hs1 Hs2] _].
    destruct (get2 x t i) as [s|] eqn:Ex; simpl.
    + split; [discriminate|]. intros Hm. specialize (Hs2 Hm). discriminate.
    + split; auto.
  - destruct (zip2d (fun s (b : bool) => if b then (v, Fzero) else s) x m)
      as [r|] eqn:E; [|discriminate].
    unfold hget. simpl. unfold cplx in *.
    destruct (zip2d_shape _ _ _ _ E t i) as [Hs _]. exact Hs.
Qed.

Definition zero : cplx F := (Fzero, Fzero).

(** Zeroing under a mask keeps the zeros that are there. *)
Lemma assign_masked_keeps_zero (a a' : harr) (m : mask) (t i : nat) :
  assign_masked a m Fzero = Ok a' ->
  hget a t i = Some zero -> hget a' t i = Some zero.
Proof.
  intros H Hz. rewrite (assign_masked_hget _ _ _ _ H), Hz.
  destruct (get2 m t i) as [[|]|] eqn:E; try reflexivity.
  apply (assign_masked_shape _ _ _ _ H) in E. congruence.
Qed.

Lemma assign_masked_zeroes (a a' : harr) (m : mask) (t i : nat) :
  assign_masked a m Fzero = Ok a' ->
  get2 m t i = Some true -> hget a' t i = Some zero.
Proof.
  intros H Hm. rewrite (assign_masked_hget _ _ _ _ H), Hm.
  destruct (hget a t i) eqn:E; [reflexivity|].
  apply (assign_masked_shape _ _ _ _ H) in E. congruence.
Qed.

Lemma fill_selected_step (select : harr -> mask) (p : F -> bool)
      (k : bl) (ly : loc) (w : container) (y : list (list F))
      (h h' : heap) (u : unit) :
  (forall y, select (FArr y) = map (map p) y) ->
  nth_error h ly = Some (FArr y) ->
  fill_selected select k ly (Some w) (Some Fzero) h = (h', Ok u) ->
  exists lw aw aw',
    lookup bl_eqb k w = Some lw
    /\ nth_error (upd h ly (FArr (fill_f p y))) lw = Some aw
    /\ assign_masked aw (map (map p) y) Fzero = Ok aw'
    /\ h' = upd (upd h ly (FArr (fill_f p y))) lw aw'.
Proof.
  intros Hsel Hy H. unfold fill_selected in H.
  apply mbind_ok in H. destruct H as [a [h1 [H1 H]]].
  apply read_ok in H1. destruct H1 as [-> Ha].
  rewrite Hy in Ha. inversion Ha; subst a. clear Ha.
  apply mbind_ok in H. destruct H as [a' [h2 [H2 H]]].
  apply lift_ok in H2. destruct H2 as [-> Ha'].
  rewrite Hsel, assign_masked_self in Ha'. inversion Ha'; subst a'. clear Ha'.
  apply mbind_ok in H. destruct H as [u1 [h3 [H3 H]]].
  apply write_ok in H3. subst h3.
  apply mbind_ok in H. destruct H as [lw [h4 [H4 H]]].
  apply lift_ok in H4. destruct H4 as [-> Hlw].
  destruct (lookup bl_eqb k w) as [lw'|] eqn:Hw; [|discriminate].
  inversion Hlw; subst lw'. clear Hlw.
  apply mbind_ok in H. destruct H as [aw [h5 [H5 H]]].
  apply read_ok in H5. destruct H5 as [-> Haw].
  apply mbind_ok in H. destruct H as [aw' [h6 [H6 H]]].
  apply lift_ok in H6. destruct H6 as [-> Haw'].
  apply write_ok in H. rewrite Hsel in Haw'.
  exists lw, aw, aw'. auto.
Qed.

(** What one pass of the loop of [fill_dict_nans(ydata, wgts, 0.0, 0.0)]
    does for a key whose data array [y] and weight array are different
    objects. *)
Lemma fill_key_effect (ydata w : container) (k : bl) (ly : loc)
      (y : list (list F)) (h h' : heap) (u : unit) :
  lookup bl_eqb k ydata = Some ly ->
  nth_error h ly = Some (FArr y) ->
  (forall lw, lookup bl_eqb k w = Some lw -> lw <> ly) ->
  fill_key ydata (Some w) (Some Fzero) (Some Fzero) k h = (h', Ok u) ->
  exists lw,
    lookup bl_eqb k w = Some lw
    /\ List.length h' = List.length h
    /\ (forall l, l <> ly -> l <> lw -> nth_error h' l = nth_error h l)
    /\ nth_error h' ly = Some (FArr (fill_f isinf (fill_f isnan y)))
    /\ (forall t i, hsample h lw t i = Some zero ->
                    hsample h' lw t i = Some zero)
    /\ (forall t i v, get2 y t i = Some v -> isnan v || isinf v = true ->
                      hsample h' lw t i = Some zero).
Proof.
  intros Hly Hy Hne H. unfold fill_key in H.
  apply mbind_ok in H. destruct H as [ly' [h1 [H1 H]]].
  apply lift_ok in H1. destruct H1 as [-> E]. rewrite Hly in E.
  inversion E; subst ly'. clear E.
  apply mbind_ok in H. destruct H as [u1 [h1 [H1 H]]].
  assert (Hlt : (ly < List.length h)%nat).
  { apply nth_error_Some. congruence. }
  destruct (fill_selected_step (mask_nan F isnan) isnan k ly w y h h1 u1
              (fun _ => eq_refl) Hy H1) as [lw [aw [aw1 [Hlw [Haw [Haw1 ->]]]]]].
  specialize (Hne lw Hlw).
  rewrite nth_error_upd_other in Haw by congruence.
  assert (Hlwlt : (lw < List.length h)%nat).
  { apply nth_error_Some. congruence. }
  set (y1 := fill_f isnan y) in *.
  set (h1 := upd (upd h ly (FArr y1)) lw aw1) in *.
  assert (Hy1 : nth_error h1 ly = Some (FArr y1)).
  { unfold h1. rewrite nth_error_upd_other by congruence.
    now apply nth_error_upd_same. }
  destruct (fill_selected_step (mask_inf F isinf) isinf k ly w y1 h1 h' u
              (fun _ => eq_refl) Hy1 H)
    as [lw' [aw1' [aw2 [Hlw' [Haw1' [Haw2 ->]]]]]].
  rewrite Hlw in Hlw'. inversion Hlw'; subst lw'. clear Hlw'.
  rewrite nth_error_upd_other in Haw1' by congruence.
  unfold h1 in Haw1'.
  rewrite nth_error_upd_same in Haw1' by (now rewrite upd_length).
  inversion Haw1'; subst aw1'. clear Haw1'.
  assert (Hfinal_lw : nth_error (upd (upd h1 ly (FArr (fill_f isinf y1))) lw aw2)
                                lw = Some aw2).
  { apply nth_error_upd_same. unfold h1. now rewrite !upd_length. }
  exists lw. split; [exact Hlw|].
  split; [unfold h1; now rewrite !upd_length|].
  split.
  { intros l Hl1 Hl2. unfold h1.
    now rewrite !nth_error_upd_other by congruence. }
  split.
  { rewrite nth_error_upd_other by congruence.
    apply nth_error_upd_same. unfold h1. now rewrite !upd_length. }
  split.
  - intros t i Hz. unfold hsample in *. rewrite Hfinal_lw. rewrite Haw in Hz.
    eapply assign_masked_keeps_zero; [exact Haw2|].
    eapply assign_masked_keeps_zero; [exact Haw1|exact Hz].
  - intros t i v Hv Hbad. unfold hsample. rewrite Hfinal_lw.
    destruct (isnan v) eqn:En.
    + eapply assign_masked_keeps_zero; [exact Haw2|].
      eapply assign_masked_zeroes; [exact Haw1|].
      now rewrite get2_map, Hv; simpl; rewrite En.
    + simpl in Hbad. eapply assign_masked_zeroes; [exact Haw2|].
      unfold y1, fill_f. rewrite !get2_map, Hv. simpl.
      now rewrite En, Hbad.
Qed.

(** The loop of [fill_dict_nans(ydata, wgts, 0.0, 0.0)] over the entries
    [ps] of [ydata], whose arrays [Y k] were allocated after the first [n]
    locations, which hold the weights. *)
Lemma fill_loop_spec (ydata w : container) (n : nat)
      (Y : bl -> list (list F)) :
  NoDup (keys ydata) ->
  (forall k l, lookup bl_eqb k w = Some l -> (l < n)%nat) ->
  forall ps h h' u,
    (forall k ly, In (k, ly) ps -> In (k, ly) ydata) ->
    NoDup (map snd ps) ->
    (forall k ly, In (k, ly) ps ->
                  (n <= ly)%nat /\ nth_error h ly = Some (FArr (Y k))) ->
    mfor (map fst ps) (fill_key ydata (Some w) (Some Fzero) (Some Fzero)) h
    = (h', Ok u) ->
    List.length h' = List.length h
    /\ (forall l, (l < n)%nat ->
                  (forall k ly, In (k, ly) ps -> lookup bl_eqb k w <> Some l) ->
                  nth_error h' l = nth_error h l)
    /\ (forall l, (n <= l)%nat -> ~ In l (map snd ps) ->
                  nth_error h' l = nth_error h l)
    /\ (forall l t i, (l < n)%nat -> hsample h l t i = Some zero ->
                      hsample h' l t i = Some zero)
    /\ (forall k ly, In (k, ly) ps ->
          exists lw, lookup bl_eqb k w = Some lw
                     /\ forall t i v,
                         get2 (Y k) t i = Some v ->
                         isnan v || isinf v = true ->
                         hsample h' lw t i = Some zero)
    /\ (forall k ly, In (k, ly) ps ->
          nth_error h' ly = Some (FArr (fill_f isinf (fill_f isnan (Y k))))).
Proof.
  intros Hnd Hw. induction ps as [|[k ly] ps IH]; intros h h' u Hin Hnds Hy H.
  - simpl in H. apply ret_ok in H. destruct H as [-> _].
    repeat split; auto; intros; contradiction.
  - simpl in H. apply mbind_ok in H. destruct H as [u1 [h1 [H1 H]]].
    destruct (Hy k ly (or_introl eq_refl)) as [Hly Hyk].
    inversion Hnds as [|? ? Hnotin Hnds']; subst.
    destruct (fill_key_effect ydata w k ly (Y k) h h1 u1) as
        [lw [Hlw [Hlen [Hfr [Hfill [Hmono Hbad]]]]]]; auto.
    { apply (lookup_NoDup bl_eqb bl_eqb_eq); auto. apply Hin. now left. }
    { intros lw Hlw. specialize (Hw k lw Hlw). lia. }
    pose proof (Hw k lw Hlw) as Hlwn.
    destruct (IH h1 h' u) as [L [A [B [C [D E]]]]]; auto.
    { intros k' ly' Hin'. apply Hin. now right. }
    { intros k' ly' Hin'. destruct (Hy k' ly' (or_intror Hin')) as [G1 G2].
      split; [exact G1|]. rewrite Hfr; auto; [|lia].
      intros ->. apply Hnotin. apply in_map_iff. exists (k', ly). auto. }
    split; [congruence|].
    split.
    { intros l Hl Hnw. rewrite A; auto.
      - apply Hfr; [lia|]. intros ->. apply (Hnw k ly); auto. now left.
      - intros k' ly' Hin'. apply (Hnw k' ly'). now right. }
    split.
    { intros l Hl Hnot. rewrite B; auto.
      - apply Hfr; [|lia]. intros ->. apply Hnot. now left.
      - intros Hin'. apply Hnot. now right. }
    split.
    { intros l t i Hl Hz. apply C; auto.
      destruct (Nat.eq_dec l lw) as [->|Hne]; [now apply Hmono|].
      unfold hsample in *. rewrite Hfr; auto. lia. }
    split.
    { intros k' ly' [Heq|Hin'].
      - inversion Heq; subst k' ly'. exists lw. split; [exact Hlw|].
        intros t i v Hv Hb. apply C; auto. eapply Hbad; eauto.
      - apply (D k' ly' Hin'). }
    { intros k' ly' [Heq|Hin'].
      - inversion Heq; subst k' ly'. rewrite B; auto.
      - apply (E k' ly' Hin'). }
Qed.
End FillFacts.


(** ** Facts about keys *)

Section KeyFacts.
Context {K : Type} (eqb leb : K -> K -> bool).
Hypothesis eqb_eq : forall a b, eqb a b = true <-> a = b.

Lemma NoDup_py_set (l : list K) : NoDup (py_set eqb l).
Proof.
  induction l as [|x l IH]; simpl; [constructor|].
  destruct (mem eqb x l) eqn:E; [exact IH|].
  constructor; [|exact IH].
  rewrite (In_py_set eqb eqb_eq). intros H.
  apply (mem_In eqb eqb_eq) in H. congruence.
Qed.

Lemma NoDup_insert_sorted (k : K) (l : list K) :
  ~ In k l -> NoDup l -> NoDup (insert_sorted leb k l).
Proof.
  induction l as [|x l IH]; intros Hk Hl; simpl.
  - constructor; [auto|constructor].
  - destruct (leb k x).
    + now constructor.
    + inversion Hl; subst. constructor.
      * rewrite (In_insert_sorted leb). intros [->|H]; [|contradiction].
        apply Hk. now left.
      * apply IH; [|assumption]. intros H. apply Hk. now right.
Qed.

Lemma NoDup_sorted (l : list K) : NoDup l -> NoDup (sorted leb l).
Proof.
  induction l as [|x l IH]; intros H; simpl; [constructor|].
  inversion H; subst. apply NoDup_insert_sorted; [|auto].
  now rewrite (In_sorted leb).
Qed.

Lemma setitem_fresh {V : Type} (k : K) (v : V) (d : odict K V) :
  ~ In k (keys d) -> setitem eqb k v d = d ++ [(k, v)].
Proof.
  induction d as [|[k0 v0] d IH]; intros H; simpl; [reflexivity|].
  destruct (eqb k k0) eqn:E.
  - apply eqb_eq in E. subst. exfalso. apply H. now left.
  - rewrite IH; [reflexivity|]. intros Hin. apply H. now right.
Qed.

Lemma odict_of_list_fold {V : Type} (l : list (K * V)) :
  forall acc : odict K V,
    NoDup (keys acc ++ map fst l) ->
    fold_left (fun d kv => setitem eqb (fst kv) (snd kv) d) l acc = acc ++ l.
Proof.
  induction l as [|[k v] l IH]; intros acc H; simpl.
  - now rewrite app_nil_r.
  - rewrite setitem_fresh.
    + rewrite IH; [now rewrite <- app_assoc|].
      unfold keys in *. rewrite map_app. simpl. now rewrite <- app_assoc.
    + apply NoDup_remove_2 in H. intros Hin. apply H.
      apply in_or_app. now left.
Qed.

Lemma odict_of_list_nodup {V : Type} (l : list (K * V)) :
  NoDup (map fst l) -> odict_of_list eqb l = l.
Proof. intros H. unfold odict_of_list. now rewrite odict_of_list_fold. Qed.
End KeyFacts.

Lemma NoDup_common_keys {V W : Type} (model : odict bl V) (data : odict bl W) :
  NoDup (common_keys model data).
Proof.
  unfold common_keys. apply NoDup_sorted. apply (NoDup_py_set bl_eqb bl_eqb_eq).
Qed.

Lemma map_fst_combine {A B : Type} (a : list A) (b : list B) :
  List.length a = List.length b -> map fst (combine a b) = a.
Proof.
  revert b. induction a as [|x a IH]; intros [|y b] H; simpl in *;
    try discriminate; auto.
  f_equal. apply IH. lia.
Qed.

Lemma map_snd_combine {A B : Type} (a : list A) (b : list B) :
  List.length a = List.length b -> map snd (combine a b) = b.
Proof.
  revert b. induction a as [|x a IH]; intros [|y b] H; simpl in *;
    try discriminate; auto.
  f_equal. apply IH. lia.
Qed.

Lemma In_combine_seq {A : Type} (a : list A) (n : nat) (x : A) (l : nat) :
  In (x, l) (combine a (seq n (List.length a))) ->
  exists j, l = (n + j)%nat /\ nth_error a j = Some x.
Proof.
  revert n. induction a as [|y a IH]; intros n H; simpl in H; [destruct H|].
  destruct H as [H|H].
  - inversion H; subst. exists 0%nat. split; [lia|reflexivity].
  - destruct (IH (S n) H) as [j [-> Hj]]. exists (S j). split; [lia|exact Hj].
Qed.

(** ** Facts about the set-up shared by the logarithmic solvers *)

Section LogcalFacts.
Variable F : Type.
Variable Fzero Fone : F.
Variable isnan isinf : F -> bool.
Variable cdiv : cplx F -> cplx F -> cplx F.

Local Abbreviation heap := (heap F).
Local Abbreviation harr := (harr F).
Local Abbreviation observe_key := (observe_key F Fzero cdiv).
Local Abbreviation observed := (observed F Fzero cdiv).
Local Abbreviation logcal_setup := (logcal_setup F Fzero Fone isnan isinf cdiv).
Local Abbreviation hsample := (hsample F Fzero).
Local Abbreviation fill_f := (fill_f F Fzero).

(** Every location of the container is allocated. *)
Definition valid (h : heap) (c : container) : Prop :=
  forall k l, lookup bl_eqb k c = Some l -> (l < List.length h)%nat.

Definition hread (h : heap) (l : loc) : result harr :=
  match nth_error h l with
  | Some a => Ok a
  | None => Raise ValueError
  end.

(** The observed quantity [obs(data[k] / model[k])] as the arrays stand in
    the heap [h]. *)
Definition obs_array (obs : cplx F -> F) (model data : container) (h : heap)
           (k : bl) : result (list (list F)) :=
  ld <- getitem (lookup bl_eqb k data) ;;
  lm <- getitem (lookup bl_eqb k model) ;;
  d <- hread h ld ;;
  m <- hread h lm ;;
  zip2d (fun x y => obs (cdiv x y)) (as_complex F Fzero d)
        (as_complex F Fzero m).

Lemma obs_array_ext (obs : cplx F -> F) (model data : container)
      (h e : heap) (k : bl) :
  valid h data -> valid h model ->
  obs_array obs model data (h ++ e) k = obs_array obs model data h k.
Proof.
  intros Hd Hm. unfold obs_array.
  destruct (lookup bl_eqb k data) as [ld|] eqn:Ed; simpl; [|reflexivity].
  destruct (lookup bl_eqb k model) as [lm|] eqn:Em; simpl; [|reflexivity].
  unfold hread.
  rewrite (nth_error_app1 h e (Hd _ _ Ed)).
  rewrite (nth_error_app1 h e (Hm _ _ Em)).
  reflexivity.
Qed.

Lemma observe_key_ok (obs : cplx F -> F) (model data : container) (k : bl)
      (h h' : heap) (r : bl * loc) :
  observe_key obs model data k h = (h', Ok r) ->
  exists y, obs_array obs model data h k = Ok y
            /\ h' = h ++ [FArr y] /\ r = (k, List.length h).
Proof.
  unfold observe_key, obs_array. intros H.
  apply mbind_ok in H. destruct H as [ld [h1 [H1 H]]].
  apply lift_ok in H1. destruct H1 as [-> ->]. simpl.
  apply mbind_ok in H. destruct H as [lm [h1 [H1 H]]].
  apply lift_ok in H1. destruct H1 as [-> ->]. simpl.
  apply mbind_ok in H. destruct H as [d [h1 [H1 H]]].
  apply read_ok in H1. destruct H1 as [-> Hd].
  apply mbind_ok in H. destruct H as [m [h1 [H1 H]]].
  apply read_ok in H1. destruct H1 as [-> Hm].
  apply mbind_ok in H. destruct H as [y [h1 [H1 H]]].
  apply lift_ok in H1. destruct H1 as [-> Hy].
  apply mbind_ok in H. destruct H as [l [h1 [H1 H]]].
  apply alloc_ok in H1. destruct H1 as [-> ->].
  apply ret_ok in H. destruct H as [-> ->].
  unfold hread. rewrite Hd, Hm. simpl. eauto.
Qed.

Lemma observed_mmap_ok (obs : cplx F -> F) (model data : container) :
  forall ks h h' vals,
    valid h data -> valid h model ->
    mmap (observe_key obs model data) ks h = (h', Ok vals) ->
    exists ys,
      Forall2 (fun k y => obs_array obs model data h k = Ok y) ks ys
      /\ h' = h ++ map FArr ys
      /\ vals = combine ks (seq (List.length h) (List.length ks)).
Proof.
  induction ks as [|k ks IH]; intros h h' vals Hd Hm H; simpl in H.
  - apply ret_ok in H. destruct H as [-> ->]. exists []. simpl.
    rewrite app_nil_r. auto.
  - apply mbind_ok in H. destruct H as [r [h1 [H1 H]]].
    apply observe_key_ok in H1. destruct H1 as [y [Hy [-> ->]]].
    apply mbind_ok in H. destruct H as [rs [h2 [H2 H]]].
    apply ret_ok in H. destruct H as [-> ->].
    assert (Hd' : valid (h ++ [FArr y]) data).
    { intros k' l Hl. rewrite length_app. specialize (Hd k' l Hl). lia. }
    assert (Hm' : valid (h ++ [FArr y]) model).
    { intros k' l Hl. rewrite length_app. specialize (Hm k' l Hl). lia. }
    destruct (IH _ _ _ Hd' Hm' H2) as [ys [Hys [-> ->]]].
    exists (y :: ys). split; [|split].
    + constructor; [exact Hy|].
      eapply Forall2_impl; [|exact Hys]. intros k' y' Hk'. cbv beta in Hk'.
      now rewrite (obs_array_ext _ _ _ _ _ _ Hd Hm) in Hk'.
    + simpl. now rewrite <- app_assoc.
    + simpl. rewrite length_app. simpl.
      replace (List.length h + 1)%nat with (S (List.length h)) by lia.
      reflexivity.
Qed.

Lemma Forall2_nth_error {A B : Type} (P : A -> B -> Prop)
      (a : list A) (b : list B) :
  Forall2 P a b ->
  forall j x, nth_error a j = Some x ->
              exists y, nth_error b j = Some y /\ P x y.
Proof.
  induction 1 as [|x0 y0 a b H0 H IH]; intros [|j] x Hx; simpl in *;
    try discriminate.
  - inversion Hx; subst. eauto.
  - eauto.
Qed.

Lemma In_combine_seq_rev {A : Type} (a : list A) (n j : nat) (x : A) :
  nth_error a j = Some x ->
  In (x, (n + j)%nat) (combine a (seq n (List.length a))).
Proof.
  revert n j. induction a as [|y a IH]; intros n [|j] H; simpl in *;
    try discriminate.
  - inversion H; subst. left. f_equal. lia.
  - right. replace (n + S j)%nat with (S n + j)%nat by lia. now apply IH.
Qed.

(** What [logcal_setup] leaves in the heap when the caller supplies the
    weights: the observed arrays [ys] are appended and scrubbed, the weight
    arrays of the common keys are zeroed where an observed sample is [nan]
    or [inf], and no other array that existed before is written. *)
Lemma logcal_setup_ok (obs : cplx F -> F) (model data w : container)
      (h h' : heap) (ks : list bl) (ydata w' : container) :
  valid h model -> valid h data -> valid h w ->
  logcal_setup obs model data (Some w) h = (h', Ok (ks, ydata, w')) ->
  ks = common_keys model data /\ w' = w
  /\ exists ys,
      Forall2 (fun k y => obs_array obs model data h k = Ok y) ks ys
      /\ ydata = combine ks (seq (List.length h) (List.length ks))
      /\ List.length h' = (List.length h + List.length ks)%nat
      /\ (forall l, (l < List.length h)%nat ->
                    (forall k, In k ks -> lookup bl_eqb k w <> Some l) ->
                    nth_error h' l = nth_error h l)
      /\ (forall k y, In k ks -> obs_array obs model data h k = Ok y ->
            exists lw, lookup bl_eqb k w = Some lw
                       /\ forall t i v,
                           get2 y t i = Some v ->
                           isnan v || isinf v = true ->
                           hsample h' lw t i = Some (zero F Fzero))
      /\ (forall j k y, nth_error ks j = Some k -> nth_error ys j = Some y ->
            nth_error h' (List.length h + j)
            = Some (FArr (fill_f isinf (fill_f isnan y)))).
Proof.
  intros Hm Hd Hw H. unfold logcal_setup in H.
  apply mbind_ok in H. destruct H as [yd [h1 [H1 H]]].
  unfold observed in H1.
  apply mbind_ok in H1. destruct H1 as [vals [h0 [H0 H1]]].
  apply ret_ok in H1. destruct H1 as [-> ->].
  apply observed_mmap_ok in H0; auto.
  destruct H0 as [ys [Hys [-> ->]]].
  apply mbind_ok in H. destruct H as [w0 [h1 [H1 H]]].
  simpl in H1. apply ret_ok in H1. destruct H1 as [-> ->].
  apply mbind_ok in H. destruct H as [u [h1 [H1 H]]].
  apply ret_ok in H. destruct H as [-> E]. inversion E; subst ks ydata w'.
  clear E.
  set (ks := common_keys model data) in *.
  set (n := List.length h) in *.
  assert (Hlen : List.length (seq n (List.length ks)) = List.length ks)
    by apply length_seq.
  assert (Hnd : NoDup ks) by apply NoDup_common_keys.
  rewrite (odict_of_list_nodup bl_eqb bl_eqb_eq) in *
    by (rewrite map_fst_combine; auto).
  set (ps := combine ks (seq n (List.length ks))) in *.
  set (Y := fun k => match obs_array obs model data h k with
                     | Ok y => y
                     | Raise _ => []
                     end).
  unfold fill_dict_nans in H1.
  destruct (fill_loop_spec F Fzero isnan isinf ps w n Y) with
      (ps := ps) (h := h ++ map FArr ys) (h' := h1) (u := u)
    as [L [A [B [C [D E]]]]]; auto.
  { unfold keys, ps. rewrite map_fst_combine; auto. }
  { unfold ps. rewrite map_snd_combine; auto. apply seq_NoDup. }
  { intros k ly Hin. apply In_combine_seq in Hin.
    destruct Hin as [j [-> Hj]]. split; [lia|].
    destruct (Forall2_nth_error _ _ _ Hys j k Hj) as [y [Hy Hk]].
    rewrite nth_error_app2 by (fold n; lia).
    fold n. replace (n + j - n)%nat with j by lia.
    rewrite nth_error_map, Hy. simpl. unfold Y. now rewrite Hk. }
  split; [reflexivity|]. split; [reflexivity|].
  exists ys. split; [exact Hys|]. split; [reflexivity|].
  split.
  { rewrite L, length_app, length_map. fold n. f_equal.
    symmetry. eapply Forall2_length. exact Hys. }
  split.
  { intros l Hl Hk. rewrite A; auto.
    - now apply nth_error_app1.
    - intros k ly Hin. apply Hk. unfold ps in Hin.
      now apply in_combine_l in Hin. }
  split.
  { intros k y Hin Hy. apply In_nth_error in Hin. destruct Hin as [j Hj].
    destruct (D k (n + j)%nat) as [lw [Hlw Hz]].
    { now apply In_combine_seq_rev. }
    exists lw. split; [exact Hlw|]. intros t i v Hv Hb.
    apply (Hz t i v); auto. unfold Y. now rewrite Hy. }
  { intros j k y Hj Hy.
    rewrite (E k (n + j)%nat) by now apply In_combine_seq_rev.
    destruct (Forall2_nth_error _ _ _ Hys j k Hj) as [y' [Hy' Hk]].
    unfold Y. rewrite Hk. congruence. }
Qed.
End LogcalFacts.

(** ** The solvers and the caller's arrays *)

Section SolverEffects.
Variable F : Type.
Variable Fzero Fone : F.
Variable isnan isinf : F -> bool.
Variable cdiv : cplx F -> cplx F -> cplx F.

Local Abbreviation heap := (heap F).
Local Abbreviation hsample := (hsample F Fzero).
Local Abbreviation logcal_setup := (logcal_setup F Fzero Fone isnan isinf cdiv).
Local Abbreviation valid := (valid F).

(** The sample [t, i] of [data[k] / model[k]] as the arrays stand in [h]. *)
Definition ratio_sample (h : heap) (model data : container) (k : bl)
           (t i : nat) : option (cplx F) :=
  match lookup bl_eqb k data, lookup bl_eqb k model with
  | Some ld, Some lm =>
      match hsample h ld t i, hsample h lm t i with
      | Some d, Some m => Some (cdiv d m)
      | _, _ => None
      end
  | _, _ => None
  end.

(** From heap [h] to heap [h'], the weight of every common key is 0 at
    every sample whose ratio is [bad]. *)
Definition weights_zeroed (bad : cplx F -> bool) (model data w : container)
           (h h' : heap) : Prop :=
  forall k t i z,
    In k (common_keys model data) ->
    ratio_sample h model data k t i = Some z ->
    bad z = true ->
    exists lw, lookup bl_eqb k w = Some lw
               /\ hsample h' lw t i = Some (zero F Fzero).

(** From [h] to [h'] no array that existed in [h] has changed, except the
    weight arrays of the common keys. *)
Definition only_weights_written (model data w : container) (h h' : heap)
  : Prop :=
  forall l,
    (l < List.length h)%nat ->
    (forall k, In k (common_keys model data) -> lookup bl_eqb k w <> Some l) ->
    nth_error h' l = nth_error h l.

(** The arrays of the container [c] are the same in [h] and [h']. *)
Definition unchanged (c : container) (h h' : heap) : Prop :=
  forall k l, lookup bl_eqb k c = Some l -> nth_error h' l = nth_error h l.

(** No weight array is also an array of [c]. *)
Definition no_alias (w c : container) : Prop :=
  forall k k' l, lookup bl_eqb k w = Some l -> lookup bl_eqb k' c <> Some l.

Lemma only_weights_unchanged (model data w c : container) (h h' : heap) :
  valid h c -> no_alias w c ->
  only_weights_written model data w h h' -> unchanged c h h'.
Proof.
  intros Hv Hna Ho k l Hl. apply Ho; [eapply Hv; eauto|].
  intros k' _ Hw. exact (Hna k' k l Hw Hl).
Qed.

Lemma obs_array_sample (obs : cplx F -> F) (model data : container)
      (h : heap) (k : bl) (y : list (list F)) (t i : nat) (z : cplx F) :
  obs_array F Fzero cdiv obs model data h k = Ok y ->
  ratio_sample h model data k t i = Some z ->
  get2 y t i = Some (obs z).
Proof.
  unfold obs_array, ratio_sample, hsample, hread. intros Hy Hz.
  destruct (lookup bl_eqb k data) as [ld|]; [|discriminate].
  destruct (lookup bl_eqb k model) as [lm|]; [|discriminate].
  simpl in Hy.
  destruct (nth_error h ld) as [d|]; [|discriminate].
  destruct (nth_error h lm) as [m|]; [|discriminate].
  simpl in Hy. rewrite (zip2d_ok _ _ _ _ Hy).
  unfold hget in Hz.
  destruct (get2 (as_complex F Fzero d) t i) as [x|]; [|discriminate].
  destruct (get2 (as_complex F Fzero m) t i) as [x'|]; [|discriminate].
  congruence.
Qed.

(** Any solver that starts with [logcal_setup] and then only reads and
    allocates. *)
Lemma logcal_solver_effect {A : Type} (obs : cplx F -> F)
      (model data w : container)
      (rest : list bl * container * container -> M F A)
      (h h' : heap) (r : A) :
  valid h model -> valid h data -> valid h w ->
  (forall s, appends F (rest s)) ->
  mbind (logcal_setup obs model data (Some w)) rest h = (h', Ok r) ->
  weights_zeroed (fun z => isnan (obs z) || isinf (obs z)) model data w h h'
  /\ only_weights_written model data w h h'.
Proof.
  intros Hm Hd Hw Hrest H.
  apply mbind_ok in H. destruct H as [[[ks ydata] w'] [h1 [H1 H]]].
  apply Hrest in H.
  destruct (logcal_setup_ok F Fzero Fone isnan isinf cdiv obs model data w
              h h1 ks ydata w' Hm Hd Hw H1)
    as [-> [-> [ys [Hys [_ [Hlen [Hfr [Hz _]]]]]]]].
  assert (Hle : (List.length h <= List.length h1)%nat) by lia.
  split.
  - intros k t i z Hin Hr Hb.
    apply In_nth_error in Hin. destruct Hin as [j Hj].
    destruct (Forall2_nth_error _ _ _ Hys j k Hj) as [y [_ Hy]].
    destruct (Hz k y (nth_error_In _ _ Hj) Hy) as [lw [Hlw Hzero]].
    exists lw. split; [exact Hlw|].
    specialize (Hzero t i (obs z) (obs_array_sample _ _ _ _ _ _ _ _ _ Hy Hr) Hb).
    unfold hsample in *. rewrite (extends_nth F h1 h' lw H); auto.
    specialize (Hw k lw Hlw). lia.
  - intros l Hl Hk. rewrite (extends_nth F h1 h' l H) by lia. now apply Hfr.
Qed.
End SolverEffects.

Ltac solve_appends :=
  repeat first
    [ apply appends_ret | apply appends_lift | apply appends_read
    | apply appends_alloc | apply appends_if
    | apply appends_mmap; intros
    | apply appends_bind; [|intros]
    | match goal with
      | |- appends _ (let '(_, _) := ?s in _) => destruct s
      | |- appends _ (match ?s with (_, _) => _ end) => destruct s
      end ].

Section LogcalSolverEffects.
Variable F : Type.
Variable Fzero Fone : F.
Variable isnan isinf : F -> bool.
Variable cdiv : cplx F -> cplx F -> cplx F.
Variable log_abs : cplx F -> F.
Variable angle : cplx F -> F.
Variable fexp : F -> F.
Variable split_pol : string -> result (string * string).
Variable LinearSolver :
  odict string (harr F) -> odict string (harr F) -> odict string F ->
  result (fit_t F).
Variable Fsub : F -> F -> F.
Variable tt_gain :
  list F -> list (list F) -> list (list F) -> list (list F) ->
  list (list (cplx F)).

Local Abbreviation heap := (heap F).
Local Abbreviation valid := (valid F).
Local Abbreviation weights_zeroed := (weights_zeroed F Fzero cdiv).
Local Abbreviation only_weights_written := (only_weights_written F).

Lemma appends_run_linsolve (ls_data ls_wgts : odict string loc)
      (consts : odict string F) :
  appends F (run_linsolve F LinearSolver ls_data ls_wgts consts).
Proof. unfold run_linsolve, snapshot. solve_appends. Qed.

Lemma appends_pin_refant (prefix : string) (refant : Z) (pols : list string)
      (ydata w : odict bl loc) :
  forall ls_data ls_wgts,
    appends F (pin_refant F Fzero Fone prefix refant pols ydata w
                 ls_data ls_wgts).
Proof.
  induction pols as [|p pols IH]; intros ls_data ls_wgts; simpl.
  - apply appends_ret.
  - solve_appends. apply IH.
Qed.

(** The log-amplitude of a ratio is [nan] or [inf]. *)
Definition bad_amp (z : cplx F) : bool :=
  isnan (log_abs z) || isinf (log_abs z).

(** The angle of a ratio is [nan] or [inf]. *)
Definition bad_phs (z : cplx F) : bool :=
  isnan (angle z) || isinf (angle z).

Lemma abs_amp_logcal_effect (model data w : container)
      (return_gains : bool) (gain_ants : list gkey)
      (h h' : heap) (r : solution F) :
  valid h model -> valid h data -> valid h w ->
  abs_amp_logcal F Fzero Fone isnan isinf cdiv log_abs fexp split_pol
    LinearSolver model data (Some w) return_gains gain_ants h = (h', Ok r) ->
  weights_zeroed bad_amp model data w h h'
  /\ only_weights_written model data w h h'.
Proof.
  intros Hm Hd Hw H. unfold abs_amp_logcal in H.
  eapply (logcal_solver_effect F Fzero Fone isnan isinf cdiv log_abs);
    [exact Hm|exact Hd|exact Hw| |exact H].
  intros [[ks yd] w']. solve_appends; apply appends_run_linsolve.
Qed.

Lemma amp_logcal_effect (model data w : container)
      (h h' : heap) (r : fit_t F) :
  valid h model -> valid h data -> valid h w ->
  amp_logcal F Fzero Fone isnan isinf cdiv log_abs split_pol LinearSolver
    model data (Some w) h = (h', Ok r) ->
  weights_zeroed bad_amp model data w h h'
  /\ only_weights_written model data w h h'.
Proof.
  intros Hm Hd Hw H. unfold amp_logcal in H.
  eapply (logcal_solver_effect F Fzero Fone isnan isinf cdiv log_abs);
    [exact Hm|exact Hd|exact Hw| |exact H].
  intros [[ks yd] w']. solve_appends; apply appends_run_linsolve.
Qed.

Lemma phs_logcal_effect (model data w : container) (refant : option Z)
      (h h' : heap) (r : fit_t F) :
  valid h model -> valid h data -> valid h w ->
  phs_logcal F Fzero Fone isnan isinf cdiv angle split_pol LinearSolver
    model data (Some w) refant h = (h', Ok r) ->
  weights_zeroed bad_phs model data w h h'
  /\ only_weights_written model data w h h'.
Proof.
  intros Hm Hd Hw H. unfold phs_logcal, phs_logcal_system in H.
  assert (E : forall {A B C : Type} (m : M F A) (k : A -> M F B)
                     (k' : B -> M F C) hh,
             mbind (mbind m k) k' hh
             = mbind m (fun a => mbind (k a) k') hh).
  { intros A B C m k k' hh. unfold mbind.
    destruct (m hh) as [h1 [a|e]]; reflexivity. }
  rewrite E in H.
  eapply (logcal_solver_effect F Fzero Fone isnan isinf cdiv angle);
    [exact Hm|exact Hd|exact Hw| |exact H].
  intros [[ks yd] w'].
  solve_appends; first [apply appends_pin_refant|apply appends_run_linsolve].
Qed.

Lemma TT_phs_logcal_effect (model data w : container) (antpos : antpos_t F)
      (refant : option Z) (zero_psi four_pol return_gains : bool)
      (gain_ants : list gkey) (h h' : heap) (r : solution F) :
  valid h model -> valid h data -> valid h w ->
  TT_phs_logcal F Fzero Fone isnan isinf cdiv angle split_pol LinearSolver
    Fsub tt_gain model data antpos (Some w) refant zero_psi four_pol
    return_gains gain_ants h = (h', Ok r) ->
  weights_zeroed bad_phs model data w h h'
  /\ only_weights_written model data w h h'.
Proof.
  intros Hm Hd Hw H. unfold TT_phs_logcal in H.
  eapply (logcal_solver_effect F Fzero Fone isnan isinf cdiv angle);
    [exact Hm|exact Hd|exact Hw| |exact H].
  intros [[ks yd] w']. solve_appends; apply appends_run_linsolve.
Qed.
End LogcalSolverEffects.

Section DelaySolverEffects.
Variable F : Type.
Variable Fzero Fone : F.
Variable isnan isinf : F -> bool.
Variable cdiv : cplx F -> cplx F -> cplx F.
Variable split_pol : string -> result (string * string).
Variable LinearSolver :
  odict string (harr F) -> odict string (harr F) -> odict string F ->
  result (fit_t F).
Variable Fsub : F -> F -> F.
Variable fft_dly :
  list (list (cplx F)) -> F -> F -> harr F -> bool -> Z * Z -> Z ->
  result (list (list F) * list (list F)).
Variable nanmean_rows : harr F -> list (list F).
Variable delay_slope_gain :
  list F -> list (list F) -> list (list F) -> nat -> F ->
  list (list (cplx F)).

Local Abbreviation heap := (heap F).
Local Abbreviation valid := (valid F).
Local Abbreviation hsample := (hsample F Fzero).
Local Abbreviation ratio_sample := (ratio_sample F Fzero cdiv).
Local Abbreviation weights_zeroed := (weights_zeroed F Fzero cdiv).
Local Abbreviation only_weights_written := (only_weights_written F).
Local Abbreviation delay_of_key :=
  (delay_of_key F Fzero isnan isinf cdiv fft_dly nanmean_rows).
Local Abbreviation zero := (zero F Fzero).

(** The ratio itself is [nan] or [inf]. *)
Definition bad_ratio (z : cplx F) : bool :=
  c_isnan F isnan z || c_isinf F isinf z.

Lemma delay_of_key_effect (model data w : container) (df f0 : F)
      (medfilt : bool) (kernel : Z * Z) (edge_cut : Z) (with_offset : bool)
      (k : bl) (h h' : heap)
      (r : list (list F) * list (list F) * list (list F)) :
  delay_of_key model data w df f0 medfilt kernel edge_cut with_offset k h
  = (h', Ok r) ->
  exists lw,
    lookup bl_eqb k w = Some lw
    /\ List.length h' = List.length h
    /\ (forall l, l <> lw -> nth_error h' l = nth_error h l)
    /\ (forall t i, hsample h lw t i = Some zero ->
                    hsample h' lw t i = Some zero)
    /\ (forall t i z, ratio_sample h model data k t i = Some z ->
                      bad_ratio z = true ->
                      hsample h' lw t i = Some zero).
Proof.
  unfold delay_of_key. intros H.
  apply mbind_ok in H. destruct H as [ld [h1 [H1 H]]].
  apply lift_ok in H1. destruct H1 as [-> Hld].
  apply mbind_ok in H. destruct H as [lm [h1 [H1 H]]].
  apply lift_ok in H1. destruct H1 as [-> Hlm].
  apply mbind_ok in H. destruct H as [d [h1 [H1 H]]].
  apply read_ok in H1. destruct H1 as [-> Hd].
  apply mbind_ok in H. destruct H as [m [h1 [H1 H]]].
  apply read_ok in H1. destruct H1 as [-> Hm].
  apply mbind_ok in H. destruct H as [ratio [h1 [H1 H]]].
  apply lift_ok in H1. destruct H1 as [-> Hratio].
  apply mbind_ok in H. destruct H as [ratio1 [h1 [H1 H]]].
  apply lift_ok in H1. destruct H1 as [-> Hratio1].
  rewrite zip2d_self in Hratio1. inversion Hratio1; subst ratio1.
  clear Hratio1.
  apply mbind_ok in H. destruct H as [lw [h1 [H1 H]]].
  apply lift_ok in H1. destruct H1 as [-> Hlw].
  destruct (lookup bl_eqb k w) as [lw0|] eqn:Ew; [|discriminate].
  inversion Hlw; subst lw0. clear Hlw.
  apply mbind_ok in H. destruct H as [aw [h1 [H1 H]]].
  apply read_ok in H1. destruct H1 as [-> Haw].
  apply mbind_ok in H. destruct H as [aw1 [h1 [H1 H]]].
  apply lift_ok in H1. destruct H1 as [-> Haw1].
  apply mbind_ok in H. destruct H as [u1 [h1 [H1 H]]].
  apply write_ok in H1. subst h1.
  apply mbind_ok in H. destruct H as [ratio2 [h1 [H1 H]]].
  apply lift_ok in H1. destruct H1 as [-> Hratio2].
  apply mbind_ok in H. destruct H as [lw' [h1 [H1 H]]].
  apply lift_ok in H1. destruct H1 as [-> Hlw']. simpl in Hlw'.
  inversion Hlw'; subst lw'. clear Hlw'.
  apply mbind_ok in H. destruct H as [aw1' [h1 [H1 H]]].
  apply read_ok in H1. destruct H1 as [-> Haw1'].
  assert (Hlt : (lw < List.length h)%nat).
  { apply nth_error_Some. congruence. }
  rewrite nth_error_upd_same in Haw1' by exact Hlt.
  inversion Haw1'; subst aw1'. clear Haw1'.
  apply mbind_ok in H. destruct H as [aw2 [h1 [H1 H]]].
  apply lift_ok in H1. destruct H1 as [-> Haw2].
  apply mbind_ok in H. destruct H as [u2 [h1 [H1 H]]].
  apply write_ok in H1. subst h1.
  cbv zeta in H.
  repeat (apply mbind_ok in H;
          let a := fresh "a" in
          let hx := fresh "hx" in
          let Hx := fresh "Hx" in
          destruct H as [a [hx [Hx H]]];
          first [apply lift_ok in Hx; destruct Hx as [-> _]
                |apply read_ok in Hx; destruct Hx as [-> _]]).
  apply ret_ok in H. destruct H as [-> _].
  exists lw. split; [reflexivity|].
  split; [now rewrite !upd_length|].
  split; [intros l Hl; now rewrite !nth_error_upd_other by congruence|].
  assert (Hfin : nth_error (upd (upd h lw aw1) lw aw2) lw = Some aw2).
  { apply nth_error_upd_same. now rewrite upd_length. }
  split.
  - intros t i Hz. unfold hsample in *. rewrite Hfin. rewrite Haw in Hz.
    eapply assign_masked_keeps_zero; [exact Haw2|].
    eapply assign_masked_keeps_zero; [exact Haw1|exact Hz].
  - intros t i z Hz Hb. unfold hsample. rewrite Hfin.
    assert (Hr : get2 ratio t i = Some z).
    { rewrite (zip2d_ok _ _ _ _ Hratio).
      unfold ratio_sample, hsample in Hz.
      destruct (lookup bl_eqb k data) as [ld0|]; [|discriminate].
      destruct (lookup bl_eqb k model) as [lm0|]; [|discriminate].
      simpl in Hld, Hlm.
      inversion Hld; inversion Hlm; subst. rewrite Hd, Hm in Hz.
      unfold hget in Hz.
      destruct (get2 (as_complex F Fzero d) t i); [|discriminate].
      destruct (get2 (as_complex F Fzero m) t i); [|discriminate].
      exact Hz. }
    rewrite zip2d_self in Hratio2. inversion Hratio2; subst ratio2.
    unfold bad_ratio in Hb.
    destruct (c_isnan F isnan z) eqn:En.
    + eapply assign_masked_keeps_zero; [exact Haw2|].
      eapply assign_masked_zeroes; [exact Haw1|].
      refine (eq_trans (get2_map _ _ _ _) _).
      refine (eq_trans (f_equal (option_map _) Hr) _).
      simpl. now rewrite En.
    + simpl in Hb. eapply assign_masked_zeroes; [exact Haw2|].
      refine (eq_trans (get2_map _ _ _ _) _).
      refine (eq_trans (f_equal (option_map _) (get2_map _ _ _ _)) _).
      refine (eq_trans (f_equal (fun o => option_map _ (option_map _ o)) Hr)
                       _).
      simpl. now rewrite En, Hb.
Qed.

Lemma ratio_sample_frame (model data : container) (h h' : heap) (k : bl)
      (t i : nat) :
  unchanged F data h h' -> unchanged F model h h' ->
  ratio_sample h' model data k t i = ratio_sample h model data k t i.
Proof.
  intros Hd Hm. unfold ratio_sample, hsample.
  destruct (lookup bl_eqb k data) as [ld|] eqn:Ed; [|reflexivity].
  destruct (lookup bl_eqb k model) as [lm|] eqn:Em; [|reflexivity].
  now rewrite (Hd k ld Ed), (Hm k lm Em).
Qed.

(** The loop over the common keys of [delay_lincal] and
    [delay_slope_lincal]. *)
Lemma delay_loop_effect (model data w : container) (df f0 : F)
      (medfilt : bool) (kernel : Z * Z) (edge_cut : Z) (with_offset : bool)
      (ks : list bl) :
  no_alias w data -> no_alias w model ->
  forall (h h' : heap)
         (rs : list (list (list F) * list (list F) * list (list F))),
    mmap (delay_of_key model data w df f0 medfilt kernel edge_cut with_offset)
         ks h = (h', Ok rs) ->
    List.length h' = List.length h
    /\ (forall l, (forall k, In k ks -> lookup bl_eqb k w <> Some l) ->
                  nth_error h' l = nth_error h l)
    /\ (forall l t i, hsample h l t i = Some zero ->
                      hsample h' l t i = Some zero)
    /\ (forall k t i z, In k ks ->
                        ratio_sample h model data k t i = Some z ->
                        bad_ratio z = true ->
                        exists lw, lookup bl_eqb k w = Some lw
                                   /\ hsample h' lw t i = Some zero).
Proof.
  intros Hnd Hnm. induction ks as [|k ks IH]; intros h h' rs H.
  - simpl in H. apply ret_ok in H. destruct H as [-> _].
    split; [reflexivity|]. split; [reflexivity|].
    split; [auto|]. intros k t i z [].
  - simpl in H. apply mbind_ok in H. destruct H as [a [h1 [H1 H]]].
    apply mbind_ok in H. destruct H as [r [h2 [H2 H]]].
    apply ret_ok in H. destruct H as [-> _].
    destruct (delay_of_key_effect _ _ _ _ _ _ _ _ _ _ _ _ _ H1)
      as [lw [Hlw [Hlen1 [Hfr1 [Hmono1 Hz1]]]]].
    destruct (IH _ _ _ H2) as [Hlen2 [Hfr2 [Hmono2 Hz2]]].
    assert (Hmono : forall l t i, hsample h l t i = Some zero ->
                                  hsample h1 l t i = Some zero).
    { intros l t i Hz. destruct (Nat.eq_dec l lw) as [->|Hne].
      - now apply Hmono1.
      - unfold hsample in *. now rewrite (Hfr1 l Hne). }
    assert (Hud : unchanged F data h h1).
    { intros k' l Hl. apply Hfr1. intros ->. exact (Hnd k k' lw Hlw Hl). }
    assert (Hum : unchanged F model h h1).
    { intros k' l Hl. apply Hfr1. intros ->. exact (Hnm k k' lw Hlw Hl). }
    split; [congruence|]. split; [|split].
    + intros l Hl. rewrite Hfr2 by (intros k' Hk'; apply Hl; now right).
      apply Hfr1. intros ->. apply (Hl k); [now left|exact Hlw].
    + intros l t i Hz. apply Hmono2. now apply Hmono.
    + intros k' t i z [<-|Hin] Hr Hb.
      * exists lw. split; [exact Hlw|]. apply Hmono2. eapply Hz1; eauto.
      * apply (Hz2 k' t i z Hin); [|exact Hb].
        now rewrite (ratio_sample_frame _ _ _ _ _ _ _ Hud Hum).
Qed.

(** Any solver that runs the loop on the caller's weights and afterwards
    only reads and allocates. *)
Lemma delay_solver_effect {A : Type} (model data w : container) (df f0 : F)
      (medfilt : bool) (kernel : Z * Z) (edge_cut : Z) (with_offset : bool)
      (rest : list (list (list F) * list (list F) * list (list F)) -> M F A)
      (h h' : heap) (r : A) :
  valid h w -> no_alias w data -> no_alias w model ->
  (forall s, appends F (rest s)) ->
  mbind (mmap (delay_of_key model data w df f0 medfilt kernel edge_cut
                 with_offset) (common_keys model data)) rest h = (h', Ok r) ->
  weights_zeroed bad_ratio model data w h h'
  /\ only_weights_written model data w h h'.
Proof.
  intros Hw Hnd Hnm Hrest H.
  apply mbind_ok in H. destruct H as [rs [h1 [H1 H]]].
  apply Hrest in H.
  destruct (delay_loop_effect _ _ _ _ _ _ _ _ _ _ Hnd Hnm _ _ _ H1)
    as [Hlen [Hfr [_ Hz]]].
  split.
  - intros k t i z Hin Hr Hb.
    destruct (Hz k t i z Hin Hr Hb) as [lw [Hlw Hzero]].
    exists lw. split; [exact Hlw|].
    unfold hsample in *. rewrite (extends_nth F h1 h' lw H); auto.
    specialize (Hw k lw Hlw). lia.
  - intros l Hl Hk. rewrite (extends_nth F h1 h' l H) by lia. now apply Hfr.
Qed.

Lemma delay_lincal_effect (model data w : container) (refant : option Z)
      (df f0 : F) (medfilt : bool) (kernel : Z * Z) (edge_cut : Z)
      (h h' : heap) (r : fit_t F) :
  valid h w -> no_alias w data -> no_alias w model ->
  delay_lincal F Fzero Fone isnan isinf cdiv split_pol LinearSolver
    fft_dly nanmean_rows model data (Some w) refant df f0 medfilt kernel
    edge_cut h = (h', Ok r) ->
  weights_zeroed bad_ratio model data w h h'
  /\ only_weights_written model data w h h'.
Proof.
  intros Hw Hnd Hnm H. unfold delay_lincal, delay_lincal_prep in H.
  apply mbind_ok in H. destruct H as [p [h1 [H1 H]]].
  apply mbind_ok in H1. destruct H1 as [w' [h0 [H0 H1]]].
  simpl in H0. apply ret_ok in H0. destruct H0 as [-> ->].
  assert (Hp : weights_zeroed bad_ratio model data w h h1
               /\ only_weights_written model data w h h1
               /\ (List.length h <= List.length h1)%nat).
  { assert (Hzo : weights_zeroed bad_ratio model data w h h1
                  /\ only_weights_written model data w h h1).
    { eapply delay_solver_effect;
        [exact Hw|exact Hnd|exact Hnm| |exact H1].
      intros s. solve_appends. }
    destruct Hzo as [Hz Ho].
    split; [exact Hz|]. split; [exact Ho|].
    apply mbind_ok in H1. destruct H1 as [rs [h2 [H2 H1]]].
    destruct (delay_loop_effect _ _ _ _ _ _ _ _ _ _ Hnd Hnm _ _ _ H2)
      as [Hlen _].
    assert (Hx : extends F h2 h1).
    { match type of H1 with
      | ?m _ = _ =>
          assert (Ha : appends F m) by solve_appends; exact (Ha _ _ _ H1)
      end. }
    destruct Hx as [ext ->]. rewrite length_app. lia. }
  destruct Hp as [Hz [Ho Hle]].
  assert (Hx : extends F h1 h').
  { match type of H with
    | ?m _ = _ =>
        assert (Ha : appends F m) by solve_appends; exact (Ha _ _ _ H)
    end. }
  split.
  - intros k t i z Hin Hr Hb.
    destruct (Hz k t i z Hin Hr Hb) as [lw [Hlw Hzero]].
    exists lw. split; [exact Hlw|].
    unfold hsample in *. rewrite (extends_nth F h1 h' lw Hx); auto.
    specialize (Hw k lw Hlw). lia.
  - intros l Hl Hk. rewrite (extends_nth F h1 h' l Hx) by lia.
    now apply Ho.
Qed.

Lemma delay_slope_lincal_effect (model data w : container)
      (antpos : antpos_t F) (refant : option Z) (df : F) (medfilt : bool)
      (kernel : Z * Z) (four_pol : bool) (edge_cut : Z) (return_gains : bool)
      (gain_ants : list gkey) (h h' : heap) (r : solution F) :
  valid h w -> no_alias w data -> no_alias w model ->
  delay_slope_lincal F Fzero Fone isnan isinf cdiv split_pol LinearSolver
    Fsub fft_dly nanmean_rows delay_slope_gain model data antpos (Some w)
    refant df medfilt kernel four_pol edge_cut return_gains gain_ants h
  = (h', Ok r) ->
  weights_zeroed bad_ratio model data w h h'
  /\ only_weights_written model data w h h'.
Proof.
  intros Hw Hnd Hnm H. unfold delay_slope_lincal in H.
  apply mbind_ok in H. destruct H as [w' [h0 [H0 H]]].
  simpl in H0. apply ret_ok in H0. destruct H0 as [-> ->].
  apply mbind_ok in H. destruct H as [refant' [h0 [H0 H]]].
  apply lift_ok in H0. destruct H0 as [-> _].
  apply mbind_ok in H. destruct H as [antpos' [h0 [H0 H]]].
  apply lift_ok in H0. destruct H0 as [-> _].
  eapply delay_solver_effect; [exact Hw|exact Hnd|exact Hnm| |exact H].
  intros s. solve_appends.
Qed.
End DelaySolverEffects.

(** ** The solvers write the caller's weights, and nothing else *)

Section InPlaceWeights.
Variable F : Type.
Variable Fzero Fone : F.
Variable isnan isinf : F -> bool.
Variable cdiv : cplx F -> cplx F -> cplx F.
Variable log_abs : cplx F -> F.
Variable angle : cplx F -> F.
Variable fexp : F -> F.
Variable split_pol : string -> result (string * string).
Variable LinearSolver :
  odict string (harr F) -> odict string (harr F) -> odict string F ->
  result (fit_t F).
Variable Fsub : F -> F -> F.
Variable tt_gain :
  list F -> list (list F) -> list (list F) -> list (list F) ->
  list (list (cplx F)).
Variable fft_dly :
  list (list (cplx F)) -> F -> F -> harr F -> bool -> Z * Z -> Z ->
  result (list (list F) * list (list F)).
Variable nanmean_rows : harr F -> list (list F).
Variable delay_slope_gain :
  list F -> list (list F) -> list (list F) -> nat -> F ->
  list (list (cplx F)).

(** What a solver called with the weights [w] has done to the heap [h]
    when it returns with the heap [h']: the caller's weight arrays are 0
    wherever the ratio is [bad], and no other array that existed before the
    call has changed; in particular not those of [data] and [model]. *)
Definition in_place_effect (bad : cplx F -> bool) (model data w : container)
           (h h' : heap F) : Prop :=
  weights_zeroed F Fzero cdiv bad model data w h h'
  /\ only_weights_written F model data w h h'
  /\ unchanged F data h h'
  /\ unchanged F model h h'.

Lemma in_place_effect_intro (bad : cplx F -> bool) (model data w : container)
      (h h' : heap F) :
  valid F h model -> valid F h data ->
  no_alias w data -> no_alias w model ->
  weights_zeroed F Fzero cdiv bad model data w h h'
  /\ only_weights_written F model data w h h' ->
  in_place_effect bad model data w h h'.
Proof.
  intros Hm Hd Hnd Hnm [Hz Ho].
  split; [exact Hz|]. split; [exact Ho|].
  split; eapply only_weights_unchanged; eauto.
Qed.

(** C9: called with a weight container [w] whose arrays are not arrays of
    [data] or [model], each of [abs_amp_logcal], [amp_logcal],
    [phs_logcal], [TT_phs_logcal], [delay_lincal] and [delay_slope_lincal]
    that returns has written 0 into the caller's own weight arrays at every
    sample of every common key where its observed quantity is nan or inf
    (the log-amplitude of data/model, its angle, or the ratio itself for
    the two delay solvers), and has left every other array that existed
    before the call as it was: the arrays of [data] and [model] are
    unchanged. *)
Theorem solvers_zero_weights_in_place
        (model data w : container) (h : heap F) :
  valid F h model -> valid F h data -> valid F h w ->
  no_alias w data -> no_alias w model ->
  (forall return_gains gain_ants h' r,
      abs_amp_logcal F Fzero Fone isnan isinf cdiv log_abs fexp split_pol
        LinearSolver model data (Some w) return_gains gain_ants h
      = (h', Ok r) ->
      in_place_effect (bad_amp F isnan isinf log_abs) model data w h h')
  /\ (forall h' r,
      amp_logcal F Fzero Fone isnan isinf cdiv log_abs split_pol
        LinearSolver model data (Some w) h = (h', Ok r) ->
      in_place_effect (bad_amp F isnan isinf log_abs) model data w h h')
  /\ (forall refant h' r,
      phs_logcal F Fzero Fone isnan isinf cdiv angle split_pol LinearSolver
        model data (Some w) refant h = (h', Ok r) ->
      in_place_effect (bad_phs F isnan isinf angle) model data w h h')
  /\ (forall antpos refant zero_psi four_pol return_gains gain_ants h' r,
      TT_phs_logcal F Fzero Fone isnan isinf cdiv angle split_pol
        LinearSolver Fsub tt_gain model data antpos (Some w) refant
        zero_psi four_pol return_gains gain_ants h = (h', Ok r) ->
      in_place_effect (bad_phs F isnan isinf angle) model data w h h')
  /\ (forall refant df f0 medfilt kernel edge_cut h' r,
      delay_lincal F Fzero Fone isnan isinf cdiv split_pol LinearSolver
        fft_dly nanmean_rows model data (Some w) refant df f0 medfilt
        kernel edge_cut h = (h', Ok r) ->
      in_place_effect (bad_ratio F isnan isinf) model data w h h')
  /\ (forall antpos refant df medfilt kernel four_pol edge_cut return_gains
             gain_ants h' r,
      delay_slope_lincal F Fzero Fone isnan isinf cdiv split_pol
        LinearSolver Fsub fft_dly nanmean_rows delay_slope_gain model data
        antpos (Some w) refant df medfilt kernel four_pol edge_cut
        return_gains gain_ants h = (h', Ok r) ->
      in_place_effect (bad_ratio F isnan isinf) model data w h h').
Proof.
  intros Hm Hd Hw Hnd Hnm.
  split; [|split; [|split; [|split; [|split]]]]; intros;
    apply in_place_effect_intro; try assumption.
  - eapply abs_amp_logcal_effect; eauto.
  - eapply amp_logcal_effect; eauto.
  - eapply phs_logcal_effect; eauto.
  - eapply TT_phs_logcal_effect; eauto.
  - eapply delay_lincal_effect; eauto.
  - eapply delay_slope_lincal_effect; eauto.
Qed.
End InPlaceWeights.

(** One baseline whose first sample is flagged in the data: the arrays of
    [data], [model] and the caller's weights, in this order on the heap. *)
Definition heap_flagged_sample : heap float :=
  [CArr [[(PrimFloat.nan, 0%float); (2%float, 0%float)]];
   CArr [[(1%float, 0%float); (1%float, 0%float)]];
   FArr [[1%float; 1%float]]].

Definition data_one_bl : container := [(Bl3 0 1 "xx", 0%nat)].
Definition model_one_bl : container := [(Bl3 0 1 "xx", 1%nat)].
Definition wgts_one_bl : container := [(Bl3 0 1 "xx", 2%nat)].

Lemma lookup_one_bl (k : bl) (l l' : loc) :
  lookup bl_eqb k [(Bl3 0 1 "xx", l')] = Some l -> l = l'.
Proof.
  simpl. destruct (bl_eqb k (Bl3 0 1 "xx")); intros H; inversion H.
  reflexivity.
Qed.

Lemma solvers_zero_weights_in_place_witness :
  valid float heap_flagged_sample model_one_bl
  /\ valid float heap_flagged_sample data_one_bl
  /\ valid float heap_flagged_sample wgts_one_bl
  /\ no_alias wgts_one_bl data_one_bl
  /\ no_alias wgts_one_bl model_one_bl
  /\ in_place_effect float 0%float Float64.cdiv
       (bad_amp float PrimFloat.is_nan PrimFloat.is_infinity
                Abscal64.log_abs)
       model_one_bl data_one_bl wgts_one_bl heap_flagged_sample
       (fst (Abscal64.amp_logcal model_one_bl data_one_bl
               (Some wgts_one_bl) heap_flagged_sample)).
Proof.
  assert (Hm : valid float heap_flagged_sample model_one_bl).
  { intros k l H. apply lookup_one_bl in H. subst. simpl. lia. }
  assert (Hd : valid float heap_flagged_sample data_one_bl).
  { intros k l H. apply lookup_one_bl in H. subst. simpl. lia. }
  assert (Hw : valid float heap_flagged_sample wgts_one_bl).
  { intros k l H. apply lookup_one_bl in H. subst. simpl. lia. }
  assert (Hnd : no_alias wgts_one_bl data_one_bl).
  { intros k k' l H H'. apply lookup_one_bl in H, H'. congruence. }
  assert (Hnm : no_alias wgts_one_bl model_one_bl).
  { intros k k' l H H'. apply lookup_one_bl in H, H'. congruence. }
  repeat (split; [assumption|]).
  destruct (solvers_zero_weights_in_place float 0%float 1%float
              PrimFloat.is_nan PrimFloat.is_infinity Float64.cdiv
              Abscal64.log_abs Abscal64.angle Libm.exp Utils.split_pol
              Lstsq.LinearSolver PrimFloat.sub Abscal64.tt_gain
              Libm.fft_dly Float64.nanmean_rows Abscal64.delay_slope_gain
              model_one_bl data_one_bl wgts_one_bl heap_flagged_sample
              Hm Hd Hw Hnd Hnm) as [_ [Hamp _]].
  destruct (Abscal64.amp_logcal model_one_bl data_one_bl
              (Some wgts_one_bl) heap_flagged_sample) as [h' [r|e]] eqn:E.
  - exact (Hamp h' r E).
  - vm_compute in E. discriminate.
Defined.

(** On that input [amp_logcal] has written the 0 into the caller's
    array. *)
Example amp_logcal_flagged_sample :
  nth_error (fst (Abscal64.amp_logcal model_one_bl data_one_bl
                    (Some wgts_one_bl) heap_flagged_sample)) 2
  = Some (FArr [[0%float; 1%float]]).
Proof. vm_compute. reflexivity. Qed.

(** ** [delay_lincal] on a flagged integration *)

(** One baseline, one integration of two channels, the data of the whole
    integration being [nan]. *)
Definition heap_flagged_integration : heap float :=
  [CArr [[(PrimFloat.nan, 0%float); (PrimFloat.nan, 0%float)]];
   CArr [[(1%float, 0%float); (1%float, 0%float)]];
   FArr [[1%float; 1%float]]].

(** The heap when [delay_lincal] returns: the weights of the integration
    are 0. *)
Definition heap_flagged_integration_after : heap float :=
  [CArr [[(PrimFloat.nan, 0%float); (PrimFloat.nan, 0%float)]];
   CArr [[(1%float, 0%float); (1%float, 0%float)]];
   FArr [[0%float; 0%float]]].

(** The two systems that [delay_lincal] gives to the linear solver on this
    input: data and weights of the delays, data and weights of the phase
    offsets. *)
Definition tau_data_flagged : odict string (harr float) :=
  [("tau_0_Jxx - tau_1_Jxx", FArr [[0%float]]);
   ("tau_0_Jxx", FArr [[0%float]])]%string.

Definition tau_wgts_flagged : odict string (harr float) :=
  [("tau_0_Jxx - tau_1_Jxx", FArr [[0%float]]);
   ("tau_0_Jxx", FArr [[1%float]])]%string.

Definition phi_data_flagged : odict string (harr float) :=
  [("phi_0_Jxx - phi_1_Jxx", FArr [[PrimFloat.nan]]);
   ("phi_0_Jxx", FArr [[0%float]])]%string.

Definition phi_wgts_flagged : odict string (harr float) :=
  [("phi_0_Jxx - phi_1_Jxx", FArr [[0%float]]);
   ("phi_0_Jxx", FArr [[1%float]])]%string.

Section FlaggedIntegration.
Variable np_fft : list (cplx float) -> list (cplx float).
Variable np_log : float -> float.
Variable np_exp : cplx float -> cplx float.
Variable np_abs : cplx float -> float.
Variable np_arctan2 : float -> float -> float.
Variable signal_medfilt :
  list (list float) -> Z * Z -> result (list (list float)).
Variable LinearSolver :
  odict string (harr float) -> odict string (harr float) ->
  odict string float -> result (fit_t float).

(** What is used of numpy's functions. *)
Hypothesis fft_zeros :
  np_fft [(0%float, 0%float); (0%float, 0%float)]
  = [(0%float, 0%float); (0%float, 0%float)].
Hypothesis abs_zero : np_abs (0%float, 0%float) = 0%float.
Hypothesis log_nan : np_log PrimFloat.nan = PrimFloat.nan.
Hypothesis exp_zero : np_exp (0%float, 0%float) = (1%float, 0%float).
Hypothesis arctan2_nan :
  np_arctan2 PrimFloat.nan PrimFloat.nan = PrimFloat.nan.

(** C3, refuted for [delay_lincal]: on an integration whose ratio is [nan]
    in every channel, [fft_dly] finds the delay 0.0 (a number) and the phase
    offset [nan]; [delay_lincal] scrubs delay, weight and offset only where
    the delay is [nan], so the offset [nan] is handed to the linear solver,
    with the weight 0, in the system of the phase offsets. *)
Theorem delay_lincal_nan_offset_reaches_solver :
  delay_lincal float 0%float 1%float PrimFloat.is_nan PrimFloat.is_infinity
    Float64.cdiv Utils.split_pol LinearSolver
    (Float64.fft_dly np_fft np_log np_exp np_abs np_arctan2 signal_medfilt)
    Float64.nanmean_rows model_one_bl data_one_bl (Some wgts_one_bl) None
    1%float 0%float false (1, 5) 0 heap_flagged_integration
  = ((fit <~ lift (LinearSolver tau_data_flagged tau_wgts_flagged []) ;;
     offset_fit <~ lift
                  (LinearSolver phi_data_flagged phi_wgts_flagged []) ;;
     ret (dict_update fit offset_fit)) : M float (fit_t float))
      heap_flagged_integration_after.
Proof.
  vm_compute in fft_zeros, abs_zero, log_nan, exp_zero, arctan2_nan.
  vm_compute. rewrite fft_zeros.
  vm_compute. rewrite !abs_zero.
  vm_compute. rewrite !log_nan.
  vm_compute. rewrite !exp_zero.
  vm_compute. rewrite !arctan2_nan.
  vm_compute. reflexivity.
Qed.
End FlaggedIntegration.

Lemma delay_lincal_nan_offset_reaches_solver_witness :
  Libm.fft [(0%float, 0%float); (0%float, 0%float)]
  = [(0%float, 0%float); (0%float, 0%float)]
  /\ Libm.cabs (0%float, 0%float) = 0%float
  /\ Libm.log PrimFloat.nan = PrimFloat.nan
  /\ Libm.cexp (0%float, 0%float) = (1%float, 0%float)
  /\ Libm.arctan2 PrimFloat.nan PrimFloat.nan = PrimFloat.nan
  /\ Abscal64.delay_lincal model_one_bl data_one_bl (Some wgts_one_bl) None
       1%float 0%float false (1, 5) 0 heap_flagged_integration
     = ((fit <~ lift
                 (Lstsq.LinearSolver tau_data_flagged tau_wgts_flagged []) ;;
        offset_fit <~ lift
                     (Lstsq.LinearSolver phi_data_flagged phi_wgts_flagged
                                         []) ;;
        ret (dict_update fit offset_fit)) : M float (fit_t float))
         heap_flagged_integration_after.
Proof.
  assert (H1 : Libm.fft [(0%float, 0%float); (0%float, 0%float)]
               = [(0%float, 0%float); (0%float, 0%float)])
    by (vm_compute; reflexivity).
  assert (H2 : Libm.cabs (0%float, 0%float) = 0%float)
    by (vm_compute; reflexivity).
  assert (H3 : Libm.log PrimFloat.nan = PrimFloat.nan)
    by (vm_compute; reflexivity).
  assert (H4 : Libm.cexp (0%float, 0%float) = (1%float, 0%float))
    by (vm_compute; reflexivity).
  assert (H5 : Libm.arctan2 PrimFloat.nan PrimFloat.nan = PrimFloat.nan)
    by (vm_compute; reflexivity).
  repeat (split; [assumption|]).
  exact (delay_lincal_nan_offset_reaches_solver
           Libm.fft Libm.log Libm.cexp Libm.cabs Libm.arctan2 Libm.medfilt
           Lstsq.LinearSolver H1 H2 H3 H4 H5).
Defined.

(** With the solver on floats the [nan] comes back in the fit. *)
Example delay_lincal_flagged_integration_fit :
  snd (Abscal64.delay_lincal model_one_bl data_one_bl (Some wgts_one_bl)
         None 1%float 0%float false (1, 5) 0 heap_flagged_integration)
  = Ok [("tau_0_Jxx", [[0%float]]); ("tau_1_Jxx", [[0%float]]);
        ("phi_0_Jxx", [[PrimFloat.nan]]); ("phi_1_Jxx", [[0%float]])]%string.
Proof. vm_compute. reflexivity. Qed.

(** ** How the equations of [abscal] are read *)

Module LinsolveFacts.
Import Linsolve.

Fixpoint all_chars (p : ascii -> bool) (s : string) : bool :=
  match s with
  | EmptyString => true
  | String c s' => p c && all_chars p s'
  end.

(** A name as [abscal] writes them: a letter or underscore first, then
    letters, digits and underscores. *)
Definition is_name (s : string) : bool :=
  match s with
  | EmptyString => false
  | String c _ => is_letter c && all_chars is_name_char s
  end.

Lemma append_nil_r (s : string) : (s ++ "")%string = s.
Proof. induction s as [|c s IH]; simpl; [reflexivity|now rewrite IH]. Qed.

Lemma append_assoc (s t u : string) :
  ((s ++ t) ++ u)%string = (s ++ t ++ u)%string.
Proof. induction s as [|c s IH]; simpl; [reflexivity|now rewrite IH]. Qed.

Lemma all_chars_app (p : ascii -> bool) (s t : string) :
  all_chars p (s ++ t) = all_chars p s && all_chars p t.
Proof.
  induction s as [|c s IH]; simpl; [reflexivity|].
  now rewrite IH, andb_assoc.
Qed.

(** Reading on through the characters of a name. *)
Lemma lex_name_chars (n : string) :
  forall rest cur,
    all_chars is_name_char n = true ->
    cur <> EmptyString ->
    lex (n ++ rest) cur = lex rest (cur ++ n).
Proof.
  induction n as [|c n IH]; intros rest cur Hn Hcur; simpl.
  - now rewrite append_nil_r.
  - simpl in Hn. apply andb_prop in Hn. destruct Hn as [Hc Hn].
    rewrite Hc. destruct cur as [|c0 cur]; [congruence|].
    rewrite IH; [|exact Hn|discriminate].
    f_equal. simpl. f_equal.
    now rewrite append_assoc.
Qed.

Lemma lex_name (n rest : string) :
  is_name n = true -> lex (n ++ rest) "" = lex rest n.
Proof.
  destruct n as [|c n]; [discriminate|]. simpl.
  intros H. apply andb_prop in H. destruct H as [Hl H].
  apply andb_prop in H. destruct H as [Hc Hn].
  rewrite Hc, Hl.
  now rewrite (lex_name_chars n rest (String c "") Hn) by discriminate.
Qed.

Lemma flush_name (n : string) (ts : list token) :
  is_name n = true -> flush n ts = TName n :: ts.
Proof. destruct n; [discriminate|reflexivity]. Qed.

(** A name alone, and the difference of two names. *)
Lemma terms_of_name (n : string) :
  is_name n = true -> terms_of n = Some [(false, [n])].
Proof.
  intros Hn. unfold terms_of.
  rewrite <- (append_nil_r n) at 1. rewrite (lex_name n "" Hn). simpl.
  now rewrite (flush_name n [] Hn).
Qed.

Lemma terms_of_difference (n1 n2 : string) :
  is_name n1 = true -> is_name n2 = true ->
  terms_of (n1 ++ " - " ++ n2) = Some [(false, [n1]); (true, [n2])].
Proof.
  intros H1 H2. unfold terms_of.
  rewrite (lex_name n1 _ H1). simpl.
  destruct n1 as [|c1 n1]; [discriminate|].
  rewrite <- (append_nil_r n2) at 1. rewrite (lex_name n2 "" H2). simpl.
  rewrite (flush_name n2 [] H2). reflexivity.
Qed.
End LinsolveFacts.

(** ** The names of the unknowns *)

Module NameFacts.
Import Linsolve LinsolveFacts.

Lemma digits_string_of_uint (d : Decimal.uint) :
  all_chars is_digit (NilEmpty.string_of_uint d) = true.
Proof. induction d; simpl; auto. Qed.

(** A non-negative antenna number is written with digits only. *)
Lemma digits_str_of_Z (z : Z) :
  0 <= z -> all_chars is_digit (str_of_Z z) = true.
Proof.
  intros Hz. unfold str_of_Z.
  destruct z as [|p|p]; [reflexivity| |lia].
  simpl. unfold NilZero.string_of_uint.
  destruct (Pos.to_uint p); try apply digits_string_of_uint. reflexivity.
Qed.

Lemma all_chars_weaken (p q : ascii -> bool) (s : string) :
  (forall c, p c = true -> q c = true) ->
  all_chars p s = true -> all_chars q s = true.
Proof.
  intros Hpq. induction s as [|c s IH]; simpl; [reflexivity|].
  intros H. apply andb_prop in H. destruct H as [Hc Hs].
  now rewrite (Hpq c Hc), IH.
Qed.

Lemma digit_name_char (c : ascii) : is_digit c = true -> is_name_char c = true.
Proof. unfold is_name_char. intros ->. apply orb_true_r. Qed.

(** Letters and digits: what an antenna polarization is made of. *)
Definition is_alnum (c : ascii) : bool :=
  let n := nat_of_ascii c in
  (((65 <=? n) && (n <=? 90)) || ((97 <=? n) && (n <=? 122))
   || ((48 <=? n) && (n <=? 57)))%nat.

Lemma alnum_name_char (c : ascii) : is_alnum c = true -> is_name_char c = true.
Proof.
  unfold is_alnum, is_name_char, is_letter, is_digit.
  destruct (nat_of_ascii c <=? 90)%nat, (65 <=? nat_of_ascii c)%nat,
    (97 <=? nat_of_ascii c)%nat, (nat_of_ascii c <=? 122)%nat,
    (48 <=? nat_of_ascii c)%nat, (nat_of_ascii c <=? 57)%nat;
    simpl; try reflexivity; try discriminate;
    try rewrite orb_true_r; auto.
Qed.

(** [phi_3_Jxx], [tau_0_Jyy], ...: names, for antenna numbers that are
    not negative. *)
Lemma is_name_ant_pol_name (c : ascii) (prefix : string) (ant : Z)
      (p : string) :
  is_name (String c prefix) = true -> 0 <= ant ->
  all_chars is_alnum p = true ->
  is_name (ant_pol_name (String c prefix) ant p) = true.
Proof.
  intros Hpre Hant Hp. unfold ant_pol_name.
  simpl in Hpre |- *.
  apply andb_prop in Hpre. destruct Hpre as [Hl Hpre].
  apply andb_prop in Hpre. destruct Hpre as [Hc Hpre].
  rewrite Hl, Hc. simpl.
  rewrite all_chars_app, Hpre. simpl.
  rewrite all_chars_app.
  rewrite (all_chars_weaken _ _ _ digit_name_char (digits_str_of_Z ant Hant)).
  simpl.
  apply (all_chars_weaken _ _ _ alnum_name_char Hp).
Qed.
End NameFacts.

(** ** Least squares with reference equations *)

Module LeastSquaresFacts.
Import Reals.
Import LeastSquares.
Local Open Scope R_scope.

Fixpoint has_underscore (s : string) : bool :=
  match s with
  | EmptyString => false
  | String c s' => Ascii.eqb c "_" || has_underscore s'
  end.

(** What follows the last underscore of a name: the polarization of
    [phi_3_Jxx] is [Jxx]. *)
Fixpoint pol_of_name (s : string) : string :=
  match s with
  | EmptyString => EmptyString
  | String c s' =>
      if has_underscore s' then pol_of_name s'
      else if Ascii.eqb c "_" then s' else s
  end.

Lemma has_underscore_app (s p : string) :
  has_underscore (s ++ String "_" p) = true.
Proof.
  induction s as [|c s IH]; simpl; [reflexivity|].
  rewrite IH. apply orb_true_r.
Qed.

Lemma pol_of_name_app (s p : string) :
  has_underscore p = false -> pol_of_name (s ++ String "_" p) = p.
Proof.
  intros Hp. induction s as [|c s IH]; simpl.
  - now rewrite Hp.
  - now rewrite has_underscore_app.
Qed.

Lemma alnum_no_underscore (p : string) :
  LinsolveFacts.all_chars NameFacts.is_alnum p = true -> has_underscore p = false.
Proof.
  induction p as [|c p IH]; simpl; [reflexivity|].
  intros H. apply andb_prop in H. destruct H as [Hc Hp].
  rewrite (IH Hp), orb_false_r.
  destruct (Ascii.eqb c "_") eqn:E; [|reflexivity].
  apply Ascii.eqb_eq in E. subst c. discriminate.
Qed.

Lemma pol_of_ant_pol_name (prefix : string) (ant : Z) (p : string) :
  LinsolveFacts.all_chars NameFacts.is_alnum p = true ->
  pol_of_name (ant_pol_name prefix ant p) = p.
Proof.
  intros Hp. unfold ant_pol_name.
  transitivity
    (pol_of_name ((prefix ++ "_" ++ str_of_Z ant) ++ String "_" p)).
  - f_equal. rewrite !LinsolveFacts.append_assoc. reflexivity.
  - apply pol_of_name_app. now apply alnum_no_underscore.
Qed.

Section Pinned.
(** The polarization [p] whose reference equation is looked at, and the
    unknown [pin] of that equation. *)
Variable p : string.
Variable pin : string.
Hypothesis pol_of_pin : pol_of_name pin = p.

(** All unknowns of the polarization [p] moved by [c]. *)
Definition shift (c : R) (theta : string -> R) (n : string) : R :=
  if String.eqb (pol_of_name n) p then theta n - c else theta n.

(** The rows of a system without cross-polarized equations: differences
    within one polarization, reference equations of other polarizations,
    and the reference equation of [p] with datum 0 and weight 1. *)
Inductive row_kind : row -> Prop :=
| difference_row (w y : R) (n1 n2 : string) :
    pol_of_name n1 = pol_of_name n2 ->
    row_kind (w, [(1, n1); (- 1, n2)], y)
| other_reference_row (w y : R) (n : string) :
    pol_of_name n <> p -> row_kind (w, [(1, n)], y)
| reference_row : row_kind (1, [(1, pin)], 0).

Lemma cost_shift (theta : string -> R) (rows : list row) :
  Forall row_kind rows ->
  cost rows (shift (theta pin) theta) <= cost rows theta
  /\ (In (1, [(1, pin)], 0) rows ->
      cost rows (shift (theta pin) theta) + theta pin ^ 2 <= cost rows theta).
Proof.
  induction 1 as [|r rows Hr Hrows [IH1 IH2]]; simpl.
  - split; [lra|intros []].
  - assert (Hpin : shift (theta pin) theta pin = 0).
    { unfold shift. rewrite pol_of_pin, String.eqb_refl. lra. }
    assert (Hsq : 0 <= theta pin ^ 2) by apply pow2_ge_0.
    destruct Hr as [w y n1 n2 Hn|w y n Hn|]; simpl.
    + assert (E : 1 * shift (theta pin) theta n1
                  + (- 1 * shift (theta pin) theta n2 + 0)
                  = 1 * theta n1 + (- 1 * theta n2 + 0)).
      { unfold shift. rewrite Hn.
        destruct (String.eqb (pol_of_name n2) p); lra. }
      rewrite E. split; [lra|].
      intros [Hin|Hin]; [inversion Hin; lra|]. specialize (IH2 Hin). lra.
    + assert (E : shift (theta pin) theta n = theta n).
      { unfold shift. destruct (String.eqb (pol_of_name n) p) eqn:En;
          [|reflexivity].
        apply String.eqb_eq in En. contradiction. }
      rewrite E. split; [lra|].
      intros [Hin|Hin].
      * inversion Hin; subst. contradiction.
      * specialize (IH2 Hin). lra.
    + rewrite Hpin.
      replace (1 * (1 * 0 + 0 - 0) ^ 2) with 0 by ring.
      replace (1 * (1 * theta pin + 0 - 0) ^ 2) with (theta pin ^ 2) by ring.
      split; [lra|]. intros _. lra.
Qed.

(** In a least-squares solution the unknown of the reference equation
    is 0. *)
Lemma minimiser_reference_zero (theta : string -> R) (rows : list row) :
  Forall row_kind rows ->
  In (1, [(1, pin)], 0) rows ->
  (forall theta', cost rows theta <= cost rows theta') ->
  theta pin = 0.
Proof.
  intros Hk Hin Hmin.
  destruct (cost_shift theta rows Hk) as [_ H]. specialize (H Hin).
  specialize (Hmin (shift (theta pin) theta)).
  assert (Hsq : theta pin ^ 2 <= 0) by lra.
  assert (H0 : 0 <= theta pin ^ 2) by apply pow2_ge_0.
  assert (E : theta pin ^ 2 = 0) by lra.
  simpl in E. rewrite Rmult_1_r in E.
  destruct (Rmult_integral _ _ E); assumption.
Qed.
End Pinned.
End LeastSquaresFacts.

(** ** Systems with reference equations *)

Module PinnedSystem.
Import Reals.
Import Linsolve LinsolveFacts LeastSquares LeastSquaresFacts.
Local Open Scope R_scope.

(** The array [a] is 0 (is 1) wherever it has a sample. *)
Definition zeros (a : harr R) : Prop :=
  forall t i v, hget R 0 a t i = Some v -> v = (0, 0).

Definition ones (a : harr R) : Prop :=
  forall t i v, hget R 0 a t i = Some v -> v = (1, 0).

(** The difference of two unknowns of one polarization. *)
Definition same_pol_difference (e : string) : Prop :=
  exists n1 n2,
    e = (n1 ++ " - " ++ n2)%string
    /\ is_name n1 = true /\ is_name n2 = true
    /\ pol_of_name n1 = pol_of_name n2.

(** The reference equations of the polarizations [pols]: under the name
    [pinname q] the data are zeros and the weights are ones. *)
Definition reference_equations (pinname : string -> string)
           (pols : list string) (d w : odict string (harr R)) : Prop :=
  forall q, In q pols ->
            exists a o, In (pinname q, a) d /\ zeros a
                        /\ lookup String.eqb (pinname q) w = Some o
                        /\ ones o.

(** A system made of differences within a polarization and of reference
    equations. *)
Definition pinned_system (pinname : string -> string) (pols : list string)
           (d w : odict string (harr R)) : Prop :=
  (forall e a, In (e, a) d ->
               same_pol_difference e
               \/ exists q, In q pols /\ e = pinname q /\ zeros a)
  /\ reference_equations pinname pols d w.

(** At every sample where the system is defined, every least-squares fit
    gives the value 0 to the unknowns of the reference equations. *)
Definition reference_solved_zero (pinname : string -> string)
           (pols : list string) (d w : odict string (harr R)) : Prop :=
  forall fit, least_squares d w [] fit ->
              forall q t i, In q pols -> rows_at d w [] t i <> None ->
                            theta_of fit t i (pinname q) = 0.

Lemma all_some_Forall2 {A B : Type} (g : A -> option B) (l : list A) :
  forall rs, all_some (map g l) = Some rs ->
             Forall2 (fun a r => g a = Some r) l rs.
Proof.
  induction l as [|a l IH]; intros rs H; simpl in H.
  - inversion H. constructor.
  - destruct (g a) as [b|] eqn:E; [|discriminate].
    destruct (all_some (map g l)) as [rs'|]; [|discriminate].
    inversion H; subst. constructor; auto.
Qed.

Lemma linear_form_name (n : string) :
  is_name n = true -> linear_form [] n = Some [(1, n)].
Proof.
  intros Hn. unfold linear_form, Linsolve.linear_form.
  now rewrite (terms_of_name n Hn).
Qed.

Lemma linear_form_difference (n1 n2 : string) :
  is_name n1 = true -> is_name n2 = true ->
  linear_form [] (n1 ++ " - " ++ n2) = Some [(1, n1); (- 1, n2)].
Proof.
  intros H1 H2. unfold linear_form, Linsolve.linear_form.
  now rewrite (terms_of_difference n1 n2 H1 H2).
Qed.

Lemma real_sample_hget (a : harr R) (t i : nat) (v : R) :
  real_sample a t i = Some v -> hget R 0 a t i = Some (v, 0).
Proof.
  destruct a as [x|x]; simpl; [|discriminate].
  intros H. unfold hget. simpl. rewrite get2_map.
  unfold real_sample in H. now rewrite H.
Qed.

Lemma ones_weight (w : odict string (harr R)) (e : string) (o : harr R)
      (t i : nat) (wv : R) :
  lookup String.eqb e w = Some o -> ones o ->
  weight_sample w e t i = Some wv -> wv = 1.
Proof.
  intros Hl Ho H. unfold weight_sample in H.
  destruct w as [|x w']; [discriminate|].
  rewrite Hl in H. apply real_sample_hget in H.
  apply Ho in H. now inversion H.
Qed.

Lemma Forall2_Forall_In {A B : Type} (P : A -> B -> Prop) (Q : B -> Prop)
      (l : list A) (rs : list B) :
  Forall2 P l rs ->
  (forall a r, In a l -> P a r -> Q r) -> Forall Q rs.
Proof.
  induction 1 as [|a r l rs Har H IH]; intros HQ; constructor.
  - apply (HQ a r); [now left|exact Har].
  - apply IH. intros a' r' Hin. apply HQ. now right.
Qed.

Lemma Forall2_In_left {A B : Type} (P : A -> B -> Prop)
      (l : list A) (rs : list B) (a : A) :
  Forall2 P l rs -> In a l -> exists r, In r rs /\ P a r.
Proof.
  induction 1 as [|a0 r l rs Har H IH]; intros Hin; [destruct Hin|].
  destruct Hin as [->|Hin].
  - exists r. split; [now left|exact Har].
  - destruct (IH Hin) as [r' [Hr' HP]]. exists r'. split; [now right|exact HP].
Qed.

Lemma pinned_system_solved_zero (pinname : string -> string)
      (pols : list string) (d w : odict string (harr R)) :
  (forall q, In q pols ->
             is_name (pinname q) = true /\ pol_of_name (pinname q) = q) ->
  pinned_system pinname pols d w ->
  reference_solved_zero pinname pols d w.
Proof.
  intros Hnames [Hent Href] fit Hls p t i Hp Hrows.
  destruct (rows_at d w [] t i) as [rows|] eqn:E; [|congruence]. clear Hrows.
  specialize (Hls t i rows E).
  unfold rows_at in E. apply all_some_Forall2 in E.
  destruct (Hnames p Hp) as [Hn Hpol].
  destruct (Href p Hp) as [ap [op [Hinp [Hzp [Hlp Hop]]]]].
  assert (Hpin : forall a r,
             zeros a ->
             match weight_sample w (pinname p) t i,
                   linear_form [] (pinname p), real_sample a t i with
             | Some w0, Some f, Some y => Some (w0, f, y)
             | _, _, _ => None
             end = Some r ->
             r = (1, [(1, pinname p)], 0)).
  { intros a r Hz Hr. rewrite (linear_form_name _ Hn) in Hr.
    destruct (weight_sample w _ t i) as [wv|] eqn:Ew; [|discriminate].
    destruct (real_sample a t i) as [y|] eqn:Ey; [|discriminate].
    inversion Hr; subst r. clear Hr.
    apply (ones_weight w _ op t i wv Hlp Hop) in Ew. subst wv.
    apply real_sample_hget in Ey. apply Hz in Ey. inversion Ey. reflexivity. }
  apply (minimiser_reference_zero p (pinname p) Hpol (theta_of fit t i) rows).
  - (* every row is of one of the three kinds *)
    apply (Forall2_Forall_In _ _ _ _ E). intros [e a] r Hin Hr.
    cbv beta in Hr. simpl fst in Hr. simpl snd in Hr.
    destruct (Hent e a Hin)
      as [[n1 [n2 [-> [H1 [H2 H12]]]]]|[q [Hq [-> Hz]]]].
    + rewrite (linear_form_difference n1 n2 H1 H2) in Hr.
      destruct (weight_sample w (n1 ++ " - " ++ n2) t i) as [wv|];
        [|discriminate].
      destruct (real_sample a t i) as [y|]; [|discriminate].
      inversion Hr; subst. now apply difference_row.
    + destruct (String.eqb q p) eqn:Eqp.
      * apply String.eqb_eq in Eqp. subst q.
        rewrite (Hpin a r Hz Hr). apply reference_row.
      * destruct (Hnames q Hq) as [Hnq Hpq].
        rewrite (linear_form_name _ Hnq) in Hr.
        destruct (weight_sample w (pinname q) t i) as [wv|]; [|discriminate].
        destruct (real_sample a t i) as [y|]; [|discriminate].
        inversion Hr; subst r. apply other_reference_row. rewrite Hpq.
        intros ->. rewrite String.eqb_refl in Eqp. discriminate.
  - (* the reference equation of p is one of them *)
    destruct (Forall2_In_left _ _ _ _ E Hinp) as [r [Hr Hrow]].
    cbv beta in Hrow. simpl fst in Hrow. simpl snd in Hrow.
    now rewrite <- (Hpin ap r Hzp Hrow).
  - exact Hls.
Qed.
End PinnedSystem.

(** ** Where the entries of a dictionary come from *)

Section EntryFacts.
Context {K V : Type} (eqb : K -> K -> bool).
Hypothesis eqb_eq : forall a b, eqb a b = true <-> a = b.

Lemma In_setitem (k e : K) (v a : V) (d : odict K V) :
  In (e, a) (setitem eqb k v d) -> (e, a) = (k, v) \/ In (e, a) d.
Proof.
  induction d as [|[k0 v0] d IH]; simpl.
  - intros [H|[]]. left. now symmetry.
  - destruct (eqb k k0) eqn:E; simpl.
    + apply eqb_eq in E. subst k0. intros [H|H]; [|auto].
      left. now symmetry.
    + intros [H|H]; [auto|]. destruct (IH H); auto.
Qed.

Lemma In_setitem_new (k : K) (v : V) (d : odict K V) :
  In (k, v) (setitem eqb k v d).
Proof.
  induction d as [|[k0 v0] d IH]; simpl; [now left|].
  destruct (eqb k k0) eqn:E; simpl.
  - apply eqb_eq in E. subst k0. now left.
  - now right.
Qed.

Lemma In_setitem_same_value (k e : K) (v : V) (d : odict K V) :
  In (e, v) d -> In (e, v) (setitem eqb k v d).
Proof.
  induction d as [|[k0 v0] d IH]; simpl; [intros []|].
  destruct (eqb k k0) eqn:E; simpl.
  - apply eqb_eq in E. subst k0. intros [H|H]; [|auto].
    inversion H; subst. now left.
  - intros [H|H]; auto.
Qed.

Lemma In_fold_setitem (l : list (K * V)) (e : K) (a : V) :
  forall acc : odict K V,
    In (e, a) (fold_left (fun d kv => setitem eqb (fst kv) (snd kv) d) l acc)
    -> In (e, a) acc \/ In (e, a) l.
Proof.
  induction l as [|[k v] l IH]; intros acc H; simpl in H; [auto|].
  destruct (IH _ H) as [H'|H']; [|right; now right].
  apply In_setitem in H'. destruct H' as [H'|H']; [|auto].
  right. left. now symmetry.
Qed.

Lemma In_odict_of_list (l : list (K * V)) (e : K) (a : V) :
  In (e, a) (odict_of_list eqb l) -> In (e, a) l.
Proof.
  unfold odict_of_list. intros H.
  destruct (In_fold_setitem l e a [] H) as [[]|H']. exact H'.
Qed.

Lemma lookup_In (d : odict K V) (k : K) (v : V) :
  lookup eqb k d = Some v -> In (k, v) d.
Proof.
  induction d as [|[k0 v0] d IH]; simpl; [discriminate|].
  destruct (eqb k k0) eqn:E.
  - apply eqb_eq in E. subst k0. intros H. inversion H. now left.
  - intros H. right. now apply IH.
Qed.
End EntryFacts.

Section SystemFacts.
Import Reals.
Import Linsolve LinsolveFacts NameFacts LeastSquares LeastSquaresFacts.
Import PinnedSystem.
Local Open Scope R_scope.

Variable split_pol : string -> result (string * string).

(** The strings [split_pol] returns are made of letters and digits. *)
Hypothesis split_pol_alnum :
  forall pol p q,
    split_pol pol = Ok (p, q) ->
    all_chars is_alnum p = true /\ all_chars is_alnum q = true.

(** No key is cross-polarized, and no antenna number is negative. *)
Definition same_pol_keys (ks : list bl) : Prop :=
  forall k pol p q,
    In k ks -> bl_pol k = Ok pol -> split_pol pol = Ok (p, q) -> p = q.

Definition natural_ants (ks : list bl) : Prop :=
  forall k, In k ks -> (0 <= fst (bl_ants k))%Z /\ (0 <= snd (bl_ants k))%Z.

Lemma equations_lookup (eqn : Z -> bl -> result string) (ks : list bl)
      (eqns : odict bl string) (k : bl) (e : string) :
  equations eqn ks = Ok eqns ->
  lookup bl_eqb k eqns = Some e ->
  In k ks /\ exists i, eqn i k = Ok e.
Proof.
  unfold equations. intros H Hl.
  bind_ok H pairs E. inversion H; subst eqns. clear H.
  apply (lookup_In bl_eqb bl_eqb_eq) in Hl.
  apply (In_odict_of_list bl_eqb bl_eqb_eq) in Hl.
  unfold enumerate in E.
  revert pairs E Hl.
  generalize (map Z.of_nat (seq 0 (List.length ks))) as is_.
  induction ks as [|k0 ks IH]; intros is_ pairs E Hl.
  - destruct is_; simpl in E; inversion E; subst; destruct Hl.
  - destruct is_ as [|i0 is_]; simpl in E.
    + inversion E; subst. destruct Hl.
    + bind_ok E e0 Eq0. bind_ok E r Eq1. inversion E; subst pairs. clear E.
      destruct Hl as [Hl|Hl].
      * inversion Hl; subst. split; [now left|]. now exists i0.
      * destruct (IH is_ r Eq1 Hl) as [Hin Hi].
        split; [now right|exact Hi].
Qed.

Lemma diff_eqn_same_pol (prefix : string) (c : ascii) (prefix' : string)
      (ks : list bl) (i : Z) (k : bl) (e : string) :
  prefix = String c prefix' -> is_name prefix = true ->
  same_pol_keys ks -> natural_ants ks -> In k ks ->
  diff_eqn split_pol prefix i k = Ok e ->
  same_pol_difference e.
Proof.
  intros -> Hpre Hsame Hnat Hin H. unfold diff_eqn in H.
  bind_ok H pol Eq1. bind_ok H pp Eq2. destruct pp as [p q].
  inversion H; subst e. clear H. simpl fst. simpl snd.
  destruct (split_pol_alnum pol p q Eq2) as [Hp Hq].
  destruct (Hnat k Hin) as [H1 H2].
  assert (p = q) by (eapply Hsame; eauto). subst q.
  exists (ant_pol_name (String c prefix') (fst (bl_ants k)) p),
    (ant_pol_name (String c prefix') (snd (bl_ants k)) p).
  split; [reflexivity|].
  split; [now apply is_name_ant_pol_name|].
  split; [now apply is_name_ant_pol_name|].
  now rewrite !pol_of_ant_pol_name.
Qed.

Lemma gain_pols_of_In (ks : list bl) (pols : list string) (q : string) :
  gain_pols_of split_pol ks = Ok pols -> In q pols ->
  all_chars is_alnum q = true.
Proof.
  unfold gain_pols_of. intros H Hq.
  bind_ok H ps E. inversion H; subst pols. clear H.
  apply (proj1 (In_sorted String.leb _ _)) in Hq.
  apply (proj1 (In_py_set String.eqb String.eqb_eq _ _)) in Hq.
  revert ps E Hq. induction ks as [|k ks IH]; intros ps E Hq; simpl in E.
  - inversion E; subst. destruct Hq.
  - bind_ok E pol Eq1. bind_ok E pp Eq2. bind_ok E r Eq3.
    inversion E; subst ps. clear E. destruct pp as [a b].
    destruct (split_pol_alnum pol a b Eq2) as [Ha Hb].
    simpl in Hq. destruct Hq as [<-|[<-|Hq]]; auto.
    now apply (IH r eq_refl).
Qed.

(** *** The systems of [delay_lincal] *)

Lemma values_by_equation_In (eqns : odict bl string)
      (arrays : odict bl (list (list R))) (ks : list bl)
      (d : odict string (harr R)) (e : string) (a : harr R) :
  values_by_equation R eqns arrays ks = Ok d ->
  In (e, a) d ->
  exists k, In k ks /\ lookup bl_eqb k eqns = Some e.
Proof.
  unfold values_by_equation. intros H Hin.
  bind_ok H pairs E. inversion H; subst d. clear H.
  apply (In_odict_of_list String.eqb String.eqb_eq) in Hin.
  revert pairs E Hin.
  induction ks as [|k ks IH]; intros pairs E Hin; simpl in E.
  - inversion E; subst. destruct Hin.
  - bind_ok E e0 Eq0. bind_ok E a0 Eq1. bind_ok E r Eq2.
    inversion E; subst pairs. clear E.
    destruct Hin as [Hin|Hin].
    + inversion Hin; subst. exists k. split; [now left|].
      destruct (lookup bl_eqb k eqns); inversion Eq0. reflexivity.
    + destruct (IH r eq_refl Hin) as [k' [Hk' Hl]].
      exists k'. split; [now right|exact Hl].
Qed.

Lemma zeros_zeros_like (y : list (list R)) : zeros (zeros_like R 0 (FArr y)).
Proof.
  intros t i v H. unfold hget in H. simpl in H.
  rewrite !get2_map in H.
  destruct (get2 y t i); simpl in H; inversion H. reflexivity.
Qed.

Lemma ones_ones_like_same (y : list (list R)) :
  ones (ones_like_same R 0 1 (FArr y)).
Proof.
  intros t i v H. unfold hget in H. simpl in H.
  rewrite !get2_map in H.
  destruct (get2 y t i); simpl in H; inversion H. reflexivity.
Qed.

(** Entries and weights that the loop over [gain_pols] does not lose. *)
Lemma pin_refant_values_keeps (prefix : string) (refant : Z)
      (ydata ywgts : odict bl (list (list R)))
      (y0 w0 : list (list R)) (pols : list string) :
  first_value ydata = Ok y0 -> first_value ywgts = Ok w0 ->
  forall d1 w1 d w e,
    pin_refant_values R 0 1 prefix refant pols ydata ywgts d1 w1 = Ok (d, w) ->
    (In (e, zeros_like R 0 (FArr y0)) d1 ->
     In (e, zeros_like R 0 (FArr y0)) d)
    /\ (lookup String.eqb e w1 = Some (ones_like_same R 0 1 (FArr w0)) ->
        lookup String.eqb e w = Some (ones_like_same R 0 1 (FArr w0))).
Proof.
  intros Hy Hw. induction pols as [|p pols IH]; intros d1 w1 d w e H;
    simpl in H.
  - inversion H; subst. auto.
  - rewrite Hy, Hw in H. simpl in H.
    destruct (IH _ _ _ _ e H) as [IHd IHw]. split.
    + intros Hin. apply IHd.
      now apply (In_setitem_same_value String.eqb String.eqb_eq).
    + intros Hl. apply IHw.
      rewrite (lookup_setitem String.eqb String.eqb_eq), Hl.
      now destruct (String.eqb e (ant_pol_name prefix refant p)).
Qed.

Lemma pin_refant_values_spec (prefix : string) (refant : Z)
      (ydata ywgts : odict bl (list (list R))) (pols : list string) :
  forall d1 w1 d w,
    pin_refant_values R 0 1 prefix refant pols ydata ywgts d1 w1 = Ok (d, w) ->
    (forall e a, In (e, a) d ->
                 In (e, a) d1
                 \/ exists q, In q pols /\ e = ant_pol_name prefix refant q
                              /\ zeros a)
    /\ reference_equations (ant_pol_name prefix refant) pols d w.
Proof.
  induction pols as [|p pols IH]; intros d1 w1 d w H; simpl in H.
  - inversion H; subst. split; [auto|]. intros q [].
  - bind_ok H y0 Ey. bind_ok H w0 Ew.
    destruct (IH _ _ _ _ H) as [IHe IHr]. split.
    + intros e a Hin. destruct (IHe e a Hin) as [Hin'|[q [Hq [He Hz]]]].
      * apply (In_setitem String.eqb String.eqb_eq) in Hin'.
        destruct Hin' as [Heq|Hin']; [|auto].
        inversion Heq; subst. right. exists p.
        split; [now left|]. split; [reflexivity|apply zeros_zeros_like].
      * right. exists q. split; [now right|]. auto.
    + intros q [<-|Hq]; [|now apply IHr].
      destruct (pin_refant_values_keeps prefix refant ydata ywgts y0 w0 pols
                  Ey Ew _ _ _ _ (ant_pol_name prefix refant p) H)
        as [Kd Kw].
      exists (zeros_like R 0 (FArr y0)), (ones_like_same R 0 1 (FArr w0)).
      split; [apply Kd; apply (In_setitem_new String.eqb String.eqb_eq)|].
      split; [apply zeros_zeros_like|].
      split; [|apply ones_ones_like_same].
      apply Kw. rewrite (lookup_setitem String.eqb String.eqb_eq).
      now rewrite String.eqb_refl.
Qed.

(** The reference equations are there whatever the keys. *)
Lemma delay_system_reference_equations (prefix : string) (ks : list bl)
      (ydata ywgts : odict bl (list (list R))) (pols : list string)
      (refant : Z) (d w : odict string (harr R)) :
  delay_system R 0 1 split_pol prefix ks ydata ywgts pols refant = Ok (d, w) ->
  reference_equations (ant_pol_name prefix refant) pols d w.
Proof.
  unfold delay_system. intros H.
  bind_ok H eqns Eq0. bind_ok H d0 Eq1. bind_ok H w0 Eq2.
  now destruct (pin_refant_values_spec _ _ _ _ _ _ _ _ _ H).
Qed.

Lemma delay_system_pinned (prefix : string) (c : ascii) (prefix' : string)
      (ks : list bl) (ydata ywgts : odict bl (list (list R)))
      (pols : list string) (refant : Z) (d w : odict string (harr R)) :
  prefix = String c prefix' -> is_name prefix = true ->
  same_pol_keys ks -> natural_ants ks ->
  delay_system R 0 1 split_pol prefix ks ydata ywgts pols refant = Ok (d, w) ->
  pinned_system (ant_pol_name prefix refant) pols d w.
Proof.
  intros Hc Hpre Hsame Hnat H. unfold delay_system in H.
  bind_ok H eqns Eq0. bind_ok H d0 Eq1. bind_ok H w0 Eq2.
  destruct (pin_refant_values_spec _ _ _ _ _ _ _ _ _ H) as [He Hr].
  split; [|exact Hr].
  intros e a Hin. destruct (He e a Hin) as [Hin0|Hq]; [left|now right].
  destruct (values_by_equation_In _ _ _ _ _ _ Eq1 Hin0) as [k [Hk Hl]].
  destruct (equations_lookup _ _ _ _ _ Eq0 Hl) as [_ [i Hi]].
  exact (diff_eqn_same_pol prefix c prefix' ks i k e Hc Hpre Hsame Hnat Hk Hi).
Qed.

(** *** The system of [phs_logcal] *)

(** The array at [l] is an array of zeros (of ones). *)
Definition zeros_at (h : heap R) (l : loc) : Prop :=
  exists a, nth_error h l = Some a /\ zeros a.

Definition ones_at (h : heap R) (l : loc) : Prop :=
  exists a, nth_error h l = Some a /\ ones a.

Lemma zeros_at_extends (h h' : heap R) (l : loc) :
  extends R h h' -> zeros_at h l -> zeros_at h' l.
Proof.
  intros He [a [Ha Hz]]. exists a. split; [|exact Hz].
  rewrite (extends_nth R h h' l He); [exact Ha|].
  apply nth_error_Some. congruence.
Qed.

Lemma ones_at_extends (h h' : heap R) (l : loc) :
  extends R h h' -> ones_at h l -> ones_at h' l.
Proof.
  intros He [a [Ha Hz]]. exists a. split; [|exact Hz].
  rewrite (extends_nth R h h' l He); [exact Ha|].
  apply nth_error_Some. congruence.
Qed.

Lemma zeros_zeros_like_any (y : harr R) : zeros (zeros_like R 0 y).
Proof.
  intros t i v H. unfold hget in H. destruct y as [x|x]; simpl in H;
    rewrite !get2_map in H; destruct (get2 x t i); simpl in H;
    inversion H; reflexivity.
Qed.

Lemma ones_ones_like_same_any (y : harr R) : ones (ones_like_same R 0 1 y).
Proof.
  intros t i v H. unfold hget in H. destruct y as [x|x]; simpl in H;
    rewrite ?get2_map in H; destruct (get2 x t i); simpl in H;
    inversion H; reflexivity.
Qed.

Lemma by_equation_In (eqns : odict bl string) (arrays : container)
      (ks : list bl) (d : odict string loc) (e : string) (l : loc) :
  by_equation eqns arrays ks = Ok d ->
  In (e, l) d ->
  exists k, In k ks /\ lookup bl_eqb k eqns = Some e.
Proof.
  unfold by_equation. intros H Hin.
  bind_ok H pairs E. inversion H; subst d. clear H.
  apply (In_odict_of_list String.eqb String.eqb_eq) in Hin.
  revert pairs E Hin.
  induction ks as [|k ks IH]; intros pairs E Hin; simpl in E.
  - inversion E; subst. destruct Hin.
  - bind_ok E e0 Eq0. bind_ok E a0 Eq1. bind_ok E r Eq2.
    inversion E; subst pairs. clear E.
    destruct Hin as [Hin|Hin].
    + inversion Hin; subst. exists k. split; [now left|].
      destruct (lookup bl_eqb k eqns); inversion Eq0. reflexivity.
    + destruct (IH r eq_refl Hin) as [k' [Hk' Hl]].
      exists k'. split; [now right|exact Hl].
Qed.

(** What the loop over [gain_pols] keeps: an entry of zeros stays an
    entry of zeros, a weight of ones a weight of ones. *)
Lemma pin_refant_keeps (prefix : string) (refant : Z)
      (ydata w : odict bl loc) (pols : list string) :
  forall d1 w1 d wd h h' e,
    pin_refant R 0 1 prefix refant pols ydata w d1 w1 h = (h', Ok (d, wd)) ->
    ((exists l, In (e, l) d1 /\ zeros_at h l) ->
     exists l, In (e, l) d /\ zeros_at h' l)
    /\ ((exists l, lookup String.eqb e w1 = Some l /\ ones_at h l) ->
        exists l, lookup String.eqb e wd = Some l /\ ones_at h' l).
Proof.
  induction pols as [|p pols IH]; intros d1 w1 d wd h h' e H; simpl in H.
  - apply ret_ok in H. destruct H as [-> Eq]. inversion Eq; subst. auto.
  - apply mbind_ok in H. destruct H as [ly0 [h1 [H1 H]]].
    apply lift_ok in H1. destruct H1 as [-> _].
    apply mbind_ok in H. destruct H as [y0 [h1 [H1 H]]].
    apply read_ok in H1. destruct H1 as [-> _].
    apply mbind_ok in H. destruct H as [ld [h1 [H1 H]]].
    apply alloc_ok in H1. destruct H1 as [-> ->].
    apply mbind_ok in H. destruct H as [lw0 [h1 [H1 H]]].
    apply lift_ok in H1. destruct H1 as [-> _].
    apply mbind_ok in H. destruct H as [w0 [h1 [H1 H]]].
    apply read_ok in H1. destruct H1 as [-> _].
    apply mbind_ok in H. destruct H as [lw [h1 [H1 H]]].
    apply alloc_ok in H1. destruct H1 as [-> ->].
    set (hz := h ++ [zeros_like R 0 y0]) in *.
    set (ho := hz ++ [ones_like_same R 0 1 w0]) in *.
    assert (Hext : extends R h ho).
    { exists ([zeros_like R 0 y0] ++ [ones_like_same R 0 1 w0]).
      unfold ho, hz. now rewrite app_assoc. }
    assert (Hz : zeros_at ho (List.length h)).
    { exists (zeros_like R 0 y0). split; [|apply zeros_zeros_like_any].
      unfold ho, hz. rewrite nth_error_app1
        by (rewrite length_app; simpl; lia).
      now rewrite nth_error_app2, Nat.sub_diag by lia. }
    assert (Ho : ones_at ho (List.length hz)).
    { exists (ones_like_same R 0 1 w0).
      split; [|apply ones_ones_like_same_any].
      unfold ho. now rewrite nth_error_app2, Nat.sub_diag by lia. }
    destruct (IH _ _ _ _ _ _ e H) as [IHd IHw]. split.
    + intros [l [Hin Hl]]. apply IHd.
      destruct (String.eqb (ant_pol_name prefix refant p) e) eqn:Ee.
      * apply String.eqb_eq in Ee. subst e.
        exists (List.length h). split; [|exact Hz].
        apply (In_setitem_new String.eqb String.eqb_eq).
      * exists l. split; [|now apply (zeros_at_extends h ho)].
        clear - Hin Ee.
        induction d1 as [|[k0 v0] d1 IHd1]; simpl in *; [destruct Hin|].
        destruct (String.eqb (ant_pol_name prefix refant p) k0) eqn:E0.
        -- apply String.eqb_eq in E0. subst k0.
           destruct Hin as [Hin|Hin]; [|now right].
           inversion Hin; subst. rewrite String.eqb_refl in Ee. discriminate.
        -- destruct Hin as [Hin|Hin]; [now left|right; now apply IHd1].
    + intros [l [Hl Hones]]. apply IHw.
      rewrite (lookup_setitem String.eqb String.eqb_eq).
      destruct (String.eqb e (ant_pol_name prefix refant p)).
      * exists (List.length hz). split; [reflexivity|exact Ho].
      * exists l. split; [exact Hl|now apply (ones_at_extends h ho)].
Qed.

Lemma pin_refant_spec (prefix : string) (refant : Z)
      (ydata w : odict bl loc) (pols : list string) :
  forall d1 w1 d wd h h',
    pin_refant R 0 1 prefix refant pols ydata w d1 w1 h = (h', Ok (d, wd)) ->
    (forall e l, In (e, l) d ->
                 In (e, l) d1
                 \/ exists q, In q pols /\ e = ant_pol_name prefix refant q
                              /\ zeros_at h' l)
    /\ (forall q, In q pols ->
                  exists ld lw,
                    In (ant_pol_name prefix refant q, ld) d
                    /\ zeros_at h' ld
                    /\ lookup String.eqb (ant_pol_name prefix refant q) wd
                       = Some lw
                    /\ ones_at h' lw).
Proof.
  induction pols as [|p pols IH]; intros d1 w1 d wd h h' H.
  - simpl in H. apply ret_ok in H. destruct H as [-> Eq].
    inversion Eq; subst. split; [auto|]. intros q [].
  - pose proof H as Hrun. simpl in H.
    apply mbind_ok in H. destruct H as [ly0 [h1 [H1 H]]].
    apply lift_ok in H1. destruct H1 as [-> _].
    apply mbind_ok in H. destruct H as [y0 [h1 [H1 H]]].
    apply read_ok in H1. destruct H1 as [-> _].
    apply mbind_ok in H. destruct H as [ld [h1 [H1 H]]].
    apply alloc_ok in H1. destruct H1 as [-> ->].
    apply mbind_ok in H. destruct H as [lw0 [h1 [H1 H]]].
    apply lift_ok in H1. destruct H1 as [-> _].
    apply mbind_ok in H. destruct H as [w0 [h1 [H1 H]]].
    apply read_ok in H1. destruct H1 as [-> _].
    apply mbind_ok in H. destruct H as [lw [h1 [H1 H]]].
    apply alloc_ok in H1. destruct H1 as [-> ->].
    set (hz := h ++ [zeros_like R 0 y0]) in *.
    set (ho := hz ++ [ones_like_same R 0 1 w0]) in *.
    assert (Hz : zeros_at ho (List.length h)).
    { exists (zeros_like R 0 y0). split; [|apply zeros_zeros_like_any].
      unfold ho, hz. rewrite nth_error_app1
        by (rewrite length_app; simpl; lia).
      now rewrite nth_error_app2, Nat.sub_diag by lia. }
    assert (Ho : ones_at ho (List.length hz)).
    { exists (ones_like_same R 0 1 w0).
      split; [|apply ones_ones_like_same_any].
      unfold ho. now rewrite nth_error_app2, Nat.sub_diag by lia. }
    assert (Hext : extends R ho h').
    { exact (appends_pin_refant R 0 1 _ _ _ _ _ _ _ _ _ _ H). }
    destruct (IH _ _ _ _ _ _ H) as [IHe IHr]. split.
    + intros e l Hin. destruct (IHe e l Hin) as [Hin'|[q [Hq [He Hzl]]]].
      * apply (In_setitem String.eqb String.eqb_eq) in Hin'.
        destruct Hin' as [Heq|Hin']; [|auto].
        inversion Heq; subst. right. exists p.
        split; [now left|]. split; [reflexivity|].
        now apply (zeros_at_extends ho h').
      * right. exists q. split; [now right|]. auto.
    + intros q [<-|Hq]; [|now apply IHr].
      destruct (pin_refant_keeps _ _ _ _ _ _ _ _ _ _ _
                  (ant_pol_name prefix refant p) H) as [Kd Kw].
      destruct Kd as [ld' [Hd' Hzd']].
      { exists (List.length h). split; [|exact Hz].
        apply (In_setitem_new String.eqb String.eqb_eq). }
      destruct Kw as [lw' [Hw' Hzw']].
      { exists (List.length hz). split; [|exact Ho].
        rewrite (lookup_setitem String.eqb String.eqb_eq).
        now rewrite String.eqb_refl. }
      exists ld', lw'. auto.
Qed.

(** The solver reads the arrays as they stand when it is called. *)
Lemma snapshot_spec (d : odict string loc) :
  forall (h h' : heap R) (dv : odict string (harr R)),
    snapshot R d h = (h', Ok dv) ->
    h' = h
    /\ Forall2 (fun el ea => fst ea = fst el
                             /\ nth_error h (snd el) = Some (snd ea)) d dv.
Proof.
  unfold snapshot. induction d as [|[e l] d IH]; intros h h' dv H; simpl in H.
  - apply ret_ok in H. destruct H as [-> ->]. split; [reflexivity|constructor].
  - apply mbind_ok in H. destruct H as [ea [h1 [H1 H]]].
    apply mbind_ok in H1. destruct H1 as [a [h2 [H2 H1]]].
    apply read_ok in H2. destruct H2 as [-> Ha].
    apply ret_ok in H1. destruct H1 as [-> ->].
    apply mbind_ok in H. destruct H as [r [h1 [H1 H]]].
    apply ret_ok in H. destruct H as [-> ->].
    destruct (IH _ _ _ H1) as [-> HF]. split; [reflexivity|].
    constructor; [simpl; auto|exact HF].
Qed.

Lemma snapshot_In (d : odict string loc) (dv : odict string (harr R))
      (h : heap R) :
  Forall2 (fun el ea => fst ea = fst el
                        /\ nth_error h (snd el) = Some (snd ea)) d dv ->
  (forall e a, In (e, a) dv ->
               exists l, In (e, l) d /\ nth_error h l = Some a)
  /\ (forall e l, In (e, l) d ->
                  exists a, In (e, a) dv /\ nth_error h l = Some a)
  /\ (forall e l, lookup String.eqb e d = Some l ->
                  exists a, lookup String.eqb e dv = Some a
                            /\ nth_error h l = Some a).
Proof.
  induction 1 as [|[e0 l0] [e0' a0] d dv [He Ha] HF [IH1 [IH2 IH3]]];
    simpl in *.
  - split; [intros ? ? []|]. split; [intros ? ? []|discriminate].
  - subst e0'. split; [|split].
    + intros e a [Heq|Hin].
      * inversion Heq; subst. exists l0. auto.
      * destruct (IH1 e a Hin) as [l [Hl Hn]]. exists l. auto.
    + intros e l [Heq|Hin].
      * inversion Heq; subst. exists a0. auto.
      * destruct (IH2 e l Hin) as [a [Hl Hn]]. exists a. auto.
    + intros e l Hl. destruct (String.eqb e e0).
      * inversion Hl; subst. exists a0. auto.
      * now apply IH3.
Qed.

Lemma refant_in_keys_natural (refant : Z) (ks : list bl) :
  natural_ants ks -> refant_in_keys refant ks = Ok tt -> (0 <= refant)%Z.
Proof.
  unfold refant_in_keys. intros Hnat H.
  destruct (existsb _ ks) eqn:E; [|discriminate].
  apply existsb_exists in E. destruct E as [k [Hk Hor]].
  destruct (Hnat k Hk) as [H1 H2].
  apply orb_prop in Hor. destruct Hor as [Heq|Heq];
    apply Z.eqb_eq in Heq; lia.
Qed.

Lemma phs_logcal_system_pinned (isnan isinf : R -> bool)
      (cdiv : cplx R -> cplx R -> cplx R) (angle : cplx R -> R)
      (model data : container) (wgts : option container)
      (refant : option Z) (h h' : heap R)
      (ls_data ls_wgts : odict string loc)
      (d w : odict string (harr R)) :
  phs_logcal_system R 0 1 isnan isinf cdiv angle split_pol model data wgts
    refant h = (h', Ok (ls_data, ls_wgts)) ->
  snapshot R ls_data h' = (h', Ok d) ->
  snapshot R ls_wgts h' = (h', Ok w) ->
  exists ref pols,
    default_refant refant (common_keys model data) = Ok ref
    /\ gain_pols_of split_pol (common_keys model data) = Ok pols
    /\ reference_equations (ant_pol_name "phi" ref) pols d w
    /\ (same_pol_keys (common_keys model data) ->
        natural_ants (common_keys model data) ->
        (0 <= ref)%Z /\ pinned_system (ant_pol_name "phi" ref) pols d w).
Proof.
  intros H Hd Hw. unfold phs_logcal_system in H.
  apply mbind_ok in H. destruct H as [[[ks yd] w0] [h1 [H1 H]]].
  assert (Hks : ks = common_keys model data).
  { unfold logcal_setup in H1.
    apply mbind_ok in H1. destruct H1 as [a1 [hh1 [_ H1]]].
    apply mbind_ok in H1. destruct H1 as [a2 [hh2 [_ H1]]].
    apply mbind_ok in H1. destruct H1 as [a3 [hh3 [_ H1]]].
    apply ret_ok in H1. destruct H1 as [_ Eq]. now inversion Eq. }
  clear H1. subst ks.
  apply mbind_ok in H. destruct H as [eqns [h2 [H2 H]]].
  apply lift_ok in H2. destruct H2 as [-> Heqns].
  apply mbind_ok in H. destruct H as [d0 [h2 [H2 H]]].
  apply lift_ok in H2. destruct H2 as [-> Hd0].
  apply mbind_ok in H. destruct H as [wd0 [h2 [H2 H]]].
  apply lift_ok in H2. destruct H2 as [-> Hw0].
  apply mbind_ok in H. destruct H as [pols [h2 [H2 H]]].
  apply lift_ok in H2. destruct H2 as [-> Hpols].
  apply mbind_ok in H. destruct H as [ref [h2 [H2 H]]].
  apply lift_ok in H2. destruct H2 as [-> Href].
  apply mbind_ok in H. destruct H as [u [h2 [H2 H]]].
  apply lift_ok in H2. destruct H2 as [-> Hin]. destruct u.
  destruct (pin_refant_spec _ _ _ _ _ _ _ _ _ _ _ H) as [He Hr].
  apply snapshot_spec in Hd, Hw.
  destruct Hd as [_ Hd]. destruct Hw as [_ Hw].
  destruct (snapshot_In _ _ _ Hd) as [Hd1 [Hd2 _]].
  destruct (snapshot_In _ _ _ Hw) as [_ [_ Hw3]].
  assert (Hrefs : reference_equations (ant_pol_name "phi" ref) pols d w).
  { intros q Hq. destruct (Hr q Hq) as [ld [lw [Hld [Hzd [Hlw Hzw]]]]].
    destruct (Hd2 _ _ Hld) as [a [Ha Hna]].
    destruct (Hw3 _ _ Hlw) as [o [Ho Hno]].
    exists a, o. split; [exact Ha|].
    destruct Hzd as [a' [Ha' Hz]]. destruct Hzw as [o' [Ho' Hz']].
    rewrite Hna in Ha'. inversion Ha'; subst a'.
    rewrite Hno in Ho'. inversion Ho'; subst o'.
    split; [exact Hz|]. split; [exact Ho|exact Hz']. }
  exists ref, pols. split; [exact Href|]. split; [exact Hpols|].
  split; [exact Hrefs|].
  intros Hsame Hnat.
  split; [exact (refant_in_keys_natural ref _ Hnat Hin)|].
  split; [|exact Hrefs].
  intros e a Hea. destruct (Hd1 e a Hea) as [l [Hl Hnl]].
  destruct (He e l Hl) as [Hl0|[q [Hq [-> [a' [Ha' Hz]]]]]].
  - left. destruct (by_equation_In _ _ _ _ _ _ Hd0 Hl0) as [k [Hk Hlk]].
    destruct (equations_lookup _ _ _ _ _ Heqns Hlk) as [_ [i Hi]].
    exact (diff_eqn_same_pol "phi" "p" "hi" _ i k e eq_refl eq_refl
             Hsame Hnat Hk Hi).
  - right. exists q. split; [exact Hq|]. split; [reflexivity|].
    rewrite Hnl in Ha'. inversion Ha'; subst a'. exact Hz.
Qed.
End SystemFacts.

(** ** [abs_amp_logcal] on two antennas and one baseline *)

Section AbsAmpScenario.
Import Reals.
Import Linsolve LinsolveFacts LeastSquares.
Local Open Scope R_scope.

Variable split_pol : string -> result (string * string).
Variable LinearSolver :
  odict string (harr R) -> odict string (harr R) -> odict string R ->
  result (fit_t R).

(** The polarization of the baseline, and the antenna polarization that
    [split_pol] gives twice for it. *)
Variables pol p : string.
Hypothesis split_pol_same : split_pol pol = Ok (p, p).
Hypothesis name_chars_p : all_chars is_name_char p = true.

(** The scenario: [model] is ones, [data] is [model * 2.0], the weights are
    ones, all of shape (10, 16); the arrays are on the heap in the order
    data, model, weights. *)
Definition heap_two : heap R :=
  [CArr (const_array 10 16 (2, 0)); CArr (const_array 10 16 (1, 0));
   FArr (const_array 10 16 1)].

Definition data_two : container := [(Bl3 0 1 pol, 0%nat)].
Definition model_two : container := [(Bl3 0 1 pol, 1%nat)].
Definition wgts_two : container := [(Bl3 0 1 pol, 2%nat)].

(** The system that [abs_amp_logcal] hands to the solver. *)
Definition eta : string := "eta_" ++ p.
Definition eqn_two : string := "a0*eta_" ++ p ++ "+a0*eta_" ++ p.

Definition log_ratio : R := AbscalR.log_abs (AbscalR.cdiv (2, 0) (1, 0)).

Definition ls_data_two : odict string (harr R) :=
  [(eqn_two, FArr (const_array 10 16 log_ratio))].
Definition ls_wgts_two : odict string (harr R) :=
  [(eqn_two, FArr (const_array 10 16 1))].
Definition consts_two : odict string R := [("a0"%string, 1)].

Definition heap_two_after : heap R :=
  (heap_two ++ [FArr (const_array 10 16 log_ratio)])%list.

Lemma lex_name_end (n cur : string) :
  all_chars is_name_char n = true -> cur <> EmptyString ->
  lex n cur = Some (flush (cur ++ n) []).
Proof.
  intros Hn Hc. rewrite <- (append_nil_r n) at 1.
  rewrite (lex_name_chars n "" cur Hn Hc). reflexivity.
Qed.

Lemma eqn_two_form :
  linear_form consts_two eqn_two = Some [(1 * 1, eta); (1 * 1, eta)].
Proof.
  unfold linear_form, Linsolve.linear_form, terms_of, eqn_two.
  simpl.
  rewrite (lex_name_chars p _ "eta_" name_chars_p) by discriminate. simpl.
  rewrite (lex_name_end p "eta_" name_chars_p) by discriminate. simpl.
  reflexivity.
Qed.

Lemma get2_const {A : Type} (nt nf : nat) (v y : A) (t i : nat) :
  get2 (const_array nt nf v) t i = Some y ->
  y = v /\ (t < nt)%nat /\ (i < nf)%nat.
Proof.
  unfold get2, const_array. intros H.
  destruct (nth_error (repeat (repeat v nf) nt) t) as [r|] eqn:Er;
    [|discriminate].
  assert (Ht : (t < nt)%nat).
  { rewrite <- (repeat_length (repeat v nf) nt). apply nth_error_Some.
    congruence. }
  apply nth_error_In, repeat_spec in Er. subst r.
  assert (Hi : (i < nf)%nat).
  { rewrite <- (repeat_length v nf). apply nth_error_Some. congruence. }
  apply nth_error_In, repeat_spec in H. auto.
Qed.

Lemma get2_const_lt {A : Type} (nt nf : nat) (v : A) (t i : nat) :
  (t < nt)%nat -> (i < nf)%nat -> get2 (const_array nt nf v) t i = Some v.
Proof.
  intros Ht Hi. unfold get2, const_array.
  rewrite (nth_error_repeat _ Ht). now apply nth_error_repeat.
Qed.

Lemma log_ratio_two : log_ratio = ln 2.
Proof.
  unfold log_ratio, AbscalR.log_abs, AbscalR.cdiv. simpl fst. simpl snd.
  replace ((2 * 1 + 0 * 0) / (1 * 1 + 0 * 0)) with 2 by field.
  replace ((0 * 1 - 2 * 0) / (1 * 1 + 0 * 0)) with 0 by field.
  replace (2 * 2 + 0 * 0) with (2 * 2) by ring.
  rewrite sqrt_square; [reflexivity|lra].
Qed.

(** The one equation at a sample: [eta + eta = ln 2] with weight 1. *)
Definition row_two : row := (1, [(1 * 1, eta); (1 * 1, eta)], ln 2).

Lemma rows_two_spec (t i : nat) (rows : list row) :
  rows_at ls_data_two ls_wgts_two consts_two t i = Some rows ->
  rows = [row_two] /\ (t < 10)%nat /\ (i < 16)%nat.
Proof.
  unfold rows_at, ls_data_two, ls_wgts_two. simpl map. cbv beta.
  simpl fst. simpl snd.
  unfold weight_sample. simpl lookup. rewrite String.eqb_refl.
  rewrite eqn_two_form. unfold real_sample.
  destruct (get2 (const_array 10 16 1) t i) as [wv|] eqn:Ew;
    [|discriminate].
  apply get2_const in Ew. destruct Ew as [-> [Ht Hi]].
  rewrite (get2_const_lt 10 16 _ t i Ht Hi). rewrite log_ratio_two.
  simpl. intros H. inversion H. auto.
Qed.

Lemma rows_two_defined (t i : nat) :
  (t < 10)%nat -> (i < 16)%nat ->
  rows_at ls_data_two ls_wgts_two consts_two t i = Some [row_two].
Proof.
  intros Ht Hi.
  unfold rows_at, ls_data_two, ls_wgts_two. simpl map. cbv beta.
  simpl fst. simpl snd.
  unfold weight_sample. simpl lookup. rewrite String.eqb_refl.
  rewrite eqn_two_form. unfold real_sample.
  rewrite !(get2_const_lt 10 16 _ t i Ht Hi). rewrite log_ratio_two.
  reflexivity.
Qed.

Lemma cost_row_two (theta : string -> R) :
  cost [row_two] theta = (2 * theta eta - ln 2) ^ 2.
Proof. unfold cost, row_two, eval_form. simpl. ring. Qed.

(** The fit with [eta = ln 2 / 2] everywhere. *)
Definition fit_half : fit_t R := [(eta, const_array 10 16 (ln 2 / 2))].

Lemma fit_half_least_squares :
  least_squares ls_data_two ls_wgts_two consts_two fit_half.
Proof.
  intros t i rows Hrows theta.
  apply rows_two_spec in Hrows. destruct Hrows as [-> [Ht Hi]].
  rewrite !cost_row_two.
  assert (E : theta_of fit_half t i eta = ln 2 / 2).
  { unfold theta_of, fit_half. simpl lookup. rewrite String.eqb_refl.
    now rewrite (get2_const_lt 10 16 _ t i Ht Hi). }
  rewrite E. replace (2 * (ln 2 / 2) - ln 2) with 0 by field.
  replace (0 ^ 2) with 0 by ring. apply pow2_ge_0.
Qed.

Lemma least_squares_two_value (fit : fit_t R) (t i : nat) :
  least_squares ls_data_two ls_wgts_two consts_two fit ->
  (t < 10)%nat -> (i < 16)%nat ->
  theta_of fit t i eta = ln 2 / 2.
Proof.
  intros Hls Ht Hi.
  specialize (Hls t i _ (rows_two_defined t i Ht Hi) (fun _ => ln 2 / 2)).
  rewrite !cost_row_two in Hls.
  replace (2 * (ln 2 / 2) - ln 2) with 0 in Hls by field.
  replace (0 ^ 2) with 0 in Hls by ring.
  assert (H0 : 0 <= (2 * theta_of fit t i eta - ln 2) ^ 2)
    by apply pow2_ge_0.
  assert (E : (2 * theta_of fit t i eta - ln 2) ^ 2 = 0) by lra.
  simpl in E. rewrite Rmult_1_r in E.
  destruct (Rmult_integral _ _ E); lra.
Qed.

Lemma ln_2_pos : 0 < ln 2.
Proof. pose proof ln_lt_2. lra. Qed.

Lemma theta_of_lookup (fit : fit_t R) (t i : nat) (n : string) :
  theta_of fit t i n <> 0 ->
  exists a, lookup String.eqb n fit = Some a
            /\ get2 a t i = Some (theta_of fit t i n).
Proof.
  unfold theta_of. destruct (lookup String.eqb n fit) as [a|];
    [|intros H; now elim H].
  destruct (get2 a t i) as [v|] eqn:E; [|intros H; now elim H].
  intros _. exists a. split; [reflexivity|exact E].
Qed.

Lemma exp_half_ln_2 : exp (ln 2 / 2) = sqrt 2.
Proof.
  assert (H : exp (ln 2 / 2) * exp (ln 2 / 2) = 2).
  { rewrite <- exp_plus. replace (ln 2 / 2 + ln 2 / 2) with (ln 2) by field.
    apply exp_ln. lra. }
  symmetry. apply sqrt_lem_1; [lra| |exact H].
  left. apply exp_pos.
Qed.

Ltac eval_model :=
  cbv -[String.eqb AbscalR.cdiv AbscalR.log_abs IZR exp String.append];
  rewrite ?String.eqb_refl, ?split_pol_same.

(** [np.exp(fit['eta_p']).astype(complex)] *)
Definition gains_of (eta_fit : list (list R)) : list (list (cplx R)) :=
  map (map (fun x => (exp x, 0))) eta_fit.

Lemma abs_amp_logcal_run_fit :
  abs_amp_logcal R 0 1 AbscalR.never AbscalR.never AbscalR.cdiv
    AbscalR.log_abs exp split_pol LinearSolver model_two data_two
    (Some wgts_two) false [] heap_two
  = (fit <~ lift (LinearSolver ls_data_two ls_wgts_two consts_two) ;;
     ret (Fit fit)) heap_two_after.
Proof. do 4 eval_model. reflexivity. Qed.

Lemma abs_amp_logcal_run_gains :
  abs_amp_logcal R 0 1 AbscalR.never AbscalR.never AbscalR.cdiv
    AbscalR.log_abs exp split_pol LinearSolver model_two data_two
    (Some wgts_two) true [(0%Z, p); (1%Z, p)] heap_two
  = (fit <~ lift (LinearSolver ls_data_two ls_wgts_two consts_two) ;;
     g <~ lift (fold_right
                  (fun (ant : gkey) acc =>
                     a <- getitem (lookup String.eqb
                                          ("eta_" ++ snd ant)%string fit) ;;
                     r <- acc ;;
                     Ok ((ant, gains_of a) :: r))
                  (Ok []) [(0%Z, p); (1%Z, p)]) ;;
     ret (Gains (odict_of_list gkey_eqb g))) heap_two_after.
Proof. do 4 eval_model. reflexivity. Qed.

(** With a least-squares solver the fit has [eta = ln 2 / 2] at every
    sample. *)
Lemma abs_amp_logcal_fit_half :
  least_squares_solver LinearSolver ->
  exists fit,
    abs_amp_logcal R 0 1 AbscalR.never AbscalR.never AbscalR.cdiv
      AbscalR.log_abs exp split_pol LinearSolver model_two data_two
      (Some wgts_two) false [] heap_two
    = (heap_two_after, Ok (Fit fit))
    /\ LinearSolver ls_data_two ls_wgts_two consts_two = Ok fit
    /\ forall t i, (t < 10)%nat -> (i < 16)%nat ->
                   exists a, lookup String.eqb eta fit = Some a
                             /\ get2 a t i = Some (ln 2 / 2).
Proof.
  intros [Hsound Hcomplete].
  destruct (Hcomplete ls_data_two ls_wgts_two consts_two
              (ex_intro _ fit_half fit_half_least_squares)) as [fit Hfit].
  exists fit. rewrite abs_amp_logcal_run_fit.
  unfold mbind, lift, ret. rewrite Hfit.
  split; [reflexivity|]. split; [reflexivity|].
  intros t i Ht Hi.
  pose proof (least_squares_two_value fit t i (Hsound _ _ _ _ Hfit) Ht Hi)
    as Hv.
  destruct (theta_of_lookup fit t i eta) as [a [Ha Hg]].
  { rewrite Hv. pose proof ln_2_pos. lra. }
  exists a. split; [exact Ha|]. now rewrite Hg, Hv.
Qed.

Lemma abs_amp_logcal_gains_sqrt_two :
  least_squares_solver LinearSolver ->
  exists g,
    abs_amp_logcal R 0 1 AbscalR.never AbscalR.never AbscalR.cdiv
      AbscalR.log_abs exp split_pol LinearSolver model_two data_two
      (Some wgts_two) true [(0%Z, p); (1%Z, p)] heap_two
    = (heap_two_after, Ok (Gains g))
    /\ forall ant, ant = 0%Z \/ ant = 1%Z ->
         exists a, lookup gkey_eqb (ant, p) g = Some a
                   /\ forall t i, (t < 10)%nat -> (i < 16)%nat ->
                                  get2 a t i = Some (sqrt 2, 0).
Proof.
  intros Hs. destruct (abs_amp_logcal_fit_half Hs) as [fit [_ [Hfit Hv]]].
  destruct (Hv 0%nat 0%nat) as [a [Ha _]]; [lia|lia|].
  exists (odict_of_list gkey_eqb [((0%Z, p), gains_of a);
                                  ((1%Z, p), gains_of a)]).
  rewrite abs_amp_logcal_run_gains.
  unfold mbind, lift, ret. rewrite Hfit. simpl fold_right. simpl snd.
  assert (Hl := Ha). unfold eta in Hl. simpl in Hl. rewrite !Hl.
  simpl bind.
  split; [reflexivity|].
  assert (Hg : forall t i, (t < 10)%nat -> (i < 16)%nat ->
                           get2 (gains_of a) t i = Some (sqrt 2, 0)).
  { intros t i Ht Hi. destruct (Hv t i Ht Hi) as [a' [Ha' Hg]].
    rewrite Ha in Ha'. inversion Ha'; subst a'.
    unfold gains_of. rewrite get2_map, Hg. simpl.
    now rewrite exp_half_ln_2. }
  intros ant [->| ->]; exists (gains_of a); (split; [|exact Hg]).
  - unfold odict_of_list, gkey_eqb. simpl. now rewrite String.eqb_refl.
  - unfold odict_of_list, gkey_eqb. simpl. now rewrite String.eqb_refl.
Qed.

(** C1, amended: on the scenario the equation of the one baseline is
    [eta_p + eta_p = ln 2], so a least-squares solver gives
    [eta_p = ln 2 / 2] at every sample, and with [return_gains] the gain
    [sqrt 2 + 0j] for both antennas. *)
Theorem abs_amp_logcal_two_antennas :
  least_squares_solver LinearSolver ->
  (exists fit,
      abs_amp_logcal R 0 1 AbscalR.never AbscalR.never AbscalR.cdiv
        AbscalR.log_abs exp split_pol LinearSolver model_two data_two
        (Some wgts_two) false [] heap_two
      = (heap_two_after, Ok (Fit fit))
      /\ forall t i, (t < 10)%nat -> (i < 16)%nat ->
                     exists a, lookup String.eqb ("eta_" ++ p)%string fit
                               = Some a
                               /\ get2 a t i = Some (ln 2 / 2))
  /\ (exists g,
         abs_amp_logcal R 0 1 AbscalR.never AbscalR.never AbscalR.cdiv
           AbscalR.log_abs exp split_pol LinearSolver model_two data_two
           (Some wgts_two) true [(0%Z, p); (1%Z, p)] heap_two
         = (heap_two_after, Ok (Gains g))
         /\ forall ant, ant = 0%Z \/ ant = 1%Z ->
              exists a, lookup gkey_eqb (ant, p) g = Some a
                        /\ forall t i, (t < 10)%nat -> (i < 16)%nat ->
                                       get2 a t i = Some (sqrt 2, 0)).
Proof.
  intros Hs. split.
  - destruct (abs_amp_logcal_fit_half Hs) as [fit [Hrun [_ Hv]]].
    exists fit. split; [exact Hrun|exact Hv].
  - exact (abs_amp_logcal_gains_sqrt_two Hs).
Qed.
End AbsAmpScenario.

Lemma ideal_solver_least_squares :
  LeastSquares.least_squares_solver LeastSquares.LinearSolver.
Proof.
  split.
  - intros d w c fit H. unfold LeastSquares.LinearSolver in H.
    destruct (ClassicalEpsilon.excluded_middle_informative _) as [Hex|Hex];
      inversion H.
    apply proj2_sig.
  - intros d w c Hex. unfold LeastSquares.LinearSolver.
    destruct (ClassicalEpsilon.excluded_middle_informative _) as [H|H];
      [eexists; reflexivity|contradiction].
Qed.

Section AbsAmpInstance.
Import Reals.
Local Open Scope R_scope.

Lemma abs_amp_logcal_two_antennas_witness :
  Utils.split_pol "xx" = Ok ("Jxx", "Jxx")%string
  /\ LinsolveFacts.all_chars Linsolve.is_name_char "Jxx" = true
  /\ LeastSquares.least_squares_solver LeastSquares.LinearSolver
  /\ (exists fit,
         AbscalR.abs_amp_logcal LeastSquares.LinearSolver (model_two "xx")
           (data_two "xx") (Some (wgts_two "xx")) false [] heap_two
         = (heap_two_after, Ok (Fit fit))
         /\ forall t i, (t < 10)%nat -> (i < 16)%nat ->
              exists a, lookup String.eqb "eta_Jxx"%string fit = Some a
                        /\ get2 a t i = Some (ln 2 / 2))
  /\ (exists g,
         AbscalR.abs_amp_logcal LeastSquares.LinearSolver (model_two "xx")
           (data_two "xx") (Some (wgts_two "xx")) true
           [(0%Z, "Jxx"%string); (1%Z, "Jxx"%string)] heap_two
         = (heap_two_after, Ok (Gains g))
         /\ forall ant, ant = 0%Z \/ ant = 1%Z ->
              exists a, lookup gkey_eqb (ant, "Jxx"%string) g = Some a
                        /\ forall t i, (t < 10)%nat -> (i < 16)%nat ->
                             get2 a t i = Some (sqrt 2, 0)).
Proof.
  split; [reflexivity|]. split; [reflexivity|].
  split; [exact ideal_solver_least_squares|].
  exact (abs_amp_logcal_two_antennas Utils.split_pol
           LeastSquares.LinearSolver "xx" "Jxx" eq_refl eq_refl
           ideal_solver_least_squares).
Defined.

(** C1 as it stands does not hold: the fit is away from [ln 2] by more than
    a quarter, the gain away from 2 by more than a half. *)
Lemma abs_amp_logcal_not_ln_two :
  exists fit g a b v z,
    AbscalR.abs_amp_logcal LeastSquares.LinearSolver (model_two "xx")
      (data_two "xx") (Some (wgts_two "xx")) false [] heap_two
    = (heap_two_after, Ok (Fit fit))
    /\ lookup String.eqb "eta_Jxx"%string fit = Some a
    /\ get2 a 0 0 = Some v
    /\ 1 / 4 < Rabs (v - ln 2)
    /\ AbscalR.abs_amp_logcal LeastSquares.LinearSolver (model_two "xx")
         (data_two "xx") (Some (wgts_two "xx")) true
         [(0%Z, "Jxx"%string); (1%Z, "Jxx"%string)] heap_two
       = (heap_two_after, Ok (Gains g))
    /\ lookup gkey_eqb (0%Z, "Jxx"%string) g = Some b
    /\ get2 b 0 0 = Some (z, 0)
    /\ 1 / 2 < Rabs (z - 2).
Proof.
  destruct (abs_amp_logcal_fit_half Utils.split_pol
              LeastSquares.LinearSolver "xx" "Jxx" eq_refl eq_refl
              ideal_solver_least_squares) as [fit [Hrun [_ Hv]]].
  destruct (abs_amp_logcal_gains_sqrt_two Utils.split_pol
              LeastSquares.LinearSolver "xx" "Jxx" eq_refl eq_refl
              ideal_solver_least_squares) as [g [Hrung Hg]].
  destruct (Hv 0%nat 0%nat) as [a [Ha Hga]]; [lia|lia|].
  destruct (Hg 0%Z (or_introl eq_refl)) as [b [Hb Hgb]].
  exists fit, g, a, b, (ln 2 / 2), (sqrt 2).
  split; [exact Hrun|]. split; [exact Ha|]. split; [exact Hga|].
  split.
  - pose proof ln_lt_2 as Hln.
    replace (ln 2 / 2 - ln 2) with (- (ln 2 / 2)) by field.
    rewrite Rabs_Ropp, Rabs_right; lra.
  - split; [exact Hrung|]. split; [exact Hb|].
    split; [apply Hgb; lia|].
    assert (Hs : sqrt 2 < 3 / 2).
    { apply Rsqr_incrst_0; [|apply sqrt_pos|lra].
      rewrite Rsqr_sqrt by lra. unfold Rsqr. lra. }
    rewrite Rabs_left; lra.
Qed.
End AbsAmpInstance.

(** ** The reference antenna in [phs_logcal] and [delay_lincal] *)

Section ReferenceAntenna.
Import Reals.
Import Linsolve LinsolveFacts NameFacts LeastSquares LeastSquaresFacts.
Import PinnedSystem.
Local Open Scope R_scope.

Variable split_pol : string -> result (string * string).

(** The strings [split_pol] returns are made of letters and digits. *)
Hypothesis split_pol_alnum :
  forall pol p q,
    split_pol pol = Ok (p, q) ->
    all_chars is_alnum p = true /\ all_chars is_alnum q = true.

Lemma reference_names (prefix : string) (c : ascii) (prefix' : string)
      (ks : list bl) (pols : list string) (ref : Z) :
  prefix = String c prefix' -> is_name prefix = true -> (0 <= ref)%Z ->
  gain_pols_of split_pol ks = Ok pols ->
  forall q, In q pols ->
            is_name (ant_pol_name prefix ref q) = true
            /\ pol_of_name (ant_pol_name prefix ref q) = q.
Proof.
  intros -> Hpre Href Hpols q Hq.
  pose proof (gain_pols_of_In split_pol split_pol_alnum ks pols q Hpols Hq)
    as Halnum.
  split; [now apply is_name_ant_pol_name|now apply pol_of_ant_pol_name].
Qed.

(** What [delay_lincal_prep] puts into the record: the common keys, their
    antenna polarizations, and a reference antenna that is in a key. *)
Lemma delay_lincal_prep_fields (isnan isinf : R -> bool)
      (cdiv : cplx R -> cplx R -> cplx R)
      (fft_dly : list (list (cplx R)) -> R -> R -> harr R -> bool ->
                 Z * Z -> Z -> result (list (list R) * list (list R)))
      (nanmean_rows : harr R -> list (list R))
      (model data : container) (wgts : option container)
      (refant : option Z) (df f0 : R) (medfilt : bool) (kernel : Z * Z)
      (edge_cut : Z) (h h' : heap R) (prep : delay_prep R) :
  delay_lincal_prep R 0 1 isnan isinf cdiv split_pol fft_dly nanmean_rows
    model data wgts refant df f0 medfilt kernel edge_cut h = (h', Ok prep) ->
  dp_keys R prep = common_keys model data
  /\ gain_pols_of split_pol (common_keys model data)
     = Ok (dp_gain_pols R prep)
  /\ default_refant refant (common_keys model data) = Ok (dp_refant R prep)
  /\ refant_in_keys (dp_refant R prep) (common_keys model data) = Ok tt.
Proof.
  unfold delay_lincal_prep. intros H.
  apply mbind_ok in H. destruct H as [w [h1 [_ H]]].
  apply mbind_ok in H. destruct H as [per_key [h2 [_ H]]].
  apply mbind_ok in H. destruct H as [pols [h3 [H3 H]]].
  apply lift_ok in H3. destruct H3 as [-> Hpols].
  apply mbind_ok in H. destruct H as [ref [h3 [H3 H]]].
  apply lift_ok in H3. destruct H3 as [-> Href].
  apply mbind_ok in H. destruct H as [u [h3 [H3 H]]].
  apply lift_ok in H3. destruct H3 as [-> Hin]. destruct u.
  apply ret_ok in H. destruct H as [_ ->]. simpl. auto.
Qed.

End ReferenceAntenna.

Section ReferenceAntennaInstances.
Import Reals.
Import Linsolve LinsolveFacts NameFacts LeastSquares LeastSquaresFacts.
Import PinnedSystem.
Local Open Scope R_scope.

Lemma utils_split_pol_alnum (pol p q : string) :
  Utils.split_pol pol = Ok (p, q) ->
  all_chars is_alnum p = true /\ all_chars is_alnum q = true.
Proof.
  unfold Utils.split_pol. intros H.
  destruct (_comply_vispol Pyuvdata.polstr2num Pyuvdata.polnum2str pol)
    as [s|]; cbn [bind] in H; [|discriminate].
  destruct (lookup String.eqb s Utils.SPLIT_POL) as [pq|] eqn:El;
    [|discriminate].
  inversion H; subst pq. clear H.
  apply (lookup_In String.eqb String.eqb_eq) in El.
  vm_compute in El.
  repeat (destruct El as [El|El];
          [inversion El; subst; split; reflexivity|]).
  destruct El.
Qed.

(** One baseline [(0, 1, 'xx')] with one sample: data [1j], model 1,
    weight 1. *)
Definition heap_phs_xx : heap R :=
  [CArr [[(0, 1)]]; CArr [[(1, 0)]]; FArr [[1]]].

Definition data_xx : container := [(Bl3 0 1 "xx", 0%nat)].
Definition model_xx : container := [(Bl3 0 1 "xx", 1%nat)].
Definition wgts_xx : container := [(Bl3 0 1 "xx", 2%nat)].

(** The system of [phs_logcal] on this input, as the solver reads it. *)
Definition phs_data_xx : odict string (harr R) :=
  [("phi_0_Jxx - phi_1_Jxx"%string,
    FArr [[AbscalR.angle (AbscalR.cdiv (0, 1) (1, 0))]]);
   ("phi_0_Jxx"%string, FArr [[0]])].

Definition phs_wgts_xx : odict string (harr R) :=
  [("phi_0_Jxx - phi_1_Jxx"%string, FArr [[1]]);
   ("phi_0_Jxx"%string, FArr [[1]])].



(** The fit of the one-baseline system: the reference phase is 0 and the
    other phase carries the angle. *)
Definition fit_xx : fit_t R :=
  [("phi_0_Jxx"%string, [[0]]);
   ("phi_1_Jxx"%string, [[- AbscalR.angle (AbscalR.cdiv (0, 1) (1, 0))]])].

Lemma fit_xx_least_squares :
  least_squares phs_data_xx phs_wgts_xx [] fit_xx.
Proof.
  intros t i rows Hrows theta.
  destruct t as [|t]; [|cbn in Hrows; destruct t; discriminate].
  destruct i as [|i]; [|cbn in Hrows; destruct i; discriminate].
  set (a := AbscalR.angle (AbscalR.cdiv (0, 1) (1, 0))) in *.
  assert (E : rows = [(1, [(1, "phi_0_Jxx"%string); (- 1, "phi_1_Jxx"%string)],
                       a);
                      (1, [(1, "phi_0_Jxx"%string)], 0)]).
  { unfold rows_at, phs_data_xx, phs_wgts_xx in Hrows. fold a in Hrows.
    cbv -[a IZR Rmult Rplus Ropp Rminus] in Hrows.
    inversion Hrows. reflexivity. }
  subst rows. unfold cost, eval_form, theta_of, fit_xx. fold a.
  cbn [map fold_right fst snd lookup String.eqb Ascii.eqb Bool.eqb get2
       nth_error].
  set (u := theta "phi_0_Jxx"%string). set (v := theta "phi_1_Jxx"%string).
  clearbody a u v. clear Hrows.
  pose proof (pow2_ge_0 (1 * u + (-1 * v + 0) - a)).
  pose proof (pow2_ge_0 (1 * u + 0 - 0)).
  match goal with
  | |- ?l <= _ => replace l with 0 by ring
  end.
  lra.
Qed.


(** Two baselines between the antennas 0 and 1, one of them
    cross-polarized: [(0, 1, 'xy')] with data [1j] and [(0, 1, 'yy')] with
    data 1; model 1 and weight 1 for both. *)
Definition heap_cross : heap R :=
  [CArr [[(0, 1)]]; CArr [[(1, 0)]]; CArr [[(1, 0)]]; CArr [[(1, 0)]];
   FArr [[1]]; FArr [[1]]].

Definition data_cross : container :=
  [(Bl3 0 1 "xy", 0%nat); (Bl3 0 1 "yy", 1%nat)].
Definition model_cross : container :=
  [(Bl3 0 1 "xy", 2%nat); (Bl3 0 1 "yy", 3%nat)].
Definition wgts_cross : container :=
  [(Bl3 0 1 "xy", 4%nat); (Bl3 0 1 "yy", 5%nat)].

Definition angle_xy : R := AbscalR.angle (AbscalR.cdiv (0, 1) (1, 0)).
Definition angle_yy : R := AbscalR.angle (AbscalR.cdiv (1, 0) (1, 0)).

Definition heap_cross_after : heap R :=
  (heap_cross ++ [FArr [[angle_xy]]; FArr [[angle_yy]];
                  FArr [[0]]; FArr [[1]]; FArr [[0]]; FArr [[1]]])%list.

Definition phs_data_cross : odict string (harr R) :=
  [("phi_0_Jxx - phi_1_Jyy"%string, FArr [[angle_xy]]);
   ("phi_0_Jyy - phi_1_Jyy"%string, FArr [[angle_yy]]);
   ("phi_0_Jxx"%string, FArr [[0]]);
   ("phi_0_Jyy"%string, FArr [[0]])].

Definition phs_wgts_cross : odict string (harr R) :=
  [("phi_0_Jxx - phi_1_Jyy"%string, FArr [[1]]);
   ("phi_0_Jyy - phi_1_Jyy"%string, FArr [[1]]);
   ("phi_0_Jxx"%string, FArr [[1]]);
   ("phi_0_Jyy"%string, FArr [[1]])].

Lemma phs_logcal_cross_run
      (LinearSolver : odict string (harr R) -> odict string (harr R) ->
                      odict string R -> result (fit_t R)) :
  AbscalR.phs_logcal LinearSolver model_cross data_cross (Some wgts_cross)
    (Some 0%Z) heap_cross
  = (heap_cross_after, LinearSolver phs_data_cross phs_wgts_cross []).
Proof.
  cbv -[AbscalR.cdiv AbscalR.angle IZR].
  destruct (LinearSolver _ _ _); reflexivity.
Qed.

Lemma angle_xy_value : angle_xy = PI / 2.
Proof.
  unfold angle_xy, AbscalR.angle, AbscalR.cdiv. simpl fst. simpl snd.
  replace ((0 * 1 + 1 * 0) / (1 * 1 + 0 * 0)) with 0 by field.
  replace ((1 * 1 - 0 * 0) / (1 * 1 + 0 * 0)) with 1 by field.
  destruct (Rlt_dec 0 0) as [H|_]; [lra|].
  destruct (Rlt_dec 0 1) as [_|H]; [reflexivity|lra].
Qed.

Lemma angle_yy_value : angle_yy = 0.
Proof.
  unfold angle_yy, AbscalR.angle, AbscalR.cdiv. simpl fst. simpl snd.
  replace ((1 * 1 + 0 * 0) / (1 * 1 + 0 * 0)) with 1 by field.
  replace ((0 * 1 - 1 * 0) / (1 * 1 + 0 * 0)) with 0 by field.
  destruct (Rlt_dec 0 1) as [_|H]; [|lra].
  replace (0 / 1) with 0 by field. apply atan_0.
Qed.

(** The four equations at the one sample. *)
Definition rows_cross : list row :=
  [(1, [(1, "phi_0_Jxx"%string); (- 1, "phi_1_Jyy"%string)], PI / 2);
   (1, [(1, "phi_0_Jyy"%string); (- 1, "phi_1_Jyy"%string)], 0);
   (1, [(1, "phi_0_Jxx"%string)], 0);
   (1, [(1, "phi_0_Jyy"%string)], 0)].

Lemma rows_cross_defined :
  rows_at phs_data_cross phs_wgts_cross [] 0 0 = Some rows_cross.
Proof.
  unfold rows_at, phs_data_cross, phs_wgts_cross, rows_cross.
  rewrite angle_xy_value, angle_yy_value. reflexivity.
Qed.

Lemma rows_cross_spec (t i : nat) (rows : list row) :
  rows_at phs_data_cross phs_wgts_cross [] t i = Some rows ->
  t = 0%nat /\ i = 0%nat.
Proof.
  destruct t as [|t].
  - destruct i as [|i]; [auto|].
    unfold rows_at, phs_data_cross. simpl. destruct i; discriminate.
  - unfold rows_at, phs_data_cross. simpl. destruct t; discriminate.
Qed.

Lemma cost_rows_cross (theta : string -> R) :
  cost rows_cross theta
  = (theta "phi_0_Jxx"%string - theta "phi_1_Jyy"%string - PI / 2) ^ 2
    + (theta "phi_0_Jyy"%string - theta "phi_1_Jyy"%string) ^ 2
    + theta "phi_0_Jxx"%string ^ 2 + theta "phi_0_Jyy"%string ^ 2.
Proof. unfold cost, rows_cross, eval_form. simpl. ring. Qed.

(** The least-squares solution of the four equations. *)
Definition fit_cross : fit_t R :=
  [("phi_0_Jxx"%string, [[PI / 8]]); ("phi_1_Jyy"%string, [[- (PI / 4)]]);
   ("phi_0_Jyy"%string, [[- (PI / 8)]])].

Lemma cost_cross_decomposition (u v s : R) :
  (u - v - PI / 2) ^ 2 + (s - v) ^ 2 + u ^ 2 + s ^ 2
  = ((PI / 8 - - (PI / 4) - PI / 2) ^ 2 + (- (PI / 8) - - (PI / 4)) ^ 2
     + (PI / 8) ^ 2 + (- (PI / 8)) ^ 2)
    + (((u - PI / 8) - (v + PI / 4)) ^ 2
       + ((s + PI / 8) - (v + PI / 4)) ^ 2
       + (u - PI / 8) ^ 2 + (s + PI / 8) ^ 2).
Proof. field. Qed.

Lemma fit_cross_least_squares :
  least_squares phs_data_cross phs_wgts_cross [] fit_cross.
Proof.
  intros t i rows Hrows theta.
  destruct (rows_cross_spec t i rows Hrows) as [-> ->].
  rewrite rows_cross_defined in Hrows. inversion Hrows; subst rows.
  rewrite !cost_rows_cross.
  rewrite (cost_cross_decomposition (theta "phi_0_Jxx"%string)).
  replace (theta_of fit_cross 0 0 "phi_0_Jxx") with (PI / 8) by reflexivity.
  replace (theta_of fit_cross 0 0 "phi_1_Jyy") with (- (PI / 4)) by reflexivity.
  replace (theta_of fit_cross 0 0 "phi_0_Jyy") with (- (PI / 8)) by reflexivity.
  pose proof (pow2_ge_0 (theta "phi_0_Jxx"%string - PI / 8
                         - (theta "phi_1_Jyy"%string + PI / 4))).
  pose proof (pow2_ge_0 (theta "phi_0_Jyy"%string + PI / 8
                         - (theta "phi_1_Jyy"%string + PI / 4))).
  pose proof (pow2_ge_0 (theta "phi_0_Jxx"%string - PI / 8)).
  pose proof (pow2_ge_0 (theta "phi_0_Jyy"%string + PI / 8)).
  lra.
Qed.

Lemma least_squares_cross_value (fit : fit_t R) :
  least_squares phs_data_cross phs_wgts_cross [] fit ->
  theta_of fit 0 0 "phi_0_Jxx" = PI / 8.
Proof.
  intros Hls.
  specialize (Hls 0%nat 0%nat _ rows_cross_defined (theta_of fit_cross 0 0)).
  rewrite !cost_rows_cross in Hls.
  set (u := theta_of fit 0 0 "phi_0_Jxx") in *.
  set (v := theta_of fit 0 0 "phi_1_Jyy") in *.
  set (s := theta_of fit 0 0 "phi_0_Jyy") in *.
  rewrite (cost_cross_decomposition u v s) in Hls.
  replace (theta_of fit_cross 0 0 "phi_0_Jxx") with (PI / 8) in Hls by reflexivity.
  replace (theta_of fit_cross 0 0 "phi_1_Jyy") with (- (PI / 4)) in Hls by reflexivity.
  replace (theta_of fit_cross 0 0 "phi_0_Jyy") with (- (PI / 8)) in Hls by reflexivity.
  pose proof (pow2_ge_0 (u - PI / 8 - (v + PI / 4))).
  pose proof (pow2_ge_0 (s + PI / 8 - (v + PI / 4))).
  pose proof (pow2_ge_0 (u - PI / 8)) as Hu.
  pose proof (pow2_ge_0 (s + PI / 8)).
  assert (E : (u - PI / 8) ^ 2 = 0) by lra.
  simpl in E. rewrite Rmult_1_r in E.
  destruct (Rmult_integral _ _ E); lra.
Qed.

End ReferenceAntennaInstances.

(** ** Theorems about [post_redcal_abscal] *)

Section PostRedcalFacts.
Variable Work Mdl Antpos G Crit : Type.
Variable gmul : G -> G -> G.
Variable crit_lt : Crit -> Crit -> bool.
Variable calibrate_in_place : Work -> odict gkey G -> string -> result Work.
Variable convergence : odict gkey G -> result Crit.

Local Abbreviation phase_loop :=
  (phase_loop Work G Crit gmul crit_lt calibrate_in_place convergence).
Local Abbreviation accumulate := (accumulate G gmul).
Local Abbreviation stage_state := (stage_state Work G Crit).
Local Abbreviation st_state := (st_state Work G Crit).
Local Abbreviation st_delta := (st_delta Work G Crit).
Local Abbreviation st_iters := (st_iters Work G Crit).
Local Abbreviation st_gains := (st_gains Work G Crit).
Local Abbreviation st_crits := (st_crits Work G Crit).

(** The dictionary has an entry for every antenna of [ants]. *)
Definition covers (ants : list gkey) (d : odict gkey G) : Prop :=
  forall ant, In ant ants -> lookup gkey_eqb ant d <> None.

(** The product, for one antenna, of the gains of a list of gain
    dictionaries, multiplied from the left as
    [abscal_delta_gains[ant] * gains_here[ant]] does. *)
Definition gain_product (ant : gkey) (gs : list (odict gkey G))
  : option G :=
  match gs with
  | [] => None
  | g0 :: rest =>
      fold_left (fun acc g =>
                   match acc, lookup gkey_eqb ant g with
                   | Some a, Some b => Some (gmul a b)
                   | _, _ => None
                   end)
                rest (lookup gkey_eqb ant g0)
  end.

(** [d] holds, for the antennas of [ants] and for no other key, the
    product of the gains of [gs]. *)
Definition accumulated (ants : list gkey) (gs : list (odict gkey G))
           (d : odict gkey G) : Prop :=
  (forall ant, In ant ants ->
               exists v, gain_product ant gs = Some v
                         /\ lookup gkey_eqb ant d = Some v)
  /\ (forall ant, lookup gkey_eqb ant d <> None -> In ant ants).

Lemma gain_product_snoc (ant : gkey) (gs : list (odict gkey G))
      (g : odict gkey G) :
  gs <> [] ->
  gain_product ant (gs ++ [g])
  = match gain_product ant gs, lookup gkey_eqb ant g with
    | Some a, Some b => Some (gmul a b)
    | _, _ => None
    end.
Proof.
  destruct gs as [|g0 rest]; [congruence|]. intros _.
  cbn [app gain_product]. rewrite fold_left_app. reflexivity.
Qed.

(** The entries of a dictionary comprehension over [ants]. *)
Lemma dict_over_entries (ants : list gkey) (f : gkey -> result G)
      (d : odict gkey G) :
  dict_over G ants f = Ok d ->
  (forall ant, In ant ants ->
               exists v, f ant = Ok v /\ lookup gkey_eqb ant d = Some v)
  /\ (forall ant, lookup gkey_eqb ant d <> None -> In ant ants).
Proof.
  unfold dict_over. intros H.
  destruct (fold_right _ _ ants) as [pairs|] eqn:Ep; cbn [bind] in H;
    [|discriminate].
  inversion H; subst d. clear H.
  assert (Hp : map fst pairs = ants
               /\ forall k v, In (k, v) pairs -> f k = Ok v).
  { revert pairs Ep. induction ants as [|a ants IH]; intros pairs Ep;
      cbn [fold_right] in Ep.
    - inversion Ep. split; [reflexivity|intros k v []].
    - destruct (f a) as [v|] eqn:Ea; cbn [bind] in Ep; [|discriminate].
      destruct (fold_right _ _ ants) as [r|] eqn:Er; cbn [bind] in Ep;
        [|discriminate].
      inversion Ep; subst pairs. destruct (IH r eq_refl) as [Hk Hv].
      split; [cbn; now rewrite Hk|].
      intros k w [E|Hin]; [inversion E; subst; exact Ea|exact (Hv k w Hin)]. }
  destruct Hp as [Hk Hv]. split.
  - intros ant Hin.
    assert (Hl : lookup gkey_eqb ant (odict_of_list gkey_eqb pairs) <> None).
    { apply (lookup_odict_of_list gkey_eqb gkey_eqb_eq). left.
      now rewrite Hk. }
    destruct (lookup gkey_eqb ant (odict_of_list gkey_eqb pairs)) as [v|]
      eqn:El; [|congruence].
    exists v. split; [|reflexivity]. apply Hv.
    apply (In_odict_of_list gkey_eqb gkey_eqb_eq).
    now apply (lookup_In gkey_eqb gkey_eqb_eq).
  - intros ant Hl.
    apply (lookup_odict_of_list gkey_eqb gkey_eqb_eq) in Hl.
    destruct Hl as [Hl|Hl]; [now rewrite <- Hk|now cbn in Hl].
Qed.

Lemma dict_over_total (ants : list gkey) (f : gkey -> result G) :
  (forall ant, In ant ants -> exists v, f ant = Ok v) ->
  exists d, dict_over G ants f = Ok d.
Proof.
  intros Hf. unfold dict_over.
  assert (H : exists pairs,
             fold_right (fun ant acc =>
                           v <- f ant ;; r <- acc ;; Ok ((ant, v) :: r))
                        (Ok []) ants = Ok pairs).
  { induction ants as [|a ants IH]; cbn [fold_right]; [eauto|].
    destruct (Hf a (or_introl eq_refl)) as [v ->].
    destruct IH as [pairs ->]; [intros; apply Hf; now right|].
    cbn [bind]. eauto. }
  destruct H as [pairs ->]. cbn [bind]. eauto.
Qed.

(** One more dictionary multiplied in. *)
Lemma accumulate_accumulated (ants : list gkey)
      (gs : list (odict gkey G)) (delta g d : odict gkey G) :
  gs <> [] ->
  accumulated ants gs delta ->
  accumulate ants delta g = Ok d ->
  accumulated ants (gs ++ [g]) d.
Proof.
  intros Hgs [Hprod _] H.
  destruct (dict_over_entries _ _ _ H) as [Hin Hout].
  split; [|exact Hout].
  intros ant Hant. destruct (Hin ant Hant) as [v [Hv Hl]].
  destruct (Hprod ant Hant) as [a [Ha Hd]].
  rewrite Hd in Hv. cbn [getitem bind] in Hv.
  destruct (lookup gkey_eqb ant g) as [b|] eqn:Eb; cbn [getitem bind] in Hv;
    [|discriminate].
  inversion Hv; subst v. exists (gmul a b). split; [|exact Hl].
  rewrite (gain_product_snoc ant gs g Hgs), Ha, Eb. reflexivity.
Qed.

Lemma accumulate_total (ants : list gkey) (delta g : odict gkey G) :
  covers ants delta -> covers ants g ->
  exists d, accumulate ants delta g = Ok d.
Proof.
  intros Hd Hg. apply dict_over_total. intros ant Hin.
  specialize (Hd ant Hin). specialize (Hg ant Hin).
  destruct (lookup gkey_eqb ant delta); [|congruence].
  destruct (lookup gkey_eqb ant g); [|congruence].
  cbn. eauto.
Qed.

Lemma accumulated_covers (ants : list gkey) (gs : list (odict gkey G))
      (d : odict gkey G) :
  accumulated ants gs d -> covers ants d.
Proof.
  intros [H _] ant Hin. destruct (H ant Hin) as [v [_ Hv]]. congruence.
Qed.

(** What a loop that started [st_iters] iterations out of at most [n]
    recorded: one dictionary of gains and one criterion per iteration,
    the criterion being that of the gains; it went on only after a
    criterion that was not below [phs_conv_crit]; it stopped before the
    [n]-th iteration only on a criterion below [phs_conv_crit]; and when
    no criterion was below [phs_conv_crit] it made all [n] iterations. *)
Definition loop_trace (conv : Crit) (n : nat) (st : stage_state) : Prop :=
  (st_iters st <= n)%nat
  /\ List.length (st_gains st) = st_iters st
  /\ map convergence (st_gains st) = map Ok (st_crits st)
  /\ Forall (fun c => crit_lt c conv = false) (removelast (st_crits st))
  /\ ((st_iters st < n)%nat ->
      exists pre c, st_crits st = pre ++ [c] /\ crit_lt c conv = true)
  /\ (Forall (fun c => crit_lt c conv = false) (st_crits st) ->
      st_iters st = n).

(** What a phase loop does in at most [n] iterations, whatever its
    outcome. *)
Lemma phase_loop_spec (solve : Work -> result (odict gkey G * Work))
      (ants : list gkey) (gc : string) (conv : Crit) (n : nat) :
  forall st st' r,
    phase_loop solve ants gc conv n st = (st', r) ->
    exists k newg newc,
      st_iters st' = (st_iters st + k)%nat
      /\ (k <= n)%nat
      /\ st_gains st' = st_gains st ++ newg
      /\ st_crits st' = st_crits st ++ newc
      /\ (List.length newc <= k)%nat
      /\ Forall (fun c => crit_lt c conv = false) (removelast newc)
      /\ (r = Ok tt ->
          List.length newg = k
          /\ map convergence newg = map Ok newc
          /\ ((k < n)%nat ->
              exists pre c, newc = pre ++ [c] /\ crit_lt c conv = true)
          /\ (Forall (fun c => crit_lt c conv = false) newc -> k = n)).
Proof.
  induction n as [|n IH]; intros st st' r H; cbn in H.
  - inversion H; subst. exists 0%nat, [], []. rewrite !app_nil_r.
    repeat split; auto; try lia.
  - destruct (solve (st_state st)) as [[g s1]|e].
    2:{ inversion H; subst. exists 1%nat, [], []. cbn. rewrite !app_nil_r.
        repeat split; auto; try lia; discriminate. }
    destruct (accumulate ants (st_delta st) g) as [delta|e].
    2:{ inversion H; subst. exists 1%nat, [], []. cbn. rewrite !app_nil_r.
        repeat split; auto; try lia; discriminate. }
    destruct (calibrate_in_place s1 g gc) as [s2|e].
    2:{ inversion H; subst. exists 1%nat, [g], []. cbn. rewrite !app_nil_r.
        repeat split; auto; try lia; discriminate. }
    destruct (convergence g) as [crit|e] eqn:Ecrit.
    2:{ inversion H; subst. exists 1%nat, [g], []. cbn. rewrite !app_nil_r.
        repeat split; auto; try lia; discriminate. }
    destruct (crit_lt crit conv) eqn:Ec.
    + inversion H; subst. exists 1%nat, [g], [crit]. cbn.
      repeat split; auto; try lia.
      * now rewrite Ecrit.
      * intros _. exists [], crit. auto.
      * intros Hall. inversion Hall; subst. congruence.
    + apply IH in H.
      destruct H as (k & newg & newc & Hi & Hk & Hg & Hc & Hl & Hpre & Hok).
      cbn in Hi, Hg, Hc. exists (S k), (g :: newg), (crit :: newc).
      split; [lia|]. split; [lia|].
      split; [now rewrite Hg, <- app_assoc|].
      split; [now rewrite Hc, <- app_assoc|].
      split; [cbn; lia|].
      split.
      * destruct newc as [|c newc]; [constructor|].
        change (removelast (crit :: c :: newc))
          with (crit :: removelast (c :: newc)).
        now constructor.
      * intros Hr. destruct (Hok Hr) as (Hlen & Hconv & Hlast & Hnone).
        split; [cbn; lia|]. split; [cbn; now rewrite Ecrit, Hconv|]. split.
        -- intros Hlt. destruct Hlast as [pre [c [E Hcl]]]; [lia|].
           exists (crit :: pre), c. subst newc. auto.
        -- intros Hall. inversion Hall; subst. f_equal. auto.
Qed.

(** A phase loop that starts from a fresh record and ends without an
    exception leaves a record that is a [loop_trace]. *)
Lemma phase_loop_trace (solve : Work -> result (odict gkey G * Work))
      (ants : list gkey) (gc : string) (conv : Crit) (n : nat)
      (s : Work) (d : odict gkey G) (st' : stage_state) :
  phase_loop solve ants gc conv n (mkStage Work G Crit s d 0 [] [])
  = (st', Ok tt) ->
  loop_trace conv n st'.
Proof.
  intros H.
  destruct (phase_loop_spec _ _ _ _ _ _ _ _ H)
    as (k & newg & newc & Hi & Hk & Hg & Hc & Hl & Hpre & Hok).
  cbn in Hi, Hg, Hc. destruct (Hok eq_refl) as (Hlen & Hconv & Hlast & Hnone).
  unfold loop_trace. rewrite Hi, Hg, Hc.
  split; [lia|]. split; [exact Hlen|]. split; [exact Hconv|].
  split; [exact Hpre|]. split; [exact Hlast|exact Hnone].
Qed.

(** The accumulated gains follow the gains recorded by the loop. *)
Lemma phase_loop_accumulated (solve : Work -> result (odict gkey G * Work))
      (ants : list gkey) (gc : string) (conv : Crit) (n : nat)
      (before : list (odict gkey G)) :
  before <> [] ->
  forall st st' r,
    phase_loop solve ants gc conv n st = (st', r) ->
    accumulated ants (before ++ st_gains st) (st_delta st) ->
    accumulated ants (before ++ st_gains st') (st_delta st').
Proof.
  intros Hb. induction n as [|n IH]; intros st st' r H Hacc; cbn in H.
  - inversion H; subst. exact Hacc.
  - destruct (solve (st_state st)) as [[g s1]|e].
    2:{ inversion H; subst. exact Hacc. }
    destruct (accumulate ants (st_delta st) g) as [delta|e] eqn:Ea.
    2:{ inversion H; subst. exact Hacc. }
    assert (Hacc' : accumulated ants (before ++ st_gains st ++ [g]) delta).
    { rewrite app_assoc. eapply accumulate_accumulated; [|exact Hacc|exact Ea].
      destruct before; [congruence|discriminate]. }
    destruct (calibrate_in_place s1 g gc) as [s2|e].
    2:{ inversion H; subst. exact Hacc'. }
    destruct (convergence g) as [crit|e].
    2:{ inversion H; subst. exact Hacc'. }
    destruct (crit_lt crit conv).
    + inversion H; subst. exact Hacc'.
    + apply IH in H; [exact H|exact Hacc'].
Qed.

Variable idealized_antpos : Work -> result Antpos.
Variable abs_amp_logcal_gains :
  Mdl -> Work -> list gkey -> result (odict gkey G * Work).
Variable delay_slope_lincal_gains :
  Mdl -> Work -> Antpos -> Z * Z -> Z -> list gkey ->
  result (odict gkey G * Work).
Variable time_average : odict gkey G -> odict gkey G.
Variable global_phase_slope_logcal_gains :
  Mdl -> Work -> Antpos -> string -> Z -> list gkey ->
  result (odict gkey G * Work).
Variable TT_phs_logcal_gains :
  Mdl -> Work -> Antpos -> list gkey -> result (odict gkey G * Work).

Local Abbreviation post_redcal_abscal :=
  (post_redcal_abscal Work Mdl Antpos G Crit gmul crit_lt idealized_antpos
     abs_amp_logcal_gains delay_slope_lincal_gains time_average
     global_phase_slope_logcal_gains TT_phs_logcal_gains calibrate_in_place
     convergence).
Local Abbreviation apply_stage := (apply_stage Work G gmul calibrate_in_place).

(** The calls [post_redcal_abscal] makes succeed: on the states [Inv] that
    the calls keep, with the arguments of this call (the solver strings
    ['dft'] and ['linfit'], this [edge_cut] and [kernel], these [ants]),
    a solver returns gains [Good] enough for the next steps, that is with
    an entry for every antenna of [ants] and a convergence criterion that
    can be computed, and [calibrate_in_place] takes them. *)
Definition calls_succeed (Inv : Work -> Prop) (Good : odict gkey G -> Prop)
           (model : Mdl) (data : Work) (ants : list gkey) (edge_cut : Z)
           (kernel : Z * Z) (gc : string) : Prop :=
  Inv data
  /\ (forall g, Good g -> covers ants g)
  /\ (forall g, Good g -> exists c, convergence g = Ok c)
  /\ (forall g, Good g -> Good (time_average g))
  /\ (forall s g, Inv s -> Good g ->
                  exists s', calibrate_in_place s g gc = Ok s' /\ Inv s')
  /\ exists ap,
      idealized_antpos data = Ok ap
      /\ (exists g s', abs_amp_logcal_gains model data ants = Ok (g, s')
                       /\ Good g /\ Inv s')
      /\ (forall s, Inv s ->
                    exists g s',
                      delay_slope_lincal_gains model s ap kernel edge_cut ants
                      = Ok (g, s') /\ Good g /\ Inv s')
      /\ (forall s solver,
             Inv s -> solver = "dft"%string \/ solver = "linfit"%string ->
             exists g s',
               global_phase_slope_logcal_gains model s ap solver edge_cut ants
               = Ok (g, s') /\ Good g /\ Inv s')
      /\ (forall s, Inv s ->
                    exists g s', TT_phs_logcal_gains model s ap ants
                                 = Ok (g, s') /\ Good g /\ Inv s').

(** The iterations a loop started; none when the loop was not reached. *)
Definition started (o : option stage_state) : nat :=
  match o with
  | Some st => st_iters st
  | None => 0%nat
  end.

(** A phase loop whose calls succeed ends without an exception, whether or
    not a criterion is ever below [phs_conv_crit]. *)
Lemma phase_loop_total (Inv : Work -> Prop) (Good : odict gkey G -> Prop)
      (solve : Work -> result (odict gkey G * Work))
      (ants : list gkey) (gc : string) (conv : Crit) (n : nat) :
  (forall g, Good g -> covers ants g) ->
  (forall g, Good g -> exists c, convergence g = Ok c) ->
  (forall s g, Inv s -> Good g ->
               exists s', calibrate_in_place s g gc = Ok s' /\ Inv s') ->
  (forall s, Inv s -> exists g s', solve s = Ok (g, s') /\ Good g /\ Inv s') ->
  forall st,
    Inv (st_state st) -> covers ants (st_delta st) ->
    Forall Good (st_gains st) ->
    exists st', phase_loop solve ants gc conv n st = (st', Ok tt)
                /\ Inv (st_state st') /\ Forall Good (st_gains st').
Proof.
  intros Hcov Hconv Hcal Hsolve.
  induction n as [|n IH]; intros st Hinv Hd Hg; cbn.
  - eauto.
  - destruct (Hsolve (st_state st) Hinv) as (g & s1 & -> & Hgood & Hinv1).
    destruct (accumulate_total ants _ g Hd (Hcov g Hgood)) as [delta Ea].
    rewrite Ea.
    destruct (Hcal s1 g Hinv1 Hgood) as (s2 & -> & Hinv2).
    destruct (Hconv g Hgood) as [crit ->].
    assert (Hg' : Forall Good (st_gains st ++ [g])).
    { apply Forall_app. split; [exact Hg|]. now constructor. }
    assert (Hd' : covers ants delta).
    { intros ant Hin.
      destruct (proj1 (dict_over_entries _ _ _ Ea) ant Hin) as [v [_ Hv]].
      congruence. }
    destruct (crit_lt crit conv).
    + eexists. split; [reflexivity|]. cbn. auto.
    + apply IH; cbn; auto.
Qed.

Lemma apply_stage_ok (Inv : Work -> Prop) (Good : odict gkey G -> Prop)
      (ants : list gkey) (gc : string)
      (post : odict gkey G -> odict gkey G)
      (r : result (odict gkey G * Work)) (delta : odict gkey G)
      (gs : list (odict gkey G)) :
  (forall g, Good g -> covers ants g) ->
  (forall s g, Inv s -> Good g ->
               exists s', calibrate_in_place s g gc = Ok s' /\ Inv s') ->
  (forall g, Good g -> Good (post g)) ->
  (exists g s', r = Ok (g, s') /\ Good g /\ Inv s') ->
  gs <> [] ->
  accumulated ants gs delta ->
  exists s' d g,
    apply_stage ants gc post r delta = Ok (s', d, g)
    /\ Inv s' /\ Good g /\ accumulated ants (gs ++ [g]) d.
Proof.
  intros Hcov Hcal Hpost (g & s1 & -> & Hgood & Hinv) Hgs Hacc.
  destruct (accumulate_total ants delta (post g)
              (accumulated_covers _ _ _ Hacc) (Hcov _ (Hpost g Hgood)))
    as [d Ea].
  unfold apply_stage. cbn [bind fst snd]. rewrite Ea.
  cbn [bind].
  destruct (Hcal s1 (post g) Hinv (Hpost g Hgood)) as (s2 & -> & Hinv2).
  cbn [bind]. exists s2, d, (post g).
  split; [reflexivity|]. split; [exact Hinv2|]. split; [exact (Hpost g Hgood)|].
  exact (accumulate_accumulated ants gs delta (post g) d Hgs Hacc Ea).
Qed.

(** C5: each of the two phase loops of [post_redcal_abscal] starts at most
    [phs_max_iter] iterations, for every input.  When the calls the
    function makes succeed, both loops are run and the function returns;
    a loop goes on only after a criterion that is not below
    [phs_conv_crit], stops before [phs_max_iter] iterations only on a
    criterion below [phs_conv_crit], and makes all [phs_max_iter]
    iterations when no criterion is below [phs_conv_crit]; and what is
    returned holds, for the antennas of [ants] and only for them, the
    product of the gains of the steps 1 to 3 and of all the iterations of
    the two loops, whether or not a criterion was ever met. *)
Theorem post_redcal_abscal_iterations
        (Inv : Work -> Prop) (Good : odict gkey G -> Prop)
        (model : Mdl) (data : Work) (ants : list gkey) (edge_cut : Z)
        (kernel : Z * Z) (gc : string) (phs_max_iter : Z) (conv : Crit) :
  let run := post_redcal_abscal model data ants edge_cut kernel gc
               phs_max_iter conv in
  let n := Z.to_nat phs_max_iter in
  ((started (run_linfit Work G Crit run) <= n)%nat
   /\ (started (run_tt Work G Crit run) <= n)%nat)
  /\ (calls_succeed Inv Good model data ants edge_cut kernel gc ->
      exists first st3 st4 d,
        run_first Work G Crit run = Some first
        /\ run_linfit Work G Crit run = Some st3
        /\ run_tt Work G Crit run = Some st4
        /\ run_result Work G Crit run = Ok d
        /\ List.length first = 4%nat
        /\ loop_trace conv n st3
        /\ loop_trace conv n st4
        /\ Forall Good (first ++ st_gains st3 ++ st_gains st4)
        /\ accumulated ants (first ++ st_gains st3 ++ st_gains st4) d).
Proof.
  intros run n. subst run. unfold post_redcal_abscal.
  match goal with
  | |- context [match ?b with Ok _ => _ | Raise _ => _ end] =>
      set (before := b)
  end.
  split.
  - destruct before as [[[ap sd] first]|e]; cbn; [|lia].
    destruct (phase_loop _ ants gc conv (Z.to_nat phs_max_iter)
                (mkStage Work G Crit (fst sd) (snd sd) 0 [] []))
      as [st3 r3] eqn:E3.
    destruct (phase_loop_spec _ _ _ _ _ _ _ _ E3)
      as (k3 & g3 & c3 & Hi3 & Hk3 & _).
    cbn in Hi3.
    destruct r3 as [[]|e3]; [|cbn; subst n; lia].
    destruct (phase_loop _ ants gc conv (Z.to_nat phs_max_iter)
                (mkStage Work G Crit (st_state st3) (st_delta st3) 0 [] []))
      as [st4 r4] eqn:E4.
    destruct (phase_loop_spec _ _ _ _ _ _ _ _ E4)
      as (k4 & g4 & c4 & Hi4 & Hk4 & _).
    cbn in Hi4.
    destruct r4 as [[]|e4]; cbn; subst n; lia.
  - intros (Hinv & Hcov & Hconv & Htime & Hcal & ap & Hid & Habs & Hdel
            & Hgps & Htt).
    assert (Hb : exists s d first,
               before = Ok (ap, (s, d), first)
               /\ Inv s /\ List.length first = 4%nat /\ Forall Good first
               /\ accumulated ants first d).
    { subst before. rewrite Hid. cbn [bind].
      destruct Habs as (g1 & s0 & -> & Hg1 & Hinv0). cbn [bind fst snd].
      destruct (dict_over_total ants
                  (fun ant => getitem (lookup gkey_eqb ant g1)))
        as [delta Ed].
      { intros ant Hin. specialize (Hcov g1 Hg1 ant Hin).
        destruct (lookup gkey_eqb ant g1); [cbn; eauto|congruence]. }
      rewrite Ed. cbn [bind].
      assert (Hacc1 : accumulated ants [g1] delta).
      { destruct (dict_over_entries _ _ _ Ed) as [Hin Hout].
        split; [|exact Hout]. intros ant Hant.
        destruct (Hin ant Hant) as [v [Hv Hl]]. exists v. split; [|exact Hl].
        cbn [gain_product fold_left].
        destruct (lookup gkey_eqb ant g1); [now inversion Hv|discriminate]. }
      destruct (Hcal s0 g1 Hinv0 Hg1) as (s1 & -> & Hinv1). cbn [bind].
      destruct (apply_stage_ok Inv Good ants gc time_average
                  (delay_slope_lincal_gains model s1 ap kernel edge_cut ants)
                  delta [g1] Hcov Hcal Htime (Hdel s1 Hinv1)
                  ltac:(discriminate) Hacc1)
        as (s2 & d2 & g2 & -> & Hinv2 & Hg2 & Hacc2).
      cbn [bind fst snd].
      destruct (apply_stage_ok Inv Good ants gc (fun g => g)
                  (delay_slope_lincal_gains model s2 ap kernel edge_cut ants)
                  d2 ([g1] ++ [g2]) Hcov Hcal (fun g H => H) (Hdel s2 Hinv2)
                  ltac:(discriminate) Hacc2)
        as (s3 & d3 & g3 & -> & Hinv3 & Hg3 & Hacc3).
      cbn [bind fst snd].
      destruct (apply_stage_ok Inv Good ants gc (fun g => g)
                  (global_phase_slope_logcal_gains model s3 ap "dft" edge_cut
                     ants)
                  d3 (([g1] ++ [g2]) ++ [g3]) Hcov Hcal (fun g H => H)
                  (Hgps s3 "dft"%string Hinv3 (or_introl eq_refl))
                  ltac:(discriminate) Hacc3)
        as (s4 & d4 & g4 & -> & Hinv4 & Hg4 & Hacc4).
      cbn [bind fst snd]. exists s4, d4, [g1; g2; g3; g4].
      split; [reflexivity|]. split; [exact Hinv4|]. split; [reflexivity|].
      split; [repeat constructor; assumption|exact Hacc4]. }
    destruct Hb as (s & d & first & -> & Hs & Hlen & Hgood & Hacc).
    cbn [fst snd].
    assert (Hne : first <> []) by (destruct first; [discriminate|congruence]).
    destruct (phase_loop_total Inv Good
                (fun s => global_phase_slope_logcal_gains model s ap "linfit"
                            edge_cut ants)
                ants gc conv (Z.to_nat phs_max_iter) Hcov Hconv Hcal
                (fun s Hs => Hgps s "linfit"%string Hs (or_intror eq_refl))
                (mkStage Work G Crit s d 0 [] []) Hs
                (accumulated_covers _ _ _ Hacc) (Forall_nil _))
      as (st3 & E3 & Hinv3 & Hg3).
    rewrite E3.
    pose proof (phase_loop_trace _ _ _ _ _ _ _ _ E3) as Ht3.
    pose proof (phase_loop_accumulated _ ants gc conv _ first Hne _ _ _ E3)
      as Hacc3.
    cbn in Hacc3.
    rewrite app_nil_r in Hacc3. specialize (Hacc3 Hacc).
    destruct (phase_loop_total Inv Good
                (fun s => TT_phs_logcal_gains model s ap ants)
                ants gc conv (Z.to_nat phs_max_iter) Hcov Hconv Hcal
                (fun s Hs => Htt s Hs)
                (mkStage Work G Crit (st_state st3) (st_delta st3) 0 [] [])
                Hinv3 (accumulated_covers _ _ _ Hacc3) (Forall_nil _))
      as (st4 & E4 & Hinv4 & Hg4).
    rewrite E4.
    pose proof (phase_loop_trace _ _ _ _ _ _ _ _ E4) as Ht4.
    assert (Hne3 : first ++ st_gains st3 <> []).
    { destruct first; [congruence|discriminate]. }
    pose proof (phase_loop_accumulated _ ants gc conv _
                  (first ++ st_gains st3) Hne3 _ _ _ E4) as Hacc4.
    cbn in Hacc4.
    rewrite app_nil_r in Hacc4. specialize (Hacc4 Hacc3).
    rewrite <- app_assoc in Hacc4.
    exists first, st3, st4, (st_delta st4). cbn.
    repeat split; try assumption; try reflexivity;
      try (apply Ht3); try (apply Ht4).
    + apply Forall_app. split; [exact Hgood|].
      apply Forall_app. split; assumption.
    + apply Hacc4.
    + apply Hacc4.
Qed.
End PostRedcalFacts.

(** An instance of the controller: the state is one residual that every
    [calibrate_in_place] halves, the phase-slope solver refuses a solver
    string other than ['dft'] and ['linfit'] and a negative [edge_cut] as
    the assertions of [global_phase_slope_logcal] do, and returns the
    residual as the gain of every antenna; the criterion is the gain of
    the first antenna. *)
Section PostRedcalInstance.
Definition ants_two : list gkey := [(0, "Jxx"%string); (1, "Jxx"%string)].

Definition level_gains (v : Z) : odict gkey Z :=
  odict_of_list gkey_eqb (map (fun ant => (ant, v)) ants_two).

Definition residual_solver (solver : string) (edge_cut : Z) (s : Z)
  : result (odict gkey Z * Z) :=
  if negb (String.eqb solver "dft" || String.eqb solver "linfit")
  then Raise AssertionError
  else if edge_cut <? 0 then Raise AssertionError
  else Ok (level_gains s, s).

Definition first_gain (g : odict gkey Z) : result Z :=
  getitem (lookup gkey_eqb (0, "Jxx"%string) g).

Definition post_redcal_abscal_residual (data phs_max_iter conv : Z)
  : abscal_run Z Z Z :=
  post_redcal_abscal Z unit unit Z Z Z.mul Z.ltb
    (fun _ => Ok tt)
    (fun _ s _ => Ok (level_gains 2, s))
    (fun _ s _ _ _ _ => Ok (level_gains 3, s))
    (fun g => g)
    (fun _ s _ solver edge_cut _ => residual_solver solver edge_cut s)
    (fun _ s _ _ => Ok (level_gains 3, s))
    (fun s _ _ => Ok (s / 2))
    first_gain
    tt data ants_two 0 (1, 1) "divide" phs_max_iter conv.

Definition constant_gains (g : odict gkey Z) : Prop :=
  exists v, g = level_gains v.

Lemma calls_succeed_residual (data : Z) :
  calls_succeed Z unit unit Z Z
    (fun s _ _ => Ok (s / 2)) first_gain
    (fun _ => Ok tt)
    (fun _ s _ => Ok (level_gains 2, s))
    (fun _ s _ _ _ _ => Ok (level_gains 3, s))
    (fun g => g)
    (fun _ s _ solver edge_cut _ => residual_solver solver edge_cut s)
    (fun _ s _ _ => Ok (level_gains 3, s))
    (fun _ => True) constant_gains tt data ants_two 0 (1, 1) "divide".
Proof.
  unfold calls_succeed. split; [exact I|].
  split.
  { intros g [v ->] ant [<-|[<-|[]]]; cbv; discriminate. }
  split; [intros g [v ->]; exists v; reflexivity|].
  split; [intros g H; exact H|].
  split; [intros s g _ _; eauto|].
  exists tt. split; [reflexivity|].
  split; [exists (level_gains 2), data; repeat split; now exists 2|].
  split; [intros s _; exists (level_gains 3), s; repeat split; now exists 3|].
  split.
  - intros s solver _ [-> | ->]; exists (level_gains s), s;
      repeat split; now exists s.
  - intros s _; exists (level_gains 3), s; repeat split; now exists 3.
Qed.

(** From the residual 64, the steps 1 to 3 leave 4; the first loop meets
    the criterion 2 in its third iteration out of five, the second loop
    never meets it and makes all five iterations, and the function
    returns. *)
Lemma post_redcal_abscal_iterations_witness :
  calls_succeed Z unit unit Z Z
    (fun s _ _ => Ok (s / 2)) first_gain
    (fun _ => Ok tt)
    (fun _ s _ => Ok (level_gains 2, s))
    (fun _ s _ _ _ _ => Ok (level_gains 3, s))
    (fun g => g)
    (fun _ s _ solver edge_cut _ => residual_solver solver edge_cut s)
    (fun _ s _ _ => Ok (level_gains 3, s))
    (fun _ => True) constant_gains tt 64 ants_two 0 (1, 1) "divide"
  /\ started Z Z Z (run_linfit Z Z Z (post_redcal_abscal_residual 64 5 2)) = 3%nat
  /\ started Z Z Z (run_tt Z Z Z (post_redcal_abscal_residual 64 5 2)) = 5%nat
  /\ exists first st3 st4 d,
      run_first Z Z Z (post_redcal_abscal_residual 64 5 2) = Some first
      /\ run_linfit Z Z Z (post_redcal_abscal_residual 64 5 2) = Some st3
      /\ run_tt Z Z Z (post_redcal_abscal_residual 64 5 2) = Some st4
      /\ run_result Z Z Z (post_redcal_abscal_residual 64 5 2) = Ok d
      /\ List.length first = 4%nat
      /\ loop_trace Z Z Z Z.ltb first_gain 2 5 st3
      /\ loop_trace Z Z Z Z.ltb first_gain 2 5 st4
      /\ Forall constant_gains
                (first ++ st_gains Z Z Z st3 ++ st_gains Z Z Z st4)
      /\ accumulated Z Z.mul ants_two
                     (first ++ st_gains Z Z Z st3 ++ st_gains Z Z Z st4) d.
Proof.
  split; [exact (calls_succeed_residual 64)|].
  split; [vm_compute; reflexivity|].
  split; [vm_compute; reflexivity|].
  exact (proj2 (post_redcal_abscal_iterations Z unit unit Z Z Z.mul Z.ltb
                  (fun s _ _ => Ok (s / 2)) first_gain
                  (fun _ => Ok tt)
                  (fun _ s _ => Ok (level_gains 2, s))
                  (fun _ s _ _ _ _ => Ok (level_gains 3, s))
                  (fun g => g)
                  (fun _ s _ solver edge_cut _ =>
                     residual_solver solver edge_cut s)
                  (fun _ s _ _ => Ok (level_gains 3, s))
                  (fun _ => True) constant_gains tt 64 ants_two 0 (1, 1)
                  "divide" 5 2)
               (calls_succeed_residual 64)).
Defined.
End PostRedcalInstance.

(** ** A flagged bin does not abort a peak-finding solve *)

Lemma zip2d_rows {X Y Z : Type} (f : X -> Y -> Z) (a : list (list X)) :
  forall (b : list (list Y)) (r : list (list Z)),
    zip2d f a b = Ok r ->
    List.length a = List.length b /\ List.length r = List.length a.
Proof.
  unfold zip2d. induction a as [|x a IH]; intros [|y b] r H; simpl in H;
    try discriminate.
  - inversion H. auto.
  - destruct (zipw (fun r s => zipw f r s) a b) as [rows|] eqn:E;
      simpl in H; [|discriminate].
    destruct (zipw f x y) as [row|]; simpl in H; [|discriminate].
    destruct (fold_right (fun r acc => x <- r ;; l <- acc ;; Ok (x :: l))
                         (Ok []) rows) as [l|] eqn:El;
      simpl in H; [|discriminate].
    inversion H; subst. destruct (IH b l) as [H1 H2].
    { rewrite E. simpl. exact El. }
    simpl. split; congruence.
Qed.

(** Two arrays of one shape combine. *)
Lemma zip2d_total {X Y Z : Type} (f : X -> Y -> Z)
      (a : list (list X)) (b : list (list Y)) :
  Forall2 (fun r s => List.length r = List.length s) a b ->
  exists r, zip2d f a b = Ok r.
Proof.
  unfold zip2d. induction 1 as [|x y a b Hxy Hab IH]; simpl.
  - eauto.
  - destruct IH as [r Hr].
    destruct (zipw (fun r s => zipw f r s) a b) as [rows|]; simpl in Hr;
      [|discriminate].
    simpl. destruct (zipw_spec f x y Hxy) as [row [-> _]]. simpl.
    rewrite Hr. simpl. eauto.
Qed.

Lemma Forall2_one_column {A B X Y : Type} (g : A -> X) (h : B -> Y)
      (l1 : list A) :
  forall l2 : list B,
    List.length l1 = List.length l2 ->
    Forall2 (fun r s => List.length r = List.length s)
            (map (fun x => [g x]) l1) (map (fun y => [h y]) l2).
Proof.
  induction l1 as [|x l1 IH]; intros [|y l2] H; simpl in H; try discriminate;
    simpl; constructor; auto.
Qed.

Section FlaggedBins.
Variable F : Type.
Variable Fzero Fone Fnan two_pi : F.
Variable isnan isinf : F -> bool.
Variable Fadd Fsub Fmul Fdiv : F -> F -> F.
Variable Fsqrt : F -> F.
Variable np_min np_max : list F -> F.
Variable brute :
  F * F * F -> list F -> list F -> list (cplx F) -> result (F * F).
Variable split_pol : string -> result (string * string).
Variable get_pos_reds : antpos_t F -> F -> result (list (list (Z * Z))).
Variable red_average :
  vis_t F -> list (list (Z * Z)) -> odict bl (list (list bool)) ->
  result (vis_t F * odict bl (list (list bool))).
Variable cdiv : cplx F -> cplx F -> cplx F.
Variable cnormalize : cplx F -> cplx F.
Variable angle : cplx F -> F.
Variable isclose0 Fnonzero : F -> bool.
Variable nanmedian : list F -> F.
Variable nanmedian_c : list (cplx F) -> cplx F.
Variable fsum : list F -> F.
Variable fmt : F -> string.

Local Abbreviation scrubbed := (scrubbed F Fzero isnan).
Local Abbreviation scrub_unobserved := (scrub_unobserved F Fzero isnan).
Local Abbreviation slope_eqn := (slope_eqn F split_pol fmt).
Local Abbreviation median_of_key :=
  (median_of_key F Fzero Fnan isnan isinf Fmul cdiv cnormalize angle isclose0
     nanmedian nanmedian_c fsum).
Local Abbreviation slope_loop :=
  (slope_loop F Fzero Fnan isnan isinf Fsub Fmul split_pol cdiv cnormalize
     angle isclose0 nanmedian nanmedian_c fsum fmt).
Local Abbreviation phase_slope_averages :=
  (phase_slope_averages F Fzero Fone Fsub get_pos_reds red_average Fnonzero).
Local Abbreviation phase_slope_system :=
  (phase_slope_system F Fzero Fone Fnan isnan isinf Fsub Fmul split_pol
     get_pos_reds red_average cdiv cnormalize angle isclose0 Fnonzero
     nanmedian nanmedian_c fsum fmt).
Local Abbreviation dft_phase_slope_solver :=
  (dft_phase_slope_solver F Fzero Fone isnan Fadd Fsub Fmul Fdiv Fsqrt
     np_min np_max brute).
Local Abbreviation search_slice :=
  (search_slice F Fzero Fone Fsub Fdiv np_min np_max).
Local Abbreviation flags_or_nan := (flags_or_nan F isnan).
Local Abbreviation deltas_of := (deltas_of F Fadd Fsub Fmul Fsqrt).

(** The equation [e] of the system is what the loop made of the averaged
    baseline [rk]: its data and weights are the median and the summed
    weights of [avg_data[rk] / avg_model[rk]] and [avg_wgts[rk]], with the
    value 0 and the weight 0 wherever the median is [nan]. *)
Definition equation_of (solver : string) (edge_cut : Z) (ap : antpos_t F)
           (avg_data avg_model : vis_t F) (avg_wgts : wgt_t F)
           (sys : slope_system F) (e : string) (rk : bl) : Prop :=
  slope_eqn ap rk = Ok e
  /\ exists dd mm ww med d w,
      lookup bl_eqb rk avg_data = Some dd
      /\ lookup bl_eqb rk avg_model = Some mm
      /\ lookup bl_eqb rk avg_wgts = Some ww
      /\ median_of_key solver edge_cut dd mm ww = Ok med
      /\ lookup String.eqb e (ss_data F sys) = Some d
      /\ lookup String.eqb e (ss_wgts F sys) = Some (FArr w)
      /\ scrubbed (fst med) (snd med) d w.

(** Every equation of the system is the equation of one of [red_keys],
    and every one of [red_keys] has its equation in the system. *)
Definition system_scrubbed (solver : string) (edge_cut : Z)
           (ap : antpos_t F) (avg_data avg_model : vis_t F)
           (avg_wgts : wgt_t F) (red_keys : list bl)
           (sys : slope_system F) : Prop :=
  (forall e,
      lookup String.eqb e (ss_data F sys) <> None ->
      exists rk, In rk red_keys
                 /\ equation_of solver edge_cut ap avg_data avg_model
                                avg_wgts sys e rk)
  /\ (forall rk,
         In rk red_keys ->
         exists e, slope_eqn ap rk = Ok e
                   /\ lookup String.eqb e (ss_data F sys) <> None).

Lemma getitem_ok {A : Type} (o : option A) (x : A) :
  getitem o = Ok x -> o = Some x.
Proof. destruct o; simpl; intros H; inversion H; reflexivity. Qed.

Lemma slope_loop_scrubbed (solver : string) (edge_cut : Z)
      (ap : antpos_t F) (avg_data avg_model : vis_t F)
      (avg_wgts : wgt_t F) :
  forall red_keys done acc sys,
    system_scrubbed solver edge_cut ap avg_data avg_model avg_wgts done acc ->
    slope_loop solver edge_cut ap avg_data avg_model avg_wgts red_keys acc
    = Ok sys ->
    system_scrubbed solver edge_cut ap avg_data avg_model avg_wgts
                    (done ++ red_keys) sys.
Proof.
  induction red_keys as [|rk red_keys IH]; intros done acc sys Hacc H;
    simpl in H.
  - inversion H; subst. now rewrite app_nil_r.
  - bind_ok H eqn_str E1. bind_ok H p0 E2. bind_ok H p1 E3.
    bind_ok H b E4. bind_ok H pol E5. bind_ok H dd E6. bind_ok H mm E7.
    bind_ok H ww E8. bind_ok H med E9. bind_ok H dw E10.
    apply (IH (done ++ [rk])) in H; [now rewrite <- app_assoc in H|].
    destruct Hacc as [Hfrom Hto]. destruct dw as [d' w'].
    split.
    + intros e He. cbn [ss_data] in He.
      rewrite (lookup_setitem String.eqb String.eqb_eq) in He.
      destruct (String.eqb e eqn_str) eqn:Ee.
      * apply String.eqb_eq in Ee. subst e. exists rk.
        split; [apply in_or_app; right; now left|].
        split; [exact E1|].
        exists dd, mm, ww, med, d', w'.
        split; [now apply getitem_ok|]. split; [now apply getitem_ok|].
        split; [now apply getitem_ok|]. split; [exact E9|].
        cbn [ss_data ss_wgts fst snd].
        rewrite !(lookup_setitem String.eqb String.eqb_eq), String.eqb_refl.
        split; [reflexivity|]. split; [reflexivity|].
        apply scrub_unobserved_scrubbed. exact E10.
      * destruct (Hfrom e He) as (rk' & Hin & Heq & dd' & mm' & ww' & med'
                                  & d0 & w0 & H1 & H2 & H3 & H4 & H5 & H6
                                  & H7).
        exists rk'. split; [apply in_or_app; now left|].
        split; [exact Heq|].
        exists dd', mm', ww', med', d0, w0.
        cbn [ss_data ss_wgts].
        rewrite !(lookup_setitem String.eqb String.eqb_eq), Ee.
        repeat split; assumption.
    + intros rk' Hin. apply in_app_or in Hin.
      cbn [ss_data]. destruct Hin as [Hin|[<-|[]]].
      * destruct (Hto rk' Hin) as (e & He & Hl). exists e.
        split; [exact He|].
        rewrite (lookup_setitem String.eqb String.eqb_eq).
        destruct (String.eqb e eqn_str); [discriminate|exact Hl].
      * exists eqn_str. split; [exact E1|].
        rewrite (lookup_setitem String.eqb String.eqb_eq), String.eqb_refl.
        discriminate.
Qed.

Lemma phase_slope_system_scrubbed (model data : vis_t F)
      (antpos : antpos_t F) (solver : string) (wgts : option (wgt_t F))
      (refant : option Z) (tol : F) (edge_cut : Z)
      (ap : antpos_t F) (n : nat) (sys : slope_system F) :
  phase_slope_system model data antpos solver wgts refant tol edge_cut
  = Ok (ap, n, sys) ->
  exists avg_data avg_model avg_wgts,
    phase_slope_averages model data antpos solver wgts refant tol edge_cut
    = Ok (ap, n, (avg_data, avg_model, avg_wgts))
    /\ system_scrubbed solver edge_cut ap avg_data avg_model avg_wgts
                       (keys avg_data) sys.
Proof.
  unfold phase_slope_system. intros H.
  bind_ok H prep E0.
  destruct prep as [[ap0 n0] [[avg_data avg_model] avg_wgts]].
  bind_ok H sys' E1. inversion H; subst. clear H.
  exists avg_data, avg_model, avg_wgts. split; [reflexivity|].
  eapply (slope_loop_scrubbed solver edge_cut ap avg_data avg_model avg_wgts
            (keys avg_data) [] _ sys); [|exact E1].
  split.
  - intros e He. cbn in He. congruence.
  - intros rk [].
Qed.

(** The scrubbing of a median never fails. *)
Lemma scrub_unobserved_total (md : harr F) (mw : list (list F)) :
  Forall2 (fun r s => List.length r = List.length s)
          mw (mask_nan F isnan md) ->
  exists d w, scrub_unobserved md mw = Ok (d, w).
Proof.
  intros Hs. unfold scrub_unobserved.
  destruct (zip2d_total (fun x (b : bool) => if b then Fzero else x)
                        mw (mask_nan F isnan md) Hs) as [w ->].
  cbn [bind].
  destruct md as [x|x]; cbn [assign_masked mask_nan].
  - rewrite zip2d_self. cbn [bind]. eauto.
  - rewrite (zip2d_self (c_isnan F isnan) (Fzero, Fzero)). cbn [bind]. eauto.
Qed.

Lemma median_of_key_scrubs (solver : string) (edge_cut : Z)
      (dd mm : list (list (cplx F))) (ww : list (list F))
      (med : harr F * list (list F)) :
  median_of_key solver edge_cut dd mm ww = Ok med ->
  exists d w, scrub_unobserved (fst med) (snd med) = Ok (d, w).
Proof.
  unfold median_of_key. intros H.
  bind_ok H ratio E1. bind_ok H flg E2. bind_ok H w' E3. bind_ok H ratio' E4.
  inversion H; subst med. clear H. cbn [fst snd].
  apply scrub_unobserved_total.
  destruct (zip2d_rows _ _ _ _ E2) as [Hwr Hflg].
  destruct (zip2d_rows _ _ _ _ E3) as [_ Hw'].
  destruct (zip2d_rows _ _ _ _ E4) as [_ Hr'].
  assert (Hlen : List.length w' = List.length ratio')
    by exact (eq_trans Hw' (eq_trans Hwr (eq_sym Hr'))).
  destruct (String.eqb solver "linfit"); cbn [mask_nan]; rewrite map_map;
    cbn [map]; apply Forall2_one_column; exact Hlen.
Qed.

(** The solver returns when [brute] succeeds on the pixels that are not
    entirely [nan]. *)
Lemma dft_solver_total (xs ys : list F) (data : list (list (cplx F)))
      (flags : option (list (list bool))) (fflat : list (list bool)) :
  deltas_of xs ys <> [] ->
  List.length data = List.length xs ->
  flags_or_nan data flags = Ok fflat ->
  (forall i, (i < shape1 data)%nat ->
             column_all_nan F isnan data i = false ->
             exists pk, dft_pixel F brute (search_slice (deltas_of xs ys))
                                  xs ys data fflat i = Ok pk) ->
  exists sx sy, dft_phase_slope_solver xs ys data flags = Ok (sx, sy).
Proof.
  intros Hd Hl Hf Hb. unfold dft_phase_slope_solver.
  destruct (deltas_of xs ys) as [|d ds] eqn:Ed; [congruence|].
  rewrite Hf. cbn [bind]. rewrite Hl, Nat.eqb_refl. cbn [negb].
  destruct (dft_loop_total F isnan brute (search_slice (d :: ds)) xs ys data
              fflat (seq 0 (shape1 data)) (repeat Fzero (shape1 data))
              (repeat Fzero (shape1 data))) as [[sx sy] E].
  - intros i Hi Hn. apply Hb; [|exact Hn]. apply in_seq in Hi. lia.
  - eauto.
Qed.

(** C7: a completely flagged bin does not abort a peak-finding solve.
    [dft_phase_slope_solver], with or without flags, returns when [brute]
    succeeds, on the search range of the positions and the flags joined
    with the [nan] of the data, for the pixels that are not entirely
    [nan]; whenever it returns, the two slopes of every pixel whose column
    is entirely [nan] are exactly 0.0.  In [global_phase_slope_logcal]
    every equation of the system is built from one averaged baseline: its
    data are the medians over frequency of that baseline and its weights
    the summed weights, with the value 0 and the weight 0 wherever the
    median is [nan] and unchanged elsewhere; every averaged baseline has
    its equation; and that last step of the loop never raises. *)
Theorem flagged_bins_do_not_abort
        (xs ys : list F) (data : list (list (cplx F)))
        (flags : option (list (list bool)))
        (model vdata : vis_t F) (antpos : antpos_t F) (solver : string)
        (wgts : option (wgt_t F)) (refant : option Z) (tol : F)
        (edge_cut : Z) :
  (forall fflat,
      deltas_of xs ys <> [] ->
      List.length data = List.length xs ->
      flags_or_nan data flags = Ok fflat ->
      (forall i, (i < shape1 data)%nat ->
                 column_all_nan F isnan data i = false ->
                 exists pk, dft_pixel F brute (search_slice (deltas_of xs ys))
                                      xs ys data fflat i = Ok pk) ->
      exists sx sy, dft_phase_slope_solver xs ys data flags = Ok (sx, sy))
  /\ (forall sx sy i,
         dft_phase_slope_solver xs ys data flags = Ok (sx, sy) ->
         (i < shape1 data)%nat ->
         column_all_nan F isnan data i = true ->
         nth_error sx i = Some Fzero /\ nth_error sy i = Some Fzero)
  /\ (forall ap n sys,
         phase_slope_system model vdata antpos solver wgts refant tol edge_cut
         = Ok (ap, n, sys) ->
         exists avg_data avg_model avg_wgts,
           phase_slope_averages model vdata antpos solver wgts refant tol
                                edge_cut
           = Ok (ap, n, (avg_data, avg_model, avg_wgts))
           /\ system_scrubbed solver edge_cut ap avg_data avg_model avg_wgts
                              (keys avg_data) sys)
  /\ (forall dd mm ww med,
         median_of_key solver edge_cut dd mm ww = Ok med ->
         exists d w,
           scrub_unobserved (fst med) (snd med) = Ok (d, w)
           /\ scrubbed (fst med) (snd med) d w).
Proof.
  split; [|split; [|split]].
  - intros fflat Hd Hl Hf Hb.
    exact (dft_solver_total xs ys data flags fflat Hd Hl Hf Hb).
  - intros sx sy i H Hi Hn.
    exact (dft_solver_flagged_pixel F Fzero Fone isnan Fadd Fsub Fmul Fdiv
             Fsqrt np_min np_max brute xs ys data flags sx sy i H Hi Hn).
  - intros ap n sys H.
    exact (phase_slope_system_scrubbed model vdata antpos solver wgts refant
             tol edge_cut ap n sys H).
  - intros dd mm ww med H.
    destruct (median_of_key_scrubs solver edge_cut dd mm ww med H)
      as (d & w & E).
    exists d, w. split; [exact E|].
    apply scrub_unobserved_scrubbed. exact E.
Qed.
End FlaggedBins.

Section PhaseSlopeInstance.
Local Open Scope float_scope.

(** Three positions on a line and two pixels; the second pixel is [nan]
    at every position, and one of its samples is flagged as well. *)
Definition xs_line : list float := [0; 1; 3].
Definition ys_line : list float := [0; 0; 0].
Definition data_nan_pixel : list (list (cplx float)) :=
  [[(1, 0); (nan, nan)];
   [(-0.5, 0.875); (nan, nan)];
   [(1, 0); (nan, nan)]].
Definition flags_nan_pixel : list (list bool) :=
  [[false; false]; [false; true]; [false; false]].

(** One baseline and two integrations of four channels; the second
    integration has the weight 0 in every channel. *)
Definition antpos_pair : antpos_t float :=
  [(0%Z, [0; 0; 0]); (1%Z, [1; 0; 0])].
Definition vis_pair : vis_t float :=
  [(Bl3 0 1 "xx", [[(0, 1); (0, 1); (0, 1); (0, 1)];
                   [(0, 1); (0, 1); (0, 1); (0, 1)]])].
Definition model_pair : vis_t float :=
  [(Bl3 0 1 "xx", [[(1, 0); (1, 0); (1, 0); (1, 0)];
                   [(1, 0); (1, 0); (1, 0); (1, 0)]])].
Definition wgts_pair : wgt_t float :=
  [(Bl3 0 1 "xx", [[1; 1; 1; 1]; [0; 0; 0; 0]])].

(** On three positions the solver finds the slope of the first pixel and
    leaves 0.0 for the second, whose column is [nan]; and the system of
    one baseline has the median of the first integration with the weight
    2 and, for the second integration, the value 0 with the weight 0. *)
Lemma flagged_bins_do_not_abort_witness :
  (exists s sy,
      PhaseSlope64.dft_phase_slope_solver xs_line ys_line data_nan_pixel
        (Some flags_nan_pixel) = Ok ([s; 0], sy)
      /\ nth_error sy 1 = Some 0
      /\ (0.25 <? s) = true)
  /\ (exists ap sys avg_data avg_model avg_wgts e a,
         PhaseSlope64.phase_slope_system model_pair vis_pair antpos_pair
           "linfit" (Some wgts_pair) None 1 1 = Ok (ap, 4%nat, sys)
         /\ system_scrubbed float 0 nan PrimFloat.is_nan
              PrimFloat.is_infinity PrimFloat.mul Utils.split_pol
              Float64.cdiv PhaseSlope64.cnormalize Abscal64.angle
              PhaseSlope64.isclose0 PhaseSlope64.nanmedian
              PhaseSlope64.nanmedian_c PhaseSlope64.fsum PhaseSlope64.fmt
              "linfit" 1 ap avg_data avg_model avg_wgts (keys avg_data) sys
         /\ ss_data float sys = [(e, FArr [[a]; [0]])]
         /\ ss_wgts float sys = [(e, FArr [[2]; [0]])]).
Proof.
  pose proof (flagged_bins_do_not_abort float 0 1 nan PrimFloat.is_nan
                PrimFloat.is_infinity PrimFloat.add PrimFloat.sub
                PrimFloat.mul PrimFloat.div PrimFloat.sqrt
                PhaseSlope64.np_min PhaseSlope64.np_max PhaseSlope64.brute
                Utils.split_pol PhaseSlope64.get_pos_reds
                PhaseSlope64.red_average Float64.cdiv PhaseSlope64.cnormalize
                Abscal64.angle PhaseSlope64.isclose0 PhaseSlope64.nonzero
                PhaseSlope64.nanmedian PhaseSlope64.nanmedian_c
                PhaseSlope64.fsum PhaseSlope64.fmt
                xs_line ys_line data_nan_pixel (Some flags_nan_pixel)
                model_pair vis_pair antpos_pair "linfit" (Some wgts_pair)
                None 1 1%Z) as (Htotal & Hzero & Hsys & _).
  split.
  - destruct (Htotal [[false; true]; [false; true]; [false; true]])
      as (sx & sy & E).
    + vm_compute. discriminate.
    + reflexivity.
    + vm_compute. reflexivity.
    + intros [|[|i]] Hi Hn.
      * eexists. vm_compute. reflexivity.
      * vm_compute in Hn. discriminate.
      * vm_compute in Hi. lia.
    + destruct (Hzero sx sy 1%nat E) as [Hx Hy];
        [vm_compute; lia|vm_compute; reflexivity|].
      assert (E' : PhaseSlope64.dft_phase_slope_solver xs_line ys_line
                     data_nan_pixel (Some flags_nan_pixel)
                   = Ok ([0x1.5555555555554p-2; 0], [-1; 0]))
        by (vm_compute; reflexivity).
      exists 0x1.5555555555554p-2, sy.
      change (PhaseSlope64.dft_phase_slope_solver xs_line ys_line
                data_nan_pixel (Some flags_nan_pixel) = Ok (sx, sy)) in E.
      rewrite E' in E. inversion E; subst.
      split; [exact E'|]. split; [exact Hy|vm_compute; reflexivity].
  - assert (E : exists ap sys e a,
               PhaseSlope64.phase_slope_system model_pair vis_pair antpos_pair
                 "linfit" (Some wgts_pair) None 1 1 = Ok (ap, 4%nat, sys)
               /\ ss_data float sys = [(e, FArr [[a]; [0]])]
               /\ ss_wgts float sys = [(e, FArr [[2]; [0]])])
      by (do 4 eexists; vm_compute; repeat split; reflexivity).
    destruct E as (ap & sys & e & a & E & Hd & Hw).
    destruct (Hsys ap 4%nat sys E) as (ad & am & aw & _ & Hs).
    exists ap, sys, ad, am, aw, e, a.
    split; [exact E|]. split; [exact Hs|]. split; [exact Hd|exact Hw].
Defined.
End PhaseSlopeInstance.

(** * Polarization and baseline keys *)

Module UtilsKeysFacts.
Import Utils UtilsKeys.

(** What [_comply_vispol] returns is a value of the number-to-string
    table. *)
Lemma comply_vispol_values (pol s : string) :
  _comply_vispol Pyuvdata.polstr2num Pyuvdata.polnum2str pol = Ok s ->
  In s (map snd Pyuvdata.POL_NUM2STR_DICT).
Proof.
  unfold _comply_vispol. intros H.
  destruct (Pyuvdata.polstr2num pol) as [n|]; cbn [bind] in H;
    [|discriminate].
  unfold Pyuvdata.polnum2str in H.
  destruct (lookup Z.eqb n Pyuvdata.POL_NUM2STR_DICT) as [v|] eqn:E;
    [|discriminate].
  inversion H; subst v. clear H.
  apply (lookup_In Z.eqb Z.eqb_eq) in E.
  apply (in_map snd) in E. exact E.
Qed.

(** A polarization that splits was complied to a key of [SPLIT_POL]. *)
Lemma split_pol_inv (pol p q : string) :
  split_pol pol = Ok (p, q) ->
  exists s,
    _comply_vispol Pyuvdata.polstr2num Pyuvdata.polnum2str pol = Ok s
    /\ In (s, (p, q)) SPLIT_POL.
Proof.
  unfold split_pol. intros H.
  destruct (_comply_vispol Pyuvdata.polstr2num Pyuvdata.polnum2str pol)
    as [s|]; cbn [bind] in H; [|discriminate].
  destruct (lookup String.eqb s SPLIT_POL) as [pq|] eqn:E; [|discriminate].
  inversion H; subst pq. exists s. split; [reflexivity|].
  apply (lookup_In String.eqb String.eqb_eq). exact E.
Qed.

(** Case analysis on membership in one of the finite tables. *)
Ltac each_entry H :=
  vm_compute in H;
  repeat (destruct H as [H|H]; [inversion H; subst|]);
  [..|destruct H].

(** X1: joining the two antenna polarizations that [split_pol] returned
    gives back the complied visibility polarization, which splits into the
    same pair. *)
Theorem join_pol_split_pol (pol p q : string) :
  split_pol pol = Ok (p, q) ->
  join_pol p q
  = _comply_vispol Pyuvdata.polstr2num Pyuvdata.polnum2str pol
  /\ exists s, join_pol p q = Ok s /\ split_pol s = Ok (p, q).
Proof.
  intros H. destruct (split_pol_inv pol p q H) as [s [Hs Hin]].
  rewrite Hs.
  each_entry Hin;
    (split; [reflexivity|eexists; split; reflexivity]).
Qed.

Lemma join_pol_split_pol_witness :
  split_pol "XY" = Ok ("Jxx", "Jyy")%string
  /\ join_pol "Jxx" "Jyy" = Ok "xy"%string.
Proof.
  split; [reflexivity|].
  destruct (join_pol_split_pol "XY" "Jxx" "Jyy" eq_refl) as [H _].
  rewrite H. reflexivity.
Defined.

(** X2: joining the two antenna keys of [split_bl(bl)] gives
    [comply_bl(bl)], and that key splits into the same antenna keys. *)
Theorem join_bl_split_bl (b : bl) (ai aj : gkey) :
  split_bl b = Ok (ai, aj) ->
  join_bl ai aj = comply_bl b
  /\ exists b', comply_bl b = Ok b' /\ split_bl b' = Ok (ai, aj).
Proof.
  destruct b as [i j|i j pol]; [discriminate|]. cbn [split_bl]. intros H.
  destruct (split_pol pol) as [[p q]|] eqn:E; cbn [bind] in H;
    [|discriminate].
  inversion H; subst ai aj. clear H.
  destruct (split_pol_inv pol p q E) as [s [Hs Hin]].
  unfold join_bl, comply_bl. cbn [fst snd]. rewrite Hs. cbn [bind].
  each_entry Hin;
    (split; [reflexivity|eexists; split; [reflexivity|reflexivity]]).
Qed.

Lemma join_bl_split_bl_witness :
  split_bl (Bl3 3 7 "YX") = Ok ((3, "Jyy"), (7, "Jxx"))%string
  /\ join_bl (3, "Jyy"%string) (7, "Jxx"%string) = Ok (Bl3 3 7 "yx").
Proof.
  split; [reflexivity|].
  destruct (join_bl_split_bl (Bl3 3 7 "YX") (3, "Jyy"%string)
              (7, "Jxx"%string) eq_refl) as [H _].
  rewrite H. reflexivity.
Defined.

(** X3: reversing a baseline swaps its two antenna keys: when
    [split_bl(bl)] is [(ai, aj)], [reverse_bl(bl)] succeeds and splits into
    [(aj, ai)]. *)
Theorem split_bl_reverse_bl (b : bl) (ai aj : gkey) :
  split_bl b = Ok (ai, aj) ->
  exists r, Pyuvdata.reverse_bl b = Ok r /\ split_bl r = Ok (aj, ai).
Proof.
  destruct b as [i j|i j pol]; [discriminate|]. cbn [split_bl]. intros H.
  destruct (split_pol pol) as [[p q]|] eqn:E; cbn [bind] in H;
    [|discriminate].
  inversion H; subst ai aj. clear H.
  destruct (split_pol_inv pol p q E) as [s [Hs Hin]].
  unfold Pyuvdata.reverse_bl, reverse_bl. rewrite Hs. cbn [bind].
  each_entry Hin; (eexists; split; [reflexivity|reflexivity]).
Qed.

Lemma split_bl_reverse_bl_witness :
  exists r, Pyuvdata.reverse_bl (Bl3 0 1 "xy") = Ok r
            /\ split_bl r = Ok ((1, "Jyy"), (0, "Jxx"))%string.
Proof.
  exact (split_bl_reverse_bl (Bl3 0 1 "xy") (0, "Jxx"%string)
           (1, "Jyy"%string) eq_refl).
Defined.

Lemma comply_vispol_fixed (pol s : string) :
  _comply_vispol Pyuvdata.polstr2num Pyuvdata.polnum2str pol = Ok s ->
  _comply_vispol Pyuvdata.polstr2num Pyuvdata.polnum2str s = Ok s.
Proof.
  intros H. apply comply_vispol_values in H. each_entry H; reflexivity.
Qed.

(** X4: [comply_bl] and [make_bl] return keys that [comply_bl] leaves as
    they are. *)
Theorem comply_bl_idempotent (b b' : bl) :
  comply_bl b = Ok b' \/ (exists args, make_bl args = Ok b') ->
  comply_bl b' = Ok b'.
Proof.
  intros [H|[args H]].
  - destruct b as [i j|i j p]; cbn [comply_bl] in H.
    + inversion H. reflexivity.
    + destruct (_comply_vispol Pyuvdata.polstr2num Pyuvdata.polnum2str p)
        as [s|] eqn:E; cbn [bind] in H; [|discriminate].
      inversion H; subst b'. cbn [comply_bl].
      rewrite (comply_vispol_fixed p s E). reflexivity.
  - destruct args as [[i j] p|i j p]; cbn [make_bl] in H;
      (destruct (_comply_vispol Pyuvdata.polstr2num Pyuvdata.polnum2str p)
         as [s|] eqn:E; cbn [bind] in H; [|discriminate]);
      inversion H; subst b'; cbn [comply_bl];
      rewrite (comply_vispol_fixed p s E); reflexivity.
Qed.

Lemma comply_bl_idempotent_witness :
  comply_bl (Bl3 1 2 "XX") = Ok (Bl3 1 2 "xx")
  /\ comply_bl (Bl3 1 2 "xx") = Ok (Bl3 1 2 "xx").
Proof.
  split; [reflexivity|].
  apply (comply_bl_idempotent (Bl3 1 2 "XX")). left. reflexivity.
Defined.
End UtilsKeysFacts.

(** * Theorems about the rotations of [utils] *)

Module RephaseFacts.

(** The transpose of a 3x3 matrix. *)
Definition transpose3 {A : Type} (zero : A) (m : list (list A))
  : list (list A) :=
  map (fun l => map (fun r => nth l r zero) m) (seq 0 3).

Lemma xorb_negb_swap (a b : bool) : xorb (negb a) b = xorb (negb b) a.
Proof. destruct a, b; reflexivity. Qed.

(** On [float64], [-a * b] and [-b * a] are the same value: the sign of
    a product is the exclusive or of the signs, and the product of the
    magnitudes does not depend on their order. *)
Lemma float_opp_mul_swap (a b : float) : (- a * b = - b * a)%float.
Proof.
  apply Prim2SF_inj. rewrite !mul_spec, !opp_spec.
  destruct (Prim2SF a) as [sa|sa| |sa ma ea];
    destruct (Prim2SF b) as [sb|sb| |sb mb eb];
    cbn [SpecFloat.SFopp]; unfold SF64mul, SpecFloat.SFmul;
    try reflexivity; try (rewrite xorb_negb_swap; reflexivity).
  rewrite xorb_negb_swap, Pos.mul_comm, Z.add_comm. reflexivity.
Qed.

(** X5: for a scalar hour angle and declination, on [float64],
    [top2eq_m(ha, dec)] is the transpose of [eq2top_m(ha, dec)]: the two
    functions write the products of the off-diagonal entries in
    different orders ([-sin_d * cos_H] and [-cos_H * sin_d]), and these
    are the same [float64] value. *)
Theorem top2eq_m_transpose (ha dec : float) :
  RephaseFloat64.top2eq_m ha dec
  = transpose3 0%float (RephaseFloat64.eq2top_m ha dec).
Proof.
  unfold RephaseFloat64.top2eq_m, RephaseFloat64.eq2top_m, top2eq_m,
    eq2top_m, transpose3.
  cbn [seq map nth].
  rewrite (float_opp_mul_swap (Libm.cos ha) (Libm.sin dec)).
  reflexivity.
Qed.
End RephaseFacts.

(** * Time averaging *)

Section SliceFacts.
Context {A : Type}.

(** The entries of [l[a:b]] for [0 <= a] and [0 <= b]. *)
Lemma py_slice_nth (a b : Z) (l : list A) (k : nat) :
  0 <= a -> 0 <= b ->
  nth_error (py_slice a b l) k
  = if Z.of_nat k <? b - a then nth_error l (Z.to_nat a + k) else None.
Proof.
  intros Ha Hb. unfold py_slice.
  set (n := Z.of_nat (List.length l)).
  replace (if a <? 0 then Z.max 0 (a + n) else Z.min a n) with (Z.min a n)
    by (destruct (Z.ltb_spec a 0); [lia|reflexivity]).
  assert (Hn : 0 <= n) by (unfold n; lia).
  set (b' := if b <? 0 then Z.max 0 (b + n) else Z.min b n).
  assert (Eb : b' = Z.min b n)
    by (unfold b'; destruct (Z.ltb_spec b 0); [lia|reflexivity]).
  rewrite Eb. clear Eb b'.
  destruct (Z.ltb_spec (Z.of_nat k) (b - a)) as [Hk|Hk].
  -     destruct (Nat.lt_ge_cases k (Z.to_nat (Z.min b n - Z.min a n)))
      as [Hlt|Hge].
    + rewrite nth_error_firstn. 
      destruct (Nat.ltb_spec k (Z.to_nat (Z.min b n - Z.min a n)));
        [|lia].
      rewrite nth_error_skipn. f_equal. lia.
    + rewrite nth_error_firstn.
      destruct (Nat.ltb_spec k (Z.to_nat (Z.min b n - Z.min a n)));
        [lia|].
      symmetry. apply nth_error_None. subst n. lia.
  - rewrite nth_error_firstn.
    destruct (Nat.ltb_spec k (Z.to_nat (Z.min b n - Z.min a n)))
      as [Hlt|Hge]; [|reflexivity].
    exfalso. lia.
Qed.

Lemma In_py_slice (a b : Z) (l : list A) (r : A) :
  0 <= a -> 0 <= b ->
  In r (py_slice a b l) <->
  exists t, a <= Z.of_nat t < b /\ nth_error l t = Some r.
Proof.
  intros Ha Hb. split.
  - intros Hin. apply In_nth_error in Hin. destruct Hin as [k Hk].
    rewrite (py_slice_nth a b l k Ha Hb) in Hk.
    destruct (Z.ltb_spec (Z.of_nat k) (b - a)); [|discriminate].
    exists (Z.to_nat a + k)%nat. split; [lia|exact Hk].
  - intros [t [Ht Hr]].
    apply (nth_error_In _ (t - Z.to_nat a)).
    rewrite (py_slice_nth a b l _ Ha Hb).
    destruct (Z.ltb_spec (Z.of_nat (t - Z.to_nat a)) (b - a)); [|lia].
    replace (Z.to_nat a + (t - Z.to_nat a))%nat with t by lia. exact Hr.
Qed.
End SliceFacts.

Section ReduceFacts.
Context {A : Type} (op : A -> A -> A).

(** The column [j] of some rows. *)
Definition col (j : nat) (rs : list (list A)) : list A :=
  flat_map (fun r => match nth_error r j with
                     | Some v => [v]
                     | None => []
                     end) rs.

Lemma reduce_axis0_raise (e : exn) (rs : list (list A)) :
  fold_left (fun acc r' => a <- acc ;; zipw op a r') rs (Raise e) = Raise e.
Proof. induction rs as [|r rs IH]; [reflexivity|exact IH]. Qed.

(** A reduction along the time axis reduces each column, from its first
    entry on; the rows have one length. *)
Lemma reduce_axis0_spec (rs : list (list A)) :
  forall r s,
    reduce_axis0 op r rs = Ok s ->
    List.length s = List.length r
    /\ (forall r', In r' rs -> List.length r' = List.length r)
    /\ forall j x, nth_error r j = Some x ->
                   nth_error s j = Some (fold_left op (col j rs) x).
Proof.
  unfold reduce_axis0.
  induction rs as [|r1 rs IH]; intros r s H; cbn [fold_left] in H.
  - inversion H; subst s. repeat split; [intros r' []|].
    intros j x Hx. exact Hx.
  - cbn [bind] in H. destruct (zipw op r r1) as [r2|e] eqn:Ez.
    + destruct (zipw_ok op r r1 r2 Ez) as [Hlen Hnth].
      assert (Hlen2 : List.length r2 = List.length r).
      { apply Nat.le_antisymm.
        - apply Nat.nlt_ge. intros Hlt.
          assert (Hs : nth_error r2 (List.length r) <> None)
            by (apply nth_error_Some; exact Hlt).
          apply Hs. rewrite Hnth.
          replace (nth_error r (List.length r)) with (@None A); [reflexivity|].
          symmetry. apply nth_error_None. lia.
        - apply Nat.nlt_ge. intros Hlt.
          assert (Hs : nth_error r2 (List.length r2) = None)
            by (apply nth_error_None; lia).
          rewrite Hnth in Hs.
          destruct (nth_error r (List.length r2)) as [x|] eqn:Ex.
          + destruct (nth_error r1 (List.length r2)) as [y|] eqn:Ey;
              [discriminate|].
            apply nth_error_None in Ey. lia.
          + apply nth_error_None in Ex. lia. }
      destruct (IH r2 s H) as [Hs [Hrows Hcol]].
      split; [lia|]. split.
      * intros r' [<-|Hin]; [lia|]. rewrite (Hrows r' Hin). exact Hlen2.
      * intros j x Hx. cbn [col flat_map].
        assert (Hj : (j < List.length r1)%nat).
        { rewrite <- Hlen. apply nth_error_Some. congruence. }
        destruct (nth_error r1 j) as [y|] eqn:Ey;
          [|apply nth_error_None in Ey; lia].
        cbn [app fold_left]. apply Hcol. rewrite Hnth, Hx, Ey. reflexivity.
    + rewrite reduce_axis0_raise in H. discriminate.
Qed.
End ReduceFacts.

Lemma fold_left_andb_true (l : list bool) (x : bool) :
  fold_left andb l x = true <-> x = true /\ Forall (eq true) l.
Proof.
  revert x. induction l as [|y l IH]; intros x; cbn [fold_left].
  - split; [intros ->; auto|intros [H _]; exact H].
  - rewrite IH. split.
    + intros [H Hl]. apply andb_true_iff in H. destruct H as [-> ->].
      split; [reflexivity|constructor; [reflexivity|exact Hl]].
    + intros [-> Hl]. inversion Hl; subst. split; [reflexivity|assumption].
Qed.

Lemma In_col {A : Type} (j : nat) (rs : list (list A)) (v : A) :
  In v (col j rs) <-> exists r, In r rs /\ nth_error r j = Some v.
Proof.
  unfold col. rewrite in_flat_map. split.
  - intros [r [Hr Hv]]. exists r. split; [exact Hr|].
    destruct (nth_error r j) as [w|]; [|destruct Hv].
    destruct Hv as [->|[]]. reflexivity.
  - intros [r [Hr Hv]]. exists r. split; [exact Hr|].
    rewrite Hv. left. reflexivity.
Qed.

(** [np.min(f, axis=0)] is true in a channel when every row is. *)
Lemma min_axis0_spec (rows : list (list bool)) (s : list bool) :
  min_axis0 rows = Ok s ->
  rows <> []
  /\ forall j b, nth_error s j = Some b ->
       (b = true <-> forall r, In r rows -> nth_error r j = Some true).
Proof.
  destruct rows as [|r rs]; [discriminate|]. cbn [min_axis0]. intros H.
  destruct (reduce_axis0_spec andb rs r s H) as [Hlen [Hrows Hcol]].
  split; [discriminate|]. intros j b Hb.
  assert (Hj : (j < List.length r)%nat).
  { rewrite <- Hlen. apply nth_error_Some. congruence. }
  destruct (nth_error r j) as [x|] eqn:Ex;
    [|apply nth_error_None in Ex; lia].
  rewrite (Hcol j x Ex) in Hb. inversion Hb as [Eb]. clear Hb.
  rewrite fold_left_andb_true. split.
  - intros [-> Hall] r' [<-|Hin]; [exact Ex|].
    assert (Hj' : (j < List.length r')%nat) by (rewrite (Hrows r' Hin); lia).
    destruct (nth_error r' j) as [y|] eqn:Ey;
      [|apply nth_error_None in Ey; lia].
    rewrite Forall_forall in Hall.
    rewrite <- (Hall y); [reflexivity|]. apply In_col. exists r'. auto.
  - intros Hall. split.
    + specialize (Hall r (or_introl eq_refl)). congruence.
    + apply Forall_forall. intros y Hy. apply In_col in Hy.
      destruct Hy as [r' [Hin Hy]].
      specialize (Hall r' (or_intror Hin)). congruence.
Qed.

Ltac bind_inv H x E :=
  match type of H with
  | bind ?r _ = Ok _ =>
      destruct r as [x|] eqn:E; cbn [bind] in H; [|discriminate]
  end.

Lemma sequence_inv {A : Type} (l : list (result A)) :
  forall r, sequence l = Ok r -> l = map Ok r.
Proof.
  unfold sequence.
  induction l as [|x l IH]; intros r H; cbn [fold_right] in H.
  - inversion H. reflexivity.
  - destruct x as [a|e]; cbn [bind] in H; [|discriminate].
    destruct (fold_right _ _ l) as [t|e] eqn:E; cbn [bind] in H;
      [|discriminate].
    inversion H; subst r. cbn [map]. rewrite (IH t eq_refl). reflexivity.
Qed.

Lemma sequence_map_nth {A B : Type} (f : A -> result B) (l : list A)
      (r : list B) :
  sequence (map f l) = Ok r ->
  List.length r = List.length l
  /\ forall i a, nth_error l i = Some a ->
                 exists b, nth_error r i = Some b /\ f a = Ok b.
Proof.
  intros H. apply sequence_inv in H.
  split.
  - rewrite <- (length_map f l), H, length_map. reflexivity.
  - intros i a Ha.
    assert (Hi : nth_error (map f l) i = Some (f a))
      by (rewrite nth_error_map, Ha; reflexivity).
    rewrite H, nth_error_map in Hi.
    destruct (nth_error r i) as [b|]; [|discriminate].
    exists b. split; [reflexivity|]. inversion Hi. reflexivity.
Qed.

Section TimeAvgFacts.
Variable F : Type.
Variable Fzero Fone : F.
Variable Fadd Fsub Fmul Fdiv : F -> F -> F.
Variable Fopp : F -> F.
Variable F_of_Z : Z -> F.
Variable np_sin np_cos : F -> F.
Variable np_pi : F.
Variable cexp : cplx F -> cplx F.
Variable c_value : F.
Variable cdiv : cplx F -> cplx F -> cplx F.
Variable clip : F -> F.
Variable np_ceil : F -> Z.
Variable np_unwrap : list F -> list F.
Variable np_mean : list F -> F.
Variable mod_two_pi : F -> F.

Local Abbreviation timeavg_waterfallF :=
  (timeavg_waterfall F Fzero Fone Fadd Fsub Fmul Fdiv Fopp F_of_Z np_sin
                     np_cos np_pi cexp c_value cdiv clip np_ceil np_unwrap
                     np_mean mod_two_pi).
Local Abbreviation windowF :=
  (window F Fzero Fone Fadd Fsub Fmul Fdiv Fopp F_of_Z np_sin np_cos np_pi
          cexp c_value cdiv clip np_mean).
Local Abbreviation window_tF := (window_t F).
Local Abbreviation timeavg := (timeavg F).

(** The integrations of the window [i]. *)
Definition in_window (Navg : Z) (i t : nat) : Prop :=
  Z.of_nat i * Navg <= Z.of_nat t < (Z.of_nat i + 1) * Navg.

(** The arrays the loop works on once the defaults are filled in. *)
Definition flags_or_default (data : list (list (cplx F)))
           (flags : option (list (list bool))) : list (list bool) :=
  match flags with
  | Some f => f
  | None => map (map (fun _ => false)) data
  end.

Definition flag_weights (flags : list (list bool)) : list (list F) :=
  map (map (fun b : bool => if b then Fzero else Fone)) flags.

Definition nsamples_or_default (data : list (list (cplx F)))
           (nsamples : option (list (list F))) : list (list F) :=
  match nsamples with
  | Some n => n
  | None => map (map (fun _ => Fone)) data
  end.

(** A call that returns passed the assertion on [Navg], and each of its
    output rows is what the loop body computed for that window. *)
Lemma timeavg_waterfall_inv data Navg flags nsamples rephase lsts freqs
      bl_vec lat extra (out : timeavg) :
  timeavg_waterfallF data Navg flags nsamples rephase lsts freqs bl_vec lat
                    extra = Ok out ->
  0 < Navg <= Z.of_nat (List.length data)
  /\ exists ws : list window_tF,
      List.length ws
      = Z.to_nat (np_ceil (Fdiv (F_of_Z (Z.of_nat (List.length data)))
                                (F_of_Z Navg)))
      /\ avg_data F out = map (fun w => fst (fst (fst (fst w)))) ws
      /\ win_flags F out = map (fun w => snd (fst (fst (fst w)))) ws
      /\ avg_nsamples F out = map (fun w => snd (fst (fst w))) ws
      /\ forall i w, nth_error ws i = Some w ->
           windowF data Navg (flags_or_default data flags)
                  (flag_weights (flags_or_default data flags))
                  (nsamples_or_default data nsamples) rephase
                  (option_map np_unwrap lsts) freqs bl_vec lat extra i
           = Ok w.
Proof.
  unfold timeavg_waterfall. intros H.
  bind_inv H u Eu. clear Eu u.
  destruct ((Navg <=? Z.of_nat (List.length data)) && (0 <? Navg)) eqn:En;
    cbn [bind] in H; [|discriminate].
  apply andb_true_iff in En. destruct En as [En1 En2].
  apply Z.leb_le in En1. apply Z.ltb_lt in En2.
  split; [lia|].
  bind_inv H ws Ews. inversion H; subst out. clear H. cbn.
  exists ws. apply sequence_map_nth in Ews. destruct Ews as [Hlen Hws].
  rewrite length_seq in Hlen.
  split; [exact Hlen|]. repeat (split; [reflexivity|]).
  intros i w Hw.
  assert (Hi : (i < List.length ws)%nat)
    by (apply nth_error_Some; congruence).
  destruct (Hws i i) as [w' [Hw' Hwin]].
  { rewrite nth_error_seq. rewrite Hlen in Hi.
    destruct (Nat.ltb_spec i (Z.to_nat
      (np_ceil (Fdiv (F_of_Z (Z.of_nat (List.length data)))
                     (F_of_Z Navg))))); [reflexivity|lia]. }
  rewrite Hw in Hw'. inversion Hw'; subst w'. exact Hwin.
Qed.

(** X7: the flag of an averaged pixel is the AND of the flags of its
    window: it is set when every integration of the window is flagged in
    that channel, and only then. *)
Theorem timeavg_waterfall_window_flags data Navg flags nsamples rephase
        lsts freqs bl_vec lat extra (out : timeavg) :
  timeavg_waterfallF data Navg (Some flags) nsamples rephase lsts freqs
                    bl_vec lat extra = Ok out ->
  forall i j b,
    get2 (win_flags F out) i j = Some b ->
    (b = true <->
     forall t, in_window Navg i t -> (t < List.length flags)%nat ->
               get2 flags t j = Some true).
Proof.
  intros H i j b Hb.
  destruct (timeavg_waterfall_inv _ _ _ _ _ _ _ _ _ _ _ H)
    as [HN [ws [_ [_ [Hwf [_ Hws]]]]]].
  unfold get2 in Hb. rewrite Hwf, nth_error_map in Hb.
  unfold window_t in *.
  destruct (nth_error ws i) as [w|] eqn:Ew; cbn [option_map] in Hb;
    [|discriminate].
  specialize (Hws i w Ew).
  unfold window in Hws. cbn [flags_or_default] in Hws.
  bind_inv Hws d Ed. bind_inv Hws wt Ewt. bind_inv Hws s Es.
  bind_inv Hws dw Edw. bind_inv Hws sd Esd. bind_inv Hws ad Ead.
  bind_inv Hws wf Ef.
  inversion Hws; subst w. clear Hws. cbn [fst snd] in Hb.
  destruct (min_axis0_spec _ _ Ef) as [_ Hmin].
  rewrite (Hmin j b Hb).
  assert (H0 : 0 <= Z.of_nat i * Navg) by lia.
  assert (H1 : 0 <= (Z.of_nat i + 1) * Navg) by lia.
  split.
  - intros Hall t Ht Hlt. unfold get2.
    destruct (nth_error flags t) as [r|] eqn:Er;
      [|apply nth_error_None in Er; lia].
    apply Hall. apply (In_py_slice _ _ _ _ H0 H1). exists t. auto.
  - intros Hall r Hr. apply (In_py_slice _ _ _ _ H0 H1) in Hr.
    destruct Hr as [t [Ht Hr]].
    assert (Hlt : (t < List.length flags)%nat)
      by (apply nth_error_Some; congruence).
    specialize (Hall t Ht Hlt). unfold get2 in Hall. rewrite Hr in Hall.
    exact Hall.
Qed.
End TimeAvgFacts.

(** A reduction of a column whose entries all have a property that the
    operation keeps gives a value with that property. *)
Lemma sum_axis0_closed {A : Type} (op : A -> A -> A) (P : A -> Prop)
      (z : A) (nf : nat) (rows : list (list A)) (s : list A) (j : nat) :
  P z ->
  (forall a b, P a -> P b -> P (op a b)) ->
  (forall k v, get2 rows k j = Some v -> P v) ->
  sum_axis0 op z nf rows = Ok s ->
  forall v, nth_error s j = Some v -> P v.
Proof.
  intros Hz Hop Hcol Hs v Hv. destruct rows as [|r rs]; cbn [sum_axis0] in Hs.
  - inversion Hs; subst s. apply nth_error_In in Hv.
    apply repeat_spec in Hv. subst v. exact Hz.
  - destruct (reduce_axis0_spec op rs r s Hs) as [Hlen [_ Hc]].
    assert (Hj : (j < List.length r)%nat)
      by (rewrite <- Hlen; apply nth_error_Some; congruence).
    destruct (nth_error r j) as [x|] eqn:Ex;
      [|apply nth_error_None in Ex; lia].
    rewrite (Hc j x Ex) in Hv. inversion Hv; subst v. clear Hv.
    assert (Hx : P x) by (apply (Hcol 0%nat); exact Ex).
    assert (Hall : forall y, In y (col j rs) -> P y).
    { intros y Hy. apply In_col in Hy. destruct Hy as [r' [Hin Hy]].
      apply In_nth_error in Hin. destruct Hin as [k Hk].
      apply (Hcol (S k)). unfold get2. cbn [nth_error]. rewrite Hk.
      exact Hy. }
    clear Hc Hcol Ex. revert x Hx Hall.
    induction (col j rs) as [|y l IH]; intros x Hx Hall; [exact Hx|].
    cbn [fold_left]. apply IH.
    + apply Hop; [exact Hx|]. apply Hall. now left.
    + intros y' Hy'. apply Hall. right. exact Hy'.
Qed.

Lemma get2_py_slice {A : Type} (a b : Z) (x : list (list A)) (k j : nat)
      (v : A) :
  0 <= a -> 0 <= b ->
  get2 (py_slice a b x) k j = Some v ->
  a <= Z.of_nat (Z.to_nat a + k) < b
  /\ get2 x (Z.to_nat a + k) j = Some v.
Proof.
  intros Ha Hb. unfold get2. rewrite (py_slice_nth a b x k Ha Hb).
  destruct (Z.ltb_spec (Z.of_nat k) (b - a)) as [Hk|Hk]; [|discriminate].
  intros H. split; [lia|exact H].
Qed.

(** ** Zeros of [float64] *)
Section FloatZero.
Local Open Scope float_scope.

(** The two zeros, [0.0] and [-0.0]. *)
Definition zero64 (x : float) : Prop := PrimFloat.is_zero x = true.

Lemma zero64_cases (x : float) :
  zero64 x -> x = PrimFloat.zero \/ x = PrimFloat.neg_zero.
Proof.
  unfold zero64, PrimFloat.is_zero. rewrite eqb_spec. intros H.
  rewrite <- (SF2Prim_Prim2SF x).
  destruct (Prim2SF x) as [s|s| |s m e].
  - destruct s; [right|left]; reflexivity.
  - destruct s; vm_compute in H; discriminate.
  - vm_compute in H. discriminate.
  - destruct s; vm_compute in H; discriminate.
Qed.

Lemma zero64_add (a b : float) : zero64 a -> zero64 b -> zero64 (a + b).
Proof.
  intros Ha Hb.
  destruct (zero64_cases a Ha) as [-> | ->],
           (zero64_cases b Hb) as [-> | ->]; vm_compute; reflexivity.
Qed.

Lemma zero64_sub (a b : float) : zero64 a -> zero64 b -> zero64 (a - b).
Proof.
  intros Ha Hb.
  destruct (zero64_cases a Ha) as [-> | ->],
           (zero64_cases b Hb) as [-> | ->]; vm_compute; reflexivity.
Qed.

(** A finite number times a zero is a zero. *)
Lemma zero64_mul_finite (a z : float) :
  PrimFloat.is_finite a = true -> zero64 z ->
  zero64 (a * z) /\ zero64 (z * a).
Proof.
  intros Hf Hz.
  unfold PrimFloat.is_finite, PrimFloat.is_nan, PrimFloat.is_infinity in Hf.
  rewrite !eqb_spec, abs_spec in Hf.
  unfold zero64, PrimFloat.is_zero. rewrite !eqb_spec, !mul_spec.
  destruct (Prim2SF a) as [s|s| |s m e].
  - destruct (zero64_cases z Hz) as [-> | ->]; destruct s;
      vm_compute; split; reflexivity.
  - destruct s; vm_compute in Hf; discriminate.
  - vm_compute in Hf. discriminate.
  - destruct (zero64_cases z Hz) as [-> | ->]; destruct s;
      vm_compute; split; reflexivity.
Qed.

(** The average of a pixel without weight: a zero sum divided by the
    clipped zero sum of the weights. *)
Lemma zero64_cdiv_clip (a b s : float) :
  zero64 a -> zero64 b -> zero64 s ->
  zero64 (fst (Float64.cdiv (a, b) (FrfFloat64.clip s, 0)))
  /\ zero64 (snd (Float64.cdiv (a, b) (FrfFloat64.clip s, 0))).
Proof.
  intros Ha Hb Hs.
  destruct (zero64_cases a Ha) as [-> | ->],
           (zero64_cases b Hb) as [-> | ->],
           (zero64_cases s Hs) as [-> | ->]; vm_compute; split; reflexivity.
Qed.
End FloatZero.

Section FlaggedPixel.
Local Open Scope float_scope.
Variable np_unwrap : list float -> list float.
Variable np_mean : list float -> float.
Variable mod_two_pi : float -> float.

(** X8: on [float64], without rephasing, a pixel whose window is flagged
    in every integration carries no weight: when the data of the window
    and the squares of its nsamples are finite in that channel, both
    parts of its average and its number of samples are zeros. *)
Theorem timeavg_waterfall_flagged_pixel data Navg flags nsamples
        lsts freqs bl_vec lat extra (out : timeavg float) (i j : nat) :
  FrfFloat64.timeavg_waterfall np_unwrap np_mean mod_two_pi data Navg
    (Some flags) nsamples false lsts freqs bl_vec lat extra = Ok out ->
  (forall t, in_window Navg i t -> (t < List.length flags)%nat ->
             get2 flags t j = Some true) ->
  (forall t z, in_window Navg i t -> get2 data t j = Some z ->
               PrimFloat.is_finite (fst z) = true
               /\ PrimFloat.is_finite (snd z) = true) ->
  (forall t n, in_window Navg i t ->
               get2 (nsamples_or_default float 1 data nsamples) t j = Some n ->
               PrimFloat.is_finite (n * n) = true) ->
  (forall z, get2 (avg_data float out) i j = Some z ->
             zero64 (fst z) /\ zero64 (snd z))
  /\ (forall v, get2 (avg_nsamples float out) i j = Some v -> zero64 v).
Proof.
  intros H Hflag Hdata Hns. unfold FrfFloat64.timeavg_waterfall in H.
  destruct (timeavg_waterfall_inv _ _ _ _ _ _ _ _ _ _ _ _ _ _ _ _ _ _ _ _
              _ _ _ _ _ _ _ _ _ _ _ H)
    as [HN [ws [_ [Had [_ [Han Hws]]]]]].
  unfold get2 at 1 2. rewrite Had, Han, !nth_error_map.
  unfold window_t in *.
  destruct (nth_error ws i) as [w|] eqn:Ew; cbn [option_map];
    [|split; intros ? ?; discriminate].
  specialize (Hws i w Ew). unfold window in Hws. cbn [flags_or_default] in Hws.
  bind_inv Hws d Ed. bind_inv Hws wt Ewt. bind_inv Hws s Es.
  bind_inv Hws dw Edw. bind_inv Hws sd Esd. bind_inv Hws ad Ead.
  bind_inv Hws wf Ef.
  inversion Hws; subst w. clear Hws. cbn [fst snd].
  inversion Ed; subst d. clear Ed.
  assert (H0 : (0 <= Z.of_nat i * Navg)%Z) by lia.
  assert (H1 : (0 <= (Z.of_nat i + 1) * Navg)%Z) by lia.
  assert (Hz0 : zero64 0) by reflexivity.
  (* the weights of the column are zeros *)
  assert (Hw : forall k v, get2 wt k j = Some v -> zero64 v).
  { intros k v Hv. rewrite (zip2d_ok _ _ _ _ Ewt) in Hv.
    destruct (get2 (py_slice _ _ (flag_weights float 0 1 flags)) k j)
      as [a|] eqn:Ea; [|discriminate].
    destruct (get2 (map _ _) k j) as [b|] eqn:Eb; [|discriminate].
    inversion Hv; subst v. clear Hv.
    apply (get2_py_slice _ _ _ _ _ _ H0 H1) in Ea. destruct Ea as [Ht Ea].
    unfold flag_weights in Ea. rewrite get2_map in Ea.
    destruct (get2 flags (Z.to_nat (Z.of_nat i * Navg) + k) j) as [fl|] eqn:Efl;
      [|discriminate].
    assert (Hlt : (Z.to_nat (Z.of_nat i * Navg) + k < List.length flags)%nat).
    { unfold get2 in Efl.
      destruct (nth_error flags _) eqn:En; [|discriminate].
      apply nth_error_Some. congruence. }
    rewrite (Hflag _ Ht Hlt) in Efl. inversion Efl; subst fl.
    cbn [option_map] in Ea. inversion Ea; subst a.
    rewrite get2_map in Eb.
    destruct (get2 (py_slice _ _ _) k j) as [n|] eqn:En; [|discriminate].
    cbn [option_map] in Eb. inversion Eb; subst b.
    apply (get2_py_slice _ _ _ _ _ _ H0 H1) in En. destruct En as [_ En].
    exact (proj2 (zero64_mul_finite (n * n) 0 (Hns _ n Ht En) Hz0)). }
  split.
  2:{ apply (sum_axis0_closed PrimFloat.add zero64 0 (shape1 data) wt s j);
        [exact Hz0|exact zero64_add|exact Hw|exact Es]. }
  intros z Hz.
  assert (Hdw : forall k v, get2 dw k j = Some v ->
                            zero64 (fst v) /\ zero64 (snd v)).
  { intros k v Hv. rewrite (zip2d_ok _ _ _ _ Edw) in Hv.
    destruct (get2 (py_slice _ _ data) k j) as [a|] eqn:Ea; [|discriminate].
    destruct (get2 wt k j) as [x|] eqn:Ex; [|discriminate].
    inversion Hv; subst v. clear Hv.
    apply (get2_py_slice _ _ _ _ _ _ H0 H1) in Ea. destruct Ea as [Ht Ea].
    destruct (Hdata _ a Ht Ea) as [Hre Him].
    pose proof (Hw k x Ex) as Hx.
    unfold cmul, of_real. cbn [fst snd]. split.
    - apply zero64_sub.
      + exact (proj1 (zero64_mul_finite _ _ Hre Hx)).
      + exact (proj1 (zero64_mul_finite _ _ Him Hz0)).
    - apply zero64_add.
      + exact (proj1 (zero64_mul_finite _ _ Hre Hz0)).
      + exact (proj1 (zero64_mul_finite _ _ Him Hx)). }
  assert (Hs : forall v, nth_error s j = Some v -> zero64 v).
  { apply (sum_axis0_closed PrimFloat.add zero64 0 (shape1 data) wt s j);
      [exact Hz0|exact zero64_add|exact Hw|exact Es]. }
  assert (Hsd : forall v, nth_error sd j = Some v ->
                          zero64 (fst v) /\ zero64 (snd v)).
  { apply (sum_axis0_closed (cadd float PrimFloat.add)
             (fun v => zero64 (fst v) /\ zero64 (snd v)) (0, 0)
             (shape1 data) dw sd j); [split; exact Hz0| |exact Hdw|exact Esd].
    intros a b [Ha1 Ha2] [Hb1 Hb2]. unfold cadd. cbn [fst snd].
    split; apply zero64_add; assumption. }
  destruct (zipw_ok _ _ _ _ Ead) as [_ Hnth]. rewrite Hnth in Hz.
  destruct (nth_error sd j) as [a|] eqn:Ea; [|discriminate].
  rewrite nth_error_map in Hz.
  destruct (nth_error s j) as [x|] eqn:Ex; [|discriminate].
  cbn [option_map] in Hz. inversion Hz; subst z.
  destruct (Hsd a eq_refl) as [Ha1 Ha2]. destruct a as [a1 a2].
  exact (zero64_cdiv_clip a1 a2 x Ha1 Ha2 (Hs x eq_refl)).
Qed.
End FlaggedPixel.

(** Three integrations of one channel averaged in pairs: the first window
    is flagged twice, the second holds the third integration alone. *)
Definition data_three : list (list (cplx float)) :=
  [[(1, 0)]; [(2, 0)]; [(3, 0)]]%float.

Definition flags_three : list (list bool) := [[true]; [true]; [false]].

Lemma timeavg_waterfall_window_flags_witness :
  exists out,
    FrfFloat64.timeavg_waterfall (fun l => l) (fun _ => 0%float)
      (fun x => x) data_three 2 (Some flags_three) None false None None
      None 0%float []
    = Ok out
    /\ get2 (win_flags float out) 0 0 = Some true
    /\ (true = true <->
        forall t, in_window 2 0 t -> (t < List.length flags_three)%nat ->
                  get2 flags_three t 0 = Some true).
Proof.
  destruct (FrfFloat64.timeavg_waterfall (fun l => l) (fun _ => 0%float)
              (fun x => x) data_three 2 (Some flags_three) None false None
              None None 0%float []) as [out|e] eqn:E;
    [|vm_compute in E; discriminate].
  exists out.
  assert (Hb : get2 (win_flags float out) 0 0 = Some true).
  { pose proof E as E'. vm_compute in E'. inversion E'. reflexivity. }
  split; [reflexivity|]. split; [exact Hb|].
  unfold FrfFloat64.timeavg_waterfall in E.
  eapply timeavg_waterfall_window_flags; [exact E|exact Hb].
Defined.

Section FlaggedPixelInstance.
Local Open Scope float_scope.

(** Two flagged integrations of one channel, averaged together. *)
Definition data_flagged : list (list (cplx float)) := [[(5, 7)]; [(1, 1)]].
Definition flags_flagged : list (list bool) := [[true]; [true]].

Lemma timeavg_waterfall_flagged_pixel_witness :
  exists out,
    FrfFloat64.timeavg_waterfall (fun l => l) (fun _ => 0) (fun x => x)
      data_flagged 2 (Some flags_flagged) None false None None None 0 []
    = Ok out
    /\ (forall z, get2 (avg_data float out) 0 0 = Some z ->
                  zero64 (fst z) /\ zero64 (snd z))
    /\ (forall v, get2 (avg_nsamples float out) 0 0 = Some v -> zero64 v).
Proof.
  eassert (E : FrfFloat64.timeavg_waterfall (fun l => l) (fun _ => 0)
                 (fun x => x) data_flagged 2 (Some flags_flagged) None false
                 None None None 0 [] = Ok _)
    by (vm_compute; reflexivity).
  eexists. split; [exact E|].
  eapply timeavg_waterfall_flagged_pixel; [exact E| | |].
  - intros [|[|t]] Ht Hlt; [reflexivity|reflexivity|].
    cbn in Hlt. lia.
  - intros [|[|t]] z Ht Hz; [| |unfold in_window in Ht; lia];
      cbn in Hz; inversion Hz; subst; split; reflexivity.
  - intros [|[|t]] n Ht Hn; [| |unfold in_window in Ht; lia];
      cbn in Hn; inversion Hn; subst; reflexivity.
Defined.
End FlaggedPixelInstance.

(** * Matching data times to model times *)

Module TimeMapFacts.
Import TimeMap.

Lemma fold_left_raise {A B : Type} (f : result A -> B -> result A)
      (Hf : forall e b, f (Raise e) b = Raise e) (l : list B) (e : exn) :
  fold_left f l (Raise e) = Raise e.
Proof.
  induction l as [|b l IH]; [reflexivity|]. cbn [fold_left].
  rewrite Hf. exact IH.
Qed.

Lemma keys_setitem {K V : Type} (eqb : K -> K -> bool)
      (eqb_eq : forall a b, eqb a b = true <-> a = b)
      (k : K) (v : V) (d : odict K V) :
  keys (setitem eqb k v d) = keys d
  \/ (~ In k (keys d) /\ keys (setitem eqb k v d) = keys d ++ [k]).
Proof.
  induction d as [|[k0 v0] d IH]; cbn [setitem keys map fst].
  - right. split; [intros []|reflexivity].
  - destruct (eqb k k0) eqn:E; cbn [map fst]; [left; reflexivity|].
    destruct IH as [IH|[Hout IH]]; unfold keys in *.
    + left. rewrite IH. reflexivity.
    + right. split.
      * intros [->|Hin]; [|exact (Hout Hin)].
        rewrite (eqb_refl_true eqb eqb_eq) in E. discriminate.
      * rewrite IH. reflexivity.
Qed.

Lemma NoDup_keys_setitem {K V : Type} (eqb : K -> K -> bool)
      (eqb_eq : forall a b, eqb a b = true <-> a = b)
      (k : K) (v : V) (d : odict K V) :
  NoDup (keys d) -> NoDup (keys (setitem eqb k v d)).
Proof.
  intros Hd. destruct (keys_setitem eqb eqb_eq k v d) as [->|[Hout ->]];
    [exact Hd|].
  apply NoDup_app; [exact Hd|constructor; [intros []|constructor]|].
  intros a Ha [<-|[]]. exact (Hout Ha).
Qed.

Lemma In_seq_combine {A : Type} (l : list A) :
  forall (s i : nat) (x : A),
    In (i, x) (combine (seq s (List.length l)) l) ->
    (s <= i)%nat /\ nth_error l (i - s) = Some x.
Proof.
  induction l as [|a l IH]; intros s i x Hin; cbn in Hin; [destruct Hin|].
  destruct Hin as [Hin|Hin].
  - inversion Hin; subst i x. rewrite Nat.sub_diag. split; [lia|reflexivity].
  - destruct (IH (S s) i x Hin) as [Hle Hn]. split; [lia|].
    replace (i - s)%nat with (S (i - S s)) by lia. exact Hn.
Qed.

(** What the first loop keeps: every entry [(mind, dind)] pairs an
    integration of the data with the model integration nearest to it, and
    no model integration occurs twice. *)
Definition m2d_ok (data_lsts model_lsts : list float) (m : odict nat nat)
  : Prop :=
  NoDup (keys m)
  /\ forall mind dind,
       In (mind, dind) m ->
       exists dlst, nth_error data_lsts dind = Some dlst
                    /\ nearest model_lsts dlst = Ok mind.

Lemma m2d_loop_ok (data_lsts model_lsts : list float) :
  forall (l : list (nat * float)) (acc m : odict nat nat),
    (forall i x, In (i, x) l -> nth_error data_lsts i = Some x) ->
    m2d_ok data_lsts model_lsts acc ->
    fold_left (m2d_step data_lsts model_lsts) l (Ok acc) = Ok m ->
    m2d_ok data_lsts model_lsts m.
Proof.
  induction l as [|[i x] l IH]; intros acc m Hl Hacc H; cbn [fold_left] in H.
  - inversion H; subst m. exact Hacc.
  - assert (Hset : m2d_ok data_lsts model_lsts
                          (setitem Nat.eqb
                             (match nearest model_lsts x with
                              | Ok n => n
                              | Raise _ => 0%nat
                              end) i acc)
                   \/ nearest model_lsts x = Raise ValueError).
    { destruct (nearest model_lsts x) as [n|e] eqn:En.
      - left. destruct Hacc as [Hnd Hin]. split.
        + apply NoDup_keys_setitem; [exact Nat.eqb_eq|exact Hnd].
        + intros mind dind Hmd.
          apply (In_setitem Nat.eqb Nat.eqb_eq) in Hmd.
          destruct Hmd as [Hmd|Hmd]; [|exact (Hin mind dind Hmd)].
          inversion Hmd; subst mind dind. exists x. split; [|exact En].
          apply Hl. left. reflexivity.
      - right. unfold nearest, argmin in En.
        destruct (map _ model_lsts); [inversion En|discriminate].
        reflexivity. }
    unfold m2d_step at 2 in H. cbn [bind fst snd] in H.
    destruct (nearest model_lsts x) as [n|e] eqn:En; cbn [bind] in H.
    2: { rewrite fold_left_raise in H; [discriminate|reflexivity]. }
    destruct Hset as [Hset|Hset]; [|discriminate].
    assert (Hl' : forall i' x', In (i', x') l ->
                                nth_error data_lsts i' = Some x')
      by (intros i' x' Hin; apply Hl; right; exact Hin).
    destruct (lookup Nat.eqb n acc) as [prev|].
    + destruct (getitem_list model_lsts n) as [ml|e]; cbn [bind] in H.
      2: { rewrite fold_left_raise in H; [discriminate|reflexivity]. }
      destruct (getitem_list data_lsts prev) as [dl|e]; cbn [bind] in H.
      2: { rewrite fold_left_raise in H; [discriminate|reflexivity]. }
      destruct (PrimFloat.ltb ml dl).
      * exact (IH _ m Hl' Hset H).
      * exact (IH _ m Hl' Hacc H).
    + exact (IH _ m Hl' Hset H).
Qed.

Section TimesFacts.
Context {T : Type} (T_eqb : T -> T -> bool).
Hypothesis T_eqb_eq : forall a b, T_eqb a b = true <-> a = b.

(** What the second loop writes: every value that is not [None] is the
    model time of an entry of [m2d_ind_map], stored under the data time of
    that entry. *)
Lemma d2m_loop_spec (data_times model_times : list T) :
  forall (l : list (nat * nat)) (acc d : odict T (option T)),
    fold_left (d2m_step T T_eqb data_times model_times) l (Ok acc) = Ok d ->
    (forall t, lookup T_eqb t d <> None <->
               lookup T_eqb t acc <> None
               \/ exists mind dind, In (mind, dind) l
                                     /\ nth_error data_times dind = Some t)
    /\ forall t v,
         lookup T_eqb t d = Some v ->
         lookup T_eqb t acc = Some v
         \/ exists mind dind m,
              In (mind, dind) l
              /\ nth_error data_times dind = Some t
              /\ nth_error model_times mind = Some m
              /\ v = Some m.
Proof.
  induction l as [|[mind dind] l IH]; intros acc d H; cbn [fold_left] in H.
  - inversion H; subst d. split.
    + intros t. split; [auto|]. intros [Ht|[? [? [[] _]]]]. exact Ht.
    + intros t v Hv. left. exact Hv.
  - unfold d2m_step at 2 in H. cbn [bind fst snd] in H.
    unfold getitem_list in H.
    destruct (nth_error model_times mind) as [m|] eqn:Em; cbn [bind] in H.
    2: { rewrite fold_left_raise in H; [discriminate|reflexivity]. }
    destruct (nth_error data_times dind) as [t0|] eqn:Et; cbn [bind] in H.
    2: { rewrite fold_left_raise in H; [discriminate|reflexivity]. }
    destruct (IH _ d H) as [IHk IHv]. split.
    + intros t. rewrite IHk, (lookup_setitem T_eqb T_eqb_eq). split.
      * intros [Ht|[mi [di [Hin Hd]]]].
        -- destruct (T_eqb t t0) eqn:E; [|left; exact Ht].
           apply T_eqb_eq in E. subst t0. right. exists mind, dind.
           split; [left; reflexivity|exact Et].
        -- right. exists mi, di. split; [right; exact Hin|exact Hd].
      * intros [Ht|[mi [di [[Hin|Hin] Hd]]]].
        -- left. destruct (T_eqb t t0); [discriminate|exact Ht].
        -- inversion Hin; subst mi di. left.
           assert (E : t0 = t) by congruence. subst t0.
           rewrite (eqb_refl_true T_eqb T_eqb_eq). discriminate.
        -- right. exists mi, di. auto.
    + intros t v Hv. destruct (IHv t v Hv) as [Hs|[mi [di [m' Hr]]]].
      * rewrite (lookup_setitem T_eqb T_eqb_eq) in Hs.
        destruct (T_eqb t t0) eqn:E; [|left; exact Hs].
        apply T_eqb_eq in E. subst t0. inversion Hs; subst v.
        right. exists mind, dind, m.
        repeat split; [left; reflexivity|exact Et|exact Em].
      * right. exists mi, di, m'. destruct Hr as [Hin Hr].
        split; [right; exact Hin|exact Hr].
Qed.

(** X9: the dictionary [get_d2m_time_map] returns has the data times as its
    keys; a value that is not [None] is the time of the model integration
    nearest in LST to a data integration of that time; and when the model
    times are distinct, no model time is the value of two data times. *)
Theorem get_d2m_time_map_injective
        (data_times model_times : list T) (data_lsts model_lsts : list float)
        (unwrap : bool) (dl ml : list float) (d : odict T (option T)) :
  get_d2m_time_map T T_eqb data_times data_lsts model_times model_lsts unwrap
  = ((dl, ml), Ok d) ->
  (forall t, In t data_times <-> lookup T_eqb t d <> None)
  /\ (forall t m,
        lookup T_eqb t d = Some (Some m) ->
        exists dind mind dlst,
          nth_error data_times dind = Some t
          /\ nth_error model_times mind = Some m
          /\ nth_error dl dind = Some dlst
          /\ nearest ml dlst = Ok mind)
  /\ (NoDup model_times ->
      forall t1 t2 m,
        lookup T_eqb t1 d = Some (Some m) ->
        lookup T_eqb t2 d = Some (Some m) -> t1 = t2).
Proof.
  unfold get_d2m_time_map. intros H.
  destruct (if unwrap then unwrap_lsts data_lsts else Ok data_lsts)
    as [dl'|e]; [|discriminate].
  destruct (if unwrap then unwrap_lsts model_lsts else Ok model_lsts)
    as [ml'|e]; [|discriminate].
  inversion H as [[Edl Eml Hd]]. subst dl' ml'. clear H.
  destruct (fold_left (m2d_step dl ml) _ (Ok [])) as [m2d|e] eqn:Em;
    cbn [bind] in Hd; [|discriminate].
  assert (Hm : m2d_ok dl ml m2d).
  { apply (m2d_loop_ok dl ml (combine (seq 0 (List.length dl)) dl) []
             m2d); [| |exact Em].
    - intros i x Hin. apply (In_seq_combine dl 0 i x) in Hin.
      rewrite Nat.sub_0_r in Hin. exact (proj2 Hin).
    - split; [constructor|intros ? ? []]. }
  destruct (d2m_loop_spec data_times model_times m2d _ d Hd) as [Hk Hv].
  destruct Hm as [Hnd Hpairs].
  assert (Hinit : forall t v,
             lookup T_eqb t (odict_of_list T_eqb
                               (map (fun t => (t, @None T)) data_times))
             = Some v -> v = None).
  { intros t v Hl. apply (lookup_In T_eqb T_eqb_eq) in Hl.
    apply (In_odict_of_list T_eqb T_eqb_eq) in Hl.
    apply in_map_iff in Hl. destruct Hl as [t' [Ht' _]].
    inversion Ht'. reflexivity. }
  assert (Hval : forall t m,
             lookup T_eqb t d = Some (Some m) ->
             exists mind dind,
               In (mind, dind) m2d
               /\ nth_error data_times dind = Some t
               /\ nth_error model_times mind = Some m).
  { intros t m Hl. destruct (Hv t _ Hl) as [Hi|[mi [di [m' [Hin [Ht [Hm' E]]]]]]].
    - apply Hinit in Hi. discriminate.
    - inversion E; subst m'. exists mi, di. auto. }
  split; [|split].
  - intros t. rewrite Hk. unfold odict_of_list.
    rewrite (lookup_odict_of_list T_eqb T_eqb_eq). rewrite map_map.
    cbn [fst]. rewrite map_id. split.
    + intros Hin. left. left. exact Hin.
    + intros [[Hin|Hn]|[mi [di [_ Ht]]]].
      * exact Hin.
      * exfalso. apply Hn. reflexivity.
      * apply nth_error_In in Ht. exact Ht.
  - intros t m Hl. destruct (Hval t m Hl) as [mi [di [Hin [Ht Hm']]]].
    destruct (Hpairs mi di Hin) as [dlst [Hd' Hn]].
    exists di, mi, dlst. auto.
  - intros Hndm t1 t2 m H1 H2.
    destruct (Hval t1 m H1) as [m1 [d1 [Hin1 [Ht1 Hm1]]]].
    destruct (Hval t2 m H2) as [m2 [d2 [Hin2 [Ht2 Hm2]]]].
    assert (E : m1 = m2).
    { apply (proj1 (NoDup_nth_error model_times) Hndm).
      - apply nth_error_Some. congruence.
      - congruence. }
    subst m2.
    assert (E : d1 = d2).
    { pose proof (lookup_NoDup Nat.eqb Nat.eqb_eq m2d m1 d1 Hnd Hin1) as L1.
      pose proof (lookup_NoDup Nat.eqb Nat.eqb_eq m2d m1 d2 Hnd Hin2) as L2.
      congruence. }
    subst d2. congruence.
Qed.
End TimesFacts.

(** Two data integrations and three model integrations, times as Julian
    day numbers. *)
Lemma get_d2m_time_map_injective_witness :
  exists dl ml d,
    get_d2m_time_map Z Z.eqb [10; 11] [0.5; 0.75]%float [20; 21; 22]
                     [0.5; 0.625; 1]%float true
    = ((dl, ml), Ok d)
    /\ lookup Z.eqb 10 d = Some (Some 20)
    /\ forall t1 t2 m,
         lookup Z.eqb t1 d = Some (Some m) ->
         lookup Z.eqb t2 d = Some (Some m) -> t1 = t2.
Proof.
  destruct (get_d2m_time_map Z Z.eqb [10; 11] [0.5; 0.75]%float [20; 21; 22]
              [0.5; 0.625; 1]%float true) as [[dl ml] [d|e]] eqn:E;
    [|vm_compute in E; discriminate].
  exists dl, ml, d. split; [reflexivity|]. split.
  - vm_compute in E. inversion E. reflexivity.
  - apply (proj2 (proj2 (get_d2m_time_map_injective Z.eqb Z.eqb_eq _ _ _ _ _
                           _ _ _ E))).
    repeat constructor; cbn; intuition discriminate.
Defined.
End TimeMapFacts.

(** * [merge_gains] on all keys *)

Section MergeGainsAllKeys.
Variable C : Type.
Variable Cmul Cadd : C -> C -> C.
Variable C_of_bool : bool -> C.
Variable C_one : C.

Local Abbreviation gdictC := (gdict C).
Local Abbreviation merge_gainsC :=
  (merge_gains C Cmul Cadd C_of_bool C_one).
Local Abbreviation operator_addC := (operator_add C Cadd C_of_bool).
Local Abbreviation merged_valueC :=
  (merged_value C Cmul Cadd C_of_bool C_one).

(** [reduce(operator.add, [list(g.keys()) for g in gains])] chains the
    lists of keys. *)
Lemma all_keys_spec (g0 : gdictC) (gs : list gdictC) :
  exists l, all_keys C (g0 :: gs) = Ok l
            /\ forall k, In k l <->
                         Exists (fun g : gdictC => In k (keys g)) (g0 :: gs).
Proof.
  unfold all_keys, reduce. cbn [map].
  assert (G : forall (gs : list gdictC) (acc : list gkey),
             exists l,
               fold_left (fun a y => a0 <- a ;; Ok (a0 ++ y))
                         (map (fun g : gdictC => keys g) gs) (Ok acc) = Ok l
               /\ forall k, In k l <->
                            In k acc
                            \/ Exists (fun g : gdictC => In k (keys g)) gs).
  { induction gs0 as [|g gs0 IH]; intros acc; cbn [map fold_left bind].
    - exists acc. split; [reflexivity|]. intros k. split; [auto|].
      intros [H|H]; [exact H|inversion H].
    - destruct (IH (acc ++ keys g)) as [l [Hl Hk]]. exists l.
      split; [exact Hl|]. intros k. rewrite Hk, in_app_iff. split.
      + intros [[H|H]|H]; auto.
      + intros [H|H]; [auto|]. inversion H; subst; auto. }
  destruct (G gs (keys g0)) as [l [Hl Hk]]. exists l. split; [exact Hl|].
  intros k. rewrite Hk. split.
  - intros [H|H]; [left; exact H|right; exact H].
  - intros H. inversion H; subst; auto.
Qed.

(** What the reduction of one key holds after some dictionaries. *)
Inductive flag_acc (n : nat) : operand C -> Prop :=
| acc_flags (r : list bool) :
    List.length r = n -> flag_acc n (Arr (BoolArr r))
| acc_counts (r : list C) :
    List.length r = n -> flag_acc n (Arr (NumArr r))
| acc_bool (b : bool) : flag_acc n (PyBool b)
| acc_num (c : C) : flag_acc n (PyNum c).

Lemma zipw_total {X Y Z : Type} (f : X -> Y -> Z) (a : list X) (b : list Y) :
  List.length a = List.length b ->
  exists r, zipw f a b = Ok r /\ List.length r = List.length a.
Proof.
  intros H. destruct (zipw_spec f a b H) as [r [Hr [Hl _]]]. eauto.
Qed.

Lemma dict_get_flag_acc (n : nat) (g : gdictC) (k : gkey) :
  holds_flags C n g -> flag_acc n (dict_get C g k (PyBool true)).
Proof.
  intros Hg. unfold dict_get.
  destruct (lookup gkey_eqb k g) as [a|] eqn:E; [|constructor].
  destruct (Hg k a E) as [c [-> Hc]]. constructor. exact Hc.
Qed.

Lemma operator_add_flag_acc (n : nat) (x y : operand C) :
  flag_acc n x -> flag_acc n y ->
  exists v, operator_addC x y = Ok v /\ flag_acc n v.
Proof.
  intros Hx Hy. unfold operator_add, operand_op.
  destruct Hx as [a Ha|a Ha|b|c]; destruct Hy as [a' Ha'|a' Ha'|b'|c'];
    cbn [scalar_of arr_op arr_scalar_op];
    try (eexists; split; [reflexivity|];
         constructor; rewrite ?length_map; assumption);
    try (eexists; split; [reflexivity|]; constructor).
  - destruct (zipw_total orb a a') as [r [-> Hr]]; [congruence|].
    cbn [bind]. eexists; split; [reflexivity|]. constructor. congruence.
  - destruct (zipw_total (fun u v => Cadd (C_of_bool u) v) a a')
      as [r [-> Hr]]; [congruence|].
    cbn [bind]. eexists; split; [reflexivity|]. constructor. congruence.
  - destruct (zipw_total (fun u v => Cadd u (C_of_bool v)) a a')
      as [r [-> Hr]]; [congruence|].
    cbn [bind]. eexists; split; [reflexivity|]. constructor. congruence.
  - destruct (zipw_total Cadd a a') as [r [-> Hr]]; [congruence|].
    cbn [bind]. eexists; split; [reflexivity|]. constructor. congruence.
Qed.

(** The merged flags of any key are computed without an exception. *)
Lemma merged_value_flags_total (n : nat) (k : gkey) (g0 : gdictC)
      (gs : list gdictC) :
  Forall (holds_flags C n) (g0 :: gs) ->
  exists v, merged_valueC (g0 :: gs) true k = Ok v.
Proof.
  intros Hh. pose proof (Forall_inv Hh) as H0.
  pose proof (Forall_inv_tail Hh) as Hs.
  unfold merged_value, reduce. cbn [map].
  assert (G : forall (gs : list gdictC) (x : operand C),
             Forall (holds_flags C n) gs -> flag_acc n x ->
             exists v,
               fold_left (fun acc y => a <- acc ;; operator_addC a y)
                         (map (fun g => dict_get C g k (PyBool true)) gs)
                         (Ok x) = Ok v).
  { induction gs0 as [|g gs0 IH]; intros x Hgs Hx; cbn [map fold_left].
    - eauto.
    - cbn [bind].
      destruct (operator_add_flag_acc n x _ Hx
                  (dict_get_flag_acc n g k (Forall_inv Hgs)))
        as [v [-> Hv]].
      apply IH; [exact (Forall_inv_tail Hgs)|exact Hv]. }
  apply G; [exact Hs|]. apply dict_get_flag_acc. exact H0.
Qed.

Lemma zipw_orb_true (c : list bool) :
  zipw orb (repeat true (List.length c)) c
  = Ok (repeat true (List.length c)).
Proof.
  induction c as [|y c IH]; [reflexivity|].
  cbn [List.length repeat zipw]. rewrite IH. reflexivity.
Qed.

Lemma map_orb_true (r : list bool) :
  map (fun u => orb u true) r = repeat true (List.length r).
Proof.
  induction r as [|u r IH]; [reflexivity|].
  cbn [map List.length repeat]. rewrite IH, orb_true_r. reflexivity.
Qed.

(** Once a key has been missing from a dictionary, its merged flags are
    all set; they are flags as long as the reduction started from an
    array. *)
Lemma reduce_add_missing (n : nat) (k : gkey) (gs : list gdictC) :
  Forall (holds_flags C n) gs ->
  forall r : list bool,
    List.length r = n ->
    exists r',
      fold_left (fun acc y => a <- acc ;; operator_addC a y)
                (map (fun g => dict_get C g k (PyBool true)) gs)
                (Ok (Arr (BoolArr r)))
      = Ok (Arr (BoolArr r'))
      /\ List.length r' = n
      /\ (r = repeat true n
          \/ Exists (fun g : gdictC => ~ In k (keys g)) gs ->
          r' = repeat true n).
Proof.
  induction gs as [|g gs IH]; intros Hgs r Hr; cbn [map fold_left].
  - exists r. split; [reflexivity|]. split; [exact Hr|].
    intros [H|H]; [exact H|inversion H].
  - pose proof (Forall_inv Hgs) as Hg.
    pose proof (Forall_inv_tail Hgs) as Hgs'. cbn [bind].
    unfold dict_get at 2.
    destruct (lookup gkey_eqb k g) as [a|] eqn:E.
    + destruct (Hg k a E) as [c [Ea Hc]]. rewrite Ea.
      unfold operator_add at 2. unfold operand_op. cbn [arr_op].
      destruct (zipw_total orb r c) as [r1 [Hz Hl1]]; [congruence|].
      rewrite Hz. cbn [bind].
      destruct (IH Hgs' r1 ltac:(congruence)) as [r' [Hf [Hl' Hall]]].
      exists r'. split; [exact Hf|]. split; [exact Hl'|].
      intros [H|H].
      * apply Hall. left. rewrite H, <- Hc, zipw_orb_true in Hz.
        inversion Hz. rewrite Hc. reflexivity.
      * apply Exists_cons in H. destruct H as [Hk|Hk].
        -- exfalso. apply Hk.
           apply (lookup_In_keys gkey_eqb gkey_eqb_eq). congruence.
        -- apply Hall. right. exact Hk.
    + unfold operator_add at 2. unfold operand_op.
      cbn [scalar_of arr_scalar_op]. cbn [bind].
      destruct (IH Hgs' (map (fun u => orb u true) r)
                   ltac:(rewrite length_map; exact Hr))
        as [r' [Hf [Hl' Hall]]].
      exists r'. split; [exact Hf|]. split; [exact Hl'|].
      intros _. apply Hall. left. rewrite map_orb_true, Hr. reflexivity.
Qed.

Local Abbreviation merge_loopC := (merge_loop C Cmul Cadd C_of_bool C_one).

(** X10: [merge_gains] with [merge_shared=False] on dictionaries of flag
    waterfalls, the first of which has at least one key: the result has
    the keys of all the inputs, and a key of the first dictionary that is
    missing from another one comes out flagged in every sample, since the
    missing entry counts as [True]. *)
Theorem merge_gains_all_keys_flags (n : nat) (g0 : gdictC)
        (gs : list gdictC) :
  keys g0 <> [] ->
  Forall (holds_flags C n) (g0 :: gs) ->
  exists m,
    merge_gainsC (g0 :: gs) false = Ok m
    /\ (forall k, In k (keys m) <->
                  Exists (fun g : gdictC => In k (keys g)) (g0 :: gs))
    /\ (forall k, In k (keys g0) ->
                  Exists (fun g : gdictC => ~ In k (keys g)) gs ->
                  lookup gkey_eqb k m
                  = Some (Arr (BoolArr (repeat true n)))).
Proof.
  intros Hne Hh.
  assert (Hfed : first_is_flags C (g0 :: gs) = Ok true).
  { destruct g0 as [|[k0 a0] g0']; [contradiction|]. cbn.
    rewrite (eqb_refl_true gkey_eqb gkey_eqb_eq). cbn.
    destruct (Forall_inv Hh k0 a0) as [c [-> _]]; [|reflexivity].
    cbn. now rewrite (eqb_refl_true gkey_eqb gkey_eqb_eq). }
  destruct (all_keys_spec g0 gs) as [l [Hl Hk]].
  unfold merge_gains. rewrite Hl. cbn [bind]. rewrite Hfed. cbn [bind].
  set (ks := sorted gkey_leb (py_set gkey_eqb l)).
  assert (Hks : forall k, In k ks <->
                          Exists (fun g : gdictC => In k (keys g)) (g0 :: gs)).
  { intros k. unfold ks.
    now rewrite (In_sorted gkey_leb), (In_py_set gkey_eqb gkey_eqb_eq). }
  destruct (merge_loop_spec C Cmul Cadd C_of_bool C_one (g0 :: gs) true ks [])
    as [m [Hm Hlk]].
  { intros k _. apply (merged_value_flags_total n). exact Hh. }
  exists m. split; [exact Hm|].
  assert (Hkeys : forall k, In k (keys m) <-> In k ks).
  { intros k. rewrite (lookup_In_keys gkey_eqb gkey_eqb_eq).
    destruct (Hlk k) as [Hin Hout]. split.
    - intros Hn. destruct (mem gkey_eqb k ks) eqn:E.
      + now apply (mem_In gkey_eqb gkey_eqb_eq) in E.
      + exfalso. apply Hn. rewrite Hout; [reflexivity|].
        intros H. apply (mem_In gkey_eqb gkey_eqb_eq) in H. congruence.
    - intros H. destruct (Hin H) as [v [_ Hv]]. congruence. }
  split.
  - intros k. now rewrite Hkeys.
  - intros k Hk0 Hmiss.
    assert (Hin : In k ks) by (apply Hks; left; exact Hk0).
    destruct (proj1 (Hlk k) Hin) as [v [Hv Hlook]]. rewrite Hlook.
    f_equal. unfold merged_value, reduce in Hv. cbn [map] in Hv.
    apply (lookup_In_keys gkey_eqb gkey_eqb_eq) in Hk0.
    unfold dict_get at 2 in Hv.
    destruct (lookup gkey_eqb k g0) as [a|] eqn:E; [|contradiction].
    destruct (Forall_inv Hh k a E) as [c [-> Hc]].
    destruct (reduce_add_missing n k gs (Forall_inv_tail Hh) c Hc)
      as [r' [Hf [_ Hall]]].
    rewrite Hf in Hv. inversion Hv. rewrite Hall; [reflexivity|].
    right. exact Hmiss.
Qed.
End MergeGainsAllKeys.

(** Two flag dictionaries of two samples; the second lacks the antenna 1. *)
Definition flags_first : gdict (cplx float) :=
  [((0, "Jxx"%string), BoolArr [false; false]);
   ((1, "Jxx"%string), BoolArr [false; false])].

Definition flags_second : gdict (cplx float) :=
  [((0, "Jxx"%string), BoolArr [false; true])].

Lemma merge_gains_all_keys_flags_witness :
  exists m,
    merge_gains (cplx float) Float64.cmul Float64.cadd
      (fun b : bool => if b then (1, 0)%float else (0, 0)%float)
      (1, 0)%float [flags_first; flags_second] false = Ok m
    /\ lookup gkey_eqb (1, "Jxx"%string) m
       = Some (Arr (BoolArr [true; true])).
Proof.
  destruct (merge_gains_all_keys_flags (cplx float) Float64.cmul
              Float64.cadd
              (fun b : bool => if b then (1, 0)%float else (0, 0)%float)
              (1, 0)%float 2 flags_first [flags_second])
    as [m [Hm [_ Hall]]].
  - discriminate.
  - repeat constructor; intros k a Hl;
      cbn in Hl;
      repeat match type of Hl with
             | (if ?c then _ else _) = _ => destruct c
             end;
      inversion Hl; eexists; split; reflexivity.
  - exists m. split; [exact Hm|].
    apply (Hall (1, "Jxx"%string)).
    + right. left. reflexivity.
    + left. cbn. intros [H|[]]. discriminate.
Defined.

(** X11: [merge_gains] with [merge_shared=True], the first dictionary
    having at least one key: the result has exactly the keys shared by all
    the inputs; on complex gains it holds, sample by sample, their product
    from left to right, on flags their logical OR. *)
Theorem merge_gains_shared_keys (C : Type) (Cmul Cadd : C -> C -> C)
        (C_of_bool : bool -> C) (C_one : C) (n : nat) (g0 : gdict C)
        (gs : list (gdict C)) :
  keys g0 <> [] ->
  Forall (holds_gains C n) (g0 :: gs)
  \/ Forall (holds_flags C n) (g0 :: gs) ->
  exists m,
    merge_gains C Cmul Cadd C_of_bool C_one (g0 :: gs) true = Ok m
    /\ (forall k, In k (keys m) <->
                  Forall (fun g : gdict C => In k (keys g)) (g0 :: gs))
    /\ (Forall (holds_gains C n) (g0 :: gs) ->
        forall k i, In k (keys m) -> (i < n)%nat ->
          exists r c0 cs,
            lookup gkey_eqb k m = Some (Arr (NumArr r))
            /\ gain_sample C g0 k i = Some c0
            /\ Forall2 (fun g c => gain_sample C g k i = Some c) gs cs
            /\ nth_error r i = Some (fold_left Cmul cs c0))
    /\ (Forall (holds_flags C n) (g0 :: gs) ->
        forall k i, In k (keys m) -> (i < n)%nat ->
          exists r c0 cs,
            lookup gkey_eqb k m = Some (Arr (BoolArr r))
            /\ flag_sample C g0 k i = Some c0
            /\ Forall2 (fun g c => flag_sample C g k i = Some c) gs cs
            /\ nth_error r i = Some (fold_left orb cs c0)).
Proof.
  intros Hne [Hg|Hf].
  - destruct (merge_gains_shared_product C Cmul Cadd C_of_bool C_one n g0 gs
                Hne Hg) as [m [Hm [Hk Hv]]].
    exists m. split; [exact Hm|]. split; [exact Hk|]. split.
    + intros _ k i Hin Hi. destruct (Hv k Hin) as [r [Hr [_ Hs]]].
      destruct (Hs i Hi) as [c0 [cs Hc]]. exists r, c0, cs. tauto.
    + intros Hf k i Hin Hi. exfalso.
      apply Hk in Hin. pose proof (Forall_inv Hin) as Hk0.
      apply (lookup_In_keys gkey_eqb gkey_eqb_eq) in Hk0.
      destruct (lookup gkey_eqb k g0) as [a|] eqn:E; [|contradiction].
      destruct (Forall_inv Hg k a E) as [c [-> _]].
      destruct (Forall_inv Hf k _ E) as [c' [Hc' _]]. discriminate.
  - destruct (merge_gains_shared_or C Cmul Cadd C_of_bool C_one n g0 gs
                Hne Hf) as [m [Hm [Hk Hv]]].
    exists m. split; [exact Hm|]. split; [exact Hk|]. split.
    + intros Hg k i Hin Hi. exfalso.
      apply Hk in Hin. pose proof (Forall_inv Hin) as Hk0.
      apply (lookup_In_keys gkey_eqb gkey_eqb_eq) in Hk0.
      destruct (lookup gkey_eqb k g0) as [a|] eqn:E; [|contradiction].
      destruct (Forall_inv Hg k a E) as [c [-> _]].
      destruct (Forall_inv Hf k _ E) as [c' [Hc' _]]. discriminate.
    + intros _ k i Hin Hi. destruct (Hv k Hin) as [r [Hr [_ Hs]]].
      destruct (Hs i Hi) as [c0 [cs Hc]]. exists r, c0, cs. tauto.
Qed.

Lemma merge_gains_shared_keys_witness :
  exists m,
    merge_gains (cplx float) Float64.cmul Float64.cadd
      (fun b : bool => if b then (1, 0)%float else (0, 0)%float)
      (1, 0)%float [flags_first; flags_second] true = Ok m
    /\ keys m = [(0, "Jxx"%string)]
    /\ lookup gkey_eqb (0, "Jxx"%string) m
       = Some (Arr (BoolArr [false; true])).
Proof.
  destruct (merge_gains_shared_keys (cplx float) Float64.cmul Float64.cadd
              (fun b : bool => if b then (1, 0)%float else (0, 0)%float)
              (1, 0)%float 2 flags_first [flags_second])
    as [m [Hm _]].
  - discriminate.
  - right. repeat constructor; intros k a Hl;
      cbn in Hl;
      repeat match type of Hl with
             | (if ?c then _ else _) = _ => destruct c
             end;
      inversion Hl; eexists; split; reflexivity.
  - exists m. split; [exact Hm|].
    vm_compute in Hm. inversion Hm. split; reflexivity.
Defined.

(** * What [cut_bls] keeps *)

Section CutBlsKept.
Context {V : Type}.

(** The baseline [k] is cut: its length is above the maximum or below the
    minimum. A length that is [nan] is neither. *)
Definition is_cut (bls : odict bl vec) (lo hi : float) (k : bl) : bool :=
  match lookup bl_eqb k bls with
  | Some v => (hi <? norm v)%float || (norm v <? lo)%float
  | None => false
  end.

Lemma delete_filter (k : bl) (d : odict bl V) :
  delete bl_eqb k d = filter (fun kv => negb (bl_eqb k (fst kv))) d.
Proof.
  induction d as [|[k' v] d IH]; [reflexivity|]. cbn [delete filter fst].
  destruct (bl_eqb k k'); cbn [negb]; rewrite IH; reflexivity.
Qed.

Lemma filter_filter {A : Type} (f g : A -> bool) (l : list A) :
  filter f (filter g l) = filter (fun x => g x && f x) l.
Proof.
  induction l as [|x l IH]; [reflexivity|]. cbn [filter].
  destruct (g x); cbn [filter andb]; [destruct (f x)|]; rewrite IH;
    reflexivity.
Qed.

(** The loop deletes the entries of the keys that are cut, and only
    those; it ends without an exception when [bls] knows every key. *)
Lemma cut_loop_filter (bls : odict bl vec) (lo hi : float) :
  forall (ks : list bl) (d d' : odict bl V) (sk sk' : list bl),
    cut_loop bls lo hi ks d sk = (d', Ok sk') ->
    d' = filter (fun kv =>
                   negb (existsb (fun k => bl_eqb k (fst kv)
                                           && is_cut bls lo hi k) ks)) d
    /\ forall k, In k ks -> lookup bl_eqb k bls <> None.
Proof.
  induction ks as [|k ks IH]; intros d d' sk sk' H; cbn [cut_loop] in H.
  - inversion H; subst. split; [|intros k []].
    cbn [existsb negb]. symmetry. apply forallb_filter_id.
    apply forallb_forall. reflexivity.
  - destruct (lookup bl_eqb k bls) as [v|] eqn:E; cbn [getitem] in H;
      [|discriminate (f_equal snd H)].
    unfold contains in H. rewrite E in H. cbn [negb] in H.
    destruct ((hi <? norm v)%float || (norm v <? lo)%float) eqn:Ec.
    + destruct (IH _ _ _ _ H) as [-> Hall]. split.
      * rewrite delete_filter, filter_filter. apply filter_ext.
        intros [k' v']. cbn [existsb fst]. unfold is_cut at 2.
        rewrite E, Ec, andb_true_r, negb_orb. reflexivity.
      * intros k' [<-|Hin]; [congruence|exact (Hall k' Hin)].
    + destruct (IH _ _ _ _ H) as [-> Hall]. split.
      * apply filter_ext. intros [k' v']. cbn [existsb fst].
        unfold is_cut at 2. rewrite E, Ec, andb_false_r. reflexivity.
      * intros k' [<-|Hin]; [congruence|exact (Hall k' Hin)].
Qed.

(** X12: what [cut_bls] returns holds the entries of the container whose
    baseline is not cut, in their order, and at least one; a length that
    is [nan] is kept. The caller's container is the returned one with
    [inplace] and is untouched without. When every baseline is cut the
    call raises [AssertionError], and with [inplace] the caller's container
    is left empty. *)
Theorem cut_bls_kept (dc caller : DataContainer V) (bls : odict bl vec)
        (min_bl_cut max_bl_cut : option float) (inplace : bool)
        (r : result (DataContainer V)) :
  cut_bls dc (Some bls) min_bl_cut max_bl_cut inplace = (caller, r) ->
  let lo := default_cut min_bl_cut 0%float in
  let hi := default_cut max_bl_cut 1e10%float in
  let kept := filter (fun kv => negb (is_cut bls lo hi (fst kv)))
                     (dc_data dc) in
  (forall k, In k (keys (dc_data dc)) -> lookup bl_eqb k bls <> None) ->
  caller = (if inplace then mkDC kept (dc_antpos dc) else dc)
  /\ r = (if match kept with [] => true | _ => false end
          then Raise AssertionError
          else Ok (mkDC kept (dc_antpos dc))).
Proof.
  intros H lo hi kept Hbls. unfold cut_bls in H. cbn [effective_bls] in H.
  fold lo hi in H.
  destruct (cut_loop bls lo hi (keys (dc_data dc)) (dc_data dc) [])
    as [d [sk|e]] eqn:Ecut.
  - destruct (cut_loop_filter bls lo hi _ _ _ _ _ Ecut) as [Hd _].
    assert (Ek : d = kept).
    { rewrite Hd. unfold kept. apply filter_ext_in. intros [k v] Hin.
      cbn [fst]. f_equal.
      destruct (is_cut bls lo hi k) eqn:Ec.
      - apply existsb_exists. exists k. split.
        + apply (in_map fst) in Hin. exact Hin.
        + rewrite Ec, andb_true_r. apply bl_eqb_eq. reflexivity.
      - apply Bool.not_true_is_false. intros Hex.
        apply existsb_exists in Hex. destruct Hex as [k' [_ Hk']].
        apply andb_true_iff in Hk'. destruct Hk' as [Hk' Hc].
        apply bl_eqb_eq in Hk'. subst k'. congruence. }
    clear Hd. subst d. clearbody kept. destruct kept as [|kv kept'].
    + cbn in H. inversion H. split; reflexivity.
    + cbn [List.length] in H.
      replace (0 <? Z.of_nat (S (List.length kept'))) with true in H
        by (symmetry; apply Z.ltb_lt; lia).
      inversion H. split; reflexivity.
  - exfalso.
    assert (G : forall ks (d0 : odict bl V) sk0,
               (forall k, In k ks -> lookup bl_eqb k bls <> None) ->
               exists d1 sk1, cut_loop bls lo hi ks d0 sk0 = (d1, Ok sk1)).
    { induction ks as [|k ks IH]; intros d0 sk0 Hall; cbn [cut_loop].
      - eauto.
      - destruct (lookup bl_eqb k bls) as [v|] eqn:E;
          [|exfalso; apply (Hall k); [left; reflexivity|exact E]].
        cbn [getitem]. unfold contains. rewrite E. cbn [negb].
        destruct ((hi <? norm v)%float || (norm v <? lo)%float);
          apply IH; intros k' Hin; apply Hall; right; exact Hin. }
    destruct (G (keys (dc_data dc)) (dc_data dc) [] Hbls) as [d1 [sk1 E1]].
    rewrite E1 in Ecut. discriminate.
Qed.
End CutBlsKept.

(** Two baselines of 14.5 m and of 29 m, cut at 20 m. *)
Definition dc_short_long : DataContainer nat :=
  mkDC [(Bl3 0 1 "xx", 10%nat); (Bl3 0 2 "xx", 20%nat)] None.

Definition bls_short_long : odict bl vec :=
  [(Bl3 0 1 "xx", [14.5; 0; 0]%float); (Bl3 0 2 "xx", [29; 0; 0]%float)].

Lemma cut_bls_kept_witness :
  cut_bls dc_short_long (Some bls_short_long) None (Some 20%float) false
  = (dc_short_long, Ok (mkDC [(Bl3 0 1 "xx", 10%nat)] None)).
Proof.
  destruct (cut_bls dc_short_long (Some bls_short_long) None
              (Some 20%float) false) as [caller r] eqn:E.
  destruct (cut_bls_kept dc_short_long caller bls_short_long None
              (Some 20%float) false r E) as [-> ->].
  - intros k [<-|[<-|[]]]; discriminate.
  - reflexivity.
Defined.

(** * The pixels of [dft_phase_slope_solver] *)

Section DftPixels.
Variable F : Type.
Variable Fzero Fone : F.
Variable isnan : F -> bool.
Variable Fadd Fsub Fmul Fdiv : F -> F -> F.
Variable Fsqrt : F -> F.
Variable np_min np_max : list F -> F.
Variable brute :
  F * F * F -> list F -> list F -> list (cplx F) -> result (F * F).

Local Abbreviation dft_loopF := (dft_loop F isnan brute).
Local Abbreviation dft_pixelF := (dft_pixel F brute).
Local Abbreviation all_nan := (column_all_nan F isnan).

Lemma set_nth_same {A : Type} (i : nat) (v : A) (l : list A) :
  (i < List.length l)%nat -> nth_error (set_nth i v l) i = Some v.
Proof.
  revert i. induction l as [|x l IH]; intros [|i] H; cbn in *; try lia.
  - reflexivity.
  - apply IH. lia.
Qed.

(** What a pixel holds at the end of the loop: zeros were it was skipped,
    the peak that [brute] found otherwise. *)
Definition pixel_solved (search : F * F * F) (xs ys : list F)
           (dflat : list (list (cplx F))) (fflat : list (list bool))
           (sx sy : list F) (i : nat) : Prop :=
  if all_nan dflat i
  then nth_error sx i = Some Fzero /\ nth_error sy i = Some Fzero
  else exists pk, dft_pixelF search xs ys dflat fflat i = Ok pk
                  /\ nth_error sx i = Some (fst pk)
                  /\ nth_error sy i = Some (snd pk).

Lemma dft_loop_pixels (search : F * F * F) (xs ys : list F)
      (dflat : list (list (cplx F))) (fflat : list (list bool)) (n : nat) :
  forall pixels sx sy sx' sy',
    NoDup pixels ->
    (forall i, In i pixels -> (i < n)%nat) ->
    List.length sx = n -> List.length sy = n ->
    dft_loopF search xs ys dflat fflat pixels sx sy = Ok (sx', sy') ->
    List.length sx' = n /\ List.length sy' = n
    /\ (forall i, ~ In i pixels ->
                  nth_error sx' i = nth_error sx i
                  /\ nth_error sy' i = nth_error sy i)
    /\ (forall i, In i pixels ->
          if all_nan dflat i
          then nth_error sx' i = nth_error sx i
               /\ nth_error sy' i = nth_error sy i
          else exists pk, dft_pixelF search xs ys dflat fflat i = Ok pk
                          /\ nth_error sx' i = Some (fst pk)
                          /\ nth_error sy' i = Some (snd pk)).
Proof.
  induction pixels as [|p pixels IH]; intros sx sy sx' sy' Hnd Hlt Hx Hy H;
    cbn [dft_loop] in H.
  - inversion H; subst. repeat split; auto. intros i [].
  - apply NoDup_cons_iff in Hnd. destruct Hnd as [Hp Hnd'].
    assert (Hlt' : forall i, In i pixels -> (i < n)%nat)
      by (intros i Hi; apply Hlt; right; exact Hi).
    assert (Hpn : (p < n)%nat) by (apply Hlt; left; reflexivity).
    assert (Hother : forall i, ~ In i (p :: pixels) ->
                               i <> p /\ ~ In i pixels).
    { intros i Hi. split; [intros ->; apply Hi; left; reflexivity|].
      intros Hin. apply Hi. right. exact Hin. }
    destruct (all_nan dflat p) eqn:Ep; cbn [negb] in H.
    + destruct (IH sx sy sx' sy' Hnd' Hlt' Hx Hy H)
        as [Hx' [Hy' [Hout Hin]]].
      split; [exact Hx'|]. split; [exact Hy'|]. split.
      * intros i Hi. apply Hout. exact (proj2 (Hother i Hi)).
      * intros i [<-|Hi]; [|exact (Hin i Hi)].
        rewrite Ep. apply Hout. exact Hp.
    + destruct (dft_pixelF search xs ys dflat fflat p) as [pk|e] eqn:Epk;
        cbn [bind] in H; [|discriminate].
      assert (Hx1 : List.length (set_nth p (fst pk) sx) = n)
        by (rewrite set_nth_length; exact Hx).
      assert (Hy1 : List.length (set_nth p (snd pk) sy) = n)
        by (rewrite set_nth_length; exact Hy).
      destruct (IH _ _ sx' sy' Hnd' Hlt' Hx1 Hy1 H)
        as [Hx' [Hy' [Hout Hin]]].
      split; [exact Hx'|]. split; [exact Hy'|]. split.
      * intros i Hi. destruct (Hother i Hi) as [Hne Hni].
        destruct (Hout i Hni) as [E1 E2]. rewrite E1, E2.
        split; apply set_nth_other; congruence.
      * intros i [<-|Hi].
        -- rewrite Ep. exists pk. split; [exact Epk|].
           destruct (Hout p Hp) as [E1 E2]. rewrite E1, E2.
           split; apply set_nth_same; lia.
        -- specialize (Hin i Hi).
           destruct (all_nan dflat i); [|exact Hin].
           destruct Hin as [E1 E2]. rewrite E1, E2.
           split; apply set_nth_other; intros ->; exact (Hp Hi).
Qed.

(** X13: when [dft_phase_slope_solver] returns, the two slopes have one
    entry per pixel; a pixel whose data are all [nan] holds 0 in both, and
    every other pixel holds the peak that [brute] found, over the search
    range [search_slice] of the positions, on the positions and samples
    that [flags | np.isnan(data)] leaves unflagged; flags alone do not
    skip a pixel.  Fewer than two positions are a [ValueError]. *)
Theorem dft_phase_slope_solver_pixels (xs ys : list F)
        (data : list (list (cplx F))) (flags : option (list (list bool))) :
  (deltas_of F Fadd Fsub Fmul Fsqrt xs ys = [] ->
   dft_phase_slope_solver F Fzero Fone isnan Fadd Fsub Fmul Fdiv Fsqrt
     np_min np_max brute xs ys data flags = Raise ValueError)
  /\ forall sx sy,
      dft_phase_slope_solver F Fzero Fone isnan Fadd Fsub Fmul Fdiv Fsqrt
        np_min np_max brute xs ys data flags = Ok (sx, sy) ->
      List.length sx = shape1 data /\ List.length sy = shape1 data
      /\ exists fflat,
          flags_or_nan F isnan data flags = Ok fflat
          /\ forall i,
              (i < shape1 data)%nat ->
              pixel_solved
                (search_slice F Fzero Fone Fsub Fdiv np_min np_max
                   (deltas_of F Fadd Fsub Fmul Fsqrt xs ys))
                xs ys data fflat sx sy i.
Proof.
  unfold dft_phase_slope_solver. split.
  - intros ->. reflexivity.
  - intros sx sy H.
    destruct (deltas_of F Fadd Fsub Fmul Fsqrt xs ys) as [|d ds];
      [discriminate|].
    destruct (flags_or_nan F isnan data flags) as [fflat|e] eqn:Ef;
      cbn [bind] in H; [|discriminate].
    destruct (negb (List.length data =? List.length xs)%nat);
      [discriminate|].
    destruct (dft_loop_pixels _ xs ys data fflat (shape1 data)
                (seq 0 (shape1 data)) _ _ sx sy (seq_NoDup _ _)
                ltac:(intros i Hi; apply in_seq in Hi; lia)
                (repeat_length _ _) (repeat_length _ _) H)
      as [Hx [Hy [_ Hin]]].
    split; [exact Hx|]. split; [exact Hy|].
    exists fflat. split; [reflexivity|].
    intros i Hi. unfold pixel_solved.
    specialize (Hin i ltac:(apply in_seq; lia)).
    destruct (all_nan data i); [|exact Hin].
    rewrite !nth_error_repeat_lt in Hin by exact Hi. exact Hin.
Qed.
End DftPixels.

(** Three positions and two pixels; the second pixel has no data, and the
    first is flagged at the last position. *)
Definition data_two_pixels : list (list (cplx float)) :=
  [[(1, 0); (nan, 0)]; [(0, 1); (nan, 0)]; [(1, 1); (nan, 0)]]%float.

Definition flags_two_pixels : list (list bool) :=
  [[false; false]; [false; false]; [true; false]].

Lemma dft_phase_slope_solver_pixels_witness :
  exists sx sy,
    PhaseSlope64.dft_phase_slope_solver [0; 1; 2]%float [0; 0; 1]%float
      data_two_pixels (Some flags_two_pixels)
    = Ok (sx, sy)
    /\ List.length sx = 2%nat /\ List.length sy = 2%nat
    /\ nth_error sx 1 = Some 0%float
    /\ exists pk,
        PhaseSlope64.brute
          (search_slice float 0%float 1%float PrimFloat.sub PrimFloat.div
             PhaseSlope64.np_min PhaseSlope64.np_max
             (deltas_of float PrimFloat.add PrimFloat.sub PrimFloat.mul
                        PrimFloat.sqrt [0; 1; 2]%float [0; 0; 1]%float))
          [0; 1]%float [0; 0]%float [(1, 0); (0, 1)]%float = Ok pk
        /\ nth_error sx 0 = Some (fst pk)
        /\ nth_error sy 0 = Some (snd pk).
Proof.
  destruct (PhaseSlope64.dft_phase_slope_solver [0; 1; 2]%float
              [0; 0; 1]%float data_two_pixels (Some flags_two_pixels))
    as [[sx sy]|e] eqn:E; [|vm_compute in E; discriminate].
  exists sx, sy. split; [reflexivity|].
  destruct (proj2 (dft_phase_slope_solver_pixels float 0%float 1%float
                     PrimFloat.is_nan PrimFloat.add PrimFloat.sub
                     PrimFloat.mul PrimFloat.div PrimFloat.sqrt
                     PhaseSlope64.np_min PhaseSlope64.np_max
                     PhaseSlope64.brute
                     [0; 1; 2]%float [0; 0; 1]%float data_two_pixels
                     (Some flags_two_pixels))
              sx sy E) as [Hx [Hy [fflat [Hf Hpix]]]].
  split; [exact Hx|]. split; [exact Hy|].
  assert (Ef : fflat = [[false; true]; [false; true]; [true; true]])
    by (vm_compute in Hf; inversion Hf; reflexivity).
  subst fflat.
  pose proof (Hpix 1%nat ltac:(cbn; lia)) as H1.
  pose proof (Hpix 0%nat ltac:(cbn; lia)) as H0.
  unfold pixel_solved in H0, H1.
  replace (column_all_nan float PrimFloat.is_nan data_two_pixels 1)
    with true in H1 by (vm_compute; reflexivity).
  replace (column_all_nan float PrimFloat.is_nan data_two_pixels 0)
    with false in H0 by (vm_compute; reflexivity).
  split; [exact (proj1 H1)|].
  destruct H0 as [pk [Hpk Hs]]. exists pk. split; [|exact Hs].
  rewrite <- Hpk. reflexivity.
Defined.

(** ** Chi-square: every comparison is counted for both of its antennas *)

Section SummedFacts.
Context {K X : Type} (eqb : K -> K -> bool).
Variable add : X -> X -> X.
Variable zero : X.
Hypothesis add_comm : forall x y, add x y = add y x.
Hypothesis add_assoc : forall x y z, add x (add y z) = add (add x y) z.
Hypothesis add_zero : forall x, add zero x = x.

Lemma sample_zip2d (a b r : list (list X)) (t f : nat) :
  zip2d add a b = Ok r ->
  sample zero r t f = add (sample zero a t f) (sample zero b t f).
Proof.
  intros H. unfold sample. rewrite (zip2d_ok _ _ _ _ H).
  destruct (zip2d_shape _ _ _ _ H t f) as [Hs _].
  destruct (get2 a t f) as [x|], (get2 b t f) as [y|]; try reflexivity.
  - destruct Hs as [_ Hs]. discriminate (Hs eq_refl).
  - destruct Hs as [Hs _]. discriminate (Hs eq_refl).
  - symmetry. apply add_zero.
Qed.

Lemma summed_setitem_new (k : K) (v : list (list X))
      (d : odict K (list (list X))) (t f : nat) :
  lookup eqb k d = None ->
  summed add zero (setitem eqb k v d) t f
  = add (sample zero v t f) (summed add zero d t f).
Proof.
  induction d as [|[k0 v0] d IH]; cbn [lookup setitem]; intros H.
  - reflexivity.
  - destruct (eqb k k0); [discriminate|].
    cbn [summed fold_right snd]. unfold summed in IH. rewrite (IH H).
    rewrite !add_assoc. f_equal. apply add_comm.
Qed.

Lemma summed_setitem_old (k : K) (v o : list (list X)) (x : X)
      (d : odict K (list (list X))) (t f : nat) :
  lookup eqb k d = Some o ->
  sample zero v t f = add (sample zero o t f) x ->
  summed add zero (setitem eqb k v d) t f = add x (summed add zero d t f).
Proof.
  intros H Hv. induction d as [|[k0 v0] d IH]; cbn [lookup setitem] in *.
  - discriminate.
  - destruct (eqb k k0).
    + inversion H; subst v0. cbn [summed fold_right snd]. rewrite Hv.
      rewrite !add_assoc. f_equal. apply add_comm.
    + cbn [summed fold_right snd]. unfold summed in IH. rewrite (IH H).
      rewrite !add_assoc. f_equal. apply add_comm.
Qed.
End SummedFacts.

Section ChisqFacts.
Variable F : Type.
Variable Fzero Fone : F.
Variable Fadd Fmul : F -> F -> F.
Variable cabs : cplx F -> F.
Variable csub cmul : cplx F -> cplx F -> cplx F.
Variable conj : cplx F -> cplx F.
Variable gtz : F -> bool.
Variable split_pol : string -> result (string * string).

Local Abbreviation chisqF :=
  (chisq F Fzero Fone Fadd Fmul cabs csub cmul conj gtz split_pol).
Local Abbreviation chisq_stepF :=
  (chisq_step F Fzero Fone Fadd Fmul cabs csub cmul conj gtz split_pol).

Lemma accumulate_key_nObs {K : Type} (eqb : K -> K -> bool) (k : K)
      (here : list (list F)) (obs : list (list Z))
      (c c' : odict K (list (list F))) (n n' : odict K (list (list Z)))
      (t f : nat) :
  accumulate_key F Fadd eqb k here obs (c, n) = Ok (c', n') ->
  summed Z.add 0 n' t f = sample 0 obs t f + summed Z.add 0 n t f.
Proof.
  unfold accumulate_key. intros H.
  destruct (lookup eqb k c) as [ck|], (lookup eqb k n) as [nk|] eqn:En;
    try discriminate.
  - destruct (zip2d Fadd ck here) as [ck'|]; cbn [bind] in H;
      [|discriminate].
    destruct (zip2d Z.add nk obs) as [nk'|] eqn:Ez; cbn [bind] in H;
      [|discriminate].
    inversion H; subst c' n'.
    apply (summed_setitem_old eqb Z.add 0 Z.add_comm Z.add_assoc
                              k nk' nk _ n t f En).
    apply (sample_zip2d Z.add 0 Z.add_0_l _ _ _ t f Ez).
  - inversion H; subst c' n'.
    apply (summed_setitem_new eqb Z.add 0 Z.add_comm Z.add_assoc
                              k obs n t f En).
Qed.

Lemma chisq_step_raise (data model : odict bl (list (list (cplx F))))
      (w : odict bl (list (list F))) g gf (l : list bl) (e : exn) :
  fold_left (chisq_stepF data model w g gf) l (Raise e) = Raise e.
Proof. induction l as [|b l IH]; [reflexivity|exact IH]. Qed.

(** The loop keeps [sum over antennas of nObs_per_ant = 2 * nObs]. *)
Lemma chisq_loop_nObs (data model : odict bl (list (list (cplx F))))
      (w : odict bl (list (list F))) g gf (t f : nat) (l : list bl) :
  forall c n cpa npa c' n' cpa' npa',
    fold_left (chisq_stepF data model w g gf) l (Ok (c, n, cpa, npa))
    = Ok (c', n', cpa', npa') ->
    summed Z.add 0 npa t f = 2 * sample 0 n t f ->
    summed Z.add 0 npa' t f = 2 * sample 0 n' t f.
Proof.
  induction l as [|b l IH]; intros c n cpa npa c' n' cpa' npa' H Hinv.
  - inversion H; subst. exact Hinv.
  - cbn [fold_left] in H.
    destruct (chisq_stepF data model w g gf (Ok (c, n, cpa, npa)) b)
      as [[[[c1 n1] cpa1] npa1]|e] eqn:Es.
    2: { rewrite chisq_step_raise in H. discriminate. }
    apply (IH _ _ _ _ _ _ _ _ H). clear H IH.
    unfold chisq_step in Es. cbn [bind] in Es.
    destruct (bl_pol b) as [pol|]; cbn [bind] in Es; [|discriminate].
    destruct (split_pol pol) as [ap|]; cbn [bind] in Es; [|discriminate].
    destruct (contains bl_eqb b model && contains bl_eqb b w).
    2: { inversion Es; subst. exact Hinv. }
    destruct (chisq_here _ _ _ _ _ _ _ _ _ _ _ _ _ _ _ _ _)
      as [[here obs]|]; cbn [bind] in Es; [|discriminate].
    destruct (zip2d Fadd c here) as [c2|]; cbn [bind] in Es; [|discriminate].
    destruct (zip2d Z.add n obs) as [n2|] eqn:En; cbn [bind] in Es;
      [|discriminate].
    destruct (accumulate_key F Fadd gkey_eqb _ here obs (cpa, npa))
      as [[cpa2 npa2]|] eqn:E1; cbn [bind] in Es; [|discriminate].
    destruct (accumulate_key F Fadd gkey_eqb _ here obs (cpa2, npa2))
      as [[cpa3 npa3]|] eqn:E2; cbn [bind] in Es; [|discriminate].
    inversion Es; subst c1 n1 cpa1 npa1. cbn [fst snd].
    rewrite (accumulate_key_nObs _ _ _ _ _ _ _ _ t f E2).
    rewrite (accumulate_key_nObs _ _ _ _ _ _ _ _ t f E1).
    rewrite (sample_zip2d Z.add 0 Z.add_0_l _ _ _ t f En).
    lia.
Qed.

Lemma sample_zeros {A : Type} (a : list (list A)) (t f : nat) :
  sample 0 (map (map (fun _ => 0)) a) t f = 0.
Proof.
  unfold sample. rewrite get2_map. now destruct (get2 a t f).
Qed.

(** X15: when [chisq] builds its own accumulators, at every time and
    channel the counts of [nObs_per_ant], summed over the antennas, are
    twice the count of [nObs]: each comparison is counted once for each of
    the two antennas of its baseline. *)
Theorem chisq_nObs_per_ant_sum
        (data model : odict bl (list (list (cplx F))))
        (data_wgts : option (odict bl (list (list F))))
        (gains : option (odict gkey (list (list (cplx F)))))
        (gain_flags : option (odict gkey (list (list bool))))
        (reds : option (list (list bl)))
        (c : list (list F)) (n : list (list Z))
        (cpa : odict gkey (list (list F))) (npa : odict gkey (list (list Z))) :
  chisqF data model data_wgts gains gain_flags reds None None None None
  = Ok (c, n, cpa, npa) ->
  forall t f, summed Z.add 0 npa t f = 2 * sample 0 n t f.
Proof.
  unfold chisq. cbn [both_or_none bind]. intros H t f.
  destruct (first_value data) as [d0|]; cbn [bind fst snd] in H;
    [|discriminate].
  destruct (expand_model F data model reds) as [m|]; cbn [bind] in H;
    [|discriminate].
  apply (chisq_loop_nObs _ _ _ _ _ t f _ _ _ _ _ _ _ _ _ H).
  rewrite sample_zeros. reflexivity.
Qed.
End ChisqFacts.

(** ** Chi-square: accumulating over parts of the data *)

Section LookupFacts.
Context {K V : Type} (eqb : K -> K -> bool).
Hypothesis eqb_eq : forall a b, eqb a b = true <-> a = b.

Lemma lookup_app (k : K) (d1 d2 : odict K V) :
  lookup eqb k (d1 ++ d2)
  = match lookup eqb k d1 with
    | Some v => Some v
    | None => lookup eqb k d2
    end.
Proof.
  induction d1 as [|[k0 v0] d1 IH]; cbn [app lookup]; [reflexivity|].
  now destruct (eqb k k0).
Qed.

Lemma lookup_absent (k : K) (d : odict K V) :
  ~ In k (keys d) -> lookup eqb k d = None.
Proof.
  intros H. destruct (lookup eqb k d) eqn:E; [|reflexivity].
  exfalso. apply H. apply (lookup_In_keys eqb eqb_eq). congruence.
Qed.

Lemma lookup_map_values {W : Type} (g : V -> W) (k : K) (d : odict K V) :
  lookup eqb k (map (fun kv => (fst kv, g (snd kv))) d)
  = option_map g (lookup eqb k d).
Proof.
  induction d as [|[k0 v0] d IH]; cbn [map lookup fst snd]; [reflexivity|].
  now destruct (eqb k k0).
Qed.

Lemma lookup_filter_key (p : K -> bool) (k : K) (d : odict K V) :
  p k = true ->
  lookup eqb k (filter (fun kv => p (fst kv)) d) = lookup eqb k d.
Proof.
  intros Hp. induction d as [|[k0 v0] d IH]; cbn [filter lookup fst];
    [reflexivity|].
  destruct (p k0) eqn:E0; cbn [lookup].
  - now destruct (eqb k k0).
  - destruct (eqb k k0) eqn:E; [|exact IH].
    apply eqb_eq in E. subst k0. congruence.
Qed.
End LookupFacts.

Section ChisqParts.
Variable F : Type.
Variable Fzero Fone : F.
Variable Fadd Fmul : F -> F -> F.
Variable cabs : cplx F -> F.
Variable csub cmul : cplx F -> cplx F -> cplx F.
Variable conj : cplx F -> cplx F.
Variable gtz : F -> bool.
Variable split_pol : string -> result (string * string).

Local Abbreviation chisqF :=
  (chisq F Fzero Fone Fadd Fmul cabs csub cmul conj gtz split_pol).
Local Abbreviation chisq_stepF :=
  (chisq_step F Fzero Fone Fadd Fmul cabs csub cmul conj gtz split_pol).
Local Abbreviation chisq_splitF :=
  (chisq_split F Fzero Fone Fadd Fmul cabs csub cmul conj gtz split_pol).
Local Abbreviation chisq_split_stepF :=
  (chisq_split_step F Fzero Fone Fadd Fmul cabs csub cmul conj gtz split_pol).
Local Abbreviation vis := (odict bl (list (list (cplx F)))).
Local Abbreviation wgt := (odict bl (list (list F))).

(** A pass of the loop reads [data] and [data_wgts] at its own key only. *)
Lemma chisq_here_ext (data data' model : vis) (w w' : wgt) g gf
      (b : bl) (a1 a2 : gkey) :
  lookup bl_eqb b data = lookup bl_eqb b data' ->
  lookup bl_eqb b w = lookup bl_eqb b w' ->
  chisq_here F Fzero Fone Fmul cabs csub cmul conj gtz data model w g gf
             b a1 a2
  = chisq_here F Fzero Fone Fmul cabs csub cmul conj gtz data' model w' g gf
               b a1 a2.
Proof. intros Hd Hw. unfold chisq_here. now rewrite Hd, Hw. Qed.

Lemma chisq_step_ext (data data' model : vis) (w w' : wgt) g gf acc (b : bl) :
  lookup bl_eqb b data = lookup bl_eqb b data' ->
  lookup bl_eqb b w = lookup bl_eqb b w' ->
  chisq_stepF data model w g gf acc b = chisq_stepF data' model w' g gf acc b.
Proof.
  intros Hd Hw. unfold chisq_step, contains.
  destruct acc as [[[[c n] cpa] npa]|]; cbn [bind]; [|reflexivity].
  destruct (bl_pol b) as [pol|]; cbn [bind]; [|reflexivity].
  destruct (split_pol pol) as [ap|]; cbn [bind]; [|reflexivity].
  rewrite Hw. now rewrite (chisq_here_ext data data' model w w' g gf b _ _ Hd Hw).
Qed.

Lemma chisq_fold_ext (data data' model : vis) (w w' : wgt) g gf
      (l : list bl) :
  (forall b, In b l ->
             lookup bl_eqb b data = lookup bl_eqb b data'
             /\ lookup bl_eqb b w = lookup bl_eqb b w') ->
  forall acc,
    fold_left (chisq_stepF data model w g gf) l acc
    = fold_left (chisq_stepF data' model w' g gf) l acc.
Proof.
  induction l as [|b l IH]; intros H acc; [reflexivity|].
  cbn [fold_left]. destruct (H b (or_introl eq_refl)) as [Hd Hw].
  rewrite (chisq_step_ext data data' model w w' g gf acc b Hd Hw).
  apply IH. intros b' Hb'. apply H. now right.
Qed.

Lemma default_data_wgts_lookup (data : vis) (data_wgts : option wgt) (b : bl) :
  NoDup (keys data) ->
  lookup bl_eqb b (default_data_wgts F Fone data data_wgts)
  = match data_wgts with
    | Some w => lookup bl_eqb b w
    | None => option_map (map (map (fun _ => Fone))) (lookup bl_eqb b data)
    end.
Proof.
  intros Hnd. destruct data_wgts as [w|]; [reflexivity|].
  unfold default_data_wgts. rewrite (odict_of_list_nodup bl_eqb bl_eqb_eq).
  - apply lookup_map_values.
  - rewrite map_map. exact Hnd.
Qed.

(** X17: [chisq] over a dictionary built from two parts is [chisq] over
    the second part started from the four results of [chisq] over the
    first part (handed over as [chisq], [nObs], [chisq_per_ant] and
    [nObs_per_ant]), when no [reds] are given. *)
Theorem chisq_accumulates (d1 d2 model : vis) (data_wgts : option wgt)
        (gains : option (odict gkey (list (list (cplx F)))))
        (gain_flags : option (odict gkey (list (list bool))))
        (c1 : list (list F)) (n1 : list (list Z))
        (cpa1 : odict gkey (list (list F)))
        (npa1 : odict gkey (list (list Z))) :
  NoDup (keys (d1 ++ d2)) ->
  chisqF d1 model data_wgts gains gain_flags None None None None None
  = Ok (c1, n1, cpa1, npa1) ->
  chisqF (d1 ++ d2) model data_wgts gains gain_flags None None None None None
  = chisqF d2 model data_wgts gains gain_flags None
           (Some c1) (Some n1) (Some cpa1) (Some npa1).
Proof.
  intros Hnd H. unfold keys in Hnd. rewrite map_app in Hnd.
  pose proof (NoDup_app_remove_r _ _ Hnd) as Hnd1.
  pose proof (NoDup_app_remove_l _ _ Hnd) as Hnd2.
  assert (Hdis : forall b, In b (keys d2) -> ~ In b (keys d1)).
  { intros b H2 H1. revert H2. clear - Hnd H1. unfold keys in *.
    induction (map fst d1) as [|x l IH]; [destruct H1|].
    cbn [app] in Hnd. inversion Hnd as [|? ? Hx Hl]; subst.
    destruct H1 as [->|H1]; intros H2.
    - apply Hx. apply in_or_app. now right.
    - exact (IH Hl H1 H2). }
  unfold chisq in *. cbn [both_or_none bind expand_model fst snd] in *.
  destruct d1 as [|[k0 v0] d1]; [discriminate|].
  cbn [first_value app bind fst snd] in *.
  change ((k0, v0) :: d1 ++ d2) with (((k0, v0) :: d1) ++ d2).
  set (d := (k0, v0) :: d1) in *.
  unfold keys at 1. rewrite map_app, fold_left_app.
  rewrite (chisq_fold_ext (d ++ d2) d model _
             (default_data_wgts F Fone d data_wgts) gains gain_flags
             (map fst d)).
  - unfold keys in H. rewrite H.
    apply chisq_fold_ext. intros b Hb.
    assert (Hout : lookup bl_eqb b d = None).
    { apply (lookup_absent bl_eqb bl_eqb_eq). exact (Hdis b Hb). }
    split.
    + now rewrite lookup_app, Hout.
    + rewrite !default_data_wgts_lookup;
        [|exact Hnd2|unfold keys; rewrite map_app; exact Hnd].
      destruct data_wgts; [reflexivity|]. now rewrite lookup_app, Hout.
  - intros b Hb. split.
    + rewrite lookup_app.
      destruct (lookup bl_eqb b d) eqn:E; [reflexivity|].
      apply (lookup_In_keys bl_eqb bl_eqb_eq) in Hb. contradiction.
    + rewrite !default_data_wgts_lookup;
        [|exact Hnd1|unfold keys; rewrite map_app; exact Hnd].
      destruct data_wgts; [reflexivity|]. rewrite lookup_app.
      destruct (lookup bl_eqb b d) eqn:E; [reflexivity|].
      apply (lookup_In_keys bl_eqb bl_eqb_eq) in Hb. contradiction.
Qed.
End ChisqParts.

(** ** Chi-square by antenna polarization *)

Section ChisqSplit.
Variable F : Type.
Variable Fzero Fone : F.
Variable Fadd Fmul : F -> F -> F.
Variable cabs : cplx F -> F.
Variable csub cmul : cplx F -> cplx F -> cplx F.
Variable conj : cplx F -> cplx F.
Variable gtz : F -> bool.
Variable split_pol : string -> result (string * string).

Local Abbreviation chisq_splitF :=
  (chisq_split F Fzero Fone Fadd Fmul cabs csub cmul conj gtz split_pol).
Local Abbreviation chisq_split_stepF :=
  (chisq_split_step F Fzero Fone Fadd Fmul cabs csub cmul conj gtz split_pol).
Local Abbreviation vis := (odict bl (list (list (cplx F)))).
Local Abbreviation wgt := (odict bl (list (list F))).

Lemma chisq_split_step_raise (data model : vis) (w : wgt) g gf
      (l : list bl) (e : exn) :
  fold_left (chisq_split_stepF data model w g gf) l (Raise e) = Raise e.
Proof. induction l as [|b l IH]; [reflexivity|exact IH]. Qed.

Lemma chisq_split_step_ext (data data' model : vis) (w w' : wgt) g gf acc
      (b : bl) :
  lookup bl_eqb b data = lookup bl_eqb b data' ->
  lookup bl_eqb b w = lookup bl_eqb b w' ->
  chisq_split_stepF data model w g gf acc b
  = chisq_split_stepF data' model w' g gf acc b.
Proof.
  intros Hd Hw. unfold chisq_split_step, contains.
  destruct acc as [[[[c n] cpa] npa]|]; cbn [bind]; [|reflexivity].
  destruct (bl_pol b) as [pol|]; cbn [bind]; [|reflexivity].
  destruct (split_pol pol) as [ap|]; cbn [bind]; [|reflexivity].
  rewrite Hw.
  now rewrite (chisq_here_ext F Fzero Fone Fmul cabs csub cmul conj gtz
                              data data' model w w' g gf b _ _ Hd Hw).
Qed.

(** A cross-polarized key leaves the four accumulators as they are. *)
Lemma chisq_split_step_cross (data model : vis) (w : wgt) g gf a a' (b : bl) :
  same_antpol split_pol b = false ->
  chisq_split_stepF data model w g gf (Ok a) b = Ok a' -> a' = a.
Proof.
  unfold same_antpol, chisq_split_step. cbn [bind]. intros Hp H.
  destruct a as [[[c n] cpa] npa].
  destruct (bl_pol b) as [pol|]; cbn [bind] in H; [|discriminate].
  destruct (split_pol pol) as [ap|]; cbn [bind] in H; [|discriminate].
  rewrite Hp, andb_false_r in H. now inversion H.
Qed.

Lemma chisq_split_fold_filter (data data' model : vis) (w w' : wgt) g gf
      (l : list bl) :
  (forall b, In b l -> same_antpol split_pol b = true ->
             lookup bl_eqb b data = lookup bl_eqb b data'
             /\ lookup bl_eqb b w = lookup bl_eqb b w') ->
  forall a out,
    fold_left (chisq_split_stepF data model w g gf) l (Ok a) = Ok out ->
    fold_left (chisq_split_stepF data' model w' g gf)
              (filter (same_antpol split_pol) l) (Ok a) = Ok out.
Proof.
  induction l as [|b l IH]; intros Hl a out H; [exact H|].
  cbn [fold_left filter] in *.
  assert (Hl' : forall b', In b' l -> same_antpol split_pol b' = true ->
                           lookup bl_eqb b' data = lookup bl_eqb b' data'
                           /\ lookup bl_eqb b' w = lookup bl_eqb b' w').
  { intros b' Hb'. apply Hl. now right. }
  destruct (chisq_split_stepF data model w g gf (Ok a) b) as [a1|e] eqn:Es.
  2: { rewrite chisq_split_step_raise in H. discriminate. }
  destruct (same_antpol split_pol b) eqn:Ep.
  - cbn [fold_left]. destruct (Hl b (or_introl eq_refl) Ep) as [Hd Hw].
    rewrite <- (chisq_split_step_ext data data' model w w' g gf _ b Hd Hw).
    rewrite Es. exact (IH Hl' a1 out H).
  - apply (chisq_split_step_cross _ _ _ _ _ _ _ _ Ep) in Es. subst a1.
    exact (IH Hl' a out H).
Qed.

Lemma keys_filter_key {V : Type} (p : bl -> bool) (d : odict bl V) :
  keys (filter (fun kv => p (fst kv)) d) = filter p (keys d).
Proof.
  unfold keys. induction d as [|[k v] d IH]; cbn [filter map fst];
    [reflexivity|].
  destruct (p k); cbn [map fst]; now rewrite IH.
Qed.

(** X18: with [split_by_antpol] the cross-polarized visibilities take no
    part: a call that ends normally returns what the same call returns on
    [data] without its cross-polarized keys (no [reds] given). *)
Theorem chisq_split_ignores_cross_pol (data model : vis)
        (data_wgts : option wgt)
        (gains : option (odict gkey (list (list (cplx F)))))
        (gain_flags : option (odict gkey (list (list bool))))
        (chisq0 : option (odict string (list (list F))))
        (nObs0 : option (odict string (list (list Z))))
        (chisq_per_ant0 : option (odict gkey (list (list F))))
        (nObs_per_ant0 : option (odict gkey (list (list Z))))
        (out : chisq_split_out F) :
  NoDup (keys data) ->
  chisq_splitF data model data_wgts gains gain_flags None
               chisq0 nObs0 chisq_per_ant0 nObs_per_ant0 = Ok out ->
  chisq_splitF (filter (fun kv => same_antpol split_pol (fst kv)) data)
               model data_wgts gains gain_flags None
               chisq0 nObs0 chisq_per_ant0 nObs_per_ant0 = Ok out.
Proof.
  intros Hnd H. unfold chisq_split in *.
  destruct (both_or_none chisq0 nObs0 (Ok ([], []))) as [cn|];
    cbn [bind] in *; [|discriminate].
  destruct (both_or_none chisq_per_ant0 nObs_per_ant0 (Ok ([], [])))
    as [pa|]; cbn [bind expand_model] in *; [|discriminate].
  rewrite keys_filter_key.
  apply (chisq_split_fold_filter data _ model
           (default_data_wgts F Fone data data_wgts)); [|exact H].
  intros b Hb Hp. split.
  - symmetry. now apply (lookup_filter_key bl_eqb bl_eqb_eq).
  - rewrite !default_data_wgts_lookup;
      [|rewrite keys_filter_key; now apply NoDup_filter|exact Hnd].
    destruct data_wgts; [reflexivity|].
    now rewrite (lookup_filter_key bl_eqb bl_eqb_eq).
Qed.
End ChisqSplit.

Section ChisqInstances.
Local Open Scope float_scope.

Definition data_three_ants : odict bl (list (list (cplx float))) :=
  [(Bl3 0 1 "xx", [[(3, 0); (1, 1)]]); (Bl3 1 2 "xx", [[(0, 2); (0.5, 0)]])].

Definition data_cross_pol : odict bl (list (list (cplx float))) :=
  [(Bl3 0 1 "xy", [[(2, 0); (0, 7)]])].

Definition model_three_ants : odict bl (list (list (cplx float))) :=
  [(Bl3 0 1 "xx", [[(1, 0); (1, 0)]]); (Bl3 1 2 "xx", [[(0, 1); (0, 0)]]);
   (Bl3 0 1 "xy", [[(0, 0); (0, 0)]])].

Definition wgts_three_ants : odict bl (list (list float)) :=
  [(Bl3 0 1 "xx", [[1; 0]]); (Bl3 1 2 "xx", [[2; 1]]);
   (Bl3 0 1 "xy", [[1; 1]])].

Lemma chisq_nObs_per_ant_sum_witness :
  exists c n cpa npa,
    ChisqFloat64.chisq data_three_ants model_three_ants
                       (Some wgts_three_ants) None None None
                       None None None None = Ok (c, n, cpa, npa)
    /\ forall t f, (summed Z.add 0 npa t f = 2 * sample 0 n t f)%Z.
Proof.
  assert (E : exists out,
             ChisqFloat64.chisq data_three_ants model_three_ants
                                (Some wgts_three_ants) None None None
                                None None None None = Ok out).
  { eexists. vm_compute. reflexivity. }
  destruct E as [[[[c n] cpa] npa] E].
  exists c, n, cpa, npa. split; [exact E|].
  exact (chisq_nObs_per_ant_sum _ _ _ _ _ _ _ _ _ _ _ _ _ _ _ _ _ _ _ _ _ E).
Defined.

Lemma chisq_accumulates_witness :
  exists c1 n1 cpa1 npa1,
    ChisqFloat64.chisq data_cross_pol model_three_ants None None None None
                       None None None None = Ok (c1, n1, cpa1, npa1)
    /\ ChisqFloat64.chisq (data_cross_pol ++ data_three_ants)
                          model_three_ants None None None None
                          None None None None
       = ChisqFloat64.chisq data_three_ants model_three_ants None None None
                            None (Some c1) (Some n1) (Some cpa1) (Some npa1).
Proof.
  assert (E : exists out,
             ChisqFloat64.chisq data_cross_pol model_three_ants None None
                                None None None None None None = Ok out).
  { eexists. vm_compute. reflexivity. }
  destruct E as [[[[c1 n1] cpa1] npa1] E].
  exists c1, n1, cpa1, npa1. split; [exact E|].
  apply chisq_accumulates; [|exact E].
  repeat constructor; cbn; intuition discriminate.
Defined.

Lemma chisq_split_ignores_cross_pol_witness :
  exists out,
    ChisqFloat64.chisq_split (data_cross_pol ++ data_three_ants)
                             model_three_ants (Some wgts_three_ants)
                             None None None None None None None = Ok out
    /\ ChisqFloat64.chisq_split data_three_ants
                                model_three_ants (Some wgts_three_ants)
                                None None None None None None None = Ok out.
Proof.
  assert (E : exists out,
             ChisqFloat64.chisq_split (data_cross_pol ++ data_three_ants)
                                      model_three_ants (Some wgts_three_ants)
                                      None None None None None None None
             = Ok out).
  { eexists. vm_compute. reflexivity. }
  destruct E as [out E]. exists out. split; [exact E|].
  apply (chisq_split_ignores_cross_pol float 0 1 PrimFloat.add PrimFloat.mul
           Libm.cabs ChisqFloat64.csub Float64.cmul ChisqFloat64.conj
           (fun x => 0 <? x) Utils.split_pol) in E.
  - exact E.
  - repeat constructor; cbn; intuition discriminate.
Defined.
End ChisqInstances.

(** * Matching data baselines to model baselines *)

Lemma filter_r_In {A : Type} (p : A -> result bool) (l : list A) :
  forall r,
    filter_r p l = Ok r ->
    forall x, In x r <-> In x l /\ p x = Ok true.
Proof.
  induction l as [|a l IH]; intros r H x; cbn [filter_r] in H.
  - inversion H. cbn. tauto.
  - destruct (p a) as [b|] eqn:Ea; cbn [bind] in H; [|discriminate].
    destruct (filter_r p l) as [r'|]; cbn [bind] in H; [|discriminate].
    inversion H; subst r. specialize (IH r' eq_refl x).
    destruct b; cbn [In]; rewrite IH.
    + split; [intros [->|[H1 H2]]; auto|intros [[->|H1] H2]; auto].
    + split; [intros [H1 H2]; auto|intros [[->|H1] H2]; auto].
      congruence.
Qed.

Module MatchBaselinesFacts.
Import MatchBaselines.

Lemma cut_bl_and_pol_raise (pols : list string) (lo hi : option float)
      (antpos : odict Z vec) (l : list bl) (e : exn) :
  fold_left
    (fun acc b =>
       bls_to_load <- acc ;;
       pol <- bl_pol b ;;
       if mem String.eqb pol pols then
         ants <- UtilsKeys.split_bl b ;;
         p2 <- getitem (lookup Z.eqb (fst (snd ants)) antpos) ;;
         p1 <- getitem (lookup Z.eqb (fst (fst ants)) antpos) ;;
         d <- vsub p2 p1 ;;
         let bl_length := norm d in
         if match lo with
            | None => true
            | Some lo => (lo <=? bl_length)%float
            end
         then if match hi with
                 | None => true
                 | Some hi => (bl_length <=? hi)%float
                 end
              then Ok (bls_to_load ++ [b])
              else Ok bls_to_load
         else Ok bls_to_load
       else Ok bls_to_load)
    l (Raise e) = Raise e.
Proof. induction l as [|b l IH]; [reflexivity|exact IH]. Qed.

(** The cut keeps baselines of the list it is given. *)
Lemma cut_bl_and_pol_In (pols : list string) (lo hi : option float)
      (antpos : odict Z vec) (bls : list bl) (r : list bl) :
  _cut_bl_and_pol pols lo hi bls antpos = Ok r ->
  forall b, In b r -> In b bls.
Proof.
  unfold _cut_bl_and_pol.
  assert (G : forall l acc r,
             fold_left
               (fun acc b =>
                  bls_to_load <- acc ;;
                  pol <- bl_pol b ;;
                  if mem String.eqb pol pols then
                    ants <- UtilsKeys.split_bl b ;;
                    p2 <- getitem (lookup Z.eqb (fst (snd ants)) antpos) ;;
                    p1 <- getitem (lookup Z.eqb (fst (fst ants)) antpos) ;;
                    d <- vsub p2 p1 ;;
                    let bl_length := norm d in
                    if match lo with
                       | None => true
                       | Some lo => (lo <=? bl_length)%float
                       end
                    then if match hi with
                            | None => true
                            | Some hi => (bl_length <=? hi)%float
                            end
                         then Ok (bls_to_load ++ [b])
                         else Ok bls_to_load
                    else Ok bls_to_load
                  else Ok bls_to_load)
               l (Ok acc) = Ok r ->
             forall b, In b r -> In b acc \/ In b l).
  { induction l as [|x l IH]; intros acc r' H b Hb; cbn [fold_left] in H.
    - inversion H; subst. now left.
    - cbn [bind] in H.
      destruct (bl_pol x) as [pol|]; cbn [bind] in H.
      2: { rewrite cut_bl_and_pol_raise in H. discriminate. }
      destruct (mem String.eqb pol pols).
      2: { destruct (IH _ _ H b Hb); [now left|right; now right]. }
      destruct (UtilsKeys.split_bl x) as [ants|]; cbn [bind] in H.
      2: { rewrite cut_bl_and_pol_raise in H. discriminate. }
      destruct (getitem (lookup Z.eqb (fst (snd ants)) antpos));
        cbn [bind] in H.
      2: { rewrite cut_bl_and_pol_raise in H. discriminate. }
      destruct (getitem (lookup Z.eqb (fst (fst ants)) antpos));
        cbn [bind] in H.
      2: { rewrite cut_bl_and_pol_raise in H. discriminate. }
      destruct (vsub a a0) as [d|]; cbn [bind] in H.
      2: { rewrite cut_bl_and_pol_raise in H. discriminate. }
      cbv zeta in H.
      destruct (match lo with Some lo0 => _ | None => true end);
        [destruct (match hi with Some hi0 => _ | None => true end)|];
        destruct (IH _ _ H b Hb) as [Hin|Hin]; auto; try (right; now right).
      apply in_app_or in Hin. destruct Hin as [Hin|[->|[]]]; auto.
      right. now left. }
  intros H b Hb. destruct (G bls [] r H b Hb) as [[]|Hin]. exact Hin.
Qed.

(** The entries of the comprehension over the reversed keys. *)
Lemma reversed_entries (data_bl model_bl : list bl) :
  forall l,
    fold_right
      (fun b acc =>
         r <- Pyuvdata.reverse_bl b ;;
         if mem bl_eqb r model_bl then
           r' <- Pyuvdata.reverse_bl b ;;
           l <- acc ;;
           Ok ((b, r') :: l)
         else acc)
      (Ok []) data_bl = Ok l ->
    forall k v, In (k, v) l <->
                In k data_bl /\ Pyuvdata.reverse_bl k = Ok v
                /\ mem bl_eqb v model_bl = true.
Proof.
  induction data_bl as [|b data_bl IH]; intros l H k v; cbn [fold_right] in H.
  - inversion H. cbn. tauto.
  - destruct (Pyuvdata.reverse_bl b) as [r|] eqn:Er; cbn [bind] in H;
      [|discriminate].
    destruct (mem bl_eqb r model_bl) eqn:Em.
    + cbn [bind] in H.
      destruct (fold_right _ _ data_bl) as [l'|]; cbn [bind] in H;
        [|discriminate].
      inversion H; subst l. cbn [In]. rewrite (IH l' eq_refl).
      split.
      * intros [E|[H1 H2]]; [|tauto]. inversion E; subst. auto.
      * intros [[->|H1] [H2 H3]]; [|tauto].
        left. rewrite Er in H2. now inversion H2.
    + rewrite (IH l H). cbn [In]. split; [tauto|].
      intros [[->|H1] [H2 H3]]; [|tauto].
      rewrite Er in H2. inversion H2; subst. congruence.
Qed.

Lemma in_or_reversed_true (b : bl) (l : list bl) :
  in_or_reversed b l = Ok true <->
  In b l \/ exists r, Pyuvdata.reverse_bl b = Ok r /\ In r l.
Proof.
  unfold in_or_reversed. destruct (mem bl_eqb b l) eqn:Em.
  - apply (mem_In bl_eqb bl_eqb_eq) in Em. tauto.
  - assert (Hn : ~ In b l).
    { intros Hin. apply (mem_In bl_eqb bl_eqb_eq) in Hin. congruence. }
    destruct (Pyuvdata.reverse_bl b) as [r|]; cbn [bind].
    + split.
      * intros H. inversion H as [Hm].
        apply (mem_In bl_eqb bl_eqb_eq) in Hm. right. eauto.
      * intros [Hin|[r' [E Hin]]]; [contradiction|].
        inversion E; subst. apply (mem_In bl_eqb bl_eqb_eq) in Hin.
        now rewrite Hin.
    + split; [discriminate|].
      intros [Hin|[r' [E _]]]; [contradiction|discriminate].
Qed.

Section Full.
Variable get_reds : odict Z vec -> list string -> float
                    -> result (list (list bl)).

(** What the call is made of when neither flag is set. *)
Lemma match_baselines_full_inv (data_bls model_bls : list bl)
      (data_antpos : odict Z vec) (model_antpos : option (odict Z vec))
      (pols : list string) (tol : float) (lo hi : option float)
      (dl ml : list bl) (m : odict bl bl) :
  match_baselines get_reds data_bls model_bls data_antpos model_antpos pols
                  false false tol lo hi = Ok (dl, ml, m) ->
  exists dcut mcut straight reversed,
    (forall b, In b dcut -> In b data_bls)
    /\ (forall b, In b mcut -> In b model_bls)
    /\ (forall b, In b dl <-> In b dcut /\ in_or_reversed b mcut = Ok true)
    /\ (forall b, In b ml <-> In b mcut /\ in_or_reversed b dl = Ok true)
    /\ (forall k v, In (k, v) straight <-> v = k /\ In k dl /\ In k ml)
    /\ (forall k v, In (k, v) reversed <->
                    In k dl /\ Pyuvdata.reverse_bl k = Ok v /\ In v ml)
    /\ m = fold_left (fun d kv => setitem bl_eqb (fst kv) (snd kv) d)
                     reversed (odict_of_list bl_eqb straight).
Proof.
  unfold match_baselines. cbn [andb negb]. intros H.
  destruct (default_pols pols data_bls model_bls) as [ps|]; cbn [bind] in H;
    [|discriminate].
  destruct (_cut_bl_and_pol ps lo hi data_bls data_antpos) as [dcut|] eqn:Ed;
    cbn [bind] in H; [|discriminate].
  destruct (_cut_bl_and_pol ps lo hi model_bls _) as [mcut|] eqn:Em;
    cbn [bind] in H; [|discriminate].
  unfold match_full in H.
  destruct (filter_r _ dcut) as [dl'|] eqn:Edl; cbn [bind] in H;
    [|discriminate].
  destruct (filter_r _ mcut) as [ml'|] eqn:Eml; cbn [bind] in H;
    [|discriminate].
  destruct (fold_right _ _ dl') as [reversed|] eqn:Er; cbn [bind] in H;
    [|discriminate].
  inversion H; subst dl' ml' m. clear H.
  exists dcut, mcut,
    (map (fun b => (b, b)) (filter (fun b => mem bl_eqb b ml) dl)), reversed.
  split; [exact (cut_bl_and_pol_In _ _ _ _ _ _ Ed)|].
  split; [exact (cut_bl_and_pol_In _ _ _ _ _ _ Em)|].
  split; [intros b; apply (filter_r_In _ _ _ Edl)|].
  split; [intros b; apply (filter_r_In _ _ _ Eml)|].
  split; [|split; [|reflexivity]].
  - intros k v. rewrite in_map_iff. split.
    + intros [b [E Hb]]. inversion E; subst. apply filter_In in Hb.
      destruct Hb as [H1 H2]. apply (mem_In bl_eqb bl_eqb_eq) in H2. auto.
    + intros [-> [H1 H2]]. exists k. split; [reflexivity|].
      apply filter_In. split; [exact H1|].
      now apply (mem_In bl_eqb bl_eqb_eq).
  - intros k v. rewrite (reversed_entries _ _ _ Er).
    rewrite (mem_In bl_eqb bl_eqb_eq). tauto.
Qed.

(** X19: for full data sets ([data_is_redsol] and [model_is_redundant]
    both false), [match_baselines] loads only baselines it was given, and
    [data_to_model_bl_map] sends a data baseline to load to a model
    baseline to load that is the same key or its [reverse_bl]. *)
Theorem match_baselines_map_sound (data_bls model_bls : list bl)
        (data_antpos : odict Z vec) (model_antpos : option (odict Z vec))
        (pols : list string) (tol : float) (lo hi : option float)
        (dl ml : list bl) (m : odict bl bl) :
  match_baselines get_reds data_bls model_bls data_antpos model_antpos pols
                  false false tol lo hi = Ok (dl, ml, m) ->
  (forall b, In b dl -> In b data_bls)
  /\ (forall b, In b ml -> In b model_bls)
  /\ forall k v, lookup bl_eqb k m = Some v ->
                 In k dl /\ In v ml
                 /\ (v = k \/ Pyuvdata.reverse_bl k = Ok v).
Proof.
  intros H.
  destruct (match_baselines_full_inv _ _ _ _ _ _ _ _ _ _ _ H)
    as (dcut & mcut & straight & reversed
        & Hd & Hm & Hdl & Hml & Hs & Hr & ->).
  split; [|split].
  - intros b Hb. apply Hd. now apply Hdl.
  - intros b Hb. apply Hm. now apply Hml.
  - intros k v Hkv. apply (lookup_In bl_eqb bl_eqb_eq) in Hkv.
    apply (In_fold_setitem bl_eqb bl_eqb_eq) in Hkv.
    destruct Hkv as [Hkv|Hkv].
    + apply (In_odict_of_list bl_eqb bl_eqb_eq) in Hkv. apply Hs in Hkv.
      destruct Hkv as [-> [H1 H2]]. auto.
    + apply Hr in Hkv. tauto.
Qed.

(** X20: when reversing twice gives back every data baseline (its
    polarization string is in the form [reverse_bl] writes), every data
    baseline to load is a key of [data_to_model_bl_map]. *)
Theorem match_baselines_map_complete (data_bls model_bls : list bl)
        (data_antpos : odict Z vec) (model_antpos : option (odict Z vec))
        (pols : list string) (tol : float) (lo hi : option float)
        (dl ml : list bl) (m : odict bl bl) :
  (forall b, In b data_bls -> Pyuvdata.reverse_bl_twice b = Ok b) ->
  match_baselines get_reds data_bls model_bls data_antpos model_antpos pols
                  false false tol lo hi = Ok (dl, ml, m) ->
  forall b, In b dl -> lookup bl_eqb b m <> None.
Proof.
  intros Hinv H.
  destruct (match_baselines_full_inv _ _ _ _ _ _ _ _ _ _ _ H)
    as (dcut & mcut & straight & reversed
        & Hd & Hm & Hdl & Hml & Hs & Hr & ->).
  intros b Hb.
  apply (lookup_odict_of_list bl_eqb bl_eqb_eq).
  destruct (proj1 (Hdl b) Hb) as [Hcut Hin].
  apply in_or_reversed_true in Hin. destruct Hin as [Hin|[r [Er Hin]]].
  - right. apply (lookup_odict_of_list bl_eqb bl_eqb_eq). left.
    change b with (fst (b, b)). apply in_map. apply Hs.
    repeat split; [exact Hb|]. apply Hml. split; [exact Hin|].
    apply in_or_reversed_true. now left.
  - left. change b with (fst (b, r)). apply in_map. apply Hr.
    repeat split; [exact Hb|exact Er|]. apply Hml. split; [exact Hin|].
    apply in_or_reversed_true. right. exists b. split; [|exact Hb].
    specialize (Hinv b (Hd b Hcut)).
    unfold Pyuvdata.reverse_bl_twice, reverse_bl_twice in Hinv.
    unfold Pyuvdata.reverse_bl in Er. rewrite Er in Hinv. exact Hinv.
Qed.
End Full.
End MatchBaselinesFacts.

Section MatchBaselinesInstances.
Import MatchBaselines.
Local Open Scope float_scope.

Definition antpos_line : odict Z vec :=
  [(0%Z, [0; 0; 0]); (1%Z, [14; 0; 0]); (2%Z, [28; 0; 0])].

Definition data_bls_line : list bl :=
  [Bl3 0 1 "xx"; Bl3 1 2 "xx"; Bl3 0 2 "xx"].

Definition model_bls_line : list bl := [Bl3 1 0 "xx"; Bl3 1 2 "xx"].

(** No redundancies are asked for when both flags are false. *)
Definition no_reds (antpos : odict Z vec) (pols : list string) (tol : float)
  : result (list (list bl)) := Ok [].

Lemma match_baselines_line :
  match_baselines no_reds data_bls_line model_bls_line antpos_line None []
                  false false 1 None (Some 20)
  = Ok ([Bl3 0 1 "xx"; Bl3 1 2 "xx"], [Bl3 1 0 "xx"; Bl3 1 2 "xx"],
        [(Bl3 1 2 "xx", Bl3 1 2 "xx"); (Bl3 0 1 "xx", Bl3 1 0 "xx")]).
Proof. vm_compute. reflexivity. Qed.

Lemma match_baselines_map_sound_witness :
  match_baselines no_reds data_bls_line model_bls_line antpos_line None []
                  false false 1 None (Some 20)
  = Ok ([Bl3 0 1 "xx"; Bl3 1 2 "xx"], [Bl3 1 0 "xx"; Bl3 1 2 "xx"],
        [(Bl3 1 2 "xx", Bl3 1 2 "xx"); (Bl3 0 1 "xx", Bl3 1 0 "xx")])
  /\ (forall b, In b [Bl3 0 1 "xx"; Bl3 1 2 "xx"] -> In b data_bls_line)
  /\ (forall b, In b [Bl3 1 0 "xx"; Bl3 1 2 "xx"] -> In b model_bls_line)
  /\ forall k v,
      lookup bl_eqb k
             [(Bl3 1 2 "xx", Bl3 1 2 "xx"); (Bl3 0 1 "xx", Bl3 1 0 "xx")]
      = Some v ->
      In k [Bl3 0 1 "xx"; Bl3 1 2 "xx"]
      /\ In v [Bl3 1 0 "xx"; Bl3 1 2 "xx"]
      /\ (v = k \/ Pyuvdata.reverse_bl k = Ok v).
Proof.
  split; [exact match_baselines_line|].
  exact (MatchBaselinesFacts.match_baselines_map_sound
           no_reds _ _ _ _ _ _ _ _ _ _ _ match_baselines_line).
Defined.

Lemma match_baselines_map_complete_witness :
  (forall b, In b data_bls_line -> Pyuvdata.reverse_bl_twice b = Ok b)
  /\ forall b, In b [Bl3 0 1 "xx"; Bl3 1 2 "xx"] ->
               lookup bl_eqb b
                      [(Bl3 1 2 "xx", Bl3 1 2 "xx");
                       (Bl3 0 1 "xx", Bl3 1 0 "xx")]
               <> None.
Proof.
  assert (Hinv : forall b, In b data_bls_line ->
                           Pyuvdata.reverse_bl_twice b = Ok b).
  { intros b [<-|[<-|[<-|[]]]]; vm_compute; reflexivity. }
  split; [exact Hinv|].
  exact (MatchBaselinesFacts.match_baselines_map_complete
           no_reds data_bls_line model_bls_line antpos_line None []
           1 None (Some 20) _ _ _ Hinv match_baselines_line).
Defined.
End MatchBaselinesInstances.

(** * Relative differences of gains *)

Section GainDiffFacts.
Local Open Scope float_scope.
Variable np_abs : cplx float -> float.
Variable uninitialized : gkey -> nat -> nat -> float.

Local Abbreviation gains := (odict gkey (list (list (cplx float)))).
Local Abbreviation gain_relative_differenceF :=
  (gain_relative_difference np_abs uninitialized).
Local Abbreviation relative_diff_ofF :=
  (relative_diff_of np_abs uninitialized).

Lemma relative_diff_loop_raise (old_gains denom : gains) (l : gains)
      (e : exn) :
  fold_left (fun acc kv =>
               rd <- acc ;;
               r <- relative_diff_ofF old_gains denom (fst kv) (snd kv) ;;
               Ok (setitem gkey_eqb (fst kv) r rd))
            l (Raise e) = Raise e.
Proof. induction l as [|kv l IH]; [reflexivity|exact IH]. Qed.

(** The first loop does not get past a key whose denominator holds a
    zero. *)
Lemma relative_diff_loop_zero (old_gains denom : gains) (ant : gkey)
      (a : list (list (cplx float))) :
  lookup gkey_eqb ant denom = Some a ->
  existsb (existsb c_is_zero) a = true ->
  forall (l : gains) rd,
    In ant (keys l) ->
    exists e,
      fold_left (fun acc kv =>
                   rd <- acc ;;
                   r <- relative_diff_ofF old_gains denom (fst kv) (snd kv) ;;
                   Ok (setitem gkey_eqb (fst kv) r rd))
                l (Ok rd) = Raise e.
Proof.
  intros Ha Hz. induction l as [|[k g] l IH]; intros rd Hin; [destruct Hin|].
  cbn [fold_left bind fst snd].
  destruct (relative_diff_ofF old_gains denom k g) as [r|e] eqn:Er;
    cbn [bind].
  - destruct Hin as [Hk|Hin]; [|exact (IH _ Hin)].
    cbn [fst] in Hk. subst k. unfold relative_diff_of in Er.
    rewrite Ha in Er. cbn [getitem bind] in Er. rewrite Hz in Er.
    discriminate.
  - exists e. apply relative_diff_loop_raise.
Qed.

(** X21: [gain_relative_difference] never returns when the denominator of
    one of the antennas of [new_gains] holds a sample equal to 0, flagged
    or not: the assertion then indexes the dictionary [flags] with an
    array, and the call ends with an exception. *)
Theorem gain_relative_difference_zero_denominator
        (old_gains new_gains : gains) (flags : odict gkey (list (list bool)))
        (denom : option gains) (ant : gkey) (a : list (list (cplx float))) :
  In ant (keys new_gains) ->
  lookup gkey_eqb ant (match denom with
                       | None => old_gains
                       | Some d => d
                       end) = Some a ->
  existsb (existsb c_is_zero) a = true ->
  exists e,
    gain_relative_differenceF old_gains new_gains flags denom = Raise e.
Proof.
  intros Hin Ha Hz. unfold gain_relative_difference. cbv zeta.
  destruct (relative_diff_loop_zero old_gains _ ant a Ha Hz new_gains [] Hin)
    as [e He].
  exists e.
  match goal with
  | |- bind ?x ?k = _ => assert (Hx : x = Raise e) by exact He; rewrite Hx
  end.
  reflexivity.
Qed.

(** A sample that is absent or nan. *)
Definition nan_or_absent (x : list (list float)) (t f : nat) : Prop :=
  match get2 x t f with
  | Some v => PrimFloat.is_nan v = true
  | None => True
  end.

Lemma flag_nan_flagged (a a' : list (list float)) (m : list (list bool))
      (t f : nat) :
  flag_nan a m = Ok a' -> get2 m t f = Some true -> nan_or_absent a' t f.
Proof.
  unfold flag_nan, nan_or_absent. intros H Hm.
  destruct (zip2d _ a m) as [r|] eqn:Ez; [|discriminate].
  inversion H; subst a'. rewrite (zip2d_ok _ _ _ _ Ez), Hm.
  now destruct (get2 a t f).
Qed.

Lemma In_setitem_other {K V : Type} (eqb : K -> K -> bool)
      (eqb_eq : forall a b, eqb a b = true <-> a = b)
      (k e : K) (v a : V) (d : odict K V) :
  NoDup (keys d) ->
  In (e, a) (setitem eqb k v d) ->
  (e, a) = (k, v) \/ (e <> k /\ In (e, a) d).
Proof.
  induction d as [|[k0 v0] d IH]; cbn [setitem keys map fst In]; intros Hnd.
  - intros [H|[]]. left. now symmetry.
  - inversion Hnd as [|? ? Hout Hnd']; subst.
    destruct (eqb k k0) eqn:E; cbn [In].
    + apply eqb_eq in E. subst k0. intros [H|H]; [left; now symmetry|].
      right. split; [|now right]. intros ->. apply Hout.
      change k with (fst (k, a)). now apply in_map.
    + intros [H|H].
      * right. split; [|now left]. inversion H; subst. intros ->.
        rewrite (proj2 (eqb_eq k k) eq_refl) in E. discriminate.
      * destruct (IH Hnd' H) as [H'|[H1 H2]]; [now left|].
        right. split; [exact H1|now right].
Qed.

Lemma NoDup_keys_odict_of_list {K V : Type} (eqb : K -> K -> bool)
      (eqb_eq : forall a b, eqb a b = true <-> a = b) (l : list (K * V)) :
  NoDup (keys (odict_of_list eqb l)).
Proof.
  unfold odict_of_list.
  assert (G : forall d : odict K V,
             NoDup (keys d) ->
             NoDup (keys (fold_left
                            (fun d kv => setitem eqb (fst kv) (snd kv) d)
                            l d))).
  { induction l as [|kv l IH]; intros d Hd; [exact Hd|].
    cbn [fold_left]. apply IH.
    now apply (TimeMapFacts.NoDup_keys_setitem eqb eqb_eq). }
  apply G. constructor.
Qed.

(** The loop that writes nan under the flags. *)
Lemma flag_loop_raise (flags : odict gkey (list (list bool)))
      (l : list gkey) (e : exn) :
  fold_left (fun acc ant =>
               d <- acc ;;
               a <- getitem (lookup gkey_eqb ant d) ;;
               f <- getitem (lookup gkey_eqb ant flags) ;;
               a' <- flag_nan a f ;;
               Ok (setitem gkey_eqb ant a' d))
            l (Raise e) = Raise e.
Proof. induction l as [|k l IH]; [reflexivity|exact IH]. Qed.

Lemma flag_loop_flagged (flags : odict gkey (list (list bool)))
      (t f : nat) (l : list gkey) :
  (forall ant fl, In ant l -> lookup gkey_eqb ant flags = Some fl ->
                  get2 fl t f = Some true) ->
  forall d d',
    NoDup (keys d) ->
    fold_left (fun acc ant =>
                 d <- acc ;;
                 a <- getitem (lookup gkey_eqb ant d) ;;
                 f <- getitem (lookup gkey_eqb ant flags) ;;
                 a' <- flag_nan a f ;;
                 Ok (setitem gkey_eqb ant a' d))
              l (Ok d) = Ok d' ->
    (forall k x, In (k, x) d -> In k l \/ nan_or_absent x t f) ->
    forall k x, In (k, x) d' -> nan_or_absent x t f.
Proof.
  induction l as [|ant l IH]; intros Hfl d d' Hnd H Hd k x Hin.
  - inversion H; subst d'. destruct (Hd k x Hin) as [[]|Hq]. exact Hq.
  - cbn [fold_left bind] in H.
    destruct (getitem (lookup gkey_eqb ant d)) as [a|] eqn:Ea;
      cbn [bind] in H.
    2: { rewrite flag_loop_raise in H. discriminate. }
    destruct (getitem (lookup gkey_eqb ant flags)) as [fl|] eqn:Ef;
      cbn [bind] in H.
    2: { rewrite flag_loop_raise in H. discriminate. }
    destruct (flag_nan a fl) as [a'|] eqn:En; cbn [bind] in H.
    2: { rewrite flag_loop_raise in H. discriminate. }
    apply (IH (fun ant' fl' Hin' => Hfl ant' fl' (or_intror Hin')) _ _
              (TimeMapFacts.NoDup_keys_setitem gkey_eqb gkey_eqb_eq
                 ant a' d Hnd) H) with (k := k); [|exact Hin].
    intros k' x' Hin'.
    apply (In_setitem_other gkey_eqb gkey_eqb_eq _ _ _ _ _ Hnd) in Hin'.
    destruct Hin' as [E|[Hne Hin']].
    + inversion E; subst k' x'. right.
      apply (flag_nan_flagged _ _ _ _ _ En).
      apply (Hfl ant fl (or_introl eq_refl)).
      unfold getitem in Ef. destruct (lookup gkey_eqb ant flags);
        [now inversion Ef|discriminate].
    + destruct (Hd k' x' Hin') as [[E|Hl]|Hq].
      * now symmetry in E.
      * now left.
      * now right.
Qed.

(** [np.nanmean] where every array holds nan: 0 over 0. *)
Lemma nanmean_axis0_all_nan (arrays : list (list (list float)))
      (avg : list (list float)) (t f : nat) :
  nanmean_axis0 arrays = Ok avg ->
  (forall x, In x arrays -> nan_or_absent x t f) ->
  nan_or_absent avg t f.
Proof.
  unfold nanmean_axis0. destruct arrays as [|a rest]; [discriminate|].
  intros H Hq.
  set (arr := map (map (fun x => if PrimFloat.is_nan x then 0 else x))) in *.
  set (unmasked :=
         map (map (fun x => if PrimFloat.is_nan x then 0%Z else 1%Z))) in *.
  assert (Harr : forall x, nan_or_absent x t f ->
                           get2 (arr x) t f = None
                           \/ get2 (arr x) t f = Some 0).
  { intros x Hx. unfold arr, nan_or_absent in *. rewrite get2_map.
    destruct (get2 x t f) as [v|]; [|now left].
    right. cbn [option_map]. now rewrite Hx. }
  assert (Hun : forall x, nan_or_absent x t f ->
                          get2 (unmasked x) t f = None
                          \/ get2 (unmasked x) t f = Some 0%Z).
  { intros x Hx. unfold unmasked, nan_or_absent in *. rewrite get2_map.
    destruct (get2 x t f) as [v|]; [|now left].
    right. cbn [option_map]. now rewrite Hx. }
  assert (Htot : forall l s0 s,
             (forall x, In x l -> nan_or_absent x t f) ->
             (get2 s0 t f = None \/ get2 s0 t f = Some 0) ->
             fold_left (fun acc b => s <- acc ;; zip2d PrimFloat.add s (arr b))
                       l (Ok s0) = Ok s ->
             get2 s t f = None \/ get2 s t f = Some 0).
  { induction l as [|b l IH]; intros s0 s Hl Hs0 Hs.
    - inversion Hs; subst. exact Hs0.
    - cbn [fold_left bind] in Hs.
      destruct (zip2d PrimFloat.add s0 (arr b)) as [s1|e] eqn:Ez.
      2: { exfalso. clear - Hs. induction l as [|c l IHl];
             [discriminate|exact (IHl Hs)]. }
      apply (IH s1 s (fun x Hx => Hl x (or_intror Hx))); [|exact Hs].
      rewrite (zip2d_ok _ _ _ _ Ez).
      destruct Hs0 as [-> | ->]; [now left|].
      destruct (Harr b (Hl b (or_introl eq_refl))) as [-> | ->];
        [now left|right; reflexivity]. }
  assert (Hcnt : forall l s0 s,
             (forall x, In x l -> nan_or_absent x t f) ->
             (get2 s0 t f = None \/ get2 s0 t f = Some 0%Z) ->
             fold_left (fun acc b => s <- acc ;; zip2d Z.add s (unmasked b))
                       l (Ok s0) = Ok s ->
             get2 s t f = None \/ get2 s t f = Some 0%Z).
  { induction l as [|b l IH]; intros s0 s Hl Hs0 Hs.
    - inversion Hs; subst. exact Hs0.
    - cbn [fold_left bind] in Hs.
      destruct (zip2d Z.add s0 (unmasked b)) as [s1|e] eqn:Ez.
      2: { exfalso. clear - Hs. induction l as [|c l IHl];
             [discriminate|exact (IHl Hs)]. }
      apply (IH s1 s (fun x Hx => Hl x (or_intror Hx))); [|exact Hs].
      rewrite (zip2d_ok _ _ _ _ Ez).
      destruct Hs0 as [-> | ->]; [now left|].
      destruct (Hun b (Hl b (or_introl eq_refl))) as [-> | ->];
        [now left|right; reflexivity]. }
  destruct (fold_left _ rest (Ok (arr a))) as [tot|] eqn:Et; cbn [bind] in H;
    [|discriminate].
  destruct (fold_left _ rest (Ok (unmasked a))) as [cnt|] eqn:Ec;
    cbn [bind] in H; [|discriminate].
  unfold nan_or_absent. rewrite (zip2d_ok _ _ _ _ H).
  destruct (Htot rest (arr a) tot (fun x Hx => Hq x (or_intror Hx))
                 (Harr a (Hq a (or_introl eq_refl))) Et) as [-> | ->];
    [exact I|].
  destruct (Hcnt rest (unmasked a) cnt (fun x Hx => Hq x (or_intror Hx))
                 (Hun a (Hq a (or_introl eq_refl))) Ec) as [-> | ->];
    [exact I|].
  reflexivity.
Qed.

(** The average of one polarization at a sample flagged for all of its
    antennas. *)
Lemma avg_relative_diff_of_flagged (new_gains : gains)
      (flags : odict gkey (list (list bool)))
      (rd : odict gkey (list (list float))) (pol : string)
      (a : list (list float)) (t f : nat) :
  avg_relative_diff_of new_gains flags rd pol = Ok a ->
  (forall ant fl, In ant (keys new_gains) -> snd ant = pol ->
                  lookup gkey_eqb ant flags = Some fl ->
                  get2 fl t f = Some true) ->
  forall v, get2 a t f = Some v -> v = 0.
Proof.
  unfold avg_relative_diff_of. intros H Hfl v Hv.
  destruct (sequence _) as [diffs0|] eqn:Es; cbn [bind] in H; [|discriminate].
  destruct (fold_left _ _ (Ok (odict_of_list gkey_eqb diffs0)))
    as [diffs|] eqn:Ef; cbn [bind] in H; [|discriminate].
  destruct (nanmean_axis0 (map snd diffs)) as [avg|] eqn:En; cbn [bind] in H;
    [|discriminate].
  inversion H; subst a. clear H. rewrite get2_map in Hv.
  assert (Hkeys : forall k x, In (k, x) diffs0 ->
                              In k (keys new_gains) /\ snd k = pol).
  { intros k x Hin. apply sequence_inv in Es.
    apply (in_map Ok) in Hin. rewrite <- Es in Hin.
    apply in_map_iff in Hin. destruct Hin as [ant [E Hant]].
    apply filter_In in Hant. destruct Hant as [Hk Hp].
    apply String.eqb_eq in Hp.
    destruct (getitem (lookup gkey_eqb ant rd)); cbn [bind] in E;
      [|discriminate].
    inversion E as [[Ek Ex]]. rewrite <- Ek. split; [exact Hk|exact Hp]. }
  assert (Hkeys' : forall k, In k (keys (odict_of_list gkey_eqb diffs0)) ->
                              In k (keys new_gains) /\ snd k = pol).
  { intros k Hk. apply in_map_iff in Hk. destruct Hk as [[k' x] [E Hin]].
    cbn [fst] in E. subst k'.
    apply (In_odict_of_list gkey_eqb gkey_eqb_eq) in Hin.
    exact (Hkeys k x Hin). }
  assert (Hq : nan_or_absent avg t f).
  { apply (nanmean_axis0_all_nan _ _ _ _ En). intros x Hx.
    apply in_map_iff in Hx. destruct Hx as [[k x'] [E Hin]].
    cbn [snd] in E. subst x'.
    apply (flag_loop_flagged flags t f _
             (fun ant fl Hant Hl =>
                Hfl ant fl (proj1 (Hkeys' ant Hant))
                    (proj2 (Hkeys' ant Hant)) Hl)
             _ _ (NoDup_keys_odict_of_list gkey_eqb gkey_eqb_eq diffs0) Ef)
      with (k := k); [|exact Hin].
    intros k0 x0 Hin0. left.
    change k0 with (fst (k0, x0)). now apply in_map. }
  unfold nan_or_absent in Hq.
  destruct (get2 avg t f) as [w|]; [|discriminate].
  cbn [option_map] in Hv. inversion Hv; subst v.
  unfold Float64.isfinite. rewrite Hq. reflexivity.
Qed.

Lemma avg_loop_raise (new_gains : gains)
      (flags : odict gkey (list (list bool)))
      (rd : odict gkey (list (list float))) (l : list string) (e : exn) :
  fold_left (fun acc pol =>
               av <- acc ;;
               a <- avg_relative_diff_of new_gains flags rd pol ;;
               Ok (setitem String.eqb pol a av))
            l (Raise e) = Raise e.
Proof. induction l as [|p l IH]; [reflexivity|exact IH]. Qed.

Lemma avg_loop_In (new_gains : gains) (flags : odict gkey (list (list bool)))
      (rd : odict gkey (list (list float))) (l : list string) :
  forall av av',
    fold_left (fun acc pol =>
                 av <- acc ;;
                 a <- avg_relative_diff_of new_gains flags rd pol ;;
                 Ok (setitem String.eqb pol a av))
              l (Ok av) = Ok av' ->
    forall pol a, In (pol, a) av' ->
                  In (pol, a) av
                  \/ avg_relative_diff_of new_gains flags rd pol = Ok a.
Proof.
  induction l as [|p l IH]; intros av av' H pol a Hin.
  - inversion H; subst. now left.
  - cbn [fold_left bind] in H.
    destruct (avg_relative_diff_of new_gains flags rd p) as [ap|] eqn:Ep;
      cbn [bind] in H.
    2: { rewrite avg_loop_raise in H. discriminate. }
    destruct (IH _ _ H pol a Hin) as [Hin'|Hr]; [|now right].
    apply (In_setitem String.eqb String.eqb_eq) in Hin'.
    destruct Hin' as [E|Hin']; [|now left].
    inversion E; subst. now right.
Qed.

(** X22: when [gain_relative_difference] returns, a sample of
    [avg_relative_diff] at which every antenna of the polarization is
    flagged holds 0. *)
Theorem gain_relative_difference_flagged_pixel
        (old_gains new_gains : gains) (flags : odict gkey (list (list bool)))
        (denom : option gains)
        (relative_diff : odict gkey (list (list float)))
        (avg_relative_diff : odict string (list (list float)))
        (pol : string) (a : list (list float)) (t f : nat) :
  gain_relative_differenceF old_gains new_gains flags denom
  = Ok (relative_diff, avg_relative_diff) ->
  lookup String.eqb pol avg_relative_diff = Some a ->
  (forall ant fl, In ant (keys new_gains) -> snd ant = pol ->
                  lookup gkey_eqb ant flags = Some fl ->
                  get2 fl t f = Some true) ->
  forall v, get2 a t f = Some v -> v = 0.
Proof.
  unfold gain_relative_difference. cbv zeta. intros H Ha Hfl.
  match type of H with
  | bind ?x _ = _ => destruct x as [rd|]; cbn [bind] in H; [|discriminate]
  end.
  match type of H with
  | bind ?x _ = _ =>
      destruct x as [av|] eqn:Eav; cbn [bind] in H; [|discriminate]
  end.
  inversion H; subst rd av. clear H.
  apply (lookup_In String.eqb String.eqb_eq) in Ha.
  destruct (avg_loop_In _ _ _ _ _ _ Eav pol a Ha) as [[]|Hr].
  exact (avg_relative_diff_of_flagged _ _ _ _ _ t f Hr Hfl).
Qed.
End GainDiffFacts.

Section GainDiffInstances.
Local Open Scope float_scope.

(** The memory of a fresh array, here zeros. *)
Definition fresh_zeros (ant : gkey) (t f : nat) : float := 0.

Definition old_gains_two : odict gkey (list (list (cplx float))) :=
  [((0%Z, "Jxx"%string), [[(1, 0); (2, 0)]]);
   ((1%Z, "Jxx"%string), [[(1, 0); (0, 1)]])].

Definition new_gains_two : odict gkey (list (list (cplx float))) :=
  [((0%Z, "Jxx"%string), [[(1, 1); (1, 0)]]);
   ((1%Z, "Jxx"%string), [[(3, 0); (0, 2)]])].

Definition flags_two : odict gkey (list (list bool)) :=
  [((0%Z, "Jxx"%string), [[true; false]]);
   ((1%Z, "Jxx"%string), [[true; true]])].

(** A denominator with a flagged zero. *)
Definition denom_zero : odict gkey (list (list (cplx float))) :=
  [((0%Z, "Jxx"%string), [[(0, 0); (2, 0)]]);
   ((1%Z, "Jxx"%string), [[(1, 0); (0, 1)]])].

Lemma gain_relative_difference_zero_denominator_witness :
  exists e,
    gain_relative_difference Libm.cabs fresh_zeros old_gains_two new_gains_two
                             flags_two (Some denom_zero) = Raise e.
Proof.
  apply (gain_relative_difference_zero_denominator
           Libm.cabs fresh_zeros old_gains_two new_gains_two flags_two
           (Some denom_zero) (0%Z, "Jxx"%string) [[(0, 0); (2, 0)]]).
  - left. reflexivity.
  - reflexivity.
  - reflexivity.
Defined.

Lemma gain_relative_difference_flagged_pixel_witness :
  exists relative_diff avg_relative_diff a,
    gain_relative_difference Libm.cabs fresh_zeros old_gains_two new_gains_two
                             flags_two None
    = Ok (relative_diff, avg_relative_diff)
    /\ lookup String.eqb "Jxx"%string avg_relative_diff = Some a
    /\ forall v, get2 a 0 0 = Some v -> v = 0.
Proof.
  do 3 eexists. split; [vm_compute; reflexivity|].
  split; [vm_compute; reflexivity|].
  eapply (gain_relative_difference_flagged_pixel
            Libm.cabs fresh_zeros old_gains_two new_gains_two flags_two None
            _ _ "Jxx"%string _ 0 0).
  - vm_compute. reflexivity.
  - vm_compute. reflexivity.
  - intros ant fl [<-|[<-|[]]] _ E; vm_compute in E; inversion E; reflexivity.
Defined.
End GainDiffInstances.

(** * Rephasing a model onto the LSTs of the data *)

Lemma zipw_length {X Y Z : Type} (f : X -> Y -> Z) (a : list X) :
  forall (b : list Y) (r : list Z),
    zipw f a b = Ok r -> List.length r = List.length a.
Proof.
  induction a as [|x a IH]; intros [|y b] r H; cbn [zipw] in H;
    try discriminate.
  - now inversion H.
  - destruct (zipw f a b) as [r'|] eqn:E; cbn [bind] in H; [|discriminate].
    inversion H; subst. cbn [List.length]. f_equal. exact (IH b r' E).
Qed.

Section RephaseVisFacts.
Local Open Scope float_scope.
Variable np_sin np_cos : float -> float.
Variable cexp : cplx float -> cplx float.
Variable c_value : float.

Local Abbreviation flag_dict := (odict bl (list (list bool))).
Local Abbreviation rephase_visF := (rephase_vis np_sin np_cos cexp c_value).

Lemma take_rows_spec {A : Type} (a : list (list A)) (lst_nn : list nat)
      (r : list (list A)) :
  take_rows a lst_nn = Ok r ->
  List.length r = List.length lst_nn
  /\ forall i nn, nth_error lst_nn i = Some nn ->
                  exists row, nth_error r i = Some row
                              /\ nth_error a nn = Some row.
Proof.
  unfold take_rows. intros H.
  destruct (sequence_map_nth _ _ _ H) as [Hl Hn].
  split; [exact Hl|]. intros i nn Hi.
  destruct (Hn i nn Hi) as [row [Hr Hg]]. exists row. split; [exact Hr|].
  unfold getitem_list in Hg. destruct (nth_error a nn); [|discriminate].
  now inversion Hg.
Qed.

Lemma flag_rows_spec (f f' : list (list bool)) (flag_lst : list bool) :
  flag_rows f flag_lst = Ok f' ->
  List.length f' = List.length f
  /\ List.length f = List.length flag_lst
  /\ forall i row', nth_error f' i = Some row' ->
                    exists row b,
                      nth_error f i = Some row
                      /\ nth_error flag_lst i = Some b
                      /\ row' = if b : bool then map (fun _ => true) row
                                else row.
Proof.
  unfold flag_rows. intros H.
  destruct (zipw _ f flag_lst) as [r|] eqn:E; [|discriminate].
  inversion H; subst f'. destruct (zipw_ok _ _ _ _ E) as [Hl Hn].
  split; [exact (zipw_length _ _ _ _ E)|]. split; [exact Hl|].
  intros i row' Hi. rewrite Hn in Hi.
  destruct (nth_error f i) as [row|]; [|discriminate].
  destruct (nth_error flag_lst i) as [b|]; [|discriminate].
  exists row, b. repeat split. now inversion Hi.
Qed.

(** What a waterfall of new flags holds, row by row: [flags0] are the
    flags passed in. *)
Definition rows_flagged (flags0 : option flag_dict) (lst_nn : list nat)
           (flag_lst : list bool) (k : bl) (fl : list (list bool)) : Prop :=
  List.length fl = List.length lst_nn
  /\ forall i row,
      nth_error fl i = Some row ->
      exists nn b,
        nth_error lst_nn i = Some nn
        /\ nth_error flag_lst i = Some b
        /\ if b : bool then forallb (fun x => x) row = true
           else match flags0 with
                | None => forallb negb row = true
                | Some f0 => exists fk, lookup bl_eqb k f0 = Some fk
                                        /\ nth_error fk nn = Some row
                end.

Lemma forallb_all_true (row : list bool) :
  forallb (fun x => x) (map (fun _ => true) row) = true.
Proof. induction row as [|x row IH]; [reflexivity|exact IH]. Qed.

Lemma zeros_rows {A : Type} (m : list (list A)) (i : nat) (row : list bool) :
  nth_error (map (map (fun _ => false)) m) i = Some row ->
  forallb negb row = true.
Proof.
  rewrite nth_error_map. destruct (nth_error m i) as [r|]; [|discriminate].
  cbn [option_map]. intros H. inversion H. clear.
  induction r as [|x r IH]; [reflexivity|exact IH].
Qed.

(** The state the loop keeps with respect to the flags passed in and to
    the keys already visited. *)
Definition vis_inv (inplace : bool) (flags0 : option flag_dict)
           (lst_nn : list nat) (flag_lst : list bool) (done : list bl)
           (s : vis_state) : Prop :=
  (forall k, In k done ->
             exists fl, lookup bl_eqb k (vs_new_flags s) = Some fl
                        /\ rows_flagged flags0 lst_nn flag_lst k fl)
  /\ match flags0 with
     | None => vs_flags s = None
     | Some f0 =>
         exists f', vs_flags s = Some f'
                    /\ (inplace = true -> f' = vs_new_flags s)
                    /\ forall k, ~ In k done ->
                                 lookup bl_eqb k f' = lookup bl_eqb k f0
     end.

Lemma vis_step_inv (inplace : bool) (flags0 : option flag_dict)
      (lst_nn : list nat) (flag_lst : list bool) (done : list bl)
      (s s' : vis_state) (k : bl) (h h' : heap float) :
  ~ In k done ->
  vis_inv inplace flags0 lst_nn flag_lst done s ->
  vis_step inplace lst_nn flag_lst s k h = (h', Ok s') ->
  vis_inv inplace flags0 lst_nn flag_lst (done ++ [k]) s'.
Proof.
  intros Hk [Hdone Hfl] H. unfold vis_step in H.
  apply mbind_ok in H. destruct H as (l & h1 & _ & H).
  apply mbind_ok in H. destruct H as (a & h2 & _ & H).
  apply mbind_ok in H. destruct H as (m & h3 & Hm & H).
  apply lift_ok in Hm. destruct Hm as [_ Hm].
  apply mbind_ok in H. destruct H as (lm & h4 & _ & H).
  apply mbind_ok in H. destruct H as (f & h5 & Hf & H).
  apply lift_ok in Hf. destruct Hf as [_ Hf].
  apply mbind_ok in H. destruct H as (f' & h6 & Hf' & H).
  apply lift_ok in Hf'. destruct Hf' as [_ Hf'].
  apply ret_ok in H. destruct H as [_ ->]. cbn [vs_new_flags vs_flags].
  destruct (flag_rows_spec _ _ _ Hf') as (Hl1 & Hl2 & Hrows).
  assert (Hnew : rows_flagged flags0 lst_nn flag_lst k f').
  { destruct flags0 as [f0|].
    - destruct Hfl as (fs & Efs & _ & Hsame). rewrite Efs in Hf.
      destruct (getitem (lookup bl_eqb k fs)) as [fk|] eqn:Efk;
        cbn [bind] in Hf; [|discriminate].
      destruct (take_rows_spec _ _ _ Hf) as [Hlen Hrow].
      split; [congruence|]. intros i row' Hi.
      destruct (Hrows i row' Hi) as (row & b & Hr & Hb & ->).
      assert (Hi' : (i < List.length lst_nn)%nat).
      { rewrite <- Hlen. apply nth_error_Some. congruence. }
      destruct (nth_error lst_nn i) as [nn|] eqn:Enn.
      2: { apply nth_error_None in Enn. lia. }
      exists nn, b. repeat split; [exact Hb|].
      destruct b; [apply forallb_all_true|].
      exists fk. split.
      + rewrite <- (Hsame k Hk). unfold getitem in Efk.
        destruct (lookup bl_eqb k fs); [now inversion Efk|discriminate].
      + destruct (Hrow i nn Enn) as (row0 & Hr0 & Hfk). congruence.
    - rewrite Hfl in Hf. inversion Hf; subst f. clear Hf.
      assert (Hlen : List.length (as_complex float 0 m)
                     = List.length lst_nn).
      { unfold take_rows_harr in Hm. destruct a as [x|x].
        - destruct (take_rows x lst_nn) as [r|] eqn:Er; cbn [bind] in Hm;
            [|discriminate].
          inversion Hm; subst m. cbn [as_complex]. rewrite length_map.
          exact (proj1 (take_rows_spec _ _ _ Er)).
        - destruct (take_rows x lst_nn) as [r|] eqn:Er; cbn [bind] in Hm;
            [|discriminate].
          inversion Hm; subst m. cbn [as_complex].
          exact (proj1 (take_rows_spec _ _ _ Er)). }
      split; [rewrite Hl1, length_map; exact Hlen|]. intros i row' Hi.
      destruct (Hrows i row' Hi) as (row & b & Hr & Hb & ->).
      assert (Hi' : (i < List.length lst_nn)%nat).
      { rewrite <- Hlen, <- (length_map (map (fun _ => false))).
        apply nth_error_Some. congruence. }
      destruct (nth_error lst_nn i) as [nn|] eqn:Enn.
      2: { apply nth_error_None in Enn. lia. }
      exists nn, b. repeat split; [exact Hb|].
      destruct b; [apply forallb_all_true|].
      exact (zeros_rows _ _ _ Hr). }
  unfold vis_inv. cbn [vs_new_flags vs_flags]. split.
  - intros k' Hk'. apply in_app_or in Hk'.
    rewrite (lookup_setitem bl_eqb bl_eqb_eq).
    destruct (bl_eqb k' k) eqn:E.
    + apply bl_eqb_eq in E. subst k'. exists f'. split; [reflexivity|].
      exact Hnew.
    + destruct Hk' as [Hk'|[<-|[]]]; [exact (Hdone k' Hk')|].
      rewrite (proj2 (bl_eqb_eq k k) eq_refl) in E. discriminate.
  - destruct flags0 as [f0|].
    + destruct Hfl as (fs & Efs & Hal & Hsame). rewrite Efs.
      destruct inplace.
      * eexists. split; [reflexivity|]. split; [reflexivity|].
        intros k' Hk'. rewrite (lookup_setitem bl_eqb bl_eqb_eq).
        destruct (bl_eqb k' k) eqn:E.
        -- apply bl_eqb_eq in E. subst k'. exfalso. apply Hk'.
           apply in_or_app. right. now left.
        -- rewrite <- (Hal eq_refl). apply Hsame. intros Hin. apply Hk'.
           apply in_or_app. now left.
      * exists fs. split; [reflexivity|]. split; [discriminate|].
        intros k' Hk'. apply Hsame. intros Hin. apply Hk'.
        apply in_or_app. now left.
    + rewrite Hfl. reflexivity.
Qed.

Lemma vis_loop_inv (inplace : bool) (flags0 : option flag_dict)
      (lst_nn : list nat) (flag_lst : list bool) (ks : list bl) :
  forall (done : list bl) (s s' : vis_state) (h h' : heap float),
    NoDup (done ++ ks) ->
    vis_inv inplace flags0 lst_nn flag_lst done s ->
    vis_loop inplace lst_nn flag_lst ks s h = (h', Ok s') ->
    vis_inv inplace flags0 lst_nn flag_lst (done ++ ks) s'.
Proof.
  induction ks as [|k ks IH]; intros done s s' h h' Hnd Hinv H.
  - apply ret_ok in H. destruct H as [_ ->]. now rewrite app_nil_r.
  - cbn [vis_loop] in H. apply mbind_ok in H.
    destruct H as (s1 & h1 & Hs & H).
    assert (Hk : ~ In k done).
    { intros Hin. apply NoDup_remove_2 in Hnd. apply Hnd.
      apply in_or_app. now left. }
    pose proof (vis_step_inv _ _ _ _ _ _ _ _ _ _ Hk Hinv Hs) as Hinv1.
    change (k :: ks) with ([k] ++ ks). rewrite app_assoc.
    apply (IH (done ++ [k]) s1 s' h1 h'); [|exact Hinv1|exact H].
    rewrite <- app_assoc. exact Hnd.
Qed.

(** X23: when [rephase_vis] returns, [new_flags] holds for every key of
    [model] a waterfall with one row per data LST (unwrapped); the row of
    a data LST that is farther than [max_dlst] from its nearest model LST
    is flagged in every channel, and any other row is the row of [flags]
    at the nearest model LST (unflagged in every channel without
    [flags]). *)
Theorem rephase_vis_flags (model : container)
        (model_lsts data_lsts : list float) (bls : odict bl (list float))
        (freqs : list float) (inplace : bool) (flags : option flag_dict)
        (max_dlst latitude : float) (h h' : heap float)
        (lsts : list float) (new_model : container) (new_flags : flag_dict) :
  NoDup (keys model) ->
  rephase_visF model model_lsts data_lsts bls freqs inplace flags max_dlst
               latitude h = (h', Ok (lsts, new_model, new_flags)) ->
  TimeMap.unwrap_lsts data_lsts = Ok lsts
  /\ forall k, In k (keys model) ->
       exists fl,
         lookup bl_eqb k new_flags = Some fl
         /\ List.length fl = List.length lsts
         /\ forall i row,
             nth_error fl i = Some row ->
             exists x nn ml,
               nth_error lsts i = Some x
               /\ TimeMap.nearest model_lsts x = Ok nn
               /\ nth_error model_lsts nn = Some ml
               /\ if max_dlst <? PrimFloat.abs (x - ml)
                  then forallb (fun b => b) row = true
                  else match flags with
                       | None => forallb negb row = true
                       | Some f0 =>
                           exists fk, lookup bl_eqb k f0 = Some fk
                                      /\ nth_error fk nn = Some row
                       end.
Proof.
  intros Hnd H. unfold rephase_vis in H.
  apply mbind_ok in H. destruct H as (dl & h1 & Hdl & H).
  apply lift_ok in Hdl. destruct Hdl as [_ Hdl].
  apply mbind_ok in H. destruct H as (lst_nn & h2 & Hnn & H).
  apply lift_ok in Hnn. destruct Hnn as [_ Hnn].
  apply mbind_ok in H. destruct H as (dlst & h3 & Hd & H).
  apply lift_ok in Hd. destruct Hd as [_ Hd].
  cbv zeta in H.
  apply mbind_ok in H. destruct H as (s & h4 & Hs & H).
  apply mbind_ok in H. destruct H as (r & h5 & _ & H).
  apply ret_ok in H. destruct H as [_ H]. inversion H; subst lsts new_flags.
  clear H. split; [exact Hdl|].
  set (flag_lst := map (fun d => max_dlst <? PrimFloat.abs d) dlst) in *.
  assert (Hinv0 : vis_inv inplace flags lst_nn flag_lst []
                    (mkVis model flags (if inplace then model else [])
                           match flags with
                           | Some fl => if inplace then fl else []
                           | None => []
                           end)).
  { split; [intros k []|]. cbn [vs_flags vs_new_flags].
    destruct flags as [f0|]; [|reflexivity].
    exists f0. split; [reflexivity|]. split; [|reflexivity].
    intros ->. reflexivity. }
  pose proof (vis_loop_inv inplace flags lst_nn flag_lst (keys model) []
                _ _ _ _ Hnd Hinv0 Hs) as [Hdone _].
  destruct (sequence_map_nth _ _ _ Hnn) as [Hlnn Hnear].
  unfold dlst_of in Hd.
  destruct (sequence (map (getitem_list model_lsts) lst_nn)) as [ml|] eqn:Eml;
    cbn [bind] in Hd; [|discriminate].
  destruct (sequence_map_nth _ _ _ Eml) as [Hlml Hml].
  destruct (zipw_ok _ _ _ _ Hd) as [_ Hdn].
  intros k Hk. destruct (Hdone k Hk) as (fl & Efl & Hlen & Hrows).
  exists fl. split; [exact Efl|]. split; [congruence|].
  intros i row Hi.
  destruct (Hrows i row Hi) as (nn & b & Enn & Eb & Hb).
  assert (Hx : exists x, nth_error dl i = Some x).
  { destruct (nth_error dl i) as [x|] eqn:Ex; [eauto|].
    apply nth_error_None in Ex.
    assert (nth_error lst_nn i <> None) by congruence.
    apply nth_error_Some in H. lia. }
  destruct Hx as [x Ex].
  destruct (Hnear i x Ex) as (nn' & Enn' & Hnear').
  assert (nn' = nn) by congruence. subst nn'.
  destruct (Hml i nn Enn) as (mlv & Emlv & Hg).
  unfold getitem_list in Hg.
  destruct (nth_error model_lsts nn) as [mv|] eqn:Emv; [|discriminate].
  inversion Hg; subst mlv.
  exists x, nn, mv. split; [exact Ex|]. split; [exact Hnear'|].
  split; [first [exact Emv|reflexivity]|].
  unfold flag_lst in Eb. rewrite nth_error_map, Hdn, Ex, Emlv in Eb.
  cbn [option_map] in Eb. inversion Eb; subst b. exact Hb.
Qed.
End RephaseVisFacts.

Section RephaseVisInstance.
Local Open Scope float_scope.

Definition model_one_key : container := [(Bl3 0 1 "xx", 0%nat)].

Definition heap_one_key : heap float :=
  [CArr [[(1, 0); (0, 1)]; [(2, 0); (0, 2)]; [(3, 0); (0, 3)]]].

Definition flags_one_key : odict bl (list (list bool)) :=
  [(Bl3 0 1 "xx", [[false; true]; [false; false]; [true; true]])].

Definition bls_one_key_east : odict bl (list float) :=
  [(Bl3 0 1 "xx", [14; 0; 0])].

Lemma rephase_vis_flags_witness :
  exists h' lsts new_model new_flags,
    rephase_vis Libm.sin Libm.cos Libm.cexp 299792458
                model_one_key [0.5; 1; 1.5] [0.5; 1.25] bls_one_key_east
                [100000000; 110000000] false (Some flags_one_key)
                0.125 (-30.75) heap_one_key
    = (h', Ok (lsts, new_model, new_flags))
    /\ TimeMap.unwrap_lsts [0.5; 1.25] = Ok lsts
    /\ forall k, In k (keys model_one_key) ->
         exists fl,
           lookup bl_eqb k new_flags = Some fl
           /\ List.length fl = List.length lsts
           /\ forall i row,
               nth_error fl i = Some row ->
               exists x nn ml,
                 nth_error lsts i = Some x
                 /\ TimeMap.nearest [0.5; 1; 1.5] x = Ok nn
                 /\ nth_error [0.5; 1; 1.5] nn = Some ml
                 /\ if 0.125 <? PrimFloat.abs (x - ml)
                    then forallb (fun b => b) row = true
                    else exists fk,
                        lookup bl_eqb k flags_one_key = Some fk
                        /\ nth_error fk nn = Some row.
Proof.
  assert (E : exists out h',
             rephase_vis Libm.sin Libm.cos Libm.cexp 299792458
                         model_one_key [0.5; 1; 1.5] [0.5; 1.25]
                         bls_one_key_east [100000000; 110000000] false
                         (Some flags_one_key) 0.125 (-30.75) heap_one_key
             = (h', Ok out)).
  { do 2 eexists. vm_compute. reflexivity. }
  destruct E as ([[lsts new_model] new_flags] & h' & E).
  exists h', lsts, new_model, new_flags. split; [exact E|].
  apply (rephase_vis_flags Libm.sin Libm.cos Libm.cexp 299792458
           model_one_key [0.5; 1; 1.5] [0.5; 1.25] bls_one_key_east
           [100000000; 110000000] false (Some flags_one_key) 0.125 (-30.75)
           heap_one_key h' lsts new_model new_flags); [|exact E].
  repeat constructor. intros [].
Defined.
End RephaseVisInstance.
